(** * Real-time library (librtlcpp): ring buffer, hash map, smart pointers

    A shallow embedding of [ring_buffer.cpp], [map.hpp], [vector.hpp],
    [utility.hpp], [hash.hpp], [memory.hpp] and [object_pool.hpp], followed
    by the properties proved about them. *)

From Stdlib Require Import ZArith Lia Bool.
From stdpp Require Import base numbers list.

(** ** Machine integers

    [uint32_t] values are integers in [0, 2^32); arithmetic wraps. *)

Module U32.
Local Open Scope Z_scope.

Definition modulus : Z := 2 ^ 32.
Definition wrap (z : Z) : Z := z mod modulus.
Definition add (a b : Z) : Z := wrap (a + b).
Definition sub (a b : Z) : Z := wrap (a - b).
Definition mul (a b : Z) : Z := wrap (a * b).
Definition in_range (z : Z) : Prop := 0 <= z < modulus.

End U32.

(** ** ring_buffer.cpp *)

Module RingBuffer.
Local Open Scope Z_scope.

Definition byte := Z.

(** One [memcpy] out of the caller's [input] array: the offset it starts at
    and the number of bytes it reads. *)
Record access := Access { acc_off : Z; acc_len : Z }.

(** Bytes [off .. off+len) of the caller's array.  Bytes past the end of the
    array are not the caller's; the model reads them as 0 and the access log
    keeps the length that was requested. *)
Definition fetch (p : list byte) (off len : Z) : list byte :=
  (λ i, nth (Z.to_nat off + i) p 0) <$> seq 0 (Z.to_nat len).

(** [memcpy(&buf[off], bs, length bs)]. *)
Definition store (buf : list byte) (off : Z) (bs : list byte) : list byte :=
  take (Z.to_nat off) buf ++ bs ++ drop (Z.to_nat off + length bs) buf.

(** [&buf[off]] for [len] bytes. *)
Definition load (buf : list byte) (off len : Z) : list byte :=
  take (Z.to_nat len) (drop (Z.to_nat off) buf).

Record spsc_ringbuffer := Mk {
  m_buf : list byte;
  m_capacity : Z;
  m_writable_capacity : Z;
  m_read_index : Z;
  m_write_index : Z
}.

(** [spsc_ringbuffer(buf, capacity)] *)
Definition make (buf : list byte) (capacity : Z) : spsc_ringbuffer :=
  {| m_buf := buf;
     m_capacity := capacity;
     m_writable_capacity := if capacity >? 0 then U32.sub capacity 1 else 0;
     m_read_index := 0;
     m_write_index := 0 |}.

Definition set_write (rb : spsc_ringbuffer) (buf : list byte) (w : Z) :=
  {| m_buf := buf;
     m_capacity := m_capacity rb;
     m_writable_capacity := m_writable_capacity rb;
     m_read_index := m_read_index rb;
     m_write_index := w |}.

Definition set_read (rb : spsc_ringbuffer) (r : Z) :=
  {| m_buf := m_buf rb;
     m_capacity := m_capacity rb;
     m_writable_capacity := m_writable_capacity rb;
     m_read_index := r;
     m_write_index := m_write_index rb |}.

Definition writable_capacity (rb : spsc_ringbuffer) : Z := m_writable_capacity rb.

Definition empty (rb : spsc_ringbuffer) : bool :=
  m_read_index rb =? m_write_index rb.

Definition get_bytes_written (rb : spsc_ringbuffer) (write_index read_index : Z) : Z :=
  if write_index >=? read_index then U32.sub write_index read_index
  else
    let bytes_written := U32.add (U32.sub (m_writable_capacity rb) read_index) 1 in
    U32.add bytes_written write_index.

Definition approx_size (rb : spsc_ringbuffer) : Z :=
  get_bytes_written rb (m_write_index rb) (m_read_index rb).

Definition approx_free_bytes (rb : spsc_ringbuffer) : Z :=
  U32.sub (m_writable_capacity rb) (approx_size rb).

(** [priv_write]: the new backing bytes and the reads made of [input]. *)
Definition priv_write (rb : spsc_ringbuffer) (input : list byte)
    (amt_bytes_to_write write_index read_index : Z) : list byte * list access :=
  if write_index >=? read_index then
    let until_end_of_buffer :=
      U32.add (U32.sub (m_writable_capacity rb) write_index) 1 in
    let from_beginning_of_buffer :=
      if until_end_of_buffer >? amt_bytes_to_write then 0
      else U32.sub amt_bytes_to_write until_end_of_buffer in
    let b1 := store (m_buf rb) write_index (fetch input 0 until_end_of_buffer) in
    let b2 := store b1 0 (fetch input until_end_of_buffer from_beginning_of_buffer) in
    (b2, [Access 0 until_end_of_buffer;
          Access until_end_of_buffer from_beginning_of_buffer])
  else
    (store (m_buf rb) write_index (fetch input 0 amt_bytes_to_write),
     [Access 0 amt_bytes_to_write]).

(** [write_bytes(input, sz)]; [input = None] is [nullptr]. *)
Definition write_bytes (rb : spsc_ringbuffer) (input : option (list byte)) (sz : Z)
    : Z * spsc_ringbuffer * list access :=
  match input with
  | None => (0, rb, [])
  | Some inp =>
    let sz := if sz >? m_writable_capacity rb then m_writable_capacity rb else sz in
    if sz =? 0 then (0, rb, [])
    else
      let write_index := m_write_index rb in
      let read_index := m_read_index rb in
      let bytes_written := get_bytes_written rb write_index read_index in
      let space_left := U32.sub (m_writable_capacity rb) bytes_written in
      let amt_bytes_to_write := Z.min sz space_left in
      let '(buf, log) := priv_write rb inp amt_bytes_to_write write_index read_index in
      (amt_bytes_to_write,
       set_write rb buf (U32.add write_index sz mod m_capacity rb),
       log)
  end.

(** [write(input, sz)] *)
Definition write (rb : spsc_ringbuffer) (input : option (list byte)) (sz : Z)
    : bool * spsc_ringbuffer * list access :=
  if sz >? m_writable_capacity rb then (false, rb, [])
  else if sz =? 0 then (true, rb, [])
  else
    match input with
    | None => (false, rb, [])
    | Some inp =>
      let write_index := m_write_index rb in
      let read_index := m_read_index rb in
      let bytes_written := get_bytes_written rb write_index read_index in
      let space_left := U32.sub (m_writable_capacity rb) bytes_written in
      if sz >? space_left then (false, rb, [])
      else
        let amt_bytes_to_write := Z.min sz space_left in
        let '(buf, log) := priv_write rb inp amt_bytes_to_write write_index read_index in
        (true,
         set_write rb buf (U32.add write_index sz mod m_capacity rb),
         log)
    end.

(** [read(output, max_read)]; [output_valid = false] is [nullptr].  The second
    component is what the two [memcpy] calls store at [output], in order. *)
Definition read (rb : spsc_ringbuffer) (output_valid : bool) (max_read : Z)
    : Z * list byte * spsc_ringbuffer :=
  if negb output_valid then (0, [], rb)
  else
    let max_read :=
      if max_read >? m_writable_capacity rb then m_writable_capacity rb else max_read in
    if max_read =? 0 then (0, [], rb)
    else
      let write_index := m_write_index rb in
      let read_index := m_read_index rb in
      let bytes_written := get_bytes_written rb write_index read_index in
      let amt_bytes_to_read := Z.min max_read bytes_written in
      let out :=
        if write_index >=? read_index then load (m_buf rb) read_index amt_bytes_to_read
        else
          let until_end_of_buffer :=
            U32.add (U32.sub (m_writable_capacity rb) read_index) 1 in
          let from_beginning_of_buffer :=
            if until_end_of_buffer >? amt_bytes_to_read then 0
            else U32.sub amt_bytes_to_read until_end_of_buffer in
          load (m_buf rb) read_index until_end_of_buffer
            ++ load (m_buf rb) 0 from_beginning_of_buffer in
      (amt_bytes_to_read, out,
       set_read rb (U32.add read_index amt_bytes_to_read mod m_capacity rb)).

(** [alloc_contig(&sz, &end_of_buffer)]: the offset of the returned pointer in
    [m_buf], and the values of [*sz] and [*end_of_buffer_ptr] on return. *)
Definition alloc_contig (rb : spsc_ringbuffer) (sz : Z) (end_of_buffer_in : bool)
    : Z * Z * bool :=
  let requested_size := sz in
  let write_index := m_write_index rb in
  let read_index := m_read_index rb in
  let '(largest_contiguous_block_size, end_of_buffer) :=
    if write_index >=? read_index then
      let l := U32.sub (m_writable_capacity rb) write_index in
      if negb (read_index =? 0) then (U32.add l 1, true) else (l, false)
    else (U32.sub (U32.sub read_index write_index) 1, false) in
  if largest_contiguous_block_size <? requested_size
  then (write_index, largest_contiguous_block_size, end_of_buffer)
  else (write_index, sz, end_of_buffer_in).

Record alloc_result := AllocResult {
  first_buf : option Z;
  first_buf_sz : Z;
  second_buf : option Z;
  second_buf_sz : Z;
  write_ahead_of_read : bool
}.

Definition compound_alloc_contig (rb : spsc_ringbuffer) : alloc_result :=
  let write_index := m_write_index rb in
  let read_index := m_read_index rb in
  let ahead := write_index >=? read_index in
  let bytes_written := get_bytes_written rb write_index read_index in
  let free_bytes := U32.sub (m_writable_capacity rb) bytes_written in
  let largest_contiguous_block_size :=
    if write_index >=? read_index then
      let l := U32.sub (m_writable_capacity rb) write_index in
      if negb (read_index =? 0) then U32.add l 1 else l
    else U32.sub (U32.sub read_index write_index) 1 in
  if largest_contiguous_block_size =? 0 then AllocResult None 0 None 0 ahead
  else
    let free_bytes := U32.sub free_bytes largest_contiguous_block_size in
    if free_bytes =? 0
    then AllocResult (Some write_index) largest_contiguous_block_size None 0 ahead
    else AllocResult (Some write_index) largest_contiguous_block_size
                     (Some 0) free_bytes ahead.

Definition commit_write (rb : spsc_ringbuffer) (sz : Z) : spsc_ringbuffer :=
  if sz =? 0 then rb
  else set_write rb (m_buf rb) (U32.add (m_write_index rb) sz mod m_capacity rb).

Definition read_contig (rb : spsc_ringbuffer) (out_sz : Z) (end_of_buffer_in : bool)
    : Z * Z * bool :=
  let requested_size := out_sz in
  let write_index := m_write_index rb in
  let read_index := m_read_index rb in
  let '(largest_contiguous_block_size, end_of_buffer) :=
    if write_index >=? read_index then (U32.sub write_index read_index, false)
    else (U32.add (U32.sub (m_writable_capacity rb) read_index) 1, true) in
  if largest_contiguous_block_size <? requested_size
  then (read_index, largest_contiguous_block_size, end_of_buffer)
  else (read_index, out_sz, end_of_buffer_in).

Definition commit_read (rb : spsc_ringbuffer) (sz : Z) : spsc_ringbuffer :=
  if sz =? 0 then rb
  else set_read rb (U32.add (m_read_index rb) sz mod m_capacity rb).

(** The bytes a consumer has still to read, oldest first. *)
Definition contents (rb : spsc_ringbuffer) : list byte :=
  if m_write_index rb >=? m_read_index rb
  then load (m_buf rb) (m_read_index rb) (m_write_index rb - m_read_index rb)
  else load (m_buf rb) (m_read_index rb) (m_capacity rb - m_read_index rb)
         ++ load (m_buf rb) 0 (m_write_index rb).

(** A buffer built by the constructor over [capacity] bytes and driven through
    its member functions keeps both indices inside the backing array. *)
Record wf (rb : spsc_ringbuffer) : Prop := {
  wf_cap : 0 < m_capacity rb < U32.modulus;
  wf_wcap : m_writable_capacity rb = m_capacity rb - 1;
  wf_read : 0 <= m_read_index rb < m_capacity rb;
  wf_write : 0 <= m_write_index rb < m_capacity rb;
  wf_buf : Z.of_nat (length (m_buf rb)) = m_capacity rb
}.

(** The highest offset of [input] touched by a logged access. *)
Definition input_extent (log : list access) : Z :=
  foldr (fun a acc => if acc_len a >? 0 then Z.max (acc_off a + acc_len a) acc else acc)
        0 log.

(** The states a program can bring a ring buffer into: built over a backing
    array of [capacity] bytes, then driven through its member functions. *)
Inductive reachable : spsc_ringbuffer → Prop :=
  | reach_make buf capacity :
      Z.of_nat (length buf) = capacity → 0 < capacity < U32.modulus →
      reachable (make buf capacity)
  | reach_write rb input sz :
      reachable rb → U32.in_range sz → reachable (write rb input sz).1.2
  | reach_write_bytes rb input sz :
      reachable rb → U32.in_range sz → reachable (write_bytes rb input sz).1.2
  | reach_read rb output_valid max_read :
      reachable rb → U32.in_range max_read → reachable (read rb output_valid max_read).2
  | reach_commit_write rb sz :
      reachable rb → U32.in_range sz → reachable (commit_write rb sz)
  | reach_commit_read rb sz :
      reachable rb → U32.in_range sz → reachable (commit_read rb sz).

(** The contiguous region as the specification words it, with the capacity
    of the backing array. *)
Definition spec_contig_region (rb : spsc_ringbuffer) : Z :=
  if m_write_index rb >=? m_read_index rb
  then m_capacity rb - m_write_index rb + (if m_read_index rb >? 0 then 1 else 0)
  else m_read_index rb - m_write_index rb - 1.

(** The contiguous region counted from the writable capacity. *)
Definition contig_region (rb : spsc_ringbuffer) : Z :=
  if m_write_index rb >=? m_read_index rb
  then m_writable_capacity rb - m_write_index rb + (if m_read_index rb >? 0 then 1 else 0)
  else m_read_index rb - m_write_index rb - 1.

(** The region that starts at the write index stops at the end of the
    backing array. *)
Definition reaches_physical_end (rb : spsc_ringbuffer) : bool :=
  m_write_index rb + contig_region rb =? m_capacity rb.

(** The scenario of the [CompoundAlloc] test: a buffer over 8 bytes and an
    input array of ten bytes. *)
Definition scenario_input : option (list byte) := Some (replicate 10 1).
Definition scenario_rb : spsc_ringbuffer := make (replicate 8 0) 8.

Definition after_write (rb : spsc_ringbuffer) (n : Z) : spsc_ringbuffer :=
  (write rb scenario_input n).1.2.
Definition after_read (rb : spsc_ringbuffer) (n : Z) : spsc_ringbuffer :=
  (read rb true n).2.

(** The producer's own [memcpy(ptr, bs, length bs)] through a pointer
    [ptr = &m_buf[off]] that [alloc_contig] or [compound_alloc_contig]
    returned: it changes the backing array and nothing else. *)
Definition poke (rb : spsc_ringbuffer) (off : Z) (bs : list byte) : spsc_ringbuffer :=
  set_write rb (store (m_buf rb) off bs) (m_write_index rb).

(** The stored bytes that lie in one piece from the read index on. *)
Definition readable_region (rb : spsc_ringbuffer) : Z :=
  if m_write_index rb >=? m_read_index rb
  then m_write_index rb - m_read_index rb
  else m_capacity rb - m_read_index rb.

End RingBuffer.

(** ** utility.hpp *)

Module Utility.
Local Open Scope Z_scope.

Definition power_of_two_primes : list Z :=
  [2; 2; 5; 11; 17; 37;
   67; 131; 257; 521; 1031; 2053;
   4099; 8209; 16411; 32771; 65537; 131101;
   262147; 524309; 1048583; 2097169; 4194319; 8388617;
   16777259; 33554467; 67108879; 134217757; 268435459; 536870923;
   1073741827; 2147483659].

Definition get_prime_power_of_2 (n : nat) : Z :=
  if (32 <=? n)%nat then 0 else nth n power_of_two_primes 0.

(** Trial division, to check the table: no [k] from [d] on with
    [k * k <= p] divides [p]; [false] when [fuel] rounds were not enough. *)
Fixpoint no_divisor (fuel : nat) (d p : Z) : bool :=
  match fuel with
  | O => false
  | S fuel' =>
    if p <? d * d then true
    else if p mod d =? 0 then false
    else no_divisor fuel' (d + 1) p
  end.

Definition is_prime (p : Z) : bool := (1 <? p) && no_divisor (Z.to_nat 65536) 2 p.

End Utility.

(** ** hash.hpp *)

Module Hash.
Local Open Scope Z_scope.

Definition FNV1A_32_PRIME : Z := 16777619.
Definition FNV1A_32_OFFSET : Z := 2166136261.

(** [fnv1a(buffer, sz)] over the bytes of the buffer. *)
Definition fnv1a (buf : list Z) : Z :=
  fold_left (fun rval b => U32.mul (Z.lxor rval b) FNV1A_32_PRIME) buf FNV1A_32_OFFSET.

(** The object representation of a [uint32_t] on a little-endian target. *)
Definition bytes_of_u32 (k : Z) : list Z :=
  [k mod 256; (k / 256) mod 256; (k / 65536) mod 256; (k / 16777216) mod 256].

(** [rtl::hash<uint32_t>] *)
Definition hash_u32 (k : Z) : Z := fnv1a (bytes_of_u32 k).

(** [fnv1a(const char* str)] on the memory at [str], each [char] read as an
    [unsigned char]: the loop runs to the first NUL; [None] when the memory
    holds none, where the loop leaves the array. *)
Fixpoint fnv1a_cstr_from (rval : Z) (mem : list Z) : option Z :=
  match mem with
  | [] => None
  | c :: mem' =>
    if c =? 0 then Some rval
    else fnv1a_cstr_from (U32.mul (Z.lxor rval c) FNV1A_32_PRIME) mem'
  end.

Definition fnv1a_cstr (mem : list Z) : option Z := fnv1a_cstr_from FNV1A_32_OFFSET mem.

(** [str.c_str()]: the characters of the string and a NUL. *)
Definition c_str (str : list Z) : list Z := str ++ [0].

(** [fnv1a(std::string const& str)]: [fnv1a(str.c_str(), str.length())]. *)
Definition fnv1a_string (str : list Z) : Z := fnv1a (take (length str) (c_str str)).

(** A byte of a buffer. *)
Definition is_byte (b : Z) : Prop := 0 <= b < 256.

(** The loop of [fnv1a] from an intermediate value on. *)
Definition fnv_from (rval : Z) (buf : list Z) : Z :=
  fold_left (fun rval b => U32.mul (Z.lxor rval b) FNV1A_32_PRIME) buf rval.

End Hash.

(** ** The allocator concept (allocator.hpp)

    A container only sees [allocate] return storage or [nullptr].  The model
    scripts the outcomes of the successive [allocate] calls; once the script
    is used up every call succeeds.  [deallocate] returns nothing and leaves
    the script alone. *)

Module Alloc.

Definition t := list bool.

Definition allocate (a : t) : bool * t :=
  match a with
  | [] => (true, [])
  | ok :: a' => (ok, a')
  end.

End Alloc.

(** [size_t] of a 64-bit target. *)

Module SizeT.
Local Open Scope Z_scope.

Definition modulus : Z := 2 ^ 64.
Definition wrap (z : Z) : Z := z mod modulus.
Definition add (a b : Z) : Z := wrap (a + b).
Definition sub (a b : Z) : Z := wrap (a - b).
Definition mul (a b : Z) : Z := wrap (a * b).

End SizeT.

(** ** vector.hpp *)

Module Vector.

Record vector (A : Type) := Mk { items : list A; capacity : nat }.
Arguments Mk {A} _ _.
Arguments items {A} _.
Arguments capacity {A} _.

Section Vector.
Context {A : Type}.

Definition new : vector A := Mk [] 0.

Definition size (v : vector A) : nat := length (items v).

Definition is_empty (v : vector A) : bool := (size v =? 0)%nat.

Definition reserve (v : vector A) (new_capacity : nat) (a : Alloc.t)
    : bool * vector A * Alloc.t :=
  if (new_capacity <=? capacity v)%nat then (true, v, a)
  else
    let '(ok, a') := Alloc.allocate a in
    if ok then (true, Mk (items v) new_capacity, a') else (false, v, a').

Definition push_back (v : vector A) (value : A) (a : Alloc.t)
    : bool * vector A * Alloc.t :=
  let '(ok, v1, a1) :=
    if (size v =? capacity v)%nat then
      if (capacity v =? 0)%nat then reserve v 1 a else reserve v (2 * capacity v) a
    else (true, v, a) in
  if ok then (true, Mk (items v1 ++ [value]) (capacity v1), a1)
  else (false, v, a1).

Definition back (v : vector A) : option A := list.last (items v).

Definition pop_back (v : vector A) : vector A :=
  Mk (removelast (items v)) (capacity v).

(** [swap(m_buf[index], back()); pop_back()] *)
Definition remove_fast (v : vector A) (index : nat) : vector A :=
  if (size v <=? index)%nat then v
  else
    match back v with
    | Some x => Mk (<[index := x]> (removelast (items v))) (capacity v)
    | None => v
    end.

Definition clear (v : vector A) : vector A := Mk [] (capacity v).

(** [swap(m_buf[i], m_buf[j])] *)
Definition swap (l : list A) (i j : nat) : list A :=
  match l !! i, l !! j with
  | Some x, Some y => <[j := x]> (<[i := y]> l)
  | _, _ => l
  end.

(** The loop [for (current = index; current < m_count - 1; current++)
    swap(m_buf[current], m_buf[current + 1])] of [remove_stable], [n] rounds
    from [current] on. *)
Fixpoint shift_loop (n current : nat) (l : list A) : list A :=
  match n with
  | O => l
  | S n' => shift_loop n' (S current) (swap l current (S current))
  end.

Definition remove_stable (v : vector A) (index : nat) : vector A :=
  if (size v <=? index)%nat then v
  else if (index =? size v - 1)%nat then pop_back v
  else pop_back (Mk (shift_loop (size v - 1 - index) index (items v)) (capacity v)).

(** The loop [for (i = 0; i < o_size; i++) rval.push_back(o_buf[i])] of
    [copy]. *)
Fixpoint copy_loop (xs : list A) (rval : vector A) (a : Alloc.t)
    : bool * vector A * Alloc.t :=
  match xs with
  | [] => (true, rval, a)
  | x :: xs' =>
    let '(ok, rval', a') := push_back rval x a in
    if ok then copy_loop xs' rval' a' else (false, rval', a')
  end.

(** [copy(o)]: on success [*this] is move-assigned from the local [rval]. *)
Definition copy (v o : vector A) (a : Alloc.t) : bool * vector A * Alloc.t :=
  let '(reserved, rval, a1) := reserve new (capacity o) a in
  if negb reserved then (false, v, a1)
  else
    let '(pushed, rval', a2) := copy_loop (items o) rval a1 in
    if pushed then (true, rval', a2) else (false, v, a2).

(** Every vector of a program has room for its elements. *)
Definition fits (v : vector A) : Prop := (size v <= capacity v)%nat.

End Vector.
End Vector.

(** ** map.hpp *)

Module Map.

Inductive MapState := ERROR | STABLE | TRANSFER.

Section Map.
(** [hash] is [rtl::hash<Key>], a [uint32_t].  [moved_from k] is the key that
    a move leaves behind in the place of [k]: [k] itself for a key type that
    a move copies (the arithmetic types, a pointer); for a [std::string] the
    standard leaves it open and the usual libraries leave the empty string. *)
Context {Key T : Type} `{EqDecision Key}.
Variable hash : Key → Z.
Variable moved_from : Key → Key.

(** *** Entry: a key and the owning pointer to its value ([None] is [nullptr]) *)

Record Entry := MkEntry { m_key : Key; m_val : option T }.

Definition construct (e : Entry) (val : T) (a : Alloc.t) : bool * Entry * Alloc.t :=
  match m_val e with
  | Some _ => (true, MkEntry (m_key e) (Some val), a)
  | None =>
    let '(valid_tmp, a') := Alloc.allocate a in
    if valid_tmp then (true, MkEntry (m_key e) (Some val), a') else (false, e, a')
  end.

Definition deconstruct (e : Entry) : Entry := MkEntry (m_key e) None.

(** *** Bucket *)

Definition Bucket := Vector.vector Entry.

(** The search loop of [Bucket::get], [bucket_remove], [bucket_get_entry] and
    [bucket_get_or_create_entry]: the index of the first entry whose key is
    [key], counting from [i]. *)
Fixpoint find_entry (key : Key) (es : list Entry) (i : nat) : option nat :=
  match es with
  | [] => None
  | e :: es' => if bool_decide (m_key e = key) then Some i else find_entry key es' (S i)
  end.

Definition bucket_get_entry (b : Bucket) (key : Key) : option nat :=
  find_entry key (Vector.items b) 0.

Definition bucket_get (b : Bucket) (key : Key) : option T :=
  match bucket_get_entry b key with
  | Some i => e ← Vector.items b !! i; m_val e
  | None => None
  end.

(** [bucket_remove(e, a)] with [e] an entry whose key is [key]. *)
Definition bucket_remove (b : Bucket) (key : Key) : bool * Bucket :=
  match bucket_get_entry b key with
  | None => (false, b)
  | Some entry_idx =>
    let b1 := Vector.Mk (alter deconstruct entry_idx (Vector.items b)) (Vector.capacity b) in
    (true, Vector.remove_fast b1 entry_idx)
  end.

Record BucketGetOrCreateResult := MkBGOC {
  created_count : Z;
  bgoc_entry : option nat
}.

Definition bucket_get_or_create_entry (b : Bucket) (key : Key) (a : Alloc.t)
    : BucketGetOrCreateResult * Bucket * Alloc.t :=
  match bucket_get_entry b key with
  | Some i => (MkBGOC 0 (Some i), b, a)
  | None =>
    let '(successful_push_back, b', a') := Vector.push_back b (MkEntry key None) a in
    if successful_push_back
    then (MkBGOC 1 (Some (Vector.size b' - 1)%nat), b', a')
    else (MkBGOC (-1) None, b', a')
  end.

Definition delete_all_entries (b : Bucket) : Bucket := Vector.clear b.

(** *** Table *)

Record Table := MkTable {
  m_buckets : Vector.vector Bucket;
  m_total_entries : Z;
  m_num_buckets : nat;
  m_power_of_2_size : nat
}.

Fixpoint expand_loop (n i : nat) (v : Vector.vector Bucket) (a : Alloc.t)
    : nat * Vector.vector Bucket * Alloc.t :=
  match n with
  | O => (i, v, a)
  | S n' =>
    let '(successful_push_back, v', a') := Vector.push_back v Vector.new a in
    if successful_push_back then expand_loop n' (S i) v' a' else (i, v', a')
  end.

Definition expand (v : Vector.vector Bucket) (num : nat) (a : Alloc.t)
    : nat * Vector.vector Bucket * Alloc.t :=
  let '(_, v1, a1) := Vector.reserve v num a in
  expand_loop num 0 v1 a1.

(** [Table(alloc, initial_power_of_2)] *)
Definition new_table (initial_power_of_2 : nat) (a : Alloc.t) : Table * Alloc.t :=
  let p := if (32 <=? initial_power_of_2)%nat then 31%nat else initial_power_of_2 in
  let p := if (p <? 4)%nat then 4%nat else p in
  let '(n, v, a') :=
    expand Vector.new (Z.to_nat (Utility.get_prime_power_of_2 p)) a in
  (MkTable v 0 n p, a').

Definition get_next_power_of_2 (t : Table) : nat := (m_power_of_2_size t + 1)%nat.

Definition get_bucket_index (t : Table) (key : Key) : nat :=
  Z.to_nat (hash key mod Z.of_nat (m_num_buckets t)).

(** [m_buckets[i]] *)
Definition bucket_at (t : Table) (i : nat) : Bucket :=
  default Vector.new (Vector.items (m_buckets t) !! i).

Definition set_bucket (t : Table) (i : nat) (b : Bucket) : Table :=
  MkTable (Vector.Mk (<[i := b]> (Vector.items (m_buckets t)))
                     (Vector.capacity (m_buckets t)))
          (m_total_entries t) (m_num_buckets t) (m_power_of_2_size t).

Definition set_total_entries (t : Table) (n : Z) : Table :=
  MkTable (m_buckets t) n (m_num_buckets t) (m_power_of_2_size t).

(** The entry behind an [Entry*] into bucket [bi], and an assignment through it. *)
Definition entry_at (t : Table) (bi ei : nat) : option Entry :=
  Vector.items (bucket_at t bi) !! ei.

Definition set_entry (t : Table) (bi ei : nat) (e : Entry) : Table :=
  let b := bucket_at t bi in
  set_bucket t bi (Vector.Mk (<[ei := e]> (Vector.items b)) (Vector.capacity b)).

Definition table_delete_all_entries (t : Table) : Table :=
  MkTable (Vector.Mk (delete_all_entries <$> Vector.items (m_buckets t))
                     (Vector.capacity (m_buckets t)))
          0 (m_num_buckets t) (m_power_of_2_size t).

Definition table_get (t : Table) (key : Key) : option T :=
  if (m_num_buckets t =? 0)%nat then None
  else bucket_get (bucket_at t (get_bucket_index t key)) key.

Definition table_get_entry (t : Table) (key : Key) : option nat :=
  if (m_num_buckets t =? 0)%nat then None
  else bucket_get_entry (bucket_at t (get_bucket_index t key)) key.

Record TableGetOrCreateResult := MkTGOC {
  entry : option nat;
  bucket : option nat;
  created : bool
}.

Definition table_get_or_create_entry (t : Table) (key : Key) (a : Alloc.t)
    : TableGetOrCreateResult * Table * Alloc.t :=
  if (m_num_buckets t =? 0)%nat then (MkTGOC None None false, t, a)
  else
    let bucket_index := get_bucket_index t key in
    let '(res, b', a') :=
      bucket_get_or_create_entry (bucket_at t bucket_index) key a in
    let t1 := set_bucket t bucket_index b' in
    if (created_count res >? 0)%Z
    then (MkTGOC (bgoc_entry res) (Some bucket_index) true,
          set_total_entries t1 (SizeT.add (m_total_entries t1) 1), a')
    else (MkTGOC (bgoc_entry res) (Some bucket_index) false, t1, a').

Definition table_del (t : Table) (key : Key) : bool * Table :=
  if (m_num_buckets t =? 0)%nat then (false, t)
  else
    let bucket_index := get_bucket_index t key in
    let '(rval, b') := bucket_remove (bucket_at t bucket_index) key in
    let t1 := set_bucket t bucket_index b' in
    if rval then (true, set_total_entries t1 (SizeT.sub (m_total_entries t1) 1))
    else (false, t1).

(** *** unordered_map *)

Record unordered_map := MkMap {
  m_main : option Table;
  m_secondary : option Table;
  m_state : MapState;
  m_max_load_factor_percent : Z;
  m_current_bucket_to_transfer : nat;
  m_locked : bool
}.

Definition with_main (m : unordered_map) (t : Table) : unordered_map :=
  MkMap (Some t) (m_secondary m) (m_state m) (m_max_load_factor_percent m)
        (m_current_bucket_to_transfer m) (m_locked m).

Definition with_secondary (m : unordered_map) (t : option Table) : unordered_map :=
  MkMap (m_main m) t (m_state m) (m_max_load_factor_percent m)
        (m_current_bucket_to_transfer m) (m_locked m).

Definition with_state (m : unordered_map) (st : MapState) : unordered_map :=
  MkMap (m_main m) (m_secondary m) st (m_max_load_factor_percent m)
        (m_current_bucket_to_transfer m) (m_locked m).

Definition with_cursor (m : unordered_map) (c : nat) : unordered_map :=
  MkMap (m_main m) (m_secondary m) (m_state m) (m_max_load_factor_percent m)
        c (m_locked m).

Definition with_locked (m : unordered_map) (l : bool) : unordered_map :=
  MkMap (m_main m) (m_secondary m) (m_state m) (m_max_load_factor_percent m)
        (m_current_bucket_to_transfer m) l.

Definition compute_state (m : unordered_map) : unordered_map :=
  match m_main m with
  | None => with_state m ERROR
  | Some _ =>
    with_state m (match m_secondary m with Some _ => TRANSFER | None => STABLE end)
  end.

(** [unordered_map(alloc, max_load_factor)]; the argument is the value of
    [static_cast<size_t>(max_load_factor * 100)], 500 for the default 5.0. *)
Definition new_map (max_load_factor_percent : Z) (a : Alloc.t)
    : unordered_map * Alloc.t :=
  let '(valid_main, a1) := Alloc.allocate a in
  let '(main, a2) :=
    if valid_main then (let '(t, a2) := new_table 4 a1 in (Some t, a2))
    else (None, a1) in
  (compute_state (MkMap main None ERROR max_load_factor_percent 0 false), a2).

Definition lock_table_size (m : unordered_map) := with_locked m true.
Definition unlock_table_size (m : unordered_map) := with_locked m false.
Definition get_state (m : unordered_map) : MapState := m_state m.

Definition should_resize (m : unordered_map) (main : Table) : bool :=
  if m_locked m then false
  else
    let main_buckets := Z.of_nat (m_num_buckets main) in
    let main_key_count := m_total_entries main in
    let max_key_count :=
      (SizeT.mul (m_max_load_factor_percent m) main_buckets / 100)%Z in
    (main_key_count >=? max_key_count)%Z.

Definition begin_resize (m : unordered_map) (new_power_of_2 : nat) (a : Alloc.t)
    : bool * unordered_map * Alloc.t :=
  let '(valid_secondary, a1) := Alloc.allocate a in
  if negb valid_secondary then (false, with_secondary m None, a1)
  else
    let '(sec, a2) := new_table new_power_of_2 a1 in
    let expected_num_of_buckets := Utility.get_prime_power_of_2 new_power_of_2 in
    if negb (expected_num_of_buckets =? Z.of_nat (m_num_buckets sec))%Z
    then (false, with_secondary m None, a2)
    else (true, with_cursor (with_state (with_secondary m (Some sec)) TRANSFER) 0, a2).

Inductive TransferStatus := BucketDrained | BudgetSpent | TransferFailed.

(** The [while (!bucket_empty)] loop of [perform_partial_transfer] on one
    bucket of [main]: [es_rev] are its entries, back first. *)
Fixpoint transfer_entries (es_rev : list Entry) (number_of_keys_to_transfer : nat)
    (main_total : Z) (sec : Table) (a : Alloc.t)
    : TransferStatus * list Entry * nat * Z * Table * Alloc.t :=
  match es_rev with
  | [] => (BucketDrained, [], number_of_keys_to_transfer, main_total, sec, a)
  | e :: rest =>
    match number_of_keys_to_transfer with
    | O => (BudgetSpent, es_rev, O, main_total, sec, a)
    | S budget =>
      let '(res, sec1, a1) := table_get_or_create_entry sec (m_key e) a in
      match entry res, bucket res with
      | Some ei, Some bi =>
        let sec2 := if created res then set_entry sec1 bi ei e else sec1 in
        transfer_entries rest budget (SizeT.sub main_total 1) sec2 a1
      | _, _ => (TransferFailed, es_rev, budget, main_total, sec1, a1)
      end
    end
  end.

(** The [for] loop over the [n] buckets of [main] from the cursor on. *)
Fixpoint transfer_buckets (n cursor number_of_keys_to_transfer : nat)
    (main sec : Table) (a : Alloc.t) : bool * nat * Table * Table * Alloc.t :=
  match n with
  | O => (true, cursor, main, sec, a)
  | S n' =>
    let b := bucket_at main cursor in
    let '(status, rest_rev, budget, total, sec', a') :=
      transfer_entries (reverse (Vector.items b)) number_of_keys_to_transfer
                       (m_total_entries main) sec a in
    let main' :=
      set_total_entries
        (set_bucket main cursor (Vector.Mk (reverse rest_rev) (Vector.capacity b)))
        total in
    match status with
    | BucketDrained => transfer_buckets n' (S cursor) budget main' sec' a'
    | BudgetSpent => (true, cursor, main', sec', a')
    | TransferFailed => (false, cursor, main', sec', a')
    end
  end.

Definition perform_partial_transfer (m : unordered_map) (a : Alloc.t)
    : bool * unordered_map * Alloc.t :=
  match m_main m, m_secondary m with
  | Some main, Some sec =>
    let cursor := m_current_bucket_to_transfer m in
    let '(ok, cursor', main', sec', a') :=
      transfer_buckets (m_num_buckets main - cursor) cursor 512 main sec a in
    (ok, with_cursor (with_secondary (with_main m main') (Some sec')) cursor', a')
  | _, _ => (false, m, a)
  end.

Definition end_resize (m : unordered_map) : unordered_map :=
  MkMap (m_secondary m) None STABLE (m_max_load_factor_percent m) 0 (m_locked m).

Definition is_transfer_complete (m : unordered_map) : bool :=
  match m_main m with
  | Some main => (m_total_entries main =? 0)%Z
  | None => false
  end.

(** The tail shared by [get], [put] and [del] in the TRANSFER state. *)
Definition transfer_step {R : Type} (failure rval : R) (m : unordered_map) (a : Alloc.t)
    : R * unordered_map * Alloc.t :=
  let '(successful_partial_transfer, m1, a1) := perform_partial_transfer m a in
  if negb successful_partial_transfer then (failure, with_state m1 ERROR, a1)
  else if is_transfer_complete m1 then (rval, end_resize m1, a1)
  else (rval, m1, a1).

(** The tail shared by [get], [put] and [del] in the STABLE state. *)
Definition resize_check {R : Type} (failure rval : R) (m : unordered_map) (a : Alloc.t)
    : R * unordered_map * Alloc.t :=
  match m_main m with
  | Some main =>
    if should_resize m main then
      let '(valid_resize, m1, a1) := begin_resize m (get_next_power_of_2 main) a in
      if negb valid_resize then (failure, with_state m1 ERROR, a1)
      else (rval, m1, a1)
    else (rval, m, a)
  | None => (rval, m, a)
  end.

Definition get_num_buckets (m : unordered_map) : nat :=
  match m_state m with
  | ERROR => 0
  | STABLE => from_option m_num_buckets 0%nat (m_main m)
  | TRANSFER => from_option m_num_buckets 0%nat (m_secondary m)
  end.

(** The value [get] and [contains] look a key up to, with no state change. *)
Definition peek (m : unordered_map) (key : Key) : option T :=
  match m_state m, m_main m, m_secondary m with
  | STABLE, Some main, _ => table_get main key
  | TRANSFER, Some main, Some sec =>
    match table_get sec key with
    | Some v => Some v
    | None => table_get main key
    end
  | _, _, _ => None
  end.

Definition contains (m : unordered_map) (key : Key) : bool :=
  match m_state m with
  | ERROR => false
  | _ => bool_decide (is_Some (peek m key))
  end.

Definition get (m : unordered_map) (key : Key) (a : Alloc.t)
    : option T * unordered_map * Alloc.t :=
  match m_state m, m_main m, m_secondary m with
  | STABLE, Some main, _ =>
    let rval := table_get main key in
    resize_check None rval m a
  | TRANSFER, Some main, Some sec =>
    let rval :=
      match table_get sec key with
      | Some v => Some v
      | None => table_get main key
      end in
    transfer_step None rval m a
  | _, _, _ => (None, m, a)
  end.

Definition put (m : unordered_map) (key : Key) (val : T) (a : Alloc.t)
    : bool * unordered_map * Alloc.t :=
  match m_state m, m_main m, m_secondary m with
  | STABLE, Some main, _ =>
    let '(res, main1, a1) := table_get_or_create_entry main key a in
    let '(rval, main2, a2) :=
      match entry res, bucket res with
      | Some ei, Some bi =>
        match entry_at main1 bi ei with
        | Some e =>
          let '(valid_construct, e', a2) := construct e val a1 in
          if valid_construct then (true, set_entry main1 bi ei e', a2)
          else if created res
               then (false, set_bucket main1 bi (bucket_remove (bucket_at main1 bi) (m_key e)).2, a2)
               else (false, main1, a2)
        | None => (false, main1, a1)
        end
      | _, _ => (false, main1, a1)
      end in
    resize_check false rval (with_main m main2) a2
  | TRANSFER, Some main, Some sec =>
    let '(res, sec1, a1) := table_get_or_create_entry sec key a in
    let '(rval, main2, sec2, a2) :=
      match entry res, bucket res with
      | Some ei, Some bi =>
        match entry_at sec1 bi ei with
        | Some e0 =>
          (* the move assignment of main's entry to the new slot: the slot
             takes the key and the value, the entry of main is left with a
             moved-from key and [nullptr] *)
          let '(e, main1) :=
            if created res then
              match table_get_entry main key with
              | Some mi =>
                let mb := get_bucket_index main key in
                match entry_at main mb mi with
                | Some me =>
                  (me, set_entry main mb mi (MkEntry (moved_from (m_key me)) None))
                | None => (e0, main)
                end
              | None => (e0, main)
              end
            else (e0, main) in
          let '(construct_successful, e', a2) := construct e val a1 in
          if construct_successful then (true, main1, set_entry sec1 bi ei e', a2)
          else if created res
               then (false, main1,
                     set_bucket sec1 bi
                       (bucket_remove (bucket_at (set_entry sec1 bi ei (MkEntry (m_key e) None)) bi)
                                      (m_key e)).2, a2)
               else (false, main1, set_entry sec1 bi ei e, a2)
        | None => (false, main, sec1, a1)
        end
      | _, _ => (false, main, sec1, a1)
      end in
    transfer_step false rval (with_secondary (with_main m main2) (Some sec2)) a2
  | _, _, _ => (false, m, a)
  end.

Definition del (m : unordered_map) (key : Key) (a : Alloc.t)
    : bool * unordered_map * Alloc.t :=
  match m_state m, m_main m, m_secondary m with
  | STABLE, Some main, _ =>
    let '(rval, main1) := table_del main key in
    resize_check false rval (with_main m main1) a
  | TRANSFER, Some main, Some sec =>
    let '(rval, main1) := table_del main key in
    let '(rval, sec1) := if rval then (true, sec) else table_del sec key in
    transfer_step false rval (with_secondary (with_main m main1) (Some sec1)) a
  | _, _, _ => (false, m, a)
  end.

(** The loop [while (!transfer_complete) { perform_partial_transfer ... }] of
    [finalize] and [reserve]; [None] when [fuel] rounds were not enough. *)
Fixpoint drain (fuel : nat) (m : unordered_map) (a : Alloc.t)
    : option (bool * unordered_map * Alloc.t) :=
  if is_transfer_complete m then Some (true, m, a)
  else
    match fuel with
    | O => None
    | S fuel' =>
      let '(valid_partial_transfer, m1, a1) := perform_partial_transfer m a in
      if valid_partial_transfer then drain fuel' m1 a1 else Some (false, m1, a1)
    end.

(** [end_resize()] once the loop has come out with the transfer complete. *)
Definition finish_transfer (r : option (bool * unordered_map * Alloc.t))
    : option (bool * unordered_map * Alloc.t) :=
  match r with
  | Some (true, m1, a1) => Some (true, end_resize m1, a1)
  | other => other
  end.

Definition finalize (fuel : nat) (m : unordered_map) (a : Alloc.t)
    : option (bool * unordered_map * Alloc.t) :=
  match m_state m with
  | ERROR => Some (false, m, a)
  | STABLE => Some (true, m, a)
  | TRANSFER => finish_transfer (drain fuel m a)
  end.

(** The search for the smallest table size in [reserve]. *)
Fixpoint find_power (n : nat) (i : nat) (number_of_buckets : Z) : option nat :=
  match n with
  | O => None
  | S n' =>
    if (Utility.get_prime_power_of_2 i >=? number_of_buckets)%Z then Some i
    else find_power n' (S i) number_of_buckets
  end.

Definition reserve (fuel : nat) (m : unordered_map) (number_of_buckets : Z) (a : Alloc.t)
    : option (bool * unordered_map * Alloc.t) :=
  match m_state m with
  | ERROR => Some (false, m, a)
  | _ =>
    if (number_of_buckets =? 0)%Z then Some (false, m, a)
    else
      match find_power 32 0 number_of_buckets with
      | None => Some (false, m, a)
      | Some next_power_of_2 =>
        let in_flight :=
          match m_state m with
          | TRANSFER => finish_transfer (drain fuel m a)
          | _ => Some (true, m, a)
          end in
        match in_flight with
        | None => None
        | Some (false, m1, a1) => Some (false, m1, a1)
        | Some (true, m1, a1) =>
          match m_main m1 with
          | None => Some (false, m1, a1)
          | Some main =>
            if (next_power_of_2 <=? m_power_of_2_size main)%nat then Some (true, m1, a1)
            else
              let '(valid_begin_resize, m2, a2) := begin_resize m1 next_power_of_2 a1 in
              if negb valid_begin_resize then Some (false, with_state m2 ERROR, a2)
              else finish_transfer (drain fuel m2 a2)
          end
        end
      end
  end.

Definition delete_all_keys (fuel : nat) (m : unordered_map) (a : Alloc.t)
    : option (unordered_map * Alloc.t) :=
  match m_state m, m_main m, m_secondary m with
  | STABLE, Some main, _ => Some (with_main m (table_delete_all_entries main), a)
  | TRANSFER, Some main, Some sec =>
    let m1 := with_secondary (with_main m (table_delete_all_entries main))
                             (Some (table_delete_all_entries sec)) in
    match finalize fuel m1 a with
    | Some (_, m2, a2) => Some (m2, a2)
    | None => None
    end
  | _, _, _ => Some (m, a)
  end.

(** *** What the map holds, and its invariant *)

(** The value of the first entry of a chain whose key is [key]. *)
Fixpoint val_of (es : list Entry) (key : Key) : option T :=
  match es with
  | [] => None
  | e :: es' => if bool_decide (m_key e = key) then m_val e else val_of es' key
  end.

Definition has_key (es : list Entry) (key : Key) : Prop := key ∈ m_key <$> es.

(** The chain of bucket [i]. *)
Definition ents (t : Table) (i : nat) : list Entry := Vector.items (bucket_at t i).

Definition structured (t : Table) : Prop :=
  length (Vector.items (m_buckets t)) = m_num_buckets t.

Definition orelse (x y : option T) : option T :=
  match x with Some v => Some v | None => y end.

(** The three ways [table_get_or_create_entry] comes out: the key was there,
    no slot could be made, a new slot was appended to the key's chain. *)
Inductive goc_outcome (t : Table) (key : Key) (a : Alloc.t)
    : TableGetOrCreateResult → Table → Alloc.t → Prop :=
  | goc_found i t' :
      find_entry key (ents t (get_bucket_index t key)) 0 = Some i →
      (∀ j, ents t' j = ents t j) →
      m_total_entries t' = m_total_entries t →
      goc_outcome t key a (MkTGOC (Some i) (Some (get_bucket_index t key)) false) t' a
  | goc_failed bk t' a' :
      find_entry key (ents t (get_bucket_index t key)) 0 = None ∨ m_num_buckets t = 0%nat →
      (∀ j, ents t' j = ents t j) →
      m_total_entries t' = m_total_entries t →
      goc_outcome t key a (MkTGOC None bk false) t' a'
  | goc_created t' a' :
      m_num_buckets t ≠ 0%nat →
      find_entry key (ents t (get_bucket_index t key)) 0 = None →
      ents t' (get_bucket_index t key)
        = ents t (get_bucket_index t key) ++ [MkEntry key None] →
      (∀ j, j ≠ get_bucket_index t key → ents t' j = ents t j) →
      m_total_entries t' = SizeT.add (m_total_entries t) 1 →
      goc_outcome t key a
        (MkTGOC (Some (length (ents t (get_bucket_index t key))))
                (Some (get_bucket_index t key)) true) t' a'.

Definition entry_count (t : Table) : nat :=
  length (concat (Vector.items <$> Vector.items (m_buckets t))).

(** Every chain holds a key at most once, every entry sits in the bucket its
    key hashes to, and the entry counter is not below the number of entries. *)
Record table_inv (t : Table) : Prop := {
  ti_struct : structured t;
  ti_nodup : ∀ i, NoDup (m_key <$> ents t i);
  ti_placed : ∀ i e, e ∈ ents t i → get_bucket_index t (m_key e) = i;
  ti_count : (Z.of_nat (entry_count t) <= m_total_entries t < SizeT.modulus)%Z
}.

(** An entry of [main] whose key is also in [sec] has given its value away. *)
Definition zombies (main sec : Table) : Prop :=
  ∀ i e, e ∈ ents main i →
    has_key (ents sec (get_bucket_index sec (m_key e))) (m_key e) →
    m_val e = None.

Definition map_inv (m : unordered_map) : Prop :=
  match m_state m, m_main m, m_secondary m with
  | ERROR, _, _ => True
  | STABLE, Some main, None => table_inv main
  | TRANSFER, Some main, Some sec =>
    table_inv main ∧ table_inv sec ∧ zombies main sec ∧
    (m_current_bucket_to_transfer m <= m_num_buckets main)%nat
  | _, _, _ => False
  end.

(** The entry counters of the tables of a map, added up. *)
Definition mass (m : unordered_map) : Z :=
  match m_state m with
  | ERROR => 0
  | STABLE => from_option m_total_entries 0 (m_main m)
  | TRANSFER =>
    from_option m_total_entries 0 (m_main m)
    + from_option m_total_entries 0 (m_secondary m)
  end%Z.

(** The key is in the table. *)
Definition in_table (t : Table) (k : Key) : Prop :=
  has_key (ents t (get_bucket_index t k)) k.

(** The same invariant as a check that runs. *)
Definition chain_okb (t : Table) (i : nat) (es : list Entry) : bool :=
  bool_decide (NoDup (m_key <$> es))
  && forallb (λ e, (get_bucket_index t (m_key e) =? i)%nat) es.

Fixpoint chains_okb (t : Table) (i : nat) (bs : list Bucket) : bool :=
  match bs with
  | [] => true
  | b :: bs' => chain_okb t i (Vector.items b) && chains_okb t (S i) bs'
  end.

Definition table_invb (t : Table) : bool :=
  (length (Vector.items (m_buckets t)) =? m_num_buckets t)%nat
  && chains_okb t 0 (Vector.items (m_buckets t))
  && (Z.of_nat (entry_count t) <=? m_total_entries t)%Z
  && (m_total_entries t <? SizeT.modulus)%Z.

Definition zombie_okb (sec : Table) (e : Entry) : bool :=
  match find_entry (m_key e) (ents sec (get_bucket_index sec (m_key e))) 0, m_val e with
  | Some _, Some _ => false
  | _, _ => true
  end.

Definition zombiesb (main sec : Table) : bool :=
  forallb (λ b, forallb (zombie_okb sec) (Vector.items b)) (Vector.items (m_buckets main)).

Definition map_invb (m : unordered_map) : bool :=
  match m_state m, m_main m, m_secondary m with
  | ERROR, _, _ => true
  | STABLE, Some main, None => table_invb main
  | TRANSFER, Some main, Some sec =>
    table_invb main && table_invb sec && zombiesb main sec
    && (m_current_bucket_to_transfer m <=? m_num_buckets main)%nat
  | _, _, _ => false
  end.

(** *** Sequences of calls on one map *)

Inductive call :=
  | CGet (key : Key)
  | CContains (key : Key)
  | CPut (key : Key) (val : T)
  | CDel (key : Key)
  | CReserve (number_of_buckets : Z)
  | CFinalize
  | CDeleteAllKeys
  | CLockTableSize
  | CUnlockTableSize.

Inductive answer :=
  | RPtr (v : option T)
  | RBool (b : bool)
  | RVoid.

(** What a call answers when it fails: a null pointer or [false]. *)
Definition failure_of (c : call) : answer :=
  match c with
  | CGet _ => RPtr None
  | CContains _ | CPut _ _ | CDel _ | CReserve _ | CFinalize => RBool false
  | CDeleteAllKeys | CLockTableSize | CUnlockTableSize => RVoid
  end.

Definition do_call (fuel : nat) (c : call) (m : unordered_map) (a : Alloc.t)
    : option (answer * unordered_map * Alloc.t) :=
  match c with
  | CGet key => let '(r, m', a') := get m key a in Some (RPtr r, m', a')
  | CContains key => Some (RBool (contains m key), m, a)
  | CPut key val => let '(r, m', a') := put m key val a in Some (RBool r, m', a')
  | CDel key => let '(r, m', a') := del m key a in Some (RBool r, m', a')
  | CReserve n =>
    match reserve fuel m n a with
    | Some (r, m', a') => Some (RBool r, m', a')
    | None => None
    end
  | CFinalize =>
    match finalize fuel m a with
    | Some (r, m', a') => Some (RBool r, m', a')
    | None => None
    end
  | CDeleteAllKeys =>
    match delete_all_keys fuel m a with
    | Some (m', a') => Some (RVoid, m', a')
    | None => None
    end
  | CLockTableSize => Some (RVoid, lock_table_size m, a)
  | CUnlockTableSize => Some (RVoid, unlock_table_size m, a)
  end.

(** The calls in turn; each answer is paired with [get_state()] after the call. *)
Fixpoint do_calls (fuel : nat) (cs : list call) (m : unordered_map) (a : Alloc.t)
    : option (list (answer * MapState) * unordered_map * Alloc.t) :=
  match cs with
  | [] => Some ([], m, a)
  | c :: cs' =>
    match do_call fuel c m a with
    | None => None
    | Some (r, m1, a1) =>
      match do_calls fuel cs' m1 a1 with
      | None => None
      | Some (rs, m2, a2) => Some ((r, get_state m1) :: rs, m2, a2)
      end
    end
  end.

Definition is_error (st : MapState) : bool :=
  match st with ERROR => true | _ => false end.

(** [approx_buckets_needed(expected_item_count)], in [uint32_t] arithmetic. *)
Definition approx_buckets_needed (m : unordered_map) (expected_item_count : Z) : Z :=
  U32.add (U32.mul expected_item_count 100 / U32.wrap (m_max_load_factor_percent m)) 1.

(** The number of buckets and the size class of a table. *)
Definition shape (t : Table) : nat * nat := (m_num_buckets t, m_power_of_2_size t).

(** The table got all the buckets of its size class. *)
Definition sized (t : Table) : Prop :=
  (4 <= m_power_of_2_size t <= 31)%nat ∧
  Z.of_nat (m_num_buckets t) = Utility.get_prime_power_of_2 (m_power_of_2_size t).

Definition map_sized (m : unordered_map) : Prop :=
  match m_state m with
  | ERROR => True
  | STABLE => from_option sized False (m_main m)
  | TRANSFER => from_option sized False (m_main m) ∧ from_option sized False (m_secondary m)
  end.

(** The calls that look a key up or change its value. *)
Definition key_call (c : call) : bool :=
  match c with
  | CGet _ | CContains _ | CPut _ _ | CDel _ => true
  | _ => false
  end.

(** The entry counter of the table is the number of entries in its chains. *)
Definition exact_count (t : Table) : bool :=
  (m_total_entries t =? Z.of_nat (entry_count t))%Z.

(** What a table keeps whatever a move leaves in a key: it has its
    [m_num_buckets] buckets and its entry counter is a [size_t]. *)
Definition table_ok (t : Table) : Prop :=
  structured t ∧ (0 <= m_total_entries t < SizeT.modulus)%Z.

(** The same for a map; in the TRANSFER state both tables exist. *)
Definition map_ok (m : unordered_map) : Prop :=
  from_option table_ok True (m_main m) ∧
  from_option table_ok True (m_secondary m) ∧
  (m_state m = TRANSFER → is_Some (m_main m) ∧ is_Some (m_secondary m)).

End Map.

Arguments Entry : clear implicits.
Arguments call : clear implicits.
Arguments answer : clear implicits.
Arguments Table : clear implicits.
Arguments unordered_map : clear implicits.

End Map.

(** ** memory.hpp: control_blk, shared_ptr, weak_ptr *)

Module Memory.
Local Open Scope Z_scope.

(** A control block.  [m_data] tells whether the payload pointer is set.  The
    last two fields are not members of the class: they count how often the
    payload destructor has run on the block's payload and how often the
    block's own storage has been handed back to the allocator. *)
Record control_blk := MkBlk {
  m_data : bool;
  m_strong_count : Z;
  m_weak_count : Z;
  destroyed : nat;
  deallocated : nat
}.

(** [control_blk(alloc, data)] *)
Definition new_blk : control_blk := MkBlk true 0 0 0 0.

Definition deinit (c : control_blk) : control_blk :=
  if m_data c
  then MkBlk false (m_strong_count c) (m_weak_count c) (S (destroyed c)) (deallocated c)
  else c.

Definition inc_weak (c : control_blk) : control_blk :=
  MkBlk (m_data c) (m_strong_count c) (U32.add (m_weak_count c) 1)
        (destroyed c) (deallocated c).

Definition inc_strong (c : control_blk) : control_blk :=
  let prev_strong_count := m_strong_count c in
  let c1 := MkBlk (m_data c) (U32.add prev_strong_count 1) (m_weak_count c)
                  (destroyed c) (deallocated c) in
  if prev_strong_count =? 0 then inc_weak c1 else c1.

Definition dec_weak (c : control_blk) : bool * control_blk :=
  let prev_val := m_weak_count c in
  (prev_val =? 1,
   MkBlk (m_data c) (m_strong_count c) (U32.sub prev_val 1) (destroyed c) (deallocated c)).

Definition dec_strong (c : control_blk) : bool * control_blk :=
  let prev_val := m_strong_count c in
  let c1 := MkBlk (m_data c) (U32.sub prev_val 1) (m_weak_count c)
                  (destroyed c) (deallocated c) in
  if prev_val =? 1 then dec_weak (deinit c1) else (false, c1).

(** [m_alloc->deallocate(m_control_blk)] *)
Definition free_blk (c : control_blk) : control_blk :=
  MkBlk (m_data c) (m_strong_count c) (m_weak_count c) (destroyed c) (S (deallocated c)).

(** A program state: the control blocks allocated so far (a block's position
    is its address), the [shared_ptr] and [weak_ptr] objects of the program
    (each holds [m_control_blk], [None] for [nullptr]) and the allocator. *)
Record state := MkState {
  heap : list control_blk;
  shared : list (option nat);
  weak : list (option nat);
  alloc : Alloc.t
}.

Definition init (n_shared n_weak : nat) (a : Alloc.t) : state :=
  MkState [] (replicate n_shared None) (replicate n_weak None) a.

Definition with_heap (st : state) (h : list control_blk) : state :=
  MkState h (shared st) (weak st) (alloc st).

(** [reset()] of a [shared_ptr] holding [h]; the caller clears the handle. *)
Definition shared_release (h : option nat) (st : state) : state :=
  match h with
  | None => st
  | Some b =>
    match heap st !! b with
    | None => st
    | Some c =>
      let '(dealloc, c1) := dec_strong c in
      with_heap st (<[b := if dealloc then free_blk c1 else c1]> (heap st))
    end
  end.

(** [reset()] of a [weak_ptr] holding [h]. *)
Definition weak_release (h : option nat) (st : state) : state :=
  match h with
  | None => st
  | Some b =>
    match heap st !! b with
    | None => st
    | Some c =>
      let '(dealloc, c1) := dec_weak c in
      with_heap st (<[b := if dealloc then free_blk c1 else c1]> (heap st))
    end
  end.

(** [if (m_control_blk) m_control_blk->inc_strong()] *)
Definition shared_acquire (h : option nat) (st : state) : state :=
  match h with
  | None => st
  | Some b => with_heap st (alter inc_strong b (heap st))
  end.

Definition weak_acquire (h : option nat) (st : state) : state :=
  match h with
  | None => st
  | Some b => with_heap st (alter inc_weak b (heap st))
  end.

Definition set_shared (i : nat) (h : option nat) (st : state) : state :=
  MkState (heap st) (<[i := h]> (shared st)) (weak st) (alloc st).

Definition set_weak (i : nat) (h : option nat) (st : state) : state :=
  MkState (heap st) (shared st) (<[i := h]> (weak st)) (alloc st).

(** [make_shared<T>(alloc, value)]: the new state and the handle held by the
    returned temporary. *)
Definition make_shared (st : state) : option nat * state :=
  let '(tmp, a1) := Alloc.allocate (alloc st) in
  if negb tmp then (None, MkState (heap st) (shared st) (weak st) a1)
  else
    let '(data_tmp, a2) := Alloc.allocate a1 in
    if negb data_tmp then (None, MkState (heap st) (shared st) (weak st) a2)
    else
      let b := length (heap st) in
      (Some b, MkState (heap st ++ [inc_strong new_blk]) (shared st) (weak st) a2).

Definition use_count (st : state) (h : option nat) : Z :=
  match h with
  | None => 0
  | Some b => from_option m_strong_count 0 (heap st !! b)
  end.

Definition expired (st : state) (h : option nat) : bool := use_count st h =? 0.

(** [weak_ptr::lock()]: the handle held by the returned temporary. *)
Definition lock (h : option nat) (st : state) : option nat * state :=
  if expired st h then (None, st) else (h, shared_acquire h st).

(** The statements of a program over the declared smart pointers.  A pointer
    that holds [nullptr] stands for one that is default constructed, moved
    from, reset or already destroyed, so copy and move construction are the
    assignments into such a pointer and destruction is [reset]. *)
Inductive op :=
  | MakeShared (i : nat)          (* shared[i] = make_shared<T>(alloc, v) *)
  | SharedCopy (i j : nat)        (* shared[i] = shared[j] *)
  | SharedMove (i j : nat)        (* shared[i] = std::move(shared[j]) *)
  | SharedReset (i : nat)         (* shared[i].reset() *)
  | WeakFromShared (i j : nat)    (* weak[i] = shared[j] *)
  | WeakCopy (i j : nat)          (* weak[i] = weak[j] *)
  | WeakMove (i j : nat)          (* weak[i] = std::move(weak[j]) *)
  | WeakReset (i : nat)           (* weak[i].reset() *)
  | WeakLock (i j : nat).         (* shared[i] = weak[j].lock() *)

Definition step (o : op) (st : state) : state :=
  match o with
  | MakeShared i =>
    match shared st !! i with
    | None => st
    | Some old =>
      let '(tmp, st1) := make_shared st in
      set_shared i tmp (shared_release old st1)
    end
  | SharedCopy i j =>
    match shared st !! i, shared st !! j with
    | Some old, Some src =>
      if bool_decide (i = j) then st
      else set_shared i src (shared_acquire src (shared_release old st))
    | _, _ => st
    end
  | SharedMove i j =>
    match shared st !! i, shared st !! j with
    | Some old, Some src =>
      if bool_decide (i = j) then st
      else set_shared i src (set_shared j None (shared_release old st))
    | _, _ => st
    end
  | SharedReset i =>
    match shared st !! i with
    | Some old => set_shared i None (shared_release old st)
    | None => st
    end
  | WeakFromShared i j =>
    match weak st !! i, shared st !! j with
    | Some old, Some src => set_weak i src (weak_acquire src (weak_release old st))
    | _, _ => st
    end
  | WeakCopy i j =>
    match weak st !! i, weak st !! j with
    | Some old, Some src =>
      if bool_decide (i = j) then st
      else set_weak i src (weak_acquire src (weak_release old st))
    | _, _ => st
    end
  | WeakMove i j =>
    match weak st !! i, weak st !! j with
    | Some old, Some src =>
      if bool_decide (i = j) then st
      else set_weak i src (set_weak j None (weak_release old st))
    | _, _ => st
    end
  | WeakReset i =>
    match weak st !! i with
    | Some old => set_weak i None (weak_release old st)
    | None => st
    end
  | WeakLock i j =>
    match shared st !! i, weak st !! j with
    | Some old, Some w =>
      let '(tmp, st1) := lock w st in
      set_shared i tmp (shared_release old st1)
    | _, _ => st
    end
  end.

Definition run (ops : list op) (st : state) : state :=
  fold_left (fun st o => step o st) ops st.

(** The number of pointers in [hs] that hold block [b]. *)
Definition refs (hs : list (option nat)) (b : nat) : nat :=
  length (filter (λ h, h = Some b) hs).


(** *** What the counts stand for *)

(** 1 when the handle [h] holds block [b]. *)
Definition ind (h : option nat) (b : nat) : nat :=
  if decide (h = Some b) then 1%nat else 0%nat.

(** The share of the weak count that the owners hold together. *)
Definition share (s : nat) : nat := if (s =? 0)%nat then 0%nat else 1%nat.
Arguments share : simpl never.

(** A block with [s] owners and [w] observers. *)
Record blk_ok (s w : nat) (c : control_blk) : Prop := {
  ok_strong : m_strong_count c = Z.of_nat s;
  ok_weak : m_weak_count c = Z.of_nat (w + share s);
  ok_data : m_data c = negb (s =? 0)%nat;
  ok_destroyed : destroyed c = (1 - share s)%nat;
  ok_deallocated : deallocated c = (1 - share (w + share s))%nat
}.

(** Every block of the heap agrees with the counts [S] and [W]. *)
Definition consistent (hp : list control_blk) (S W : nat → nat) : Prop :=
  ∀ b c, hp !! b = Some c → blk_ok (S b) (W b) c.

(** Every handle holds a block of the heap. *)
Definition valid (hp : list control_blk) (hs : list (option nat)) : Prop :=
  ∀ b, Some b ∈ hs → (b < length hp)%nat.

(** The invariant of a program state. *)
Record inv (st : state) : Prop := {
  inv_counts : consistent (heap st) (refs (shared st)) (refs (weak st));
  inv_shared : valid (heap st) (shared st);
  inv_weak : valid (heap st) (weak st)
}.

(** What a statement keeps: the invariant and the declared pointers. *)
Definition step_ok (st st' : state) : Prop :=
  inv st' ∧ length (shared st') = length (shared st) ∧
  length (weak st') = length (weak st) ∧
  (length (heap st) <= length (heap st'))%nat.

(** The two ghost counters of a block never go down, and no block leaves
    the heap. *)
Definition grows (hp hp' : list control_blk) : Prop :=
  ∀ b c, hp !! b = Some c →
    ∃ c', hp' !! b = Some c' ∧
          (destroyed c <= destroyed c')%nat ∧ (deallocated c <= deallocated c')%nat.

End Memory.

(** ** object_pool.hpp *)

Module ObjectPool.

(** The pool of [T*].  An object is named by its place in the order in which
    the allocator has handed the objects out; [allocated] counts them and is
    not a member of the class. *)
Record object_pool := MkPool {
  m_vector : Vector.vector nat;
  m_elasticity : nat;
  allocated : nat
}.

Definition with_vector (p : object_pool) (v : Vector.vector nat) : object_pool :=
  MkPool v (m_elasticity p) (allocated p).

Definition size (p : object_pool) : nat := Vector.size (m_vector p).
Definition empty (p : object_pool) : bool := Vector.is_empty (m_vector p).

Definition set_elasticity (p : object_pool) (elasticity : nat) : object_pool :=
  MkPool (m_vector p) elasticity (allocated p).

(** The loop of [add_to_pool] with [n] rounds to go and [i] rounds done. *)
Fixpoint add_loop (n i : nat) (p : object_pool) (a : Alloc.t)
    : nat * object_pool * Alloc.t :=
  match n with
  | O => (i, p, a)
  | S n' =>
    let '(tmp, a1) := Alloc.allocate a in
    if negb tmp then (i, p, a1)
    else
      let '(pushed, v, a2) := Vector.push_back (m_vector p) (allocated p) a1 in
      let p1 := MkPool v (m_elasticity p) (S (allocated p)) in
      if negb pushed then (i, p1, a2) else add_loop n' (S i) p1 a2
  end.

Definition add_to_pool (p : object_pool) (num_objects : nat) (a : Alloc.t)
    : nat * object_pool * Alloc.t :=
  let '(_, v, a1) :=
    Vector.reserve (m_vector p) (Vector.size (m_vector p) + num_objects) a in
  add_loop num_objects 0 (with_vector p v) a1.

(** [object_pool(alloc, num_objects, elasticity)] *)
Definition new_pool (num_objects elasticity : nat) (a : Alloc.t)
    : object_pool * Alloc.t :=
  let m_elasticity := if (elasticity <? 1)%nat then 1%nat else elasticity in
  let '(_, p, a1) := add_to_pool (MkPool Vector.new m_elasticity 0) num_objects a in
  (p, a1).

(** [get(args...)]: the pointer returned, [None] for [nullptr]. *)
Definition get (p : object_pool) (a : Alloc.t) : option nat * object_pool * Alloc.t :=
  let '(filled, p1, a1) :=
    if Vector.is_empty (m_vector p) then
      let '(n, p1, a1) := add_to_pool p (m_elasticity p) a in
      (negb (n <? 1)%nat, p1, a1)
    else (true, p, a) in
  if negb filled then (None, p1, a1)
  else
    match Vector.back (m_vector p1) with
    | Some rval => (Some rval, with_vector p1 (Vector.pop_back (m_vector p1)), a1)
    | None => (None, p1, a1)
    end.

(** [put(in)]; the result of [push_back] is dropped. *)
Definition put (p : object_pool) (ptr : option nat) (a : Alloc.t)
    : object_pool * Alloc.t :=
  match ptr with
  | None => (p, a)
  | Some x =>
    let '(_, v, a1) := Vector.push_back (m_vector p) x a in
    (with_vector p v, a1)
  end.

(** A program that owns a pool: [out] are the pointers it has got from
    [get] and not yet given back. *)
Record client := MkClient {
  pool : object_pool;
  out : list nat;
  alloc : Alloc.t
}.

Inductive op :=
  | Get                          (* out.push_front(pool.get()) unless null *)
  | Put (k : nat)                (* pool.put(out[k]); out.erase(k) *)
  | AddToPool (num_objects : nat)
  | SetElasticity (elasticity : nat).

Definition step (o : op) (c : client) : client :=
  match o with
  | Get =>
    let '(r, p, a) := get (pool c) (alloc c) in
    MkClient p (match r with Some x => x :: out c | None => out c end) a
  | Put k =>
    match out c !! k with
    | Some x =>
      let '(p, a) := put (pool c) (Some x) (alloc c) in
      MkClient p (delete k (out c)) a
    | None => c
    end
  | AddToPool n =>
    let '(_, p, a) := add_to_pool (pool c) n (alloc c) in
    MkClient p (out c) a
  | SetElasticity e => MkClient (set_elasticity (pool c) e) (out c) (alloc c)
  end.

Definition run (ops : list op) (c : client) : client :=
  fold_left (fun c o => step o c) ops c.

Definition start (num_objects elasticity : nat) (a : Alloc.t) : client :=
  let '(p, a1) := new_pool num_objects elasticity a in MkClient p [] a1.

End ObjectPool.

(** ** memory.hpp: [unique_ptr] *)

Module UniquePtr.

(** An object made by [make_unique]: how often its destructor has run and
    how often its storage has gone back to the allocator. *)
Record object := MkObj { destroyed : nat; deallocated : nat }.

(** [m_alloc] tells whether the allocator pointer is set; [m_data] is the
    object held, [None] for [nullptr]. *)
Record unique_ptr := MkPtr { m_alloc : bool; m_data : option nat }.

Record state := MkState {
  heap : list object;
  ptrs : list unique_ptr;
  alloc : Alloc.t
}.

(** [unique_ptr()] *)
Definition null : unique_ptr := MkPtr false None.

Definition init (n : nat) (a : Alloc.t) : state := MkState [] (replicate n null) a.

(** [release()] *)
Definition release (u : unique_ptr) : option nat * unique_ptr :=
  (m_data u, MkPtr (m_alloc u) None).

Definition destroy (o : object) : object := MkObj (S (destroyed o)) (deallocated o).
Definition deallocate (o : object) : object := MkObj (destroyed o) (S (deallocated o)).

(** [reset()] *)
Definition reset (u : unique_ptr) (hp : list object) : unique_ptr * list object :=
  let '(to_del, u1) := release u in
  match to_del with
  | None => (u1, hp)
  | Some b =>
    let hp1 := alter destroy b hp in
    let hp2 := if m_alloc u1 then alter deallocate b hp1 else hp1 in
    (MkPtr false None, hp2)
  end.

(** [make_unique<T>(alloc, args...)]: the temporary returned. *)
Definition make_unique (st : state) : unique_ptr * state :=
  let '(tmp, a1) := Alloc.allocate (alloc st) in
  if negb tmp then (null, MkState (heap st) (ptrs st) a1)
  else (MkPtr true (Some (length (heap st))),
        MkState (heap st ++ [MkObj 0 0]) (ptrs st) a1).

(** [ptrs[i] = std::move(o)] for an [o] that is not [ptrs[i]]: what
    [ptrs[i]] becomes; [o] is left null. *)
Definition assign (i : nat) (o : unique_ptr) (st : state) : state :=
  match ptrs st !! i with
  | None => st
  | Some u =>
    let '(_, hp) := reset u (heap st) in
    MkState hp (<[i := MkPtr (m_alloc o) (m_data o)]> (ptrs st)) (alloc st)
  end.

Inductive op :=
  | MakeUnique (i : nat)      (* ptrs[i] = make_unique<T>(alloc, v) *)
  | Move (i j : nat)          (* ptrs[i] = std::move(ptrs[j]) *)
  | Reset (i : nat)           (* ptrs[i].reset(), ptrs[i] = nullptr, ~unique_ptr() *)
  | Swap (i j : nat)          (* ptrs[i].swap(ptrs[j]) *)
  | Release (i : nat).        (* ptrs[i].release(), the result not kept *)

Definition step (o : op) (st : state) : state :=
  match o with
  | MakeUnique i =>
    let '(tmp, st1) := make_unique st in assign i tmp st1
  | Move i j =>
    match ptrs st !! i, ptrs st !! j with
    | Some _, Some o =>
      if bool_decide (i = j) then st
      else
        let st1 := assign i o st in
        MkState (heap st1) (<[j := null]> (ptrs st1)) (alloc st1)
    | _, _ => st
    end
  | Reset i =>
    match ptrs st !! i with
    | Some u =>
      let '(u1, hp) := reset u (heap st) in
      MkState hp (<[i := u1]> (ptrs st)) (alloc st)
    | None => st
    end
  | Swap i j =>
    match ptrs st !! i, ptrs st !! j with
    | Some u, Some o => MkState (heap st) (<[j := u]> (<[i := o]> (ptrs st))) (alloc st)
    | _, _ => st
    end
  | Release i =>
    match ptrs st !! i with
    | Some u => MkState (heap st) (<[i := (release u).2]> (ptrs st)) (alloc st)
    | None => st
    end
  end.

Definition run (ops : list op) (st : state) : state :=
  fold_left (fun st o => step o st) ops st.

(** What a program state keeps: a pointer that is not null holds an object
    of the heap that is alive and has its allocator; no two pointers hold
    the same object; an object's destructor has run once at the most, and
    its storage has gone back as often as the destructor has run. *)
Record inv (st : state) : Prop := {
  inv_alive : ∀ i u b, ptrs st !! i = Some u → m_data u = Some b →
      m_alloc u = true ∧ heap st !! b = Some (MkObj 0 0);
  inv_alone : ∀ i j u v b, ptrs st !! i = Some u → ptrs st !! j = Some v →
      m_data u = Some b → m_data v = Some b → i = j;
  inv_once : ∀ b o, heap st !! b = Some o →
      (destroyed o <= 1)%nat ∧ deallocated o = destroyed o
}.

End UniquePtr.

(** ** Maps from 32-bit keys to integers under the library's FNV-1a hash *)

Module MapScenario.
Import Map.
Local Open Scope Z_scope.

Definition M : Type := unordered_map Z Z.
Definition h : Z → Z := Hash.hash_u32.

(** A move of a [uint32_t] key copies it. *)
Definition moved_u32 : Z → Z := λ k, k.

Definition keys (n : nat) : list Z := Z.of_nat <$> seq 0 n.

(** [put(k, k + 1)] for each of the keys. *)
Definition puts (ks : list Z) : list (call Z Z) := (λ k, CPut k (k + 1)) <$> ks.

(** A map built with the default load factor 5.0 and an allocator that never
    fails. *)
Definition fresh : M := (new_map 500 []).1.

Definition after (cs : list (call Z Z)) (m : M) : M :=
  match do_calls h moved_u32 0 cs m [] with
  | Some (_, m', _) => m'
  | None => m
  end.

(** 85 keys on the 17 initial buckets: the last put starts a resize. *)
Definition m85 : M := after (puts (keys 85)) fresh.

(** 655 keys: the resize to 257 buckets is under way, 131 buckets in [main]. *)
Definition m655 : M := after (puts (keys 655)) fresh.

(** One put whose bucket slot is allocated and whose value is not. *)
Definition after_failed_put : M := (put h moved_u32 fresh 7 8 [true; false]).1.2.

(** One key stored. *)
Definition one_key : M := (put h moved_u32 fresh 7 8 []).1.2.

(** Three keys stored. *)
Definition m3 : M := after (puts (keys 3)) fresh.

(** 655 keys, and key 363 put again while the resize is under way. *)
Definition m655_reput : M := after (puts (keys 655) ++ [CPut 363 9999]) fresh.

(** The table behind a [Table*], a table without buckets for a null pointer. *)
Definition table_of (t : option (Table Z Z)) : Table Z Z :=
  default (MkTable Vector.new 0 0 0) t.

(** [rtl::hash<std::string>], a string given by its bytes. *)
Definition hash_string : list Z → Z := Hash.fnv1a_string.

(** A [std::string] that has been moved from: the standard leaves its value
    open, the usual libraries leave the empty string. *)
Definition moved_string : list Z → list Z := λ _, [].

(** The empty string and the 84 strings of one character with the codes 1
    to 84. *)
Definition names : list (list Z) := [] :: ((λ i, [Z.of_nat i]) <$> seq 1 84).

(** [put(s, s.length() + 1)] for each of the 85 strings on a fresh map: the
    last put starts a resize. *)
Definition strings85 : unordered_map (list Z) Z :=
  match do_calls hash_string moved_string 0
          ((λ s, CPut s (Z.of_nat (length s) + 1)) <$> names)
          (new_map 500 []).1 [] with
  | Some (_, m, _) => m
  | None => (new_map 500 []).1
  end.

End MapScenario.

(** * Properties *)

(** ** Ring buffer *)

Section RingBufferFacts.
Import RingBuffer.
Local Open Scope Z_scope.

Lemma wrap_small z : 0 <= z < U32.modulus → U32.wrap z = z.
Proof. intros. unfold U32.wrap. apply Z.mod_small. assumption. Qed.

Lemma add_small a b : 0 <= a + b < U32.modulus → U32.add a b = a + b.
Proof. intros. unfold U32.add. by apply wrap_small. Qed.

Lemma sub_small a b : 0 <= a - b < U32.modulus → U32.sub a b = a - b.
Proof. intros. unfold U32.sub. by apply wrap_small. Qed.

Lemma length_fetch p off len : length (fetch p off len) = Z.to_nat len.
Proof.
  unfold fetch. by rewrite length_fmap, length_seq.
Qed.

Lemma length_store buf off bs :
  (Z.to_nat off + length bs <= length buf)%nat →
  length (store buf off bs) = length buf.
Proof.
  intros. unfold store.
  rewrite !length_app, length_take, length_drop. lia.
Qed.

Lemma get_bytes_written_wf rb :
  wf rb →
  get_bytes_written rb (m_write_index rb) (m_read_index rb) =
    if m_write_index rb >=? m_read_index rb
    then m_write_index rb - m_read_index rb
    else m_capacity rb - m_read_index rb + m_write_index rb.
Proof.
  intros [Hc Hw Hr Hwi Hb]. unfold get_bytes_written, U32.modulus in *.
  rewrite Hw. destruct (Z.geb_spec (m_write_index rb) (m_read_index rb)).
  - rewrite sub_small; unfold U32.modulus; lia.
  - rewrite (sub_small (m_capacity rb - 1)) by (unfold U32.modulus; lia).
    rewrite (add_small _ 1) by (unfold U32.modulus; lia).
    rewrite add_small; unfold U32.modulus; lia.
Qed.

Lemma priv_write_length rb inp amt :
  wf rb → 0 <= amt →
  (if m_write_index rb >=? m_read_index rb then amt <= m_capacity rb
   else m_write_index rb + amt <= m_capacity rb) →
  length (priv_write rb inp amt (m_write_index rb) (m_read_index rb)).1
    = length (m_buf rb).
Proof.
  intros [Hc Hw Hr Hwi Hb] Hamt Hfit. unfold priv_write, U32.modulus in *.
  rewrite Hw. destruct (Z.geb_spec (m_write_index rb) (m_read_index rb)); simpl.
  - rewrite (sub_small (m_capacity rb - 1)) by (unfold U32.modulus; lia).
    rewrite add_small by (unfold U32.modulus; lia).
    assert (Hl1 : length (store (m_buf rb) (m_write_index rb)
               (fetch inp 0 (m_capacity rb - 1 - m_write_index rb + 1)))
             = length (m_buf rb)).
    { apply length_store. rewrite length_fetch. lia. }
    rewrite length_store; [done|]. rewrite length_fetch, Hl1.
    destruct (Z.gtb_spec (m_capacity rb - 1 - m_write_index rb + 1) amt); [lia|].
    rewrite sub_small by (unfold U32.modulus; lia). lia.
  - apply length_store. rewrite length_fetch. lia.
Qed.

Lemma mod_index_range x c : 0 < c → 0 <= x mod c < c.
Proof. intros. apply Z.mod_pos_bound. lia. Qed.

Lemma write_wf rb input sz : wf rb → U32.in_range sz → wf (write rb input sz).1.2.
Proof.
  intros Hwf Hsz. unfold write.
  destruct (sz >? m_writable_capacity rb) eqn:E1; [done|].
  destruct (sz =? 0) eqn:E2; [done|].
  destruct input as [inp|]; [|done].
  rewrite get_bytes_written_wf by done.
  pose proof Hwf as [Hc Hw Hr Hwi Hb]. unfold U32.in_range, U32.modulus in *.
  set (stored := if m_write_index rb >=? m_read_index rb
                 then m_write_index rb - m_read_index rb
                 else m_capacity rb - m_read_index rb + m_write_index rb).
  assert (Hst : 0 <= stored <= m_capacity rb - 1).
  { subst stored. destruct (Z.geb_spec (m_write_index rb) (m_read_index rb)); lia. }
  rewrite sub_small by (unfold U32.modulus; lia).
  destruct (sz >? m_writable_capacity rb - stored) eqn:E3; [done|].
  destruct (priv_write rb inp _ _ _) as [buf log] eqn:Epw. simpl.
  assert (Hlen : length buf = length (m_buf rb)).
  { change buf with (buf, log).1. rewrite <- Epw. apply priv_write_length; [done|lia|].
    subst stored. destruct (Z.geb_spec (m_write_index rb) (m_read_index rb)); lia. }
  constructor; simpl; try done; try lia.
  apply mod_index_range. lia.
Qed.

Lemma write_bytes_wf rb input sz :
  wf rb → U32.in_range sz → wf (write_bytes rb input sz).1.2.
Proof.
  intros Hwf Hsz. unfold write_bytes.
  destruct input as [inp|]; [|done].
  set (sz' := if sz >? m_writable_capacity rb then m_writable_capacity rb else sz).
  destruct (sz' =? 0) eqn:E2; [done|].
  rewrite get_bytes_written_wf by done.
  pose proof Hwf as [Hc Hw Hr Hwi Hb]. unfold U32.in_range, U32.modulus in *.
  set (stored := if m_write_index rb >=? m_read_index rb
                 then m_write_index rb - m_read_index rb
                 else m_capacity rb - m_read_index rb + m_write_index rb).
  assert (Hst : 0 <= stored <= m_capacity rb - 1).
  { subst stored. destruct (Z.geb_spec (m_write_index rb) (m_read_index rb)); lia. }
  assert (Hsz' : 0 <= sz' <= m_capacity rb - 1).
  { subst sz'. destruct (Z.gtb_spec sz (m_writable_capacity rb)); lia. }
  rewrite sub_small by (unfold U32.modulus; lia).
  destruct (priv_write rb inp _ _ _) as [buf log] eqn:Epw. simpl.
  assert (Hlen : length buf = length (m_buf rb)).
  { change buf with (buf, log).1. rewrite <- Epw. apply priv_write_length; [done|lia|].
    subst stored. destruct (Z.geb_spec (m_write_index rb) (m_read_index rb)); lia. }
  constructor; simpl; try done; try lia.
  apply mod_index_range. lia.
Qed.

Lemma read_wf rb output_valid max_read :
  wf rb → wf (read rb output_valid max_read).2.
Proof.
  intros Hwf. unfold read. destruct (negb output_valid); [done|].
  match goal with |- context [if ?c =? 0 then _ else _] => destruct (c =? 0) end; [done|].
  destruct Hwf as [Hc Hw Hr Hwi Hb]. constructor; simpl; try done.
  apply mod_index_range. lia.
Qed.

Lemma commit_write_wf rb sz : wf rb → wf (commit_write rb sz).
Proof.
  intros Hwf. unfold commit_write. destruct (sz =? 0); [done|].
  destruct Hwf as [Hc Hw Hr Hwi Hb]. constructor; simpl; try done.
  apply mod_index_range. lia.
Qed.

Lemma commit_read_wf rb sz : wf rb → wf (commit_read rb sz).
Proof.
  intros Hwf. unfold commit_read. destruct (sz =? 0); [done|].
  destruct Hwf as [Hc Hw Hr Hwi Hb]. constructor; simpl; try done.
  apply mod_index_range. lia.
Qed.

Lemma make_wf buf capacity :
  Z.of_nat (length buf) = capacity → 0 < capacity < U32.modulus →
  wf (make buf capacity).
Proof.
  intros Hl Hc. unfold make. constructor; simpl; try done; try lia.
  destruct (Z.gtb_spec capacity 0); [|lia].
  apply sub_small. lia.
Qed.

Lemma reachable_wf rb : reachable rb → wf rb.
Proof.
  induction 1; eauto using make_wf, write_wf, write_bytes_wf, read_wf,
    commit_write_wf, commit_read_wf.
Qed.

Lemma contig_region_wf rb :
  wf rb →
  0 <= contig_region rb < m_capacity rb + 1 ∧
  m_write_index rb + contig_region rb <= m_capacity rb.
Proof.
  intros [Hc Hw Hr Hwi Hb]. unfold contig_region. rewrite Hw.
  destruct (Z.geb_spec (m_write_index rb) (m_read_index rb));
    destruct (Z.gtb_spec (m_read_index rb) 0); lia.
Qed.

(** C5 (as amended): in every reachable state [alloc_contig] returns the
    write position; the contiguous region is [writable_capacity - write_index],
    plus one byte if [read_index > 0], when [write_index >= read_index], and
    [read_index - write_index - 1] otherwise; a request larger than the region
    gets [*sz] set to the region and [*end_of_buffer] set to whether the
    region stops at the physical end of the buffer; a request that fits
    leaves both untouched. *)
Theorem alloc_contig_region rb sz end_of_buffer :
  reachable rb → U32.in_range sz →
  let '(ptr, sz', end_of_buffer') := alloc_contig rb sz end_of_buffer in
  ptr = m_write_index rb ∧
  (contig_region rb < sz →
     sz' = contig_region rb ∧ end_of_buffer' = reaches_physical_end rb) ∧
  (sz <= contig_region rb → sz' = sz ∧ end_of_buffer' = end_of_buffer).
Proof.
  intros Hreach Hsz. pose proof (reachable_wf _ Hreach) as Hwf.
  destruct Hwf as [Hc Hw Hr Hwi Hb].
  unfold alloc_contig, reaches_physical_end, contig_region in *.
  unfold U32.in_range, U32.modulus in *. rewrite Hw in *.
  destruct (Z.geb_spec (m_write_index rb) (m_read_index rb)).
  - rewrite sub_small by (unfold U32.modulus; lia).
    destruct (Z.eqb_spec (m_read_index rb) 0) as [E|E]; simpl.
    + rewrite E in *. simpl in *.
      destruct (Z.ltb_spec (m_capacity rb - 1 - m_write_index rb) sz).
      * split; [done|]. split; intros; [|lia]. split; [lia|].
        symmetry. apply Z.eqb_neq. lia.
      * split; [done|]. split; intros; [lia|]. done.
    + destruct (Z.gtb_spec (m_read_index rb) 0); [|lia].
      rewrite add_small by (unfold U32.modulus; lia).
      destruct (Z.ltb_spec (m_capacity rb - 1 - m_write_index rb + 1) sz).
      * split; [done|]. split; intros; [|lia]. split; [lia|].
        symmetry. apply Z.eqb_eq. lia.
      * split; [done|]. split; intros; [lia|]. done.
  - rewrite (sub_small (m_read_index rb)) by (unfold U32.modulus; lia).
    rewrite sub_small by (unfold U32.modulus; lia).
    destruct (Z.ltb_spec (m_read_index rb - m_write_index rb - 1) sz).
    * split; [done|]. split; intros; [|lia]. split; [lia|].
      symmetry. apply Z.eqb_neq. lia.
    * split; [done|]. split; intros; [lia|]. done.
Qed.

Lemma alloc_contig_region_witness :
  let rb := (read (write (make (replicate 5 0) 5) (Some [1; 2; 3]) 3).1.2 true 2).2 in
  reachable rb ∧ U32.in_range 10 ∧
  (m_write_index rb, m_read_index rb, contig_region rb) = (3, 2, 2) ∧
  let '(ptr, sz', end_of_buffer') := alloc_contig rb 10 false in
  ptr = m_write_index rb ∧
  (contig_region rb < 10 →
     sz' = contig_region rb ∧ end_of_buffer' = reaches_physical_end rb) ∧
  (10 <= contig_region rb → sz' = 10 ∧ end_of_buffer' = false).
Proof.
  intros rb.
  assert (Hs : U32.in_range 10) by (unfold U32.in_range, U32.modulus; lia).
  assert (Hr : reachable rb).
  { apply reach_read; [|exact Hs]. apply reach_write; [|exact Hs].
    apply reach_make; [reflexivity | unfold U32.modulus; lia]. }
  split; [exact Hr|]. split; [exact Hs|]. split; [reflexivity|].
  exact (alloc_contig_region rb 10 false Hr Hs).
Defined.

(** C5 (as stated) fails: on a fresh buffer of capacity 5 a request for 10
    bytes is cut to 4, not to the 5 that [capacity - write_index] gives. *)
Lemma alloc_contig_capacity_counterexample :
  let rb := make (replicate 5 0) 5 in
  reachable rb ∧ spec_contig_region rb = 5 ∧ spec_contig_region rb < 10 ∧
  (alloc_contig rb 10 false).1.2 = 4 ∧
  (alloc_contig rb 10 false).1.2 ≠ spec_contig_region rb.
Proof.
  split; [apply reach_make; [reflexivity | unfold U32.modulus; lia]|].
  vm_compute. repeat split; congruence.
Qed.

(** C3 (as stated) fails in part (c): with 4 bytes stored, a write of another
    7 bytes is refused, and [compound_alloc_contig] still reports a first
    region of 3 bytes. *)
Lemma compound_alloc_fill_counterexample :
  let rb := after_write (after_read (after_write scenario_rb 5) 5) 4 in
  (write rb scenario_input 7).1.1 = false ∧
  first_buf_sz (compound_alloc_contig (after_write rb 7)) = 3 ∧
  ¬ (first_buf_sz (compound_alloc_contig (after_write rb 7)) = 0 ∧
     second_buf_sz (compound_alloc_contig (after_write rb 7)) = 0).
Proof.
  vm_compute. split; [reflexivity|]. split; [reflexivity|].
  intros [H _]. discriminate H.
Qed.

(** C3 (as amended): capacity 8; (a) after writing 5 bytes the result is
    first=&buf[5], 2 bytes, no second region, write ahead of read; (b) after
    then reading 5 and writing 4 it is first=&buf[1], 3 bytes, no second
    region, write not ahead of read; (c) a write of another 7 bytes is
    refused and changes nothing, the buffer is full after another 3 bytes and
    both sizes are then 0, as they are in a fresh buffer after writing 7
    bytes; (d) in a separate run, after writing 5 and reading 3, the result is
    first=&buf[5], 3 bytes, second=&buf[0], 2 bytes. *)
Theorem compound_alloc_scenarios :
  let a := after_write scenario_rb 5 in
  let b := after_write (after_read a 5) 4 in
  let d := after_read (after_write scenario_rb 5) 3 in
  compound_alloc_contig a = AllocResult (Some 5) 2 None 0 true ∧
  compound_alloc_contig b = AllocResult (Some 1) 3 None 0 false ∧
  write b scenario_input 7 = (false, b, []) ∧
  (write b scenario_input 3).1.1 = true ∧
  compound_alloc_contig (after_write b 3) = AllocResult None 0 None 0 false ∧
  compound_alloc_contig (after_write scenario_rb 7) = AllocResult None 0 None 0 true ∧
  compound_alloc_contig d = AllocResult (Some 5) 3 (Some 0) 2 true.
Proof. vm_compute. repeat split. Qed.

(** C2 (the code at the failing input): capacity 8 with 5 bytes stored;
    [write_bytes] of 5 more bytes returns 2, yet the write index moves by 5,
    so the stored count drops from 5 to 2 instead of growing to 7, and a
    reader then gets two of the old bytes and none of the new ones. *)
Theorem write_bytes_overrun :
  let rb := (write scenario_rb (Some [1; 2; 3; 4; 5]) 5).1.2 in
  let '(k, rb', _) := write_bytes rb (Some [11; 12; 13; 14; 15]) 5 in
  approx_size rb = 5 ∧ k = 2 ∧
  m_write_index rb' = 2 ∧ approx_size rb' = 2 ∧
  approx_size rb' ≠ approx_size rb + k ∧
  contents rb' = [1; 2] ∧
  (read rb' true 7).1 = (2, [1; 2]).
Proof. vm_compute. repeat split; congruence. Qed.

(** C9 (the code at the failing input): on a fresh buffer of capacity 8,
    [write] of a 2-byte input copies 8 bytes out of it, and so does
    [write_bytes]. *)
Theorem priv_write_reads_past_input :
  let input := [1; 2] in
  (write scenario_rb (Some input) 2).1.1 = true ∧
  (write scenario_rb (Some input) 2).2 = [Access 0 8; Access 8 0] ∧
  input_extent (write scenario_rb (Some input) 2).2 = 8 ∧
  (write_bytes scenario_rb (Some input) 2).1.1 = 2 ∧
  input_extent (write_bytes scenario_rb (Some input) 2).2 = 8 ∧
  Z.of_nat (length input) < 8.
Proof. vm_compute. repeat split. Qed.

Lemma lookup_app_decide {A} (l1 l2 : list A) (i : nat) :
  (l1 ++ l2) !! i = if decide (i < length l1)%nat then l1 !! i else l2 !! (i - length l1)%nat.
Proof.
  case_decide.
  - by apply lookup_app_l.
  - apply lookup_app_r. lia.
Qed.

Lemma lookup_load l a len i :
  load l a len !! i =
    if decide (i < Z.to_nat len)%nat then l !! (Z.to_nat a + i)%nat else None.
Proof. unfold load. rewrite lookup_take. case_decide; [|done]. apply lookup_drop. Qed.

Lemma length_load l a len :
  0 <= a → 0 <= len → a + len <= Z.of_nat (length l) →
  length (load l a len) = Z.to_nat len.
Proof. intros. unfold load. rewrite length_take, length_drop. lia. Qed.

Lemma lookup_fetch p off len i :
  fetch p off len !! i =
    if decide (i < Z.to_nat len)%nat then Some (nth (Z.to_nat off + i) p 0) else None.
Proof.
  unfold fetch. rewrite list_lookup_fmap. case_decide.
  - by rewrite lookup_seq_lt.
  - rewrite lookup_seq_ge; [done|lia].
Qed.

Lemma lookup_store buf off bs i :
  (Z.to_nat off <= length buf)%nat →
  store buf off bs !! i =
    if decide (i < Z.to_nat off)%nat then buf !! i
    else if decide (i < Z.to_nat off + length bs)%nat then bs !! (i - Z.to_nat off)%nat
    else buf !! i.
Proof.
  intros Hoff. unfold store.
  rewrite !lookup_app_decide, length_take, lookup_take, lookup_drop.
  repeat case_decide; try lia; try done.
  all: try (f_equal; lia).
Qed.

Lemma store_nil buf : store buf 0 [] = buf.
Proof. unfold store. simpl. by rewrite drop_0. Qed.

Lemma fetch_0 p off : fetch p off 0 = [].
Proof. done. Qed.

Lemma fetch_take p n :
  0 <= n <= Z.of_nat (length p) → fetch p 0 n = take (Z.to_nat n) p.
Proof.
  intros Hn. apply list_eq. intros i.
  rewrite lookup_fetch, lookup_take. case_decide; [|done].
  simpl. destruct (lookup_lt_is_Some_2 p i) as [x Hx]; [lia|].
  rewrite Hx. f_equal. by apply nth_lookup_Some.
Qed.

Lemma approx_size_wf rb :
  wf rb →
  approx_size rb =
    if m_write_index rb >=? m_read_index rb
    then m_write_index rb - m_read_index rb
    else m_capacity rb - m_read_index rb + m_write_index rb.
Proof. apply get_bytes_written_wf. Qed.

(** Equality of byte lists built from [load], [store] and [fetch], index by
    index. *)
Ltac len_norm :=
  repeat match goal with
  | H : length (store _ _ _) = _ |- _ => progress rewrite H
  end;
  rewrite ?length_fetch.

Ltac lookup_step :=
  first
    [ rewrite lookup_app_decide
    | rewrite lookup_load
    | rewrite lookup_fetch
    | rewrite length_fetch
    | rewrite length_app
    | rewrite length_load by (len_norm; lia)
    | rewrite lookup_store by (len_norm; lia)
    | case_decide ].

Ltac solve_lookup :=
  apply list_eq; intros ?;
  repeat (lookup_step; try lia);
  try done; try (f_equal; lia); try (do 2 f_equal; lia).

Lemma write_fits rb inp n :
  wf rb → m_capacity rb <= 2 ^ 31 →
  0 < n <= m_writable_capacity rb - approx_size rb →
  let rb' := (write rb (Some inp) n).1.2 in
  (write rb (Some inp) n).1.1 = true ∧
  contents rb' = contents rb ++ fetch inp 0 n ∧
  approx_size rb' = approx_size rb + n ∧
  m_read_index rb' = m_read_index rb.
Proof.
  intros Hwf Hcap Hn.
  pose proof (write_wf rb (Some inp) n Hwf) as Hwf'.
  rewrite approx_size_wf in Hn by done.
  pose proof Hwf as [Hc Hw Hr Hwi Hb]. unfold U32.modulus in *.
  assert (Hrange : U32.in_range n).
  { unfold U32.in_range, U32.modulus. revert Hn.
    destruct (Z.geb_spec (m_write_index rb) (m_read_index rb)); lia. }
  specialize (Hwf' Hrange).
  rewrite (approx_size_wf _ Hwf'). rewrite (approx_size_wf rb Hwf).
  revert Hwf'. unfold write.
  destruct (Z.gtb_spec n (m_writable_capacity rb)) as [Hgt|_].
  { revert Hn. destruct (Z.geb_spec (m_write_index rb) (m_read_index rb)); lia. }
  destruct (Z.eqb_spec n 0) as [->|_]; [lia|].
  rewrite get_bytes_written_wf by done.
  set (stored := if m_write_index rb >=? m_read_index rb
                 then m_write_index rb - m_read_index rb
                 else m_capacity rb - m_read_index rb + m_write_index rb) in *.
  assert (Hst : 0 <= stored <= m_capacity rb - 1).
  { subst stored. destruct (Z.geb_spec (m_write_index rb) (m_read_index rb)); lia. }
  rewrite sub_small by (unfold U32.modulus; lia).
  destruct (Z.gtb_spec n (m_writable_capacity rb - stored)) as [Hgt|_]; [lia|].
  rewrite Z.min_l by lia.
  rewrite add_small by (unfold U32.modulus; lia).
  unfold priv_write, contents. rewrite Hw. subst stored.
  destruct (Z.geb_spec (m_write_index rb) (m_read_index rb)) as [Hge|Hlt].
  - (* the write index is ahead of the read index *)
    rewrite (sub_small (m_capacity rb - 1)) by (unfold U32.modulus; lia).
    rewrite add_small by (unfold U32.modulus; lia).
    replace (m_capacity rb - 1 - m_write_index rb + 1)
      with (m_capacity rb - m_write_index rb) by lia.
    destruct (Z.gtb_spec (m_capacity rb - m_write_index rb) n) as [Hshort|Hlong].
    + (* no wrap *)
      rewrite fetch_0, store_nil. simpl.
      rewrite Z.mod_small by lia.
      intros Hwf'.
      destruct (Z.geb_spec (m_write_index rb + n) (m_read_index rb)); [|lia].
      split; [done|]. split; [|lia]. solve_lookup.
    + (* the input wraps around the end of the buffer *)
      rewrite sub_small by (unfold U32.modulus; lia). simpl.
      replace ((m_write_index rb + n) mod m_capacity rb)
        with (m_write_index rb + n - m_capacity rb).
      2:{ apply Z.mod_unique with (q := 1); lia. }
      intros Hwf'.
      destruct (Z.geb_spec (m_write_index rb + n - m_capacity rb) (m_read_index rb)); [lia|].
      split; [done|]. split; [|lia].
      assert (Hl1 : length (store (m_buf rb) (m_write_index rb)
                 (fetch inp 0 (m_capacity rb - m_write_index rb))) = length (m_buf rb)).
      { apply length_store. rewrite length_fetch. lia. }
      assert (Hl2 : length (store (store (m_buf rb) (m_write_index rb)
                 (fetch inp 0 (m_capacity rb - m_write_index rb))) 0
                 (fetch inp (m_capacity rb - m_write_index rb)
                    (n - (m_capacity rb - m_write_index rb)))) = length (m_buf rb)).
      { rewrite length_store; [done|]. rewrite Hl1, length_fetch. lia. }
      solve_lookup.
  - (* the read index is ahead of the write index *)
    simpl. rewrite Z.mod_small by lia. intros Hwf'.
    destruct (Z.geb_spec (m_write_index rb + n) (m_read_index rb)); [lia|].
    split; [done|]. split; [|lia].
    assert (Hl1 : length (store (m_buf rb) (m_write_index rb) (fetch inp 0 n))
                  = length (m_buf rb)).
    { apply length_store. rewrite length_fetch. lia. }
    solve_lookup.
Qed.

Lemma read_observes_contents rb :
  wf rb →
  (read rb true (m_writable_capacity rb)).1 = (approx_size rb, contents rb).
Proof.
  intros Hwf. pose proof (approx_size_wf rb Hwf) as Hsz.
  pose proof Hwf as [Hc Hw Hr Hwi Hb]. unfold U32.modulus in *.
  unfold read. simpl.
  rewrite Z.gtb_ltb, Z.ltb_irrefl.
  destruct (Z.eqb_spec (m_writable_capacity rb) 0) as [E|E].
  - simpl. rewrite Hsz. unfold contents.
    assert (m_read_index rb = 0) by lia. assert (m_write_index rb = 0) by lia.
    destruct (Z.geb_spec (m_write_index rb) (m_read_index rb)); [|lia].
    f_equal; [lia|]. replace (m_write_index rb - m_read_index rb) with 0 by lia. done.
  - simpl. fold (approx_size rb). rewrite Hsz. unfold contents. rewrite Hw.
    destruct (Z.geb_spec (m_write_index rb) (m_read_index rb)).
    + rewrite Z.min_r by lia. done.
    + rewrite Z.min_r by lia.
      rewrite (sub_small (m_capacity rb - 1)) by (unfold U32.modulus; lia).
      rewrite add_small by (unfold U32.modulus; lia).
      replace (m_capacity rb - 1 - m_read_index rb + 1)
        with (m_capacity rb - m_read_index rb) by lia.
      destruct (Z.gtb_spec (m_capacity rb - m_read_index rb)
                  (m_capacity rb - m_read_index rb + m_write_index rb)); [lia|].
      rewrite sub_small by (unfold U32.modulus; lia).
      do 3 f_equal. lia.
Qed.

(** Whenever the write index is not behind the read index, [priv_write]
    copies from [input] all the bytes up to the end of the backing array,
    whatever the amount to write is. *)
Lemma priv_write_log rb inp amt :
  wf rb → 0 <= amt < m_capacity rb →
  m_read_index rb <= m_write_index rb →
  let until_end := m_capacity rb - m_write_index rb in
  (priv_write rb inp amt (m_write_index rb) (m_read_index rb)).2
    = [Access 0 until_end; Access until_end (Z.max 0 (amt - until_end))].
Proof.
  intros [Hc Hw Hr Hwi Hb] Hamt Hrw. unfold priv_write, U32.modulus in *.
  destruct (Z.geb_spec (m_write_index rb) (m_read_index rb)); [|lia].
  rewrite Hw. rewrite (sub_small (m_capacity rb - 1)) by (unfold U32.modulus; lia).
  rewrite add_small by (unfold U32.modulus; lia).
  replace (m_capacity rb - 1 - m_write_index rb + 1)
    with (m_capacity rb - m_write_index rb) by lia.
  simpl. f_equal. f_equal. f_equal.
  destruct (Z.gtb_spec (m_capacity rb - m_write_index rb) amt); [lia|].
  rewrite sub_small by (unfold U32.modulus; lia). lia.
Qed.

(** X1: a [write] that is accepted while the write index is not behind the
    read index reads from [input] up to offset
    [max n (capacity - write_index)]: the first copy always runs to the end
    of the backing array. *)
Lemma write_input_extent rb inp n :
  wf rb → m_read_index rb <= m_write_index rb →
  0 < n <= m_writable_capacity rb - approx_size rb →
  input_extent (write rb (Some inp) n).2 = Z.max n (m_capacity rb - m_write_index rb).
Proof.
  intros Hwf Hrw Hn.
  pose proof (approx_size_wf rb Hwf) as Hsz.
  pose proof Hwf as [Hc Hw Hr Hwi Hb]. unfold U32.modulus in *.
  destruct (Z.geb_spec (m_write_index rb) (m_read_index rb)); [|lia].
  unfold write. fold (approx_size rb).
  destruct (Z.gtb_spec n (m_writable_capacity rb)); [lia|].
  destruct (Z.eqb_spec n 0); [lia|].
  rewrite sub_small by (unfold U32.modulus; lia).
  destruct (Z.gtb_spec n (m_writable_capacity rb - approx_size rb)); [lia|].
  rewrite Z.min_l by lia.
  pose proof (priv_write_log rb inp n Hwf ltac:(lia) Hrw) as Hlog.
  destruct (priv_write rb inp n _ _) as [buf log]. simpl in *. subst log.
  unfold input_extent. simpl.
  destruct (Z.gtb_spec (Z.max 0 (n - (m_capacity rb - m_write_index rb))) 0);
    destruct (Z.gtb_spec (m_capacity rb - m_write_index rb) 0); lia.
Qed.

Lemma write_input_extent_witness :
  wf scenario_rb ∧ m_read_index scenario_rb <= m_write_index scenario_rb ∧
  0 < 2 <= m_writable_capacity scenario_rb - approx_size scenario_rb ∧
  input_extent (write scenario_rb (Some [9; 8]) 2).2
    = Z.max 2 (m_capacity scenario_rb - m_write_index scenario_rb).
Proof.
  assert (Hwf : wf scenario_rb)
    by (apply make_wf; [reflexivity | unfold U32.modulus; lia]).
  assert (Hrw : m_read_index scenario_rb <= m_write_index scenario_rb)
    by (vm_compute; discriminate).
  assert (Hn : 0 < 2 <= m_writable_capacity scenario_rb - approx_size scenario_rb)
    by (vm_compute; split; [reflexivity | discriminate]).
  split; [exact Hwf|]. split; [exact Hrw|]. split; [exact Hn|].
  exact (write_input_extent scenario_rb [9; 8] 2 Hwf Hrw Hn).
Defined.

(** X2: a partial [write_bytes] (more bytes asked for than are free, at most
    the writable capacity): the count it returns is the free space, but the
    write index moves by the whole request, so the stored count comes out as
    the old count plus the request minus the capacity, which is below the old
    count plus the bytes written. *)
Lemma write_bytes_partial rb inp n :
  wf rb → m_capacity rb <= 2 ^ 31 →
  m_writable_capacity rb - approx_size rb < n <= m_writable_capacity rb →
  let '(k, rb', _) := write_bytes rb (Some inp) n in
  k = m_writable_capacity rb - approx_size rb ∧
  approx_size rb' = approx_size rb + n - m_capacity rb ∧
  approx_size rb' < approx_size rb + k.
Proof.
  intros Hwf Hcap Hn.
  pose proof (write_bytes_wf rb (Some inp) n Hwf) as Hwf'.
  pose proof (approx_size_wf rb Hwf) as Hsz.
  pose proof Hwf as [Hc Hw Hr Hwi Hb]. unfold U32.in_range, U32.modulus in *.
  assert (Hst : 0 <= approx_size rb <= m_capacity rb - 1).
  { rewrite Hsz. destruct (Z.geb_spec (m_write_index rb) (m_read_index rb)); lia. }
  specialize (Hwf' ltac:(lia)).
  pose proof (approx_size_wf _ Hwf') as Hsz'.
  unfold write_bytes in *. fold (approx_size rb) in *.
  destruct (Z.gtb_spec n (m_writable_capacity rb)); [lia|].
  destruct (Z.eqb_spec n 0); [lia|].
  rewrite sub_small in * by (unfold U32.modulus; lia).
  rewrite Z.min_r in * by lia.
  destruct (priv_write rb inp _ _ _) as [buf log]. cbn [fst snd m_write_index m_read_index m_capacity set_write] in *.
  assert (Hadd : U32.add (m_write_index rb) n = m_write_index rb + n)
    by (apply add_small; unfold U32.modulus; lia).
  rewrite Hadd in *.
  split; [done|].
  assert (Hmod : (m_write_index rb + n) mod m_capacity rb =
                 if m_write_index rb + n <? m_capacity rb then m_write_index rb + n
                 else m_write_index rb + n - m_capacity rb).
  { destruct (Z.ltb_spec (m_write_index rb + n) (m_capacity rb)).
    - apply Z.mod_small. lia.
    - symmetry. apply (Z.mod_unique _ _ 1); lia. }
  rewrite Hmod in *. rewrite Hsz'. rewrite Hsz in *.
  destruct (Z.geb_spec (m_write_index rb) (m_read_index rb)),
           (Z.ltb_spec (m_write_index rb + n) (m_capacity rb));
    match goal with |- context [?a >=? ?b] => destruct (Z.geb_spec a b) end; lia.
Qed.

Lemma write_bytes_partial_witness :
  let rb := after_write scenario_rb 5 in
  wf rb ∧ m_capacity rb <= 2 ^ 31 ∧
  m_writable_capacity rb - approx_size rb < 5 <= m_writable_capacity rb ∧
  let '(k, rb', _) := write_bytes rb (Some [11; 12; 13; 14; 15]) 5 in
  k = m_writable_capacity rb - approx_size rb ∧
  approx_size rb' = approx_size rb + 5 - m_capacity rb ∧
  approx_size rb' < approx_size rb + k.
Proof.
  intros rb.
  assert (Hwf : wf rb).
  { apply write_wf; [|unfold U32.in_range, U32.modulus; lia].
    apply make_wf; [reflexivity | unfold U32.modulus; lia]. }
  assert (Hcap : m_capacity rb <= 2 ^ 31) by (vm_compute; discriminate).
  assert (Hn : m_writable_capacity rb - approx_size rb < 5 <= m_writable_capacity rb)
    by (vm_compute; split; [reflexivity | discriminate]).
  split; [exact Hwf|]. split; [exact Hcap|]. split; [exact Hn|].
  exact (write_bytes_partial rb [11; 12; 13; 14; 15] 5 Hwf Hcap Hn).
Defined.

(** C4 (as amended): [write] is all or nothing.  It returns false and leaves
    the buffer unchanged when [n] exceeds the writable capacity or the free
    space, and when the input is null and [n > 0]; a write of length 0
    returns true and changes nothing; with a non-null input and [n] bytes of
    free space (capacity at most 2^31) it returns true, the [n] bytes follow
    the stored ones, the stored count grows by [n], and a reader gets them
    back in order. *)
Theorem write_all_or_nothing rb input n :
  wf rb → U32.in_range n →
  let free := m_writable_capacity rb - approx_size rb in
  let r := write rb input n in
  (n > m_writable_capacity rb ∨ n > free → r = (false, rb, [])) ∧
  (n = 0 → r = (true, rb, [])) ∧
  (0 < n → input = None → r = (false, rb, [])) ∧
  (∀ inp, input = Some inp → 0 < n <= free → m_capacity rb <= 2 ^ 31 →
     r.1.1 = true ∧
     contents r.1.2 = contents rb ++ fetch inp 0 n ∧
     approx_size r.1.2 = approx_size rb + n ∧
     m_read_index r.1.2 = m_read_index rb ∧
     (read r.1.2 true (m_writable_capacity rb)).1
       = (approx_size rb + n, contents rb ++ fetch inp 0 n)).
Proof.
  intros Hwf Hn. simpl.
  pose proof (approx_size_wf rb Hwf) as Hsz.
  pose proof Hwf as [Hc Hw Hr Hwi Hb]. unfold U32.in_range, U32.modulus in *.
  assert (Hst : 0 <= approx_size rb <= m_capacity rb - 1).
  { rewrite Hsz. destruct (Z.geb_spec (m_write_index rb) (m_read_index rb)); lia. }
  repeat split.
  - intros Hbig. unfold write.
    destruct (Z.gtb_spec n (m_writable_capacity rb)); [done|].
    destruct (Z.eqb_spec n 0); [lia|].
    destruct input; [|done].
    fold (approx_size rb). rewrite sub_small by (unfold U32.modulus; lia).
    destruct (Z.gtb_spec n (m_writable_capacity rb - approx_size rb)); [done|lia].
  - intros ->. unfold write.
    destruct (Z.gtb_spec 0 (m_writable_capacity rb)); [lia|done].
  - intros Hpos ->. unfold write.
    destruct (Z.gtb_spec n (m_writable_capacity rb)); [done|].
    destruct (Z.eqb_spec n 0); [lia|done].
  - subst input. by apply write_fits.
  - subst input. by apply write_fits.
  - subst input. by apply write_fits.
  - subst input. by apply write_fits.
  - subst input.
    destruct (write_fits rb inp n Hwf H1 H0) as (_ & Hcont & Hsize & _).
    pose proof (write_wf rb (Some inp) n Hwf Hn) as Hwf'.
    rewrite <- Hcont, <- Hsize.
    replace (m_writable_capacity rb) with (m_writable_capacity (write rb (Some inp) n).1.2).
    + by apply read_observes_contents.
    + unfold write. repeat case_match; done.
Qed.

Lemma write_all_or_nothing_witness :
  let rb := after_write scenario_rb 5 in
  wf rb ∧ U32.in_range 2 ∧
  (write rb (Some [9; 8]) 2).1.1 = true ∧
  contents (write rb (Some [9; 8]) 2).1.2 = contents rb ++ [9; 8] ∧
  approx_size (write rb (Some [9; 8]) 2).1.2 = approx_size rb + 2.
Proof.
  intros rb.
  assert (Hn : U32.in_range 2) by (unfold U32.in_range, U32.modulus; lia).
  assert (Hwf : wf rb).
  { apply write_wf; [|unfold U32.in_range, U32.modulus; lia].
    apply make_wf; [reflexivity | unfold U32.modulus; lia]. }
  split; [exact Hwf|]. split; [exact Hn|].
  destruct (write_all_or_nothing rb (Some [9; 8]) 2 Hwf Hn) as (_ & _ & _ & Hfit).
  destruct (Hfit [9; 8] eq_refl) as (H1 & H2 & H3 & _).
  - vm_compute. split; [reflexivity | discriminate].
  - vm_compute. discriminate.
  - split; [exact H1|]. split; [exact H2 | exact H3].
Defined.

(** C4 (as stated) fails: one byte fits in the fresh buffer of capacity 8,
    yet [write] with a null input returns false and enqueues nothing. *)
Lemma write_null_input_counterexample :
  1 <= m_writable_capacity scenario_rb - approx_size scenario_rb ∧
  write scenario_rb None 1 = (false, scenario_rb, []) ∧
  (write scenario_rb None 1).1.1 ≠ true.
Proof. vm_compute. repeat split; congruence. Qed.

(** *** Reading *)

(** The stored bytes are as many as [approx_size] says. *)
Lemma length_contents rb :
  wf rb → Z.of_nat (length (contents rb)) = approx_size rb.
Proof.
  intros Hwf. rewrite (approx_size_wf rb Hwf).
  destruct Hwf as [Hc Hw Hr Hwi Hb]. unfold contents.
  destruct (Z.geb_spec (m_write_index rb) (m_read_index rb)).
  - rewrite length_load by lia. lia.
  - rewrite length_app, !length_load by lia. lia.
Qed.

Lemma approx_size_range rb :
  wf rb → 0 <= approx_size rb <= m_writable_capacity rb.
Proof.
  intros Hwf. rewrite (approx_size_wf rb Hwf).
  destruct Hwf as [Hc Hw Hr Hwi Hb].
  destruct (Z.geb_spec (m_write_index rb) (m_read_index rb)); lia.
Qed.

(** X7: [read(output, max_read)] with a non-null [output] on a buffer of
    capacity at most 2^31 is first in, first out: it returns
    [k = min(max_read, approx_size())], the first [k] bytes it stores at
    [output] are the [k] oldest stored bytes, in order, and afterwards the
    buffer holds the remaining bytes; the write index and the backing array
    are untouched. *)
Theorem read_takes_oldest rb max_read :
  wf rb → m_capacity rb <= 2 ^ 31 → 0 <= max_read →
  let '(k, out, rb') := read rb true max_read in
  k = Z.min max_read (approx_size rb) ∧
  take (Z.to_nat k) out = take (Z.to_nat k) (contents rb) ∧
  contents rb' = drop (Z.to_nat k) (contents rb) ∧
  approx_size rb' = approx_size rb - k ∧
  m_write_index rb' = m_write_index rb ∧ m_buf rb' = m_buf rb.
Proof.
  intros Hwf Hcap Hmax.
  pose proof (read_wf rb true max_read Hwf) as Hwf'.
  pose proof (approx_size_range rb Hwf) as Hrange.
  pose proof (approx_size_wf rb Hwf) as Hsz.
  pose proof (approx_size_wf _ Hwf') as Hsz'.
  pose proof Hwf as [Hc Hw Hr Hwi Hb]. unfold U32.modulus in *.
  unfold read in *. simpl negb in *. cbv iota in *.
  fold (approx_size rb) in *.
  set (mr := if max_read >? m_writable_capacity rb then m_writable_capacity rb
             else max_read) in *.
  assert (Hmr : Z.min mr (approx_size rb) = Z.min max_read (approx_size rb)).
  { subst mr. destruct (Z.gtb_spec max_read (m_writable_capacity rb)); lia. }
  destruct (Z.eqb_spec mr 0) as [E|E].
  { rewrite <- Hmr, E. rewrite Z.min_l by lia. simpl.
    rewrite !drop_0. split_and!; try done. lia. }
  rewrite Hmr in *.
  set (k := Z.min max_read (approx_size rb)) in *.
  assert (Hk : 0 <= k <= approx_size rb) by lia.
  cbn [fst snd m_write_index m_read_index m_capacity m_buf set_read] in *.
  assert (Hadd : U32.add (m_read_index rb) k = m_read_index rb + k)
    by (apply add_small; unfold U32.modulus; lia).
  rewrite Hadd in *. clear Hadd.
  split; [done|].
  rewrite Hsz in Hk. rewrite Hsz', Hsz. clear Hsz Hsz'. unfold contents. simpl.
  rewrite Hw.
  destruct (Z.geb_spec (m_write_index rb) (m_read_index rb)) as [Hge|Hlt].
  - rewrite Z.mod_small by lia.
    destruct (Z.geb_spec (m_write_index rb) (m_read_index rb + k)); [|lia].
    split_and!; try done; try lia.
    + apply list_eq. intros i. rewrite !lookup_take, !lookup_load.
      repeat case_decide; try lia; done.
    + apply list_eq. intros i. rewrite lookup_drop, !lookup_load.
      repeat case_decide; try lia; try done. f_equal. lia.
  - rewrite (sub_small (m_capacity rb - 1)) by (unfold U32.modulus; lia).
    rewrite add_small by (unfold U32.modulus; lia).
    replace (m_capacity rb - 1 - m_read_index rb + 1)
      with (m_capacity rb - m_read_index rb) by lia.
    destruct (Z.gtb_spec (m_capacity rb - m_read_index rb) k) as [Hshort|Hlong].
    + rewrite Z.mod_small by lia.
      destruct (Z.geb_spec (m_write_index rb) (m_read_index rb + k)); [lia|].
      split_and!; try done; try lia.
      * apply list_eq. intros i. rewrite !lookup_take.
        case_decide; [|done].
        rewrite !lookup_app_decide, !length_load by lia.
        repeat case_decide; try lia; done.
      * apply list_eq. intros i. rewrite lookup_drop.
        rewrite !lookup_app_decide, !length_load by lia.
        rewrite !lookup_load.
        repeat case_decide; try lia; try done; f_equal; lia.
    + rewrite sub_small by (unfold U32.modulus; lia).
      replace ((m_read_index rb + k) mod m_capacity rb)
        with (m_read_index rb + k - m_capacity rb).
      2:{ apply Z.mod_unique with (q := 1); lia. }
      destruct (Z.geb_spec (m_write_index rb) (m_read_index rb + k - m_capacity rb)); [|lia].
      split_and!; try done; try lia.
      * apply list_eq. intros i. rewrite !lookup_take.
        case_decide; [|done].
        rewrite !lookup_app_decide, !length_load by lia.
        rewrite !lookup_load.
        repeat case_decide; try lia; done.
      * apply list_eq. intros i. rewrite lookup_drop.
        rewrite !lookup_app_decide, !length_load by lia.
        rewrite !lookup_load.
        repeat case_decide; try lia; try done; f_equal; lia.
Qed.

(** X8: when the stored bytes wrap around the end of the backing array
    (write index below read index), [read] copies to [output] every byte from
    the read index to the end of the array, whatever the amount to read is:
    it stores [max(k, capacity - read_index)] bytes for a return value of
    [k]. *)
Theorem read_stores_to_end rb max_read :
  wf rb → m_write_index rb < m_read_index rb → 0 < max_read →
  let '(k, out, _) := read rb true max_read in
  k = Z.min max_read (approx_size rb) ∧
  Z.of_nat (length out) = Z.max k (m_capacity rb - m_read_index rb).
Proof.
  intros Hwf Hlt Hmax.
  pose proof (approx_size_range rb Hwf) as Hrange.
  pose proof (approx_size_wf rb Hwf) as Hsz.
  pose proof Hwf as [Hc Hw Hr Hwi Hb]. unfold U32.modulus in *.
  unfold read. simpl negb. cbv iota.
  fold (approx_size rb).
  set (mr := if max_read >? m_writable_capacity rb then m_writable_capacity rb
             else max_read).
  assert (Hmr : Z.min mr (approx_size rb) = Z.min max_read (approx_size rb)).
  { subst mr. destruct (Z.gtb_spec max_read (m_writable_capacity rb)); lia. }
  destruct (Z.geb_spec (m_write_index rb) (m_read_index rb)) as [|_]; [lia|].
  destruct (Z.eqb_spec mr 0) as [E|E].
  { subst mr. destruct (Z.gtb_spec max_read (m_writable_capacity rb)); lia. }
  rewrite Hmr. set (k := Z.min max_read (approx_size rb)).
  assert (Hk : 0 <= k <= approx_size rb) by lia.
  rewrite Hsz in Hk.
  destruct (Z.geb_spec (m_write_index rb) (m_read_index rb)) as [|_]; [lia|].
  split; [done|].
  rewrite Hw. rewrite (sub_small (m_capacity rb - 1)) by (unfold U32.modulus; lia).
  rewrite add_small by (unfold U32.modulus; lia).
  replace (m_capacity rb - 1 - m_read_index rb + 1)
    with (m_capacity rb - m_read_index rb) by lia.
  destruct (Z.gtb_spec (m_capacity rb - m_read_index rb) k).
  - rewrite length_app, !length_load by lia. lia.
  - rewrite sub_small by (unfold U32.modulus; lia).
    rewrite length_app, !length_load by lia. lia.
Qed.

(** *** Contiguous regions *)

Lemma poke_wf rb off bs :
  wf rb → 0 <= off → off + Z.of_nat (length bs) <= m_capacity rb → wf (poke rb off bs).
Proof.
  intros [Hc Hw Hr Hwi Hb] Hoff Hfit. constructor; simpl; try done.
  rewrite length_store; [done|lia].
Qed.

Lemma alloc_contig_size rb sz e :
  wf rb → U32.in_range sz →
  alloc_contig rb sz e
    = (m_write_index rb, Z.min sz (contig_region rb),
       if contig_region rb <? sz then reaches_physical_end rb else e).
Proof.
  intros Hwf Hsz. pose proof Hwf as [Hc Hw Hr Hwi Hb].
  unfold U32.in_range, U32.modulus in *.
  unfold alloc_contig, contig_region, reaches_physical_end, contig_region. rewrite Hw.
  destruct (Z.geb_spec (m_write_index rb) (m_read_index rb)).
  - rewrite sub_small by (unfold U32.modulus; lia).
    destruct (Z.eqb_spec (m_read_index rb) 0), (Z.gtb_spec (m_read_index rb) 0);
      try lia; simpl.
    + destruct (Z.ltb_spec (m_capacity rb - 1 - m_write_index rb) sz);
        destruct (Z.ltb_spec (m_capacity rb - 1 - m_write_index rb + 0) sz); try lia.
      * do 2 f_equal; [lia|]. symmetry. apply Z.eqb_neq. lia.
      * f_equal. f_equal. lia.
    + rewrite add_small by (unfold U32.modulus; lia).
      destruct (Z.ltb_spec (m_capacity rb - 1 - m_write_index rb + 1) sz).
      * do 2 f_equal; [lia|]. symmetry. apply Z.eqb_eq. lia.
      * f_equal. f_equal. lia.
  - rewrite (sub_small (m_read_index rb)) by (unfold U32.modulus; lia).
    rewrite sub_small by (unfold U32.modulus; lia).
    destruct (Z.ltb_spec (m_read_index rb - m_write_index rb - 1) sz).
    + do 2 f_equal; [lia|]. symmetry. apply Z.eqb_neq. lia.
    + f_equal. f_equal. lia.
Qed.

Ltac solve_lookup_end :=
  solve_lookup;
  try (symmetry; apply lookup_ge_None_2; lia);
  try (apply lookup_ge_None_2; lia).

(** The bytes stored through the pointer and committed are appended. *)
Lemma poke_commit rb bs :
  wf rb → m_capacity rb <= 2 ^ 31 →
  Z.of_nat (length bs) <= contig_region rb →
  contents (commit_write (poke rb (m_write_index rb) bs) (Z.of_nat (length bs)))
    = contents rb ++ bs.
Proof.
  intros Hwf Hcap Hfit. pose proof Hwf as [Hc Hw Hr Hwi Hb]. unfold U32.modulus in *.
  unfold contig_region in Hfit. rewrite Hw in Hfit.
  assert (Hroom : m_write_index rb + Z.of_nat (length bs) <= m_capacity rb ∧
                  (m_read_index rb = 0 →
                   m_write_index rb + Z.of_nat (length bs) <= m_capacity rb - 1) ∧
                  (m_write_index rb < m_read_index rb →
                   m_write_index rb + Z.of_nat (length bs) <= m_read_index rb - 1)).
  { revert Hfit. destruct (Z.geb_spec (m_write_index rb) (m_read_index rb));
      destruct (Z.gtb_spec (m_read_index rb) 0); lia. }
  clear Hfit. destruct Hroom as (Hroom & Hroom0 & Hroomlt).
  assert (Hl : length (store (m_buf rb) (m_write_index rb) bs) = length (m_buf rb)).
  { apply length_store. lia. }
  unfold commit_write, poke.
  destruct (Z.eqb_spec (Z.of_nat (length bs)) 0) as [E|E].
  { destruct bs; [|simpl in E; lia]. unfold contents. simpl.
    replace (store (m_buf rb) (m_write_index rb) []) with (m_buf rb).
    - by rewrite app_nil_r.
    - unfold store. simpl. by rewrite Nat.add_0_r, take_drop. }
  cbn [m_write_index m_read_index m_buf m_capacity set_write].
  rewrite add_small by (unfold U32.modulus; lia).
  unfold contents. cbn [m_write_index m_read_index m_buf m_capacity set_write].
  destruct (Z.geb_spec (m_write_index rb) (m_read_index rb)) as [Hge|Hlt].
  - destruct (Z.gtb_spec (m_read_index rb) 0) as [Hr0|Hr0].
    + destruct (Z.eq_dec (m_write_index rb + Z.of_nat (length bs)) (m_capacity rb))
        as [Hend|Hend].
      * rewrite Hend, Z.mod_same by lia.
        destruct (Z.geb_spec 0 (m_read_index rb)); [lia|].
        solve_lookup_end.
      * rewrite Z.mod_small by lia.
        destruct (Z.geb_spec (m_write_index rb + Z.of_nat (length bs)) (m_read_index rb));
          [|lia].
        solve_lookup_end.
    + rewrite Z.mod_small by lia.
      destruct (Z.geb_spec (m_write_index rb + Z.of_nat (length bs)) (m_read_index rb));
        [|lia].
      solve_lookup_end.
  - rewrite Z.mod_small by lia.
    destruct (Z.geb_spec (m_write_index rb + Z.of_nat (length bs)) (m_read_index rb));
      [lia|].
    solve_lookup_end.
Qed.

Lemma approx_free_bytes_wf rb :
  wf rb → approx_free_bytes rb = m_writable_capacity rb - approx_size rb.
Proof.
  intros Hwf. pose proof (approx_size_range rb Hwf).
  destruct Hwf as [Hc Hw Hr Hwi Hb]. unfold approx_free_bytes.
  apply sub_small. lia.
Qed.

Lemma contig_region_le_free rb :
  wf rb → 0 <= contig_region rb <= approx_free_bytes rb.
Proof.
  intros Hwf. rewrite approx_free_bytes_wf, approx_size_wf by done.
  destruct Hwf as [Hc Hw Hr Hwi Hb]. unfold contig_region. rewrite Hw.
  destruct (Z.geb_spec (m_write_index rb) (m_read_index rb));
    destruct (Z.gtb_spec (m_read_index rb) 0); lia.
Qed.

(** X9: the region that [alloc_contig] hands out is free and continues the
    stored bytes: it starts at the write index and has
    [min(sz, contiguous region)] bytes for a request of [sz], and after the
    producer has stored up to that many bytes through the pointer,
    [commit_write] of their number appends exactly these bytes to the stored
    ones and leaves the read index alone. *)
Theorem alloc_contig_then_commit rb sz e bs :
  reachable rb → m_capacity rb <= 2 ^ 31 → U32.in_range sz →
  Z.of_nat (length bs) <= (alloc_contig rb sz e).1.2 →
  let ptr := (alloc_contig rb sz e).1.1 in
  let rb' := commit_write (poke rb ptr bs) (Z.of_nat (length bs)) in
  ptr = m_write_index rb ∧
  (alloc_contig rb sz e).1.2 = Z.min sz (contig_region rb) ∧
  contents rb' = contents rb ++ bs ∧
  approx_size rb' = approx_size rb + Z.of_nat (length bs) ∧
  m_read_index rb' = m_read_index rb.
Proof.
  intros Hreach Hcap Hsz. pose proof (reachable_wf rb Hreach) as Hwf.
  rewrite (alloc_contig_size rb sz e Hwf Hsz). simpl. intros Hlen.
  pose proof (contig_region_wf rb Hwf) as [Hcr Hcr'].
  assert (Hfit : Z.of_nat (length bs) <= contig_region rb) by lia.
  pose proof (poke_commit rb bs Hwf Hcap Hfit) as Hcontents.
  assert (Hwf' : wf (commit_write (poke rb (m_write_index rb) bs) (Z.of_nat (length bs)))).
  { apply commit_write_wf, poke_wf; [done| |lia]. destruct Hwf; lia. }
  split_and!; try done.
  - rewrite <- (length_contents _ Hwf'), Hcontents, length_app, <- (length_contents rb Hwf).
    lia.
  - unfold commit_write, poke. by destruct (_ =? 0).
Qed.

Lemma read_contig_size rb sz e :
  wf rb → U32.in_range sz →
  read_contig rb sz e
    = (m_read_index rb, Z.min sz (readable_region rb),
       if readable_region rb <? sz then m_write_index rb <? m_read_index rb else e).
Proof.
  intros Hwf Hsz. pose proof Hwf as [Hc Hw Hr Hwi Hb].
  unfold U32.in_range, U32.modulus in *.
  unfold read_contig, readable_region. rewrite Hw.
  destruct (Z.geb_spec (m_write_index rb) (m_read_index rb));
    destruct (Z.ltb_spec (m_write_index rb) (m_read_index rb)); try lia.
  - rewrite sub_small by (unfold U32.modulus; lia).
    destruct (Z.ltb_spec (m_write_index rb - m_read_index rb) sz);
      do 2 f_equal; lia.
  - rewrite (sub_small (m_capacity rb - 1)) by (unfold U32.modulus; lia).
    rewrite add_small by (unfold U32.modulus; lia).
    replace (m_capacity rb - 1 - m_read_index rb + 1)
      with (m_capacity rb - m_read_index rb) by lia.
    destruct (Z.ltb_spec (m_capacity rb - m_read_index rb) sz);
      do 2 f_equal; lia.
Qed.

Lemma commit_read_drops rb k :
  wf rb → m_capacity rb <= 2 ^ 31 → 0 <= k <= readable_region rb →
  contents (commit_read rb k) = drop (Z.to_nat k) (contents rb) ∧
  load (m_buf rb) (m_read_index rb) k = take (Z.to_nat k) (contents rb).
Proof.
  intros Hwf Hcap Hk. pose proof Hwf as [Hc Hw Hr Hwi Hb]. unfold U32.modulus in *.
  unfold readable_region in Hk. unfold commit_read.
  destruct (Z.eqb_spec k 0) as [->|E].
  { simpl. by rewrite drop_0. }
  unfold contents. cbn [m_write_index m_read_index m_buf m_capacity set_read].
  destruct (Z.geb_spec (m_write_index rb) (m_read_index rb)) as [Hge|Hlt].
  - rewrite add_small by (unfold U32.modulus; lia).
    rewrite Z.mod_small by lia.
    destruct (Z.geb_spec (m_write_index rb) (m_read_index rb + k)); [|lia].
    split.
    + apply list_eq. intros i. rewrite lookup_drop, !lookup_load.
      repeat case_decide; try lia; try done. f_equal. lia.
    + apply list_eq. intros i. rewrite !lookup_take, !lookup_load.
      repeat case_decide; try lia; done.
  - rewrite add_small by (unfold U32.modulus; lia).
    destruct (Z.eq_dec (m_read_index rb + k) (m_capacity rb)) as [Hend|Hend].
    + rewrite Hend, Z.mod_same by lia.
      destruct (Z.geb_spec (m_write_index rb) 0); [|lia].
      split.
      * apply list_eq. intros i. rewrite lookup_drop.
        rewrite !lookup_app_decide, !length_load by lia.
        rewrite !lookup_load.
        repeat case_decide; try lia; try done; f_equal; lia.
      * apply list_eq. intros i. rewrite !lookup_take.
        rewrite !lookup_app_decide, !length_load by lia.
        rewrite !lookup_load.
        repeat case_decide; try lia; done.
    + rewrite Z.mod_small by lia.
      destruct (Z.geb_spec (m_write_index rb) (m_read_index rb + k)); [lia|].
      split.
      * apply list_eq. intros i. rewrite lookup_drop.
        rewrite !lookup_app_decide, !length_load by lia.
        rewrite !lookup_load.
        repeat case_decide; try lia; try done; f_equal; lia.
      * apply list_eq. intros i. rewrite !lookup_take.
        rewrite !lookup_app_decide, !length_load by lia.
        rewrite !lookup_load.
        repeat case_decide; try lia; done.
Qed.

(** X10: [read_contig] returns the read position and
    [min(out_sz, readable region)] for a request of [out_sz], where the
    readable region runs from the read index to the write index, or to the
    end of the array when the stored bytes wrap; when it shortens the request
    it sets the end-of-buffer flag to whether the stored bytes wrap.  The
    bytes at the pointer are the oldest stored bytes, and [commit_read(k)]
    for [k] up to the returned size drops exactly the [k] oldest. *)
Theorem read_contig_then_commit rb sz e k :
  reachable rb → m_capacity rb <= 2 ^ 31 → U32.in_range sz →
  let '(ptr, n, e') := read_contig rb sz e in
  ptr = m_read_index rb ∧
  n = Z.min sz (readable_region rb) ∧
  e' = (if readable_region rb <? sz then m_write_index rb <? m_read_index rb else e) ∧
  load (m_buf rb) ptr n = take (Z.to_nat n) (contents rb) ∧
  (0 <= k <= n →
     contents (commit_read rb k) = drop (Z.to_nat k) (contents rb) ∧
     approx_size (commit_read rb k) = approx_size rb - k ∧
     m_write_index (commit_read rb k) = m_write_index rb).
Proof.
  intros Hreach Hcap Hsz. pose proof (reachable_wf rb Hreach) as Hwf.
  rewrite (read_contig_size rb sz e Hwf Hsz).
  assert (Hrr : 0 <= readable_region rb).
  { destruct Hwf. unfold readable_region.
    destruct (Z.geb_spec (m_write_index rb) (m_read_index rb)); lia. }
  unfold U32.in_range in Hsz.
  split_and!; try done.
  - apply (commit_read_drops rb _ Hwf Hcap). lia.
  - intros Hk.
    destruct (commit_read_drops rb k Hwf Hcap ltac:(lia)) as [Hdrop _].
    pose proof (commit_read_wf rb k Hwf) as Hwf'.
    split_and!; [done| |].
    + rewrite <- (length_contents _ Hwf'), Hdrop, length_drop,
        <- (length_contents rb Hwf).
      assert (k <= readable_region rb) by lia.
      assert (readable_region rb <= Z.of_nat (length (contents rb))).
      { rewrite (length_contents rb Hwf), (approx_size_wf rb Hwf).
        destruct Hwf. unfold readable_region.
        destruct (Z.geb_spec (m_write_index rb) (m_read_index rb)); lia. }
      lia.
    + unfold commit_read. by destruct (_ =? 0).
Qed.

Lemma compound_alloc_contig_wf rb :
  wf rb →
  compound_alloc_contig rb =
    let l := contig_region rb in
    let f := approx_free_bytes rb - l in
    if l =? 0 then AllocResult None 0 None 0 (m_write_index rb >=? m_read_index rb)
    else if f =? 0
         then AllocResult (Some (m_write_index rb)) l None 0
                          (m_write_index rb >=? m_read_index rb)
         else AllocResult (Some (m_write_index rb)) l (Some 0) f
                          (m_write_index rb >=? m_read_index rb).
Proof.
  intros Hwf. pose proof (contig_region_le_free rb Hwf) as Hle.
  pose proof (approx_size_range rb Hwf) as Hsz.
  rewrite (approx_free_bytes_wf rb Hwf) in *.
  pose proof Hwf as [Hc Hw Hr Hwi Hb]. unfold U32.modulus in *.
  unfold compound_alloc_contig. fold (approx_size rb).
  rewrite (sub_small _ (approx_size rb)) by (unfold U32.modulus; lia).
  assert (Hl : (if m_write_index rb >=? m_read_index rb
                then if negb (m_read_index rb =? 0)
                     then U32.add (U32.sub (m_writable_capacity rb) (m_write_index rb)) 1
                     else U32.sub (m_writable_capacity rb) (m_write_index rb)
                else U32.sub (U32.sub (m_read_index rb) (m_write_index rb)) 1)
               = contig_region rb).
  { unfold contig_region. rewrite Hw.
    destruct (Z.geb_spec (m_write_index rb) (m_read_index rb)).
    - rewrite sub_small by (unfold U32.modulus; lia).
      destruct (Z.eqb_spec (m_read_index rb) 0), (Z.gtb_spec (m_read_index rb) 0);
        try lia; simpl; [lia|].
      apply add_small. unfold U32.modulus; lia.
    - rewrite (sub_small (m_read_index rb)) by (unfold U32.modulus; lia).
      apply sub_small. unfold U32.modulus; lia. }
  cbv zeta. rewrite Hl.
  rewrite sub_small by (unfold U32.modulus; lia). done.
Qed.

(** X11: in every reachable state [compound_alloc_contig] hands out all the
    free space: the first size is the contiguous region at the write index
    (never more than the free bytes, so the assertion in the code holds), the
    two sizes add up to [approx_free_bytes()], a pointer is null exactly when
    its size is 0, and bytes stored to fill the first region and then the
    second, committed with one [commit_write], are appended in that order. *)
Theorem compound_alloc_covers_free rb bs1 bs2 :
  reachable rb → m_capacity rb <= 2 ^ 31 →
  let r := compound_alloc_contig rb in
  first_buf_sz r = contig_region rb ∧
  first_buf_sz r + second_buf_sz r = approx_free_bytes rb ∧
  0 <= first_buf_sz r ∧ 0 <= second_buf_sz r ∧
  first_buf r = (if first_buf_sz r =? 0 then None else Some (m_write_index rb)) ∧
  second_buf r = (if second_buf_sz r =? 0 then None else Some 0) ∧
  write_ahead_of_read r = (m_write_index rb >=? m_read_index rb) ∧
  (Z.of_nat (length bs1) = first_buf_sz r →
   Z.of_nat (length bs2) <= second_buf_sz r →
   contents (commit_write (poke (poke rb (m_write_index rb) bs1) 0 bs2)
                          (Z.of_nat (length bs1) + Z.of_nat (length bs2)))
     = contents rb ++ bs1 ++ bs2).
Proof.
  intros Hreach Hcap. pose proof (reachable_wf rb Hreach) as Hwf.
  pose proof (contig_region_le_free rb Hwf) as Hle.
  rewrite (compound_alloc_contig_wf rb Hwf). cbv zeta.
  set (l := contig_region rb) in *. set (f := approx_free_bytes rb - l).
  assert (Hf : 0 <= f) by (subst f; lia).
  assert (Hr : (if l =? 0 then AllocResult None 0 None 0 (m_write_index rb >=? m_read_index rb)
                else if f =? 0
                     then AllocResult (Some (m_write_index rb)) l None 0
                            (m_write_index rb >=? m_read_index rb)
                     else AllocResult (Some (m_write_index rb)) l (Some 0) f
                            (m_write_index rb >=? m_read_index rb))
               = AllocResult (if l =? 0 then None else Some (m_write_index rb)) l
                             (if (if l =? 0 then 0 else f) =? 0 then None else Some 0)
                             (if l =? 0 then 0 else f)
                             (m_write_index rb >=? m_read_index rb)).
  { destruct (Z.eqb_spec l 0) as [->|]; [done|].
    destruct (Z.eqb_spec f 0) as [->|]; done. }
  rewrite Hr. clear Hr. cbn [first_buf first_buf_sz second_buf second_buf_sz write_ahead_of_read].
  assert (Hfree0 : l = 0 → approx_free_bytes rb = 0).
  { intros Hl0. subst l. rewrite approx_free_bytes_wf, approx_size_wf by done.
    revert Hl0. unfold contig_region. destruct Hwf as [Hc Hw Hrd Hwi Hb]. rewrite Hw.
    destruct (Z.geb_spec (m_write_index rb) (m_read_index rb));
      destruct (Z.gtb_spec (m_read_index rb) 0); lia. }
  split_and!; try done.
  - destruct (Z.eqb_spec l 0) as [E|E]; [rewrite (Hfree0 E)|subst f]; lia.
  - lia.
  - destruct (l =? 0); lia.
  - intros Hl1 Hl2.
    pose proof Hwf as [Hc Hw Hrd Hwi Hb]. unfold U32.modulus in *.
    assert (Hf' : (if l =? 0 then 0 else f)
                  = if (m_write_index rb >=? m_read_index rb) && (m_read_index rb >? 0)
                    then m_read_index rb - 1 else 0).
    { subst f l. rewrite approx_free_bytes_wf, approx_size_wf by done.
      unfold contig_region. rewrite Hw.
      destruct (Z.geb_spec (m_write_index rb) (m_read_index rb));
        destruct (Z.gtb_spec (m_read_index rb) 0); simpl;
        match goal with |- context [?a =? 0] => destruct (Z.eqb_spec a 0) end; lia. }
    rewrite Hf' in Hl2. clear Hf' Hfree0 Hf Hle. subst f.
    unfold l, contig_region in Hl1. rewrite Hw in Hl1. clear l.
    assert (Hs1 : length (store (m_buf rb) (m_write_index rb) bs1) = length (m_buf rb)).
    { apply length_store. revert Hl1.
      destruct (Z.geb_spec (m_write_index rb) (m_read_index rb));
        destruct (Z.gtb_spec (m_read_index rb) 0); lia. }
    assert (Hs2 : length (store (store (m_buf rb) (m_write_index rb) bs1) 0 bs2)
                  = length (m_buf rb)).
    { rewrite length_store; [done|]. rewrite Hs1. revert Hl2.
      destruct (Z.geb_spec (m_write_index rb) (m_read_index rb));
        destruct (Z.gtb_spec (m_read_index rb) 0); simpl; lia. }
    unfold commit_write, poke.
    cbn [m_write_index m_read_index m_buf m_capacity set_write].
    destruct (Z.eqb_spec (Z.of_nat (length bs1) + Z.of_nat (length bs2)) 0) as [E|E].
    { destruct bs1; [|simpl in E; lia]. destruct bs2; [|simpl in E; lia].
      unfold contents. cbn [m_write_index m_read_index m_buf m_capacity set_write].
      rewrite !app_nil_r.
      replace (store (store (m_buf rb) (m_write_index rb) []) 0 []) with (m_buf rb); [done|].
      rewrite store_nil. unfold store. simpl. by rewrite Nat.add_0_r, take_drop. }
    unfold contents. cbn [m_write_index m_read_index m_buf m_capacity set_write].
    destruct (Z.geb_spec (m_write_index rb) (m_read_index rb)) as [Hge|Hlt];
      destruct (Z.gtb_spec (m_read_index rb) 0) as [Hr0|Hr0]; simpl in Hl2.
    + (* both regions *)
      rewrite add_small by (unfold U32.modulus; lia).
      replace ((m_write_index rb + (Z.of_nat (length bs1) + Z.of_nat (length bs2)))
                 mod m_capacity rb) with (Z.of_nat (length bs2)).
      2:{ apply Z.mod_unique with (q := 1); lia. }
      destruct (Z.geb_spec (Z.of_nat (length bs2)) (m_read_index rb)); [lia|].
      solve_lookup_end.
    + assert (length bs2 = 0%nat) as Hn2 by lia.
      destruct bs2; [|done]. rewrite store_nil, app_nil_r. simpl.
      rewrite add_small by (unfold U32.modulus; lia).
      rewrite Z.add_0_r, Z.mod_small by lia.
      destruct (Z.geb_spec (m_write_index rb + Z.of_nat (length bs1)) (m_read_index rb));
        [|lia].
      solve_lookup_end.
    + assert (length bs2 = 0%nat) as Hn2 by lia.
      destruct bs2; [|done]. rewrite store_nil, app_nil_r. simpl.
      rewrite add_small by (unfold U32.modulus; lia).
      rewrite Z.add_0_r, Z.mod_small by lia.
      destruct (Z.geb_spec (m_write_index rb + Z.of_nat (length bs1)) (m_read_index rb));
        [lia|].
      solve_lookup_end.
    + lia.
Qed.

(** *** Sizes *)

(** X12: in every reachable state [approx_size()] is the number of stored
    bytes, it lies between 0 and [writable_capacity() = capacity - 1],
    [approx_free_bytes()] is the rest of the writable capacity, and [empty()]
    holds exactly when no byte is stored. *)
Theorem size_accounting rb :
  reachable rb →
  approx_size rb = Z.of_nat (length (contents rb)) ∧
  0 <= approx_size rb <= writable_capacity rb ∧
  approx_free_bytes rb = writable_capacity rb - approx_size rb ∧
  writable_capacity rb = m_capacity rb - 1 ∧
  (empty rb = true ↔ approx_size rb = 0).
Proof.
  intros Hreach. pose proof (reachable_wf rb Hreach) as Hwf.
  split_and!.
  - symmetry. by apply length_contents.
  - apply (approx_size_range rb Hwf).
  - apply (approx_size_range rb Hwf).
  - by apply approx_free_bytes_wf.
  - by destruct Hwf.
  - rewrite (approx_size_wf rb Hwf). destruct Hwf as [Hc Hw Hr Hwi Hb].
    unfold empty. rewrite Z.eqb_eq.
    destruct (Z.geb_spec (m_write_index rb) (m_read_index rb)); lia.
Qed.

(** *** [write_bytes] when the request fits *)

Lemma write_bytes_as_write rb inp n :
  wf rb → 0 < n <= approx_free_bytes rb →
  write_bytes rb (Some inp) n
    = (n, (write rb (Some inp) n).1.2, (write rb (Some inp) n).2).
Proof.
  intros Hwf Hn. rewrite approx_free_bytes_wf in Hn by done.
  pose proof (approx_size_range rb Hwf) as Hsz.
  pose proof Hwf as [Hc Hw Hr Hwi Hb]. unfold U32.modulus in *.
  unfold write_bytes, write. fold (approx_size rb).
  destruct (Z.gtb_spec n (m_writable_capacity rb)); [lia|].
  destruct (Z.eqb_spec n 0); [lia|].
  rewrite sub_small by (unfold U32.modulus; lia).
  destruct (Z.gtb_spec n (m_writable_capacity rb - approx_size rb)); [lia|].
  rewrite Z.min_l by lia.
  by destruct (priv_write rb inp n _ _).
Qed.

(** X13: a [write_bytes(input, n)] with a non-null input and
    [0 < n <= approx_free_bytes()] (capacity at most 2^31) returns [n] and
    appends the [n] bytes to the stored ones. *)
Theorem write_bytes_fits rb inp n :
  reachable rb → m_capacity rb <= 2 ^ 31 →
  0 < n <= approx_free_bytes rb →
  let '(k, rb', _) := write_bytes rb (Some inp) n in
  k = n ∧
  contents rb' = contents rb ++ fetch inp 0 n ∧
  approx_size rb' = approx_size rb + n ∧
  m_read_index rb' = m_read_index rb.
Proof.
  intros Hreach Hcap Hn. pose proof (reachable_wf rb Hreach) as Hwf.
  rewrite (write_bytes_as_write rb inp n Hwf Hn).
  rewrite approx_free_bytes_wf in Hn by done.
  destruct (write_fits rb inp n Hwf Hcap Hn) as (_ & H1 & H2 & H3). done.
Qed.

(** *** The theorems above on the buffer of the [CompoundAlloc] test *)

Lemma scenario_reachable : reachable scenario_rb.
Proof. apply reach_make; [reflexivity | unfold U32.modulus; lia]. Qed.

Lemma u32_small_range z : 0 <= z < 2 ^ 32 → U32.in_range z.
Proof. done. Qed.

(** Write index 5, read index 3. *)
Lemma scenario_split_reachable : reachable (after_read (after_write scenario_rb 5) 3).
Proof.
  apply reach_read; [|apply u32_small_range; lia].
  apply reach_write; [|apply u32_small_range; lia].
  apply scenario_reachable.
Qed.

(** Write index 1, read index 5: the stored bytes wrap around. *)
Lemma scenario_wrapped_reachable :
  reachable (after_write (after_read (after_write scenario_rb 5) 5) 4).
Proof.
  apply reach_write; [|apply u32_small_range; lia].
  apply reach_read; [|apply u32_small_range; lia].
  apply reach_write; [|apply u32_small_range; lia].
  apply scenario_reachable.
Qed.

Lemma read_takes_oldest_witness :
  let rb := after_write (after_read (after_write scenario_rb 5) 5) 4 in
  wf rb ∧ m_capacity rb <= 2 ^ 31 ∧ 0 <= 3 ∧
  let '(k, out, rb') := read rb true 3 in
  k = Z.min 3 (approx_size rb) ∧
  take (Z.to_nat k) out = take (Z.to_nat k) (contents rb) ∧
  contents rb' = drop (Z.to_nat k) (contents rb) ∧
  approx_size rb' = approx_size rb - k ∧
  m_write_index rb' = m_write_index rb ∧ m_buf rb' = m_buf rb.
Proof.
  intros rb.
  assert (Hwf : wf rb) by apply (reachable_wf _ scenario_wrapped_reachable).
  assert (Hcap : m_capacity rb <= 2 ^ 31) by (vm_compute; discriminate).
  assert (H0 : 0 <= 3) by lia.
  exact (conj Hwf (conj Hcap (conj H0 (read_takes_oldest rb 3 Hwf Hcap H0)))).
Defined.

Lemma read_stores_to_end_witness :
  let rb := after_write (after_read (after_write scenario_rb 5) 5) 4 in
  wf rb ∧ m_write_index rb < m_read_index rb ∧ 0 < 1 ∧
  let '(k, out, _) := read rb true 1 in
  k = Z.min 1 (approx_size rb) ∧
  Z.of_nat (length out) = Z.max k (m_capacity rb - m_read_index rb).
Proof.
  intros rb.
  assert (Hwf : wf rb) by apply (reachable_wf _ scenario_wrapped_reachable).
  assert (Hlt : m_write_index rb < m_read_index rb) by (vm_compute; reflexivity).
  assert (H1 : 0 < 1) by lia.
  exact (conj Hwf (conj Hlt (conj H1 (read_stores_to_end rb 1 Hwf Hlt H1)))).
Defined.

Lemma alloc_contig_then_commit_witness :
  let rb := after_read (after_write scenario_rb 5) 3 in
  let bs := [7; 8; 9] in
  reachable rb ∧ m_capacity rb <= 2 ^ 31 ∧ U32.in_range 10 ∧
  Z.of_nat (length bs) <= (alloc_contig rb 10 false).1.2 ∧
  let ptr := (alloc_contig rb 10 false).1.1 in
  let rb' := commit_write (poke rb ptr bs) (Z.of_nat (length bs)) in
  ptr = m_write_index rb ∧
  (alloc_contig rb 10 false).1.2 = Z.min 10 (contig_region rb) ∧
  contents rb' = contents rb ++ bs ∧
  approx_size rb' = approx_size rb + Z.of_nat (length bs) ∧
  m_read_index rb' = m_read_index rb.
Proof.
  intros rb bs.
  assert (Hcap : m_capacity rb <= 2 ^ 31) by (vm_compute; discriminate).
  assert (Hsz : U32.in_range 10) by (apply u32_small_range; lia).
  assert (Hlen : Z.of_nat (length bs) <= (alloc_contig rb 10 false).1.2)
    by (vm_compute; discriminate).
  exact (conj scenario_split_reachable (conj Hcap (conj Hsz (conj Hlen
           (alloc_contig_then_commit rb 10 false bs scenario_split_reachable
              Hcap Hsz Hlen))))).
Defined.

Lemma read_contig_then_commit_witness :
  let rb := after_write (after_read (after_write scenario_rb 5) 5) 4 in
  reachable rb ∧ m_capacity rb <= 2 ^ 31 ∧ U32.in_range 10 ∧
  let '(ptr, n, e') := read_contig rb 10 false in
  ptr = m_read_index rb ∧
  n = Z.min 10 (readable_region rb) ∧
  e' = (if readable_region rb <? 10 then m_write_index rb <? m_read_index rb else false) ∧
  load (m_buf rb) ptr n = take (Z.to_nat n) (contents rb) ∧
  (0 <= 2 <= n →
     contents (commit_read rb 2) = drop (Z.to_nat 2) (contents rb) ∧
     approx_size (commit_read rb 2) = approx_size rb - 2 ∧
     m_write_index (commit_read rb 2) = m_write_index rb).
Proof.
  intros rb.
  assert (Hcap : m_capacity rb <= 2 ^ 31) by (vm_compute; discriminate).
  assert (Hsz : U32.in_range 10) by (apply u32_small_range; lia).
  exact (conj scenario_wrapped_reachable (conj Hcap (conj Hsz
           (read_contig_then_commit rb 10 false 2 scenario_wrapped_reachable Hcap Hsz)))).
Defined.

Lemma compound_alloc_covers_free_witness :
  let rb := after_read (after_write scenario_rb 5) 3 in
  let bs1 := [7; 8; 9] in
  let bs2 := [10; 11] in
  reachable rb ∧ m_capacity rb <= 2 ^ 31 ∧
  let r := compound_alloc_contig rb in
  first_buf_sz r = contig_region rb ∧
  first_buf_sz r + second_buf_sz r = approx_free_bytes rb ∧
  0 <= first_buf_sz r ∧ 0 <= second_buf_sz r ∧
  first_buf r = (if first_buf_sz r =? 0 then None else Some (m_write_index rb)) ∧
  second_buf r = (if second_buf_sz r =? 0 then None else Some 0) ∧
  write_ahead_of_read r = (m_write_index rb >=? m_read_index rb) ∧
  (Z.of_nat (length bs1) = first_buf_sz r →
   Z.of_nat (length bs2) <= second_buf_sz r →
   contents (commit_write (poke (poke rb (m_write_index rb) bs1) 0 bs2)
                          (Z.of_nat (length bs1) + Z.of_nat (length bs2)))
     = contents rb ++ bs1 ++ bs2).
Proof.
  intros rb bs1 bs2.
  assert (Hcap : m_capacity rb <= 2 ^ 31) by (vm_compute; discriminate).
  exact (conj scenario_split_reachable (conj Hcap
           (compound_alloc_covers_free rb bs1 bs2 scenario_split_reachable Hcap))).
Defined.

Lemma size_accounting_witness :
  let rb := after_write (after_read (after_write scenario_rb 5) 5) 4 in
  reachable rb ∧
  approx_size rb = Z.of_nat (length (contents rb)) ∧
  0 <= approx_size rb <= writable_capacity rb ∧
  approx_free_bytes rb = writable_capacity rb - approx_size rb ∧
  writable_capacity rb = m_capacity rb - 1 ∧
  (empty rb = true ↔ approx_size rb = 0).
Proof.
  intros rb.
  exact (conj scenario_wrapped_reachable (size_accounting rb scenario_wrapped_reachable)).
Defined.

Lemma write_bytes_fits_witness :
  let rb := after_read (after_write scenario_rb 5) 3 in
  reachable rb ∧ m_capacity rb <= 2 ^ 31 ∧ 0 < 4 <= approx_free_bytes rb ∧
  let '(k, rb', _) := write_bytes rb (Some [7; 8; 9; 10]) 4 in
  k = 4 ∧
  contents rb' = contents rb ++ fetch [7; 8; 9; 10] 0 4 ∧
  approx_size rb' = approx_size rb + 4 ∧
  m_read_index rb' = m_read_index rb.
Proof.
  intros rb.
  assert (Hcap : m_capacity rb <= 2 ^ 31) by (vm_compute; discriminate).
  assert (Hn : 0 < 4 <= approx_free_bytes rb)
    by (vm_compute; split; [reflexivity | discriminate]).
  exact (conj scenario_split_reachable (conj Hcap (conj Hn
           (write_bytes_fits rb [7; 8; 9; 10] 4 scenario_split_reachable Hcap Hn)))).
Defined.

End RingBufferFacts.

(** ** Hash map *)

Section MapFacts.
Import Map.
Context {Key T : Type} `{EqDecision Key}.
Variable hash : Key → Z.

(** A move that copies the key. *)
#[local] Abbreviation keep := (λ k : Key, k).

#[local] Abbreviation Entry := (Map.Entry Key T).
#[local] Abbreviation Table := (Map.Table Key T).
#[local] Abbreviation unordered_map := (Map.unordered_map Key T).
#[local] Abbreviation Bucket := (Vector.vector Entry).
#[local] Abbreviation call := (Map.call Key T).



#[local] Instance has_key_dec (es : list Entry) (key : Key) : Decision (has_key es key).
Proof. unfold has_key. apply _. Qed.

Lemma find_entry_shift (key : Key) (es : list Entry) i :
  find_entry key es (S i) = S <$> find_entry key es i.
Proof.
  revert i. induction es as [|e es IH]; intros i; simpl; [done|].
  case_bool_decide; [done|]. apply IH.
Qed.

Lemma find_entry_None (key : Key) (es : list Entry) i :
  find_entry key es i = None ↔ ¬ has_key es key.
Proof.
  unfold has_key. revert i. induction es as [|e es IH]; intros i; simpl.
  - split; [|done]. intros _ Hin. by apply elem_of_nil in Hin.
  - case_bool_decide as Hk.
    + split; [done|]. intros Hn. exfalso. apply Hn. subst. apply elem_of_cons. by left.
    + rewrite IH. rewrite elem_of_cons. naive_solver.
Qed.

Lemma find_entry_Some (key : Key) (es : list Entry) j :
  find_entry key es 0 = Some j →
  ∃ e, es !! j = Some e ∧ m_key e = key ∧ ¬ has_key (take j es) key.
Proof.
  unfold has_key. revert j. induction es as [|e es IH]; intros j; simpl; [done|].
  case_bool_decide as Hk.
  - intros [= <-]. exists e. simpl. split_and!; [done..|]. intros Hin. by apply elem_of_nil in Hin.
  - rewrite find_entry_shift. destruct (find_entry key es 0) as [j'|] eqn:E; [|done].
    intros [= <-]. destruct (IH j' eq_refl) as (e' & He' & Hk' & Hn).
    exists e'. split_and!; [done..|]. simpl. rewrite elem_of_cons. naive_solver.
Qed.

Lemma find_entry_is_Some (key : Key) (es : list Entry) :
  is_Some (find_entry key es 0) ↔ has_key es key.
Proof.
  rewrite <- not_eq_None_Some, find_entry_None.
  split; [|naive_solver]. intros Hn. destruct (decide (has_key es key)) as [|Hno]; [done|].
  naive_solver.
Qed.

Lemma bucket_get_val_of (b : Bucket) (key : Key) :
  bucket_get b key = val_of (Vector.items b) key.
Proof.
  unfold bucket_get, bucket_get_entry. induction (Vector.items b) as [|e es IH]; simpl; [done|].
  case_bool_decide; [done|].
  rewrite find_entry_shift. destruct (find_entry key es 0); simpl in *; done.
Qed.

Lemma val_of_app (es1 es2 : list Entry) (key : Key) :
  val_of (es1 ++ es2) key =
    if decide (has_key es1 key) then val_of es1 key else val_of es2 key.
Proof.
  induction es1 as [|e es IH]; simpl.
  - destruct (decide (has_key [] key)) as [Hin|]; [|done].
    unfold has_key in Hin. by apply elem_of_nil in Hin.
  - assert (Hc : has_key (e :: es) key ↔ m_key e = key ∨ has_key es key).
    { unfold has_key. simpl. rewrite elem_of_cons. naive_solver. }
    case_bool_decide as Hk.
    + destruct (decide (has_key (e :: es) key)) as [|Hn]; [done|]. naive_solver.
    + rewrite IH.
      destruct (decide (has_key es key)), (decide (has_key (e :: es) key));
        naive_solver.
Qed.

Lemma val_of_no_key (es : list Entry) (key : Key) : ¬ has_key es key → val_of es key = None.
Proof.
  unfold has_key. induction es as [|e es IH]; simpl; [done|].
  rewrite elem_of_cons. intros Hn. case_bool_decide; [naive_solver|]. apply IH. naive_solver.
Qed.


(** *** Tables seen as chains of entries *)



Lemma vector_eta {A} (v : Vector.vector A) :
  Vector.Mk (Vector.items v) (Vector.capacity v) = v.
Proof. by destruct v. Qed.

Lemma table_get_ents (t : Table) key :
  table_get hash t key =
    if (m_num_buckets t =? 0)%nat then None
    else val_of (ents t (get_bucket_index hash t key)) key.
Proof. unfold table_get. case_match; [done|]. apply bucket_get_val_of. Qed.

Lemma get_bucket_index_lt (t : Table) key :
  m_num_buckets t ≠ 0%nat → (get_bucket_index hash t key < m_num_buckets t)%nat.
Proof.
  intros Hn. unfold get_bucket_index.
  pose proof (Z.mod_pos_bound (hash key) (Z.of_nat (m_num_buckets t))). lia.
Qed.

Lemma ents_set_bucket (t : Table) i b j :
  ents (set_bucket t i b) j =
    if decide (i = j ∧ (i < length (Vector.items (m_buckets t)))%nat)
    then Vector.items b else ents t j.
Proof.
  unfold ents, bucket_at, set_bucket. simpl.
  case_decide as Hd.
  - destruct Hd as [<- Hlt]. by rewrite list_lookup_insert_eq.
  - destruct (decide (i = j)) as [<-|Hne].
    + rewrite list_insert_ge; [done|lia].
    + by rewrite list_lookup_insert_ne.
Qed.

Lemma ents_set_total (t : Table) n j : ents (set_total_entries t n) j = ents t j.
Proof. done. Qed.

Lemma ents_set_entry (t : Table) bi ei e j :
  ents (set_entry t bi ei e) j =
    if decide (bi = j ∧ (bi < length (Vector.items (m_buckets t)))%nat)
    then <[ei := e]> (ents t bi) else ents t j.
Proof. unfold set_entry. by rewrite ents_set_bucket. Qed.

Lemma structured_set_bucket (t : Table) i b :
  structured t → structured (set_bucket t i b).
Proof. unfold structured, set_bucket. simpl. by rewrite length_insert. Qed.

(** *** [table_get_or_create_entry] *)


Lemma push_back_items {A} (v : Vector.vector A) x a ok v' a' :
  Vector.push_back v x a = (ok, v', a') →
  Vector.items v' = if ok then Vector.items v ++ [x] else Vector.items v.
Proof.
  unfold Vector.push_back, Vector.reserve.
  repeat case_match; intros; simplify_eq/=; done.
Qed.

Lemma table_get_or_create_entry_outcome (t : Table) key a res t' a' :
  structured t →
  table_get_or_create_entry hash t key a = (res, t', a') →
  goc_outcome hash t key a res t' a' ∧ structured t' ∧ m_num_buckets t' = m_num_buckets t.
Proof.
  intros Hs. unfold table_get_or_create_entry.
  destruct (Nat.eqb_spec (m_num_buckets t) 0) as [Hz|Hnz].
  { intros [= <- <- <-]. split_and!; [|done..]. apply goc_failed; auto. }
  pose proof (get_bucket_index_lt t key Hnz) as Hlt.
  set (bi := get_bucket_index hash t key) in *.
  unfold bucket_get_or_create_entry, bucket_get_entry. fold (ents t bi).
  destruct (find_entry key (ents t bi) 0) as [i|] eqn:Ef.
  - simpl. intros [= <- <- <-]. split_and!.
    + apply goc_found; [done| |done]. intros j. rewrite ents_set_bucket.
      case_decide as Hd; [|done]. by destruct Hd as [<- _].
    + by apply structured_set_bucket.
    + done.
  - destruct (Vector.push_back _ _ _) as [[ok b'] a1] eqn:Ep.
    pose proof (push_back_items _ _ _ _ _ _ Ep) as Hit.
    destruct ok; simpl; intros [= <- <- <-].
    + split_and!; [|by apply structured_set_bucket|done].
      replace (Vector.size b' - 1)%nat with (length (ents t bi)).
      2:{ unfold Vector.size. rewrite Hit, length_app. simpl. fold (ents t bi). lia. }
      apply goc_created; try done.
      * rewrite ents_set_total, ents_set_bucket. rewrite decide_True; [done|].
        unfold structured in Hs. split; [done|lia].
      * intros j Hj. rewrite ents_set_total, ents_set_bucket.
        rewrite decide_False; [done|]. naive_solver.
    + split_and!; [|by apply structured_set_bucket|done].
      apply goc_failed; [by left| |done].
      intros j. rewrite ents_set_bucket. case_decide as Hd; [|done].
      destruct Hd as [<- _]. done.
Qed.



Lemma get_bucket_index_ext (t t' : Table) key :
  m_num_buckets t' = m_num_buckets t →
  get_bucket_index hash t' key = get_bucket_index hash t key.
Proof. unfold get_bucket_index. by intros ->. Qed.

Lemma table_get_ext (t t' : Table) key :
  m_num_buckets t' = m_num_buckets t → (∀ j, ents t' j = ents t j) →
  table_get hash t' key = table_get hash t key.
Proof.
  intros Hn He. rewrite !table_get_ents, Hn, He.
  by rewrite (get_bucket_index_ext t t').
Qed.

Lemma has_key_snoc (es : list Entry) (e : Entry) (key : Key) :
  has_key (es ++ [e]) key ↔ has_key es key ∨ m_key e = key.
Proof.
  unfold has_key. rewrite fmap_app, elem_of_app. simpl.
  rewrite list_elem_of_singleton. naive_solver.
Qed.

Lemma has_key_cons (es : list Entry) (e : Entry) (key : Key) :
  has_key (e :: es) key ↔ m_key e = key ∨ has_key es key.
Proof. unfold has_key. simpl. rewrite elem_of_cons. naive_solver. Qed.

Lemma val_of_snoc (es : list Entry) (e : Entry) (key : Key) :
  val_of (es ++ [e]) key =
    if decide (has_key es key) then val_of es key
    else if decide (m_key e = key) then m_val e else None.
Proof.
  rewrite val_of_app. destruct (decide (has_key es key)); [done|].
  simpl. case_bool_decide; by case_decide.
Qed.

Lemma val_of_reverse (es : list Entry) (key : Key) :
  NoDup (m_key <$> es) → val_of (reverse es) key = val_of es key.
Proof.
  induction es as [|e es IH]; simpl; [done|].
  intros Hnd. pose proof (NoDup_cons_1_1 _ _ Hnd) as Hnotin.
  apply NoDup_cons_1_2 in Hnd.
  rewrite reverse_cons, val_of_snoc, IH by done.
  assert (Hr : has_key (reverse es) key ↔ has_key es key).
  { unfold has_key. by rewrite fmap_reverse, elem_of_reverse. }
  case_bool_decide as Hk.
  - subst key. rewrite decide_False by (rewrite Hr; done). by rewrite decide_True.
  - destruct (decide (has_key (reverse es) key)) as [|Hn]; [done|].
    rewrite decide_False by done. symmetry. apply val_of_no_key. by rewrite <- Hr.
Qed.

Lemma insert_snoc {A} (l : list A) x y : <[length l := y]> (l ++ [x]) = l ++ [y].
Proof.
  rewrite insert_app_r_alt by lia. by rewrite Nat.sub_diag.
Qed.

(** *** The inner loop of [perform_partial_transfer] *)

Lemma transfer_entries_spec (es_rev : list Entry) :
  ∀ budget total (sec : Table) a status rest budget' total' sec' a',
  structured sec →
  NoDup (m_key <$> es_rev) →
  (∀ e, e ∈ es_rev →
     has_key (ents sec (get_bucket_index hash sec (m_key e))) (m_key e) →
     m_val e = None) →
  (Z.of_nat (length es_rev) <= total < SizeT.modulus)%Z →
  transfer_entries hash es_rev budget total sec a
    = (status, rest, budget', total', sec', a') →
  structured sec' ∧ m_num_buckets sec' = m_num_buckets sec ∧
  (status = BucketDrained → rest = []) ∧
  ∃ moved,
    es_rev = moved ++ rest ∧
    total' = (total - Z.of_nat (length moved))%Z ∧
    (∀ key, orelse (table_get hash sec' key) (val_of rest key)
            = orelse (table_get hash sec key) (val_of es_rev key)) ∧
    (∀ key, has_key (ents sec' (get_bucket_index hash sec key)) key →
            has_key (ents sec (get_bucket_index hash sec key)) key ∨ has_key moved key).
Proof.
  induction es_rev as [|e es IH];
    intros budget total sec a status rest budget' total' sec' a' Hs Hnd Hz Htot; simpl.
  { intros [= <- <- <- <- <- <-]. split_and!; try done.
    exists []. split_and!; try done. - simpl. lia. - auto. }
  destruct budget as [|budget].
  { intros [= <- <- <- <- <- <-]. split_and!; try done.
    exists []. split_and!; try done. - simpl. lia. - auto. }
  destruct (table_get_or_create_entry hash sec (m_key e) a) as [[res sec1] a1] eqn:Eg.
  destruct (table_get_or_create_entry_outcome _ _ _ _ _ _ Hs Eg) as (Hout & Hs1 & Hn1).
  pose proof (NoDup_cons_1_1 _ _ Hnd) as Hnotin. apply NoDup_cons_1_2 in Hnd.
  assert (Hsub : (SizeT.sub total 1 = total - 1)%Z).
  { unfold SizeT.sub, SizeT.wrap. apply Z.mod_small. simpl in Htot. lia. }
  destruct Hout as [i t' Hfind Hents Htotal | bk t' a'' _ Hents _
                    | t' a'' Hnz Hfind Hnew Hother Htotal]; simpl.
  - (* the key is already in the secondary table: the entry is dropped *)
    intros Hrec.
    assert (Hzombie : m_val e = None).
    { apply Hz; [by left|]. apply find_entry_is_Some. by rewrite Hfind. }
    assert (Hz' : ∀ e', e' ∈ es →
              has_key (ents t' (get_bucket_index hash t' (m_key e'))) (m_key e') →
              m_val e' = None).
    { intros e' He' Hk'. apply Hz; [by right|].
      rewrite (get_bucket_index_ext sec t') in Hk' by done. by rewrite Hents in Hk'. }
    assert (Htot1 : (Z.of_nat (length es) <= SizeT.sub total 1 < SizeT.modulus)%Z).
    { simpl in Htot. lia. }
    destruct (IH _ _ _ _ _ _ _ _ _ _ Hs1 Hnd Hz' Htot1 Hrec)
      as (Hs' & Hn' & Hdr & moved & Hsplit & Htot' & Hget & Hkeys).
    split_and!; [done|congruence|done|].
    exists (e :: moved). split_and!.
    + simpl. by rewrite Hsplit.
    + simpl. lia.
    + intros key. rewrite Hget. rewrite (table_get_ext sec t') by done.
      simpl. case_bool_decide as Hk; [|done].
      subst key. rewrite Hzombie. f_equal. apply val_of_no_key. done.
    + intros key Hk. specialize (Hkeys key).
      rewrite (get_bucket_index_ext sec t' key Hn1) in Hkeys.
      destruct (Hkeys Hk) as [Hin|Hin].
      * left. by rewrite Hents in Hin.
      * right. apply has_key_cons. by right.
  - (* no slot could be had: the entry stays where it is *)
    intros [= <- <- <- <- <- <-]. split_and!; [done|done|done|].
    exists []. split_and!; [done|simpl; lia| |].
    + intros key. by rewrite (table_get_ext sec t').
    + intros key Hk. left. by rewrite Hents in Hk.
  - (* a fresh slot in the secondary table takes the entry over *)
    set (bi := get_bucket_index hash sec (m_key e)) in *.
    intros Hrec.
    assert (Hlt : (bi < length (Vector.items (m_buckets t')))%nat).
    { unfold structured in Hs1. rewrite Hs1, Hn1. by apply get_bucket_index_lt. }
    assert (Hents2 : ∀ j, ents (set_entry t' bi (length (ents sec bi)) e) j =
               if decide (j = bi) then ents sec bi ++ [e] else ents sec j).
    { intros j. rewrite ents_set_entry. case_decide as Hd.
      - destruct Hd as [<- _]. rewrite decide_True by done.
        rewrite Hnew. apply insert_snoc.
      - rewrite decide_False by naive_solver. apply Hother. naive_solver. }
    assert (Hs2 : structured (set_entry t' bi (length (ents sec bi)) e)).
    { unfold set_entry. by apply structured_set_bucket. }
    assert (Hn2 : m_num_buckets (set_entry t' bi (length (ents sec bi)) e)
                  = m_num_buckets sec) by done.
    assert (Hnokey : ¬ has_key (ents sec bi) (m_key e)).
    { by apply (find_entry_None _ _ 0%nat). }
    assert (Hz' : ∀ e', e' ∈ es →
              has_key (ents (set_entry t' bi (length (ents sec bi)) e)
                         (get_bucket_index hash (set_entry t' bi (length (ents sec bi)) e)
                            (m_key e'))) (m_key e') →
              m_val e' = None).
    { intros e' He' Hk'. apply Hz; [by right|].
      rewrite (get_bucket_index_ext sec _) in Hk' by done.
      rewrite Hents2 in Hk'. case_decide as Hd; [|done].
      apply has_key_snoc in Hk' as [Hk'|Hk']; [by rewrite Hd|].
      exfalso. apply Hnotin. rewrite Hk'.
      apply list_elem_of_fmap. by exists e'. }
    assert (Htot1 : (Z.of_nat (length es) <= SizeT.sub total 1 < SizeT.modulus)%Z).
    { simpl in Htot. lia. }
    destruct (IH _ _ _ _ _ _ _ _ _ _ Hs2 Hnd Hz' Htot1 Hrec)
      as (Hs' & Hn' & Hdr & moved & Hsplit & Htot' & Hget & Hkeys).
    split_and!; [done|congruence|done|].
    exists (e :: moved). split_and!.
    + simpl. by rewrite Hsplit.
    + simpl. lia.
    + intros key. rewrite Hget.
      rewrite !table_get_ents, Hn2, (get_bucket_index_ext sec _) by done.
      rewrite Hents2. fold bi.
      destruct (Nat.eqb_spec (m_num_buckets sec) 0); [done|].
      simpl. case_bool_decide as Hk.
      * subst key. fold bi. rewrite decide_True by done.
        rewrite val_of_snoc, decide_False, decide_True by done.
        rewrite (val_of_no_key (ents sec bi)) by done.
        rewrite (val_of_no_key es) by done. by destruct (m_val e).
      * case_decide as Hd; [|done]. rewrite Hd.
        rewrite val_of_snoc. destruct (decide (has_key (ents sec bi) key)) as [|Hnk]; [done|].
        rewrite decide_False by done. by rewrite (val_of_no_key (ents sec bi)).
    + intros key Hk. specialize (Hkeys key).
      rewrite (get_bucket_index_ext sec _ key Hn2) in Hkeys.
      destruct (Hkeys Hk) as [Hin|Hin].
      * rewrite Hents2 in Hin. case_decide as Hd; [|by left].
        apply has_key_snoc in Hin as [Hin|Hin]; [left; by rewrite Hd|].
        right. apply has_key_cons. by left.
      * right. apply has_key_cons. by right.
Qed.


(** *** Invariants of a table *)




Lemma ents_lookup (t : Table) i b :
  Vector.items (m_buckets t) !! i = Some b → ents t i = Vector.items b.
Proof. unfold ents, bucket_at. by intros ->. Qed.

Lemma ents_out_of_range (t : Table) i :
  (length (Vector.items (m_buckets t)) <= i)%nat → ents t i = [].
Proof. intros. unfold ents, bucket_at. by rewrite lookup_ge_None_2. Qed.

Lemma entry_count_set_bucket (t : Table) i b :
  (i < length (Vector.items (m_buckets t)))%nat →
  (entry_count (set_bucket t i b) + length (ents t i) =
   entry_count t + length (Vector.items b))%nat.
Proof.
  intros Hlt. unfold entry_count, set_bucket. simpl.
  destruct (lookup_lt_is_Some_2 _ _ Hlt) as [b0 Hb0].
  rewrite (ents_lookup _ _ _ Hb0).
  rewrite insert_take_drop by done.
  rewrite <- (take_drop_middle _ _ _ Hb0) at 3.
  rewrite !fmap_app, !fmap_cons, !concat_app, !concat_cons, !length_app. lia.
Qed.

Lemma ents_length_le (t : Table) i : (length (ents t i) <= entry_count t)%nat.
Proof.
  destruct (decide (i < length (Vector.items (m_buckets t)))%nat) as [Hlt|Hge].
  - destruct (lookup_lt_is_Some_2 _ _ Hlt) as [b0 Hb0].
    rewrite (ents_lookup _ _ _ Hb0). unfold entry_count.
    rewrite <- (take_drop_middle _ _ _ Hb0).
    rewrite !fmap_app, !fmap_cons, !concat_app, !concat_cons, !length_app. lia.
  - rewrite ents_out_of_range by lia. simpl. lia.
Qed.

Lemma entry_count_0 (t : Table) i : entry_count t = 0%nat → ents t i = [].
Proof.
  intros Hz. pose proof (ents_length_le t i) as Hle.
  destruct (ents t i); [done|]. simpl in Hle. lia.
Qed.

(** *** The outer loop of [perform_partial_transfer] *)

Lemma transfer_buckets_spec n :
  ∀ c budget (main sec : Table) a ok c' main' sec' a',
  table_inv hash main → structured sec → zombies hash main sec →
  (c + n <= m_num_buckets main)%nat →
  transfer_buckets hash n c budget main sec a = (ok, c', main', sec', a') →
  table_inv hash main' ∧ structured sec' ∧ zombies hash main' sec' ∧
  m_num_buckets main' = m_num_buckets main ∧
  m_num_buckets sec' = m_num_buckets sec ∧
  ∀ key, orelse (table_get hash sec' key) (table_get hash main' key)
         = orelse (table_get hash sec key) (table_get hash main key).
Proof.
  induction n as [|n IH]; intros c budget main sec a ok c' main' sec' a' Hinv Hs Hz Hc; simpl.
  { intros [= <- <- <- <- <-]. by split_and!. }
  set (b := bucket_at main c).
  destruct (transfer_entries hash (reverse (Vector.items b)) budget (m_total_entries main) sec a)
    as [[[[[status rest] budget'] total'] sec1] a1] eqn:Et.
  set (main1 := set_total_entries
                  (set_bucket main c (Vector.Mk (reverse rest) (Vector.capacity b))) total').
  intros Hrec.
  destruct Hinv as [Hms Hnd Hpl Hcnt].
  assert (Hclt : (c < length (Vector.items (m_buckets main)))%nat).
  { unfold structured in Hms. lia. }
  assert (Hnz : m_num_buckets main ≠ 0%nat) by lia.
  assert (Hb : Vector.items b = ents main c) by done.
  assert (Hnd_rev : NoDup (m_key <$> reverse (Vector.items b))).
  { rewrite fmap_reverse, reverse_Permutation, Hb. apply Hnd. }
  assert (Hz_rev : ∀ e, e ∈ reverse (Vector.items b) →
            has_key (ents sec (get_bucket_index hash sec (m_key e))) (m_key e) →
            m_val e = None).
  { intros e He. apply (Hz c). rewrite <- Hb. by apply elem_of_reverse. }
  assert (Hcount : (Z.of_nat (length (reverse (Vector.items b)))
                    <= m_total_entries main < SizeT.modulus)%Z).
  { rewrite length_reverse, Hb. pose proof (ents_length_le main c). lia. }
  destruct (transfer_entries_spec _ _ _ _ _ _ _ _ _ _ _ Hs Hnd_rev Hz_rev Hcount Et)
    as (Hs1 & Hn1 & Hdr & moved & Hsplit & Htot' & Hget & Hkeys).
  assert (Hents1 : ∀ j, ents main1 j = if decide (j = c) then reverse rest else ents main j).
  { intros j. unfold main1. rewrite ents_set_total, ents_set_bucket.
    case_decide as Hd.
    - destruct Hd as [<- _]. by rewrite decide_True.
    - rewrite decide_False; [done|]. naive_solver. }
  assert (Hrest_in : ∀ e, e ∈ rest → e ∈ ents main c).
  { intros e He. rewrite <- Hb. apply elem_of_reverse. rewrite Hsplit.
    apply elem_of_app. by right. }
  assert (Hmoved_in : ∀ e, e ∈ moved → e ∈ ents main c).
  { intros e He. rewrite <- Hb. apply elem_of_reverse. rewrite Hsplit.
    apply elem_of_app. by left. }
  assert (Hnd_split : NoDup ((m_key <$> moved) ++ (m_key <$> rest))).
  { by rewrite <- fmap_app, <- Hsplit. }
  apply NoDup_app in Hnd_split as (Hnd_moved & Hdisj & Hnd_rest).
  assert (Hlen : length (ents main c) = (length moved + length rest)%nat).
  { rewrite <- Hb, <- (length_reverse (Vector.items b)), Hsplit, length_app. done. }
  assert (Hinv1 : table_inv hash main1).
  { constructor.
    - unfold main1. apply structured_set_bucket. done.
    - intros j. rewrite Hents1. case_decide; [|apply Hnd].
      by rewrite fmap_reverse, reverse_Permutation.
    - intros j e. rewrite Hents1. case_decide as Hd.
      + subst j. rewrite elem_of_reverse. intros He. apply Hpl. by apply Hrest_in.
      + apply Hpl.
    - unfold main1. simpl.
      pose proof (entry_count_set_bucket main c
                    (Vector.Mk (reverse rest) (Vector.capacity b)) Hclt) as Hec.
      simpl in Hec. rewrite length_reverse in Hec.
      change (entry_count (set_total_entries
                (set_bucket main c (Vector.Mk (reverse rest) (Vector.capacity b))) total'))
        with (entry_count (set_bucket main c (Vector.Mk (reverse rest) (Vector.capacity b)))).
      lia. }
  assert (Hz1 : zombies hash main1 sec1).
  { intros j e. rewrite Hents1. rewrite (get_bucket_index_ext sec sec1) by done.
    intros He Hk. apply Hkeys in Hk as [Hk|Hk].
    - case_decide; [|by apply (Hz j)].
      apply (Hz c); [|done]. apply Hrest_in. by apply elem_of_reverse.
    - exfalso. case_decide as Hd.
      + apply (Hdisj (m_key e)); [done|].
        apply list_elem_of_fmap. exists e. split; [done|]. by apply elem_of_reverse.
      + unfold has_key in Hk. apply list_elem_of_fmap in Hk as (e' & Hke & He').
        apply Hmoved_in in He'. apply Hpl in He'. apply Hpl in He. congruence. }
  assert (Hpeek1 : ∀ key,
            orelse (table_get hash sec1 key) (table_get hash main1 key)
            = orelse (table_get hash sec key) (table_get hash main key)).
  { intros key. rewrite (table_get_ents main1), (table_get_ents main).
    change (m_num_buckets main1) with (m_num_buckets main).
    rewrite (get_bucket_index_ext main main1) by done.
    destruct (Nat.eqb_spec (m_num_buckets main) 0); [done|].
    rewrite Hents1. specialize (Hget key).
    rewrite <- (val_of_reverse rest) in Hget by done.
    rewrite <- (val_of_reverse (reverse (Vector.items b))) in Hget by done.
    rewrite reverse_involutive, Hb in Hget.
    case_decide as Hd; [by rewrite Hd|].
    rewrite val_of_no_key in Hget.
    2:{ intros Hk. unfold has_key in Hk. rewrite fmap_reverse in Hk.
        apply elem_of_reverse, list_elem_of_fmap in Hk as (e' & Hke & He').
        apply Hrest_in, Hpl in He'. congruence. }
    rewrite (val_of_no_key (ents main c)) in Hget.
    2:{ intros Hk. unfold has_key in Hk.
        apply list_elem_of_fmap in Hk as (e' & Hke & He').
        apply Hpl in He'. congruence. }
    destruct (table_get hash sec1 key), (table_get hash sec key); simpl in *; congruence. }
  destruct status.
  - assert (Hc1 : (S c + n <= m_num_buckets main1)%nat) by (simpl; lia).
    destruct (IH _ _ _ _ _ _ _ _ _ _ Hinv1 Hs1 Hz1 Hc1 Hrec)
      as (Hi' & Hs' & Hz' & Hnm & Hns & Hp').
    split_and!; try done; try congruence.
  - simplify_eq. by split_and!.
  - simplify_eq. by split_and!.
Qed.


(** *** The invariant of the map *)


Lemma table_get_empty (t : Table) key :
  (∀ j, ents t j = []) → table_get hash t key = None.
Proof. intros He. rewrite table_get_ents, He. by case_match. Qed.

Lemma table_get_count_0 (t : Table) key :
  table_inv hash t → m_total_entries t = 0%Z → table_get hash t key = None.
Proof.
  intros [_ _ _ Hc] Hz. apply table_get_empty. intros j.
  apply entry_count_0. lia.
Qed.

Lemma perform_partial_transfer_spec (m : unordered_map) a ok m' a' main sec :
  m_main m = Some main → m_secondary m = Some sec →
  table_inv hash main → structured sec → zombies hash main sec →
  (m_current_bucket_to_transfer m <= m_num_buckets main)%nat →
  perform_partial_transfer hash m a = (ok, m', a') →
  ∃ main' sec',
    m_main m' = Some main' ∧ m_secondary m' = Some sec' ∧ m_state m' = m_state m ∧
    table_inv hash main' ∧ structured sec' ∧ zombies hash main' sec' ∧
    ∀ key, orelse (table_get hash sec' key) (table_get hash main' key)
           = orelse (table_get hash sec key) (table_get hash main key).
Proof.
  intros Hm Hsec Hinv Hs Hz Hc. unfold perform_partial_transfer. rewrite Hm, Hsec.
  destruct (transfer_buckets _ _ _ _ _ _ _) as [[[[ok1 c'] main'] sec'] a1] eqn:Et.
  intros [= <- <- <-].
  assert (Hc' : (m_current_bucket_to_transfer m
                 + (m_num_buckets main - m_current_bucket_to_transfer m)
                 <= m_num_buckets main)%nat) by lia.
  destruct (transfer_buckets_spec _ _ _ _ _ _ _ _ _ _ _ Hinv Hs Hz Hc' Et)
    as (Hi' & Hs' & Hz' & _ & _ & Hp).
  exists main', sec'. by split_and!.
Qed.

(** The tail of [get], [put] and [del] in the TRANSFER state keeps every
    key's value unless it latches the ERROR state. *)
Lemma transfer_step_peek {R} (failure rval r : R) (m : unordered_map) a m' a' main sec :
  m_state m = TRANSFER → m_main m = Some main → m_secondary m = Some sec →
  table_inv hash main → structured sec → zombies hash main sec →
  (m_current_bucket_to_transfer m <= m_num_buckets main)%nat →
  transfer_step hash failure rval m a = (r, m', a') →
  m_state m' ≠ ERROR →
  r = rval ∧ ∀ key, peek hash m' key = peek hash m key.
Proof.
  intros Hst Hm Hsec Hinv Hs Hz Hc. unfold transfer_step.
  destruct (perform_partial_transfer hash m a) as [[ok m1] a1] eqn:Ep.
  destruct ok; simpl; [|by intros [= <- <- <-] Hne].
  destruct (perform_partial_transfer_spec _ _ _ _ _ _ _ Hm Hsec Hinv Hs Hz Hc Ep)
    as (main' & sec' & Hm' & Hsec' & Hst' & Hi' & Hs' & Hz' & Hp).
  assert (Hpk : ∀ key, peek hash m key
                 = orelse (table_get hash sec key) (table_get hash main key)).
  { intros key. unfold peek. by rewrite Hst, Hm, Hsec. }
  destruct (is_transfer_complete m1) eqn:Ec.
  - intros [= <- <- <-] _. split; [done|]. intros key.
    rewrite Hpk, <- Hp. unfold peek, end_resize. simpl. rewrite Hsec'.
    unfold is_transfer_complete in Ec. rewrite Hm' in Ec.
    apply Z.eqb_eq in Ec. rewrite (table_get_count_0 main') by done.
    by destruct (table_get hash sec' key).
  - intros [= <- <- <-] _. split; [done|]. intros key.
    rewrite Hpk, <- Hp. unfold peek. rewrite Hst', Hst, Hm', Hsec'. done.
Qed.

(** *** A fresh table has empty chains *)

Lemma expand_loop_items n :
  ∀ i v a i' v' a',
  expand_loop (Key := Key) (T := T) n i v a = (i', v', a') →
  Vector.items v' = Vector.items v ++ replicate (i' - i) Vector.new ∧ (i <= i')%nat.
Proof.
  induction n as [|n IH]; intros i v a i' v' a'; simpl.
  { intros [= <- <- <-]. rewrite Nat.sub_diag. simpl. by rewrite app_nil_r. }
  destruct (Vector.push_back _ _ _) as [[ok v1] a1] eqn:Ep.
  pose proof (push_back_items _ _ _ _ _ _ Ep) as Hit.
  destruct ok.
  - intros Hrec. apply IH in Hrec as [Hrec Hle]. split; [|lia].
    rewrite Hrec, Hit, <- app_assoc. f_equal.
    replace (i' - i)%nat with (S (i' - S i)) by lia. done.
  - intros [= <- <- <-]. rewrite Nat.sub_diag. simpl. by rewrite app_nil_r.
Qed.

Lemma new_table_ents p a t a' j :
  new_table (Key := Key) (T := T) p a = (t, a') → ents t j = [].
Proof.
  unfold new_table, expand.
  destruct (Vector.reserve _ _ _) as [[ok v1] a1] eqn:Er.
  destruct (expand_loop _ _ _ _) as [[n v] a2] eqn:El.
  intros [= <- <-].
  apply expand_loop_items in El as [Hit _].
  assert (Hv1 : Vector.items v1 = []).
  { revert Er. unfold Vector.reserve. repeat case_match; intros; simplify_eq/=; done. }
  rewrite Hv1 in Hit. simpl in Hit.
  unfold ents, bucket_at. simpl. rewrite Hit.
  destruct (replicate _ _ !! j) as [b|] eqn:Eb; [|done].
  apply lookup_replicate_1 in Eb as [-> _]. done.
Qed.

(** The tail of [get], [put] and [del] in the STABLE state keeps every key's
    value unless it latches the ERROR state. *)
Lemma resize_check_peek {R} (failure rval r : R) (m : unordered_map) a m' a' main :
  m_state m = STABLE → m_main m = Some main →
  resize_check failure rval m a = (r, m', a') →
  m_state m' ≠ ERROR →
  r = rval ∧ ∀ key, peek hash m' key = peek hash m key.
Proof.
  intros Hst Hm. unfold resize_check. rewrite Hm.
  destruct (should_resize m main); [|by intros [= <- <- <-]].
  unfold begin_resize.
  destruct (Alloc.allocate a) as [valid a1].
  destruct valid; simpl; [|by intros [= <- <- <-] Hne].
  destruct (new_table _ a1) as [sec a2] eqn:En.
  destruct (negb _); simpl; [by intros [= <- <- <-] Hne|].
  intros [= <- <- <-] _. split; [done|]. intros key.
  unfold peek. simpl. rewrite Hst, Hm.
  rewrite (table_get_empty sec); [done|].
  intros j. by eapply new_table_ents.
Qed.


(** *** Rolling back a freshly created entry *)

Lemma find_entry_snoc_fresh (es : list Entry) (key : Key) (v : option T) i :
  ¬ has_key es key →
  find_entry key (es ++ [MkEntry key v]) i = Some (i + length es)%nat.
Proof.
  revert i. induction es as [|e es IH]; intros i Hn; simpl.
  - rewrite bool_decide_true by done. f_equal. lia.
  - rewrite has_key_cons in Hn. rewrite bool_decide_false by naive_solver.
    rewrite IH by naive_solver. f_equal. lia.
Qed.

Lemma bucket_remove_fresh (b : Bucket) (es : list Entry) (key : Key) (v : option T) :
  Vector.items b = es ++ [MkEntry key v] → ¬ has_key es key →
  Vector.items (bucket_remove b key).2 = es.
Proof.
  intros Hb Hn. unfold bucket_remove, bucket_get_entry.
  rewrite Hb, find_entry_snoc_fresh by done. simpl.
  unfold Vector.remove_fast, Vector.size, Vector.back. simpl.
  assert (Halt : alter deconstruct (length es) (es ++ [MkEntry key v])
                 = es ++ [deconstruct (MkEntry key v)]).
  { apply list_eq. intros i. rewrite list_lookup_alter.
    case_decide as Hd.
    - subst i. rewrite !lookup_app_r by lia. by rewrite Nat.sub_diag.
    - destruct (decide (i < length es)%nat).
      + by rewrite !lookup_app_l by lia.
      + rewrite !lookup_app_r by lia.
        destruct (i - length es)%nat eqn:E; [lia|done]. }
  rewrite Halt, length_app. simpl.
  destruct (Nat.leb_spec (length es + 1) (length es)); [lia|].
  rewrite last_snoc, removelast_last. simpl.
  apply list_insert_ge. lia.
Qed.

Lemma set_entry_id (t : Table) bi ei e :
  entry_at t bi ei = Some e → set_entry t bi ei e = t.
Proof.
  unfold entry_at, set_entry, set_bucket, bucket_at. intros He.
  destruct (Vector.items (m_buckets t) !! bi) as [b|] eqn:Eb; simpl in *; [|done].
  rewrite (list_insert_id _ _ _ He), vector_eta.
  destruct t as [[its cap] tot n p]. simpl in *. do 2 f_equal.
  by apply list_insert_id.
Qed.

Lemma entry_eta (e : Entry) : m_val e = None → MkEntry (m_key e) None = e.
Proof. destruct e. simpl. by intros ->. Qed.

Lemma construct_false (e : Entry) val a e' a' :
  construct e val a = (false, e', a') → m_val e = None ∧ e' = e.
Proof.
  unfold construct. destruct (m_val e); [done|].
  destruct (Alloc.allocate a) as [[] ?]; [done|]. by intros [= <- <-].
Qed.

(** What a [put] that reports failure has done to the table it inserts
    into, before the resize bookkeeping. *)
Lemma put_attempt_rollback (t t1 : Table) key val a res a1 :
  structured t →
  table_get_or_create_entry hash t key a = (res, t1, a1) →
  ∀ ei bi e e' a2,
    entry res = Some ei → bucket res = Some bi →
    entry_at t1 bi ei = Some e →
    construct e val a1 = (false, e', a2) →
    let t2 := if created res
              then set_bucket t1 bi (bucket_remove (bucket_at t1 bi) (m_key e)).2
              else t1 in
    structured t2 ∧ m_num_buckets t2 = m_num_buckets t ∧ ∀ j, ents t2 j = ents t j.
Proof.
  intros Hs Hg ei bi e e' a2 Hei Hbi He Hc.
  destruct (table_get_or_create_entry_outcome _ _ _ _ _ _ Hs Hg) as (Hout & Hs1 & Hn1).
  destruct Hout as [i t' Hfind Hents Htotal | bk t' a'' _ Hents _
                    | t' a'' Hnz Hfind Hnew Hother Htotal]; simpl in *.
  - by split_and!.
  - done.
  - simplify_eq.
    set (bi := get_bucket_index hash t key) in *.
    assert (Hlt : (bi < length (Vector.items (m_buckets t')))%nat).
    { unfold structured in Hs1. rewrite Hs1, Hn1. by apply get_bucket_index_lt. }
    assert (Hnokey : ¬ has_key (ents t bi) key) by by apply (find_entry_None _ _ 0%nat).
    assert (Hek : e = MkEntry key None).
    { unfold entry_at in He. fold (ents t' bi) in He. rewrite Hnew in He.
      rewrite lookup_app_r, Nat.sub_diag in He by lia. by simplify_eq/=. }
    subst e. simpl.
    split_and!; [by apply structured_set_bucket|done|].
    intros j. rewrite ents_set_bucket. case_decide as Hd.
    + destruct Hd as [<- _]. by apply (bucket_remove_fresh _ _ _ None).
    + apply Hother. naive_solver.
Qed.


Lemma goc_entry_at (t t1 : Table) key a res a1 ei bi :
  structured t →
  table_get_or_create_entry hash t key a = (res, t1, a1) →
  entry res = Some ei → bucket res = Some bi →
  ∃ e, entry_at t1 bi ei = Some e ∧ m_key e = key ∧
       (created res = true → e = MkEntry key None).
Proof.
  intros Hs Hg Hei Hbi.
  destruct (table_get_or_create_entry_outcome _ _ _ _ _ _ Hs Hg) as (Hout & Hs1 & Hn1).
  destruct Hout as [i t' Hfind Hents Htotal | bk t' a'' _ Hents _
                    | t' a'' Hnz Hfind Hnew Hother Htotal]; simplify_eq/=.
  - apply find_entry_Some in Hfind as (e & He & Hk & _).
    exists e. unfold entry_at. fold (ents t' (get_bucket_index hash t key)).
    rewrite Hents. by split_and!.
  - exists (MkEntry key None). unfold entry_at.
    fold (ents t' (get_bucket_index hash t key)). rewrite Hnew.
    rewrite lookup_app_r, Nat.sub_diag by lia. by split_and!.
Qed.

Lemma goc_no_entry (t t1 : Table) key a res a1 :
  structured t →
  table_get_or_create_entry hash t key a = (res, t1, a1) →
  entry res = None ∨ bucket res = None →
  structured t1 ∧ m_num_buckets t1 = m_num_buckets t ∧ ∀ j, ents t1 j = ents t j.
Proof.
  intros Hs Hg Hnone.
  destruct (table_get_or_create_entry_outcome _ _ _ _ _ _ Hs Hg) as (Hout & Hs1 & Hn1).
  destruct Hout; simpl in *; try by split_and!.
  all: by destruct Hnone.
Qed.

Lemma zombies_ext (main sec sec' : Table) :
  m_num_buckets sec' = m_num_buckets sec → (∀ j, ents sec' j = ents sec j) →
  zombies hash main sec → zombies hash main sec'.
Proof.
  intros Hn He Hz i e Hin Hk. apply (Hz i); [done|].
  by rewrite (get_bucket_index_ext sec sec'), He in Hk.
Qed.

Lemma peek_stable (m : unordered_map) main key :
  m_state m = STABLE → m_main m = Some main →
  peek hash m key = table_get hash main key.
Proof. intros Hst Hm. unfold peek. by rewrite Hst, Hm. Qed.

Lemma peek_transfer (m : unordered_map) main sec key :
  m_state m = TRANSFER → m_main m = Some main → m_secondary m = Some sec →
  peek hash m key = orelse (table_get hash sec key) (table_get hash main key).
Proof. intros Hst Hm Hs. unfold peek. by rewrite Hst, Hm, Hs. Qed.

(** The entry that a [put] in the TRANSFER state seeds a fresh slot with. *)
Lemma seed_from_main (main : Table) key :
  let r :=
    match table_get_entry hash main key with
    | Some mi =>
      match entry_at main (get_bucket_index hash main key) mi with
      | Some me => (me, set_entry main (get_bucket_index hash main key) mi
                          (MkEntry (m_key me) None))
      | None => (MkEntry key None, main)
      end
    | None => (MkEntry key None, main)
    end in
  m_key r.1 = key ∧ (m_val r.1 = None → r.2 = main).
Proof.
  unfold table_get_entry, bucket_get_entry.
  destruct (m_num_buckets main =? 0)%nat; [done|].
  fold (ents main (get_bucket_index hash main key)).
  destruct (find_entry key _ 0) as [mi|] eqn:Ef; [|done].
  apply find_entry_Some in Ef as (me & Hme & Hkme & _).
  unfold entry_at. fold (ents main (get_bucket_index hash main key)).
  rewrite Hme. simpl. split; [done|]. intros Hv.
  rewrite entry_eta by done. apply set_entry_id.
  unfold entry_at. by fold (ents main (get_bucket_index hash main key)).
Qed.

(** A failed [put] that does not end in the ERROR state keeps what every
    lookup finds. *)
Lemma failed_put_keeps_peek (m m' : unordered_map) key val a a' :
  map_inv hash m →
  put hash keep m key val a = (false, m', a') →
  m_state m' ≠ ERROR →
  ∀ k, peek hash m' k = peek hash m k.
Proof.
  intros Hinv Hput Hne k. unfold put, map_inv in *.
  destruct (m_state m) eqn:Hst.
  - (* ERROR *)
    assert (m' = m) as -> by (repeat case_match; by simplify_eq). done.
  - (* STABLE *)
    destruct (m_main m) as [main|] eqn:Hm; [|done].
    destruct (m_secondary m) eqn:Hsec; [done|].
    destruct (table_get_or_create_entry hash main key a) as [[res main1] a1] eqn:Eg.
    pose proof (ti_struct _ _ Hinv) as Hs.
    match type of Hput with
    | (match ?att with _ => _ end) = _ =>
        destruct att as [[rval main2] a2] eqn:Eatt
    end.
    destruct (resize_check_peek false rval false (with_main m main2) a2 m' a' main2)
      as [Hr Hpk]; try done.
    rewrite Hpk, (peek_stable (with_main m main2) main2), (peek_stable m main) by done.
    subst rval. apply table_get_ext.
    + destruct (entry res) as [ei|] eqn:Eei; [destruct (bucket res) as [bi|] eqn:Ebi|].
      * destruct (goc_entry_at _ _ _ _ _ _ _ _ Hs Eg Eei Ebi) as (e & He & _ & _).
        rewrite He in Eatt.
        destruct (construct e val a1) as [[ok e'] a2'] eqn:Ec.
        destruct ok; [by simplify_eq|].
        destruct (put_attempt_rollback _ _ _ _ _ _ _ Hs Eg _ _ _ _ _ Eei Ebi He Ec)
          as (_ & Hn & _).
        destruct (created res); by simplify_eq.
      * simplify_eq. by eapply goc_no_entry; eauto.
      * simplify_eq. by eapply goc_no_entry; eauto.
    + destruct (entry res) as [ei|] eqn:Eei; [destruct (bucket res) as [bi|] eqn:Ebi|].
      * destruct (goc_entry_at _ _ _ _ _ _ _ _ Hs Eg Eei Ebi) as (e & He & _ & _).
        rewrite He in Eatt.
        destruct (construct e val a1) as [[ok e'] a2'] eqn:Ec.
        destruct ok; [by simplify_eq|].
        destruct (put_attempt_rollback _ _ _ _ _ _ _ Hs Eg _ _ _ _ _ Eei Ebi He Ec)
          as (_ & _ & He2).
        destruct (created res); by simplify_eq.
      * simplify_eq. by eapply goc_no_entry; eauto.
      * simplify_eq. by eapply goc_no_entry; eauto.
  - (* TRANSFER *)
    destruct (m_main m) as [main|] eqn:Hm; [|done].
    destruct (m_secondary m) as [sec|] eqn:Hsec; [|done].
    destruct Hinv as (Himain & Hisec & Hz & Hcur).
    pose proof (ti_struct _ _ Hisec) as Hs.
    destruct (table_get_or_create_entry hash sec key a) as [[res sec1] a1] eqn:Eg.
    match type of Hput with
    | (match ?att with _ => _ end) = _ =>
        destruct att as [[[rval main2] sec2] a2] eqn:Eatt
    end.
    assert (Hfail : rval = false →
              main2 = main ∧ structured sec2 ∧ m_num_buckets sec2 = m_num_buckets sec ∧
              ∀ j, ents sec2 j = ents sec j).
    { intros ->.
      destruct (entry res) as [ei|] eqn:Eei; [destruct (bucket res) as [bi|] eqn:Ebi|].
      2,3: simplify_eq; split; [done|]; by eapply goc_no_entry; eauto.
      destruct (goc_entry_at _ _ _ _ _ _ _ _ Hs Eg Eei Ebi) as (e0 & He0 & Hk0 & Hc0).
      rewrite He0 in Eatt.
      destruct (created res) eqn:Ecr.
      - specialize (Hc0 eq_refl). subst e0.
        match type of Eatt with
        | (match ?seed with _ => _ end) = _ =>
            pose proof (seed_from_main main key) as Hseed;
            destruct seed as [e main1] eqn:Eseed
        end.
        destruct Hseed as [Hke Hmain1]. simpl in Hke, Hmain1.
        destruct (construct e val a1) as [[ok e'] a2'] eqn:Ec.
        destruct ok; [by simplify_eq|].
        apply construct_false in Ec as Hcf. destruct Hcf as [Hv ->].
        rewrite (Hmain1 Hv) in Eatt.
        rewrite Hke in Eatt.
        rewrite (set_entry_id sec1 bi ei (MkEntry key None)) in Eatt by done.
        assert (Ec0 : construct (MkEntry key None) val a1 = (false, MkEntry key None, a2')).
        { revert Ec. unfold construct. rewrite Hv. simpl.
          destruct (Alloc.allocate a1) as [[] ?]; [done|]. by intros [= <-]. }
        pose proof (put_attempt_rollback _ _ _ _ _ _ _ Hs Eg _ _ _ _ _ Eei Ebi He0 Ec0)
          as Hrb.
        rewrite Ecr in Hrb. simpl in Hrb. by simplify_eq.
      - destruct (construct e0 val a1) as [[ok e'] a2'] eqn:Ec.
        destruct ok; [by simplify_eq|].
        apply construct_false in Ec as Hcf. destruct Hcf as [Hv ->].
        pose proof (put_attempt_rollback _ _ _ _ _ _ _ Hs Eg _ _ _ _ _ Eei Ebi He0 Ec)
          as Hrb.
        rewrite Ecr in Hrb. simpl in Hrb.
        rewrite (set_entry_id sec1 bi ei e0) in Eatt by done. by simplify_eq. }
    set (m2 := with_secondary (with_main m main2) (Some sec2)) in *.
    destruct (decide (rval = false)) as [Hrv|Hrv].
    2:{ destruct rval; [|done].
        revert Hput. unfold transfer_step.
        destruct (perform_partial_transfer hash m2 a2) as [[[] ?] ?]; simpl;
          repeat case_match; intros; simplify_eq/=. }
    destruct (Hfail Hrv) as (-> & Hs2 & Hn2 & He2).
    destruct (transfer_step_peek false rval false m2 a2 m' a' main sec2)
      as [_ Hpk]; try done.
    { by eapply zombies_ext. }
    rewrite Hpk, (peek_transfer m2 main sec2), (peek_transfer m main sec) by done.
    by rewrite (table_get_ext sec sec2).
Qed.


(** *** The running check implies the invariant *)

Lemma forallb_elem_of {A} (f : A → bool) (l : list A) x :
  forallb f l = true → x ∈ l → f x = true.
Proof.
  induction l as [|y l IH]; simpl; intros Hf Hin.
  - by apply elem_of_nil in Hin.
  - apply andb_true_iff in Hf as [Hy Hl].
    apply elem_of_cons in Hin as [->|Hin]; auto.
Qed.

Lemma chains_okb_lookup (t : Table) (bs : list Bucket) :
  ∀ i j b, chains_okb hash t i bs = true → bs !! j = Some b →
           chain_okb hash t (i + j) (Vector.items b) = true.
Proof.
  induction bs as [|b0 bs IH]; intros i j b; simpl; [done|].
  intros Hc. apply andb_true_iff in Hc as [H0 Hrest].
  destruct j as [|j]; simpl.
  - intros [= <-]. by rewrite Nat.add_0_r.
  - intros Hj. replace (i + S j)%nat with (S i + j)%nat by lia. by apply IH.
Qed.

Lemma table_invb_sound (t : Table) : table_invb hash t = true → table_inv hash t.
Proof.
  unfold table_invb. rewrite !andb_true_iff.
  intros [[[Hlen Hch] Hle] Hlt].
  apply Nat.eqb_eq in Hlen. apply Z.leb_le in Hle. apply Z.ltb_lt in Hlt.
  assert (Hok : ∀ i, chain_okb hash t i (ents t i) = true).
  { intros i. unfold ents, bucket_at.
    destruct (Vector.items (m_buckets t) !! i) as [b|] eqn:Eb; [|done].
    apply (chains_okb_lookup t _ 0%nat i b Hch Eb). }
  constructor; [done| | |lia].
  - intros i. specialize (Hok i). unfold chain_okb in Hok.
    apply andb_true_iff in Hok as [Hnd _]. by apply bool_decide_eq_true in Hnd.
  - intros i e He. specialize (Hok i). unfold chain_okb in Hok.
    apply andb_true_iff in Hok as [_ Hpl].
    apply Nat.eqb_eq. by apply (forallb_elem_of _ _ e Hpl).
Qed.

Lemma zombiesb_sound (main sec : Table) :
  zombiesb hash main sec = true → zombies hash main sec.
Proof.
  unfold zombiesb. intros Hz i e He Hk.
  unfold ents, bucket_at in He.
  destruct (Vector.items (m_buckets main) !! i) as [b|] eqn:Eb; simpl in He.
  2:{ by apply elem_of_nil in He. }
  apply list_elem_of_lookup_2 in Eb.
  pose proof (forallb_elem_of _ _ b Hz Eb) as Hb. simpl in Hb.
  pose proof (forallb_elem_of _ _ e Hb He) as Hzk.
  unfold zombie_okb in Hzk.
  apply find_entry_is_Some in Hk as [i' Hi']. rewrite Hi' in Hzk.
  by destruct (m_val e).
Qed.

Lemma map_invb_sound (m : unordered_map) : map_invb hash m = true → map_inv hash m.
Proof.
  unfold map_invb, map_inv.
  destruct (m_state m); [done| |].
  - destruct (m_main m); [|done]. destruct (m_secondary m); [done|].
    apply table_invb_sound.
  - destruct (m_main m); [|done]. destruct (m_secondary m); [|done].
    rewrite !andb_true_iff. intros [[[Hm Hs] Hz] Hc].
    split_and!; auto using table_invb_sound, zombiesb_sound.
    by apply Nat.leb_le.
Qed.


(** What [get] returns, when it does not latch the ERROR state, is the value
    [peek] finds. *)
Lemma get_value (m m' : unordered_map) key a r a' :
  get hash m key a = (r, m', a') → m_state m' ≠ ERROR → r = peek hash m key.
Proof.
  unfold get, peek. intros Hget Hne.
  destruct (m_state m) eqn:Hst.
  - by simplify_eq.
  - destruct (m_main m) as [main|] eqn:Hm; [|by simplify_eq].
    unfold resize_check in Hget. rewrite Hm in Hget.
    destruct (should_resize m main); [|by simplify_eq].
    destruct (begin_resize _ _ _) as [[ok m1] a1].
    destruct ok; simpl in Hget; by simplify_eq.
  - destruct (m_main m) as [main|] eqn:Hm; [|by simplify_eq].
    destruct (m_secondary m) as [sec|] eqn:Hs; [|by simplify_eq].
    unfold transfer_step in Hget.
    destruct (perform_partial_transfer _ _ _) as [[ok m1] a1].
    destruct ok; simpl in Hget; [|by simplify_eq].
    destruct (is_transfer_complete m1); by simplify_eq.
Qed.

(** A failed [put] on a map that satisfies the invariant, in terms of [get]. *)
Lemma failed_put_keeps_lookups (m m' : unordered_map) key val a a' :
  map_inv hash m →
  put hash keep m key val a = (false, m', a') →
  m_state m' ≠ ERROR →
  (∀ k, peek hash m' k = peek hash m k) ∧
  (∀ k a1 a2,
      m_state (get hash m' k a1).1.2 ≠ ERROR →
      m_state (get hash m k a2).1.2 ≠ ERROR →
      (get hash m' k a1).1.1 = (get hash m k a2).1.1).
Proof.
  intros Hinv Hput Hne.
  pose proof (failed_put_keeps_peek m m' key val a a' Hinv Hput Hne) as Hpk.
  split; [exact Hpk|].
  intros k a1 a2 H1 H2.
  destruct (get hash m' k a1) as [[r1 m1] a1'] eqn:E1.
  destruct (get hash m k a2) as [[r2 m2] a2'] eqn:E2.
  simpl in *.
  rewrite (get_value _ _ _ _ _ _ E1 H1), (get_value _ _ _ _ _ _ E2 H2).
  apply Hpk.
Qed.

(** *** The ERROR state *)

Lemma with_locked_id (m : unordered_map) : with_locked m (m_locked m) = m.
Proof. by destruct m. Qed.

Lemma with_locked_twice (m : unordered_map) b b' :
  with_locked (with_locked m b) b' = with_locked m b'.
Proof. by destruct m. Qed.

(** In the ERROR state a call answers its failure and changes at most the
    resize lock. *)
Lemma do_call_error (moved_from : Key → Key) fuel (c : call) (m : unordered_map) a :
  m_state m = ERROR →
  ∃ m', do_call hash moved_from fuel c m a = Some (failure_of c, m', a)
        ∧ m_state m' = ERROR ∧ with_locked m' (m_locked m) = m.
Proof.
  intros Hst.
  destruct c; simpl;
    unfold get, contains, put, del, reserve, finalize, delete_all_keys,
           lock_table_size, unlock_table_size;
    rewrite ?Hst; eexists; (split; [reflexivity|]);
    (split; [done | by destruct m]).
Qed.

(** C8: once the map is in the ERROR state, [get] returns null, [contains]
    returns false, [put], [del], [reserve] and [finalize] return false,
    [delete_all_keys] does nothing and [get_num_buckets] is 0, each leaving the
    map as it was; and through any sequence of calls every call answers its
    failure, the state stays ERROR after every call, and the map is the same
    at the end but for the resize lock that [lock_table_size] and
    [unlock_table_size] set. *)
Theorem error_latches (moved_from : Key → Key) (m : unordered_map) :
  m_state m = ERROR →
  (∀ key val n fuel a,
      get hash m key a = (None, m, a) ∧
      contains hash m key = false ∧
      put hash moved_from m key val a = (false, m, a) ∧
      del hash m key a = (false, m, a) ∧
      reserve hash fuel m n a = Some (false, m, a) ∧
      finalize hash fuel m a = Some (false, m, a) ∧
      delete_all_keys hash fuel m a = Some (m, a) ∧
      get_num_buckets m = 0%nat) ∧
  (∀ fuel cs a, ∃ m',
      do_calls hash moved_from fuel cs m a = Some ((λ c, (failure_of c, ERROR)) <$> cs, m', a)
      ∧ m_state m' = ERROR ∧ with_locked m' (m_locked m) = m).
Proof.
  intros Hst. split.
  - intros key val n fuel a.
    unfold get, contains, put, del, reserve, finalize, delete_all_keys, get_num_buckets.
    rewrite !Hst. done.
  - intros fuel cs. revert m Hst.
    induction cs as [|c cs IH]; intros m Hst a; simpl.
    + exists m. split_and!; [done|done|apply with_locked_id].
    + destruct (do_call_error moved_from fuel c m a Hst) as (m1 & -> & Hst1 & Hm1).
      destruct (IH m1 Hst1 a) as (m2 & -> & Hst2 & Hm2).
      exists m2. unfold get_state. rewrite Hst1. split_and!; [done|done|].
      rewrite <- Hm1 in *. simpl.
      rewrite <- Hm2. rewrite !with_locked_twice. 
      rewrite <- (with_locked_twice m2 (m_locked m1) (m_locked m)).
      by rewrite Hm2.
Qed.

(** *** The loop of [finalize] and [reserve] *)

Lemma drain_S fuel (m : unordered_map) a :
  drain hash (S fuel) m a =
  if is_transfer_complete m then Some (true, m, a)
  else
    let '(valid_partial_transfer, m1, a1) := perform_partial_transfer hash m a in
    if valid_partial_transfer then drain hash fuel m1 a1 else Some (false, m1, a1).
Proof. reflexivity. Qed.

Lemma drain_incomplete_0 (m : unordered_map) a :
  is_transfer_complete m = false → drain hash 0 m a = None.
Proof. simpl. by intros ->. Qed.

(** With the cursor past the last bucket, a partial transfer does nothing. *)
Lemma perform_partial_transfer_past_end (m : unordered_map) (main sec : Table) a :
  m_main m = Some main → m_secondary m = Some sec →
  (m_num_buckets main <= m_current_bucket_to_transfer m)%nat →
  perform_partial_transfer hash m a = (true, m, a).
Proof.
  intros Hm Hs Hc. unfold perform_partial_transfer. rewrite Hm, Hs.
  replace (m_num_buckets main - m_current_bucket_to_transfer m)%nat with 0%nat by lia.
  simpl. destruct m; simpl in *. by subst.
Qed.

(** ... so the loop of [finalize] and [reserve] goes on for ever when the
    count of [main] has not come down to zero by then. *)
Lemma drain_past_end (m : unordered_map) (main sec : Table) a :
  m_main m = Some main → m_secondary m = Some sec →
  (m_num_buckets main <= m_current_bucket_to_transfer m)%nat →
  m_total_entries main ≠ 0%Z →
  ∀ fuel, drain hash fuel m a = None.
Proof.
  intros Hm Hs Hc Hn fuel.
  assert (Hic : is_transfer_complete m = false).
  { unfold is_transfer_complete. rewrite Hm. by apply Z.eqb_neq. }
  induction fuel as [|fuel IH].
  - by apply drain_incomplete_0.
  - rewrite drain_S, Hic, (perform_partial_transfer_past_end m main sec) by done.
    exact IH.
Qed.

Lemma reserve_stable_grow fuel (m m2 : unordered_map) (main : Table) n p a a2 :
  m_state m = STABLE → n ≠ 0%Z → find_power 32 0 n = Some p →
  m_main m = Some main → (m_power_of_2_size main < p)%nat →
  begin_resize m p a = (true, m2, a2) →
  reserve hash fuel m n a = finish_transfer (drain hash fuel m2 a2).
Proof.
  intros Hst Hn Hp Hm Hlt Hb. unfold reserve. rewrite Hst.
  apply Z.eqb_neq in Hn. rewrite Hn, Hp, Hm.
  apply Nat.leb_gt in Hlt. rewrite Hlt, Hb. done.
Qed.

Lemma reserve_stable_keep fuel (m : unordered_map) (main : Table) n p a :
  m_state m = STABLE → n ≠ 0%Z → find_power 32 0 n = Some p →
  m_main m = Some main → (p <= m_power_of_2_size main)%nat →
  reserve hash fuel m n a = Some (true, m, a).
Proof.
  intros Hst Hn Hp Hm Hle. unfold reserve. rewrite Hst.
  apply Z.eqb_neq in Hn. rewrite Hn, Hp, Hm.
  apply Nat.leb_le in Hle. by rewrite Hle.
Qed.

End MapFacts.

(** ** Hash map: the invariant holds in every reachable state *)

Section MapInvariant.
Import Map.
Context {Key T : Type} `{EqDecision Key}.
Variable hash : Key → Z.

(** A move that copies the key. *)
#[local] Abbreviation keep := (λ k : Key, k).

#[local] Abbreviation Entry := (Map.Entry Key T).
#[local] Abbreviation Table := (Map.Table Key T).
#[local] Abbreviation unordered_map := (Map.unordered_map Key T).
#[local] Abbreviation Bucket := (Vector.vector Entry).
#[local] Abbreviation call := (Map.call Key T).
#[local] Existing Instance has_key_dec.

(** *** The invariant of a table under the table operations *)

Lemma items_lookup_seq (l : list Bucket) :
  Vector.items <$> l
  = (λ i, Vector.items (default Vector.new (l !! i))) <$> seq 0 (length l).
Proof.
  apply list_eq. intros i. rewrite !list_lookup_fmap.
  destruct (l !! i) as [b|] eqn:Eb.
  - pose proof (lookup_lt_Some _ _ _ Eb) as Hlt.
    rewrite lookup_seq_lt by done. simpl. by rewrite Eb.
  - apply lookup_ge_None in Eb. by rewrite lookup_seq_ge.
Qed.

Lemma items_ents (t : Table) :
  Vector.items <$> Vector.items (m_buckets t)
  = ents t <$> seq 0 (length (Vector.items (m_buckets t))).
Proof. apply items_lookup_seq. Qed.

Lemma entry_count_ext (t t' : Table) :
  length (Vector.items (m_buckets t')) = length (Vector.items (m_buckets t)) →
  (∀ j, ents t' j = ents t j) → entry_count t' = entry_count t.
Proof.
  intros Hlen Hents. unfold entry_count. rewrite !items_ents, Hlen.
  do 2 f_equal. apply list_fmap_ext. intros i x _. apply Hents.
Qed.

Lemma entry_count_change (t t' : Table) i :
  structured t → structured t' → m_num_buckets t' = m_num_buckets t →
  (∀ j, j ≠ i → ents t' j = ents t j) →
  (entry_count t' + length (ents t i) = entry_count t + length (ents t' i))%nat.
Proof.
  intros Hs Hs' Hn Hother. unfold structured in *.
  destruct (decide (i < length (Vector.items (m_buckets t)))%nat) as [Hlt|Hge].
  - pose proof (entry_count_set_bucket t i (Vector.Mk (ents t' i) 0) Hlt) as Hc.
    simpl in Hc. rewrite <- Hc. f_equal.
    apply entry_count_ext.
    + simpl. rewrite length_insert. congruence.
    + intros j. rewrite ents_set_bucket. case_decide as Hd.
      * destruct Hd as [<- _]. done.
      * apply Hother. naive_solver.
  - rewrite (ents_out_of_range t i), (ents_out_of_range t' i) by lia.
    f_equal. apply entry_count_ext; [congruence|].
    intros j. destruct (decide (j = i)) as [->|Hne]; [|by apply Hother].
    by rewrite (ents_out_of_range t i), (ents_out_of_range t' i) by lia.
Qed.

(** A table that differs from [t] in the chain of bucket [i] only. *)
Lemma table_inv_change (t t' : Table) i :
  table_inv hash t → structured t' → m_num_buckets t' = m_num_buckets t →
  (∀ j, j ≠ i → ents t' j = ents t j) →
  NoDup (m_key <$> ents t' i) →
  (∀ e, e ∈ ents t' i → get_bucket_index hash t (m_key e) = i) →
  (Z.of_nat (entry_count t) + Z.of_nat (length (ents t' i))
     - Z.of_nat (length (ents t i)) <= m_total_entries t' < SizeT.modulus)%Z →
  table_inv hash t'.
Proof.
  intros [Hs Hnd Hpl Hcnt] Hs' Hn Hother Hnd' Hpl' Hcnt'.
  pose proof (entry_count_change t t' i Hs Hs' Hn Hother) as Hec.
  constructor; [done| | |lia].
  - intros j. destruct (decide (j = i)) as [->|Hne]; [done|]. rewrite Hother by done. apply Hnd.
  - intros j e He. rewrite (get_bucket_index_ext hash t t') by done.
    destruct (decide (j = i)) as [->|Hne]; [by apply Hpl'|].
    rewrite Hother in He by done. by apply Hpl.
Qed.

Lemma table_inv_ext (t t' : Table) :
  table_inv hash t → structured t' → m_num_buckets t' = m_num_buckets t →
  (∀ j, ents t' j = ents t j) →
  (m_total_entries t <= m_total_entries t' < SizeT.modulus)%Z →
  table_inv hash t'.
Proof.
  intros Hinv Hs' Hn Hents Htot.
  apply (table_inv_change t t' 0%nat Hinv Hs' Hn).
  - intros j _. apply Hents.
  - rewrite Hents. apply (ti_nodup _ _ Hinv).
  - intros e He. rewrite Hents in He. by apply (ti_placed _ _ Hinv).
  - rewrite Hents. pose proof (ti_count _ _ Hinv). lia.
Qed.

Lemma table_inv_goc (t t' : Table) key a res a' :
  table_inv hash t → (m_total_entries t + 1 < SizeT.modulus)%Z →
  table_get_or_create_entry hash t key a = (res, t', a') →
  table_inv hash t' ∧ m_num_buckets t' = m_num_buckets t ∧
  m_total_entries t' = (m_total_entries t + if created res then 1 else 0)%Z ∧
  (created res = true → is_Some (entry res) ∧ is_Some (bucket res)).
Proof.
  intros Hinv Hb Hg.
  destruct (table_get_or_create_entry_outcome hash _ _ _ _ _ _ (ti_struct _ _ Hinv) Hg)
    as (Hout & Hs' & Hn').
  pose proof (ti_count _ _ Hinv) as Hcnt.
  destruct Hout as [i t' Hfind Hents Htotal | bk t' a' _ Hents Htotal
                    | t' a' Hnz Hfind Hnew Hother Htotal]; simpl.
  - split_and!; [|done|lia|done]. apply (table_inv_ext t); try done. lia.
  - split_and!; [|done|lia|done]. apply (table_inv_ext t); try done. lia.
  - assert (Hadd : SizeT.add (m_total_entries t) 1 = (m_total_entries t + 1)%Z).
    { unfold SizeT.add, SizeT.wrap. apply Z.mod_small. lia. }
    rewrite Hadd in Htotal. split_and!; [|done|done|by intros _; split; eexists].
    apply (table_inv_change t t' (get_bucket_index hash t key) Hinv Hs' Hn' Hother).
    + rewrite Hnew, fmap_app. simpl. apply NoDup_app. split_and!.
      * apply (ti_nodup _ _ Hinv).
      * intros k Hk Hk'. apply list_elem_of_singleton in Hk'. subst k.
        by apply (find_entry_None hash key _ 0%nat) in Hfind.
      * apply NoDup_singleton.
    + intros e He. rewrite Hnew in He. apply elem_of_app in He as [He|He].
      * by apply (ti_placed _ _ Hinv).
      * apply list_elem_of_singleton in He. by subst e.
    + rewrite Hnew, length_app. simpl. lia.
Qed.

Lemma table_inv_set_entry (t : Table) bi ei e0 e :
  table_inv hash t → entry_at t bi ei = Some e0 → m_key e = m_key e0 →
  table_inv hash (set_entry t bi ei e).
Proof.
  intros Hinv He0 Hk. unfold entry_at in He0. fold (ents t bi) in He0.
  pose proof (ti_struct _ _ Hinv) as Hs.
  assert (Hs' : structured (set_entry t bi ei e)) by (by apply structured_set_bucket).
  destruct (decide (bi < length (Vector.items (m_buckets t)))%nat) as [Hlt|Hge].
  2:{ rewrite ents_out_of_range in He0 by lia. done. }
  assert (Hnew : ents (set_entry t bi ei e) bi = <[ei := e]> (ents t bi)).
  { rewrite ents_set_entry. by rewrite decide_True. }
  apply (table_inv_change t _ bi Hinv Hs' eq_refl).
  - intros j Hne. rewrite ents_set_entry. rewrite decide_False by naive_solver. done.
  - rewrite Hnew, list_fmap_insert, Hk.
    rewrite list_insert_id by (by rewrite list_lookup_fmap, He0).
    apply (ti_nodup _ _ Hinv).
  - intros e' He'. rewrite Hnew in He'.
    apply list_elem_of_lookup in He' as [k Hk'].
    destruct (decide (k = ei)) as [->|Hne].
    + rewrite list_lookup_insert_eq in Hk' by (by eapply lookup_lt_Some).
      injection Hk' as <-. rewrite Hk.
      apply (ti_placed _ _ Hinv). by eapply list_elem_of_lookup_2.
    + rewrite list_lookup_insert_ne in Hk' by done.
      apply (ti_placed _ _ Hinv). by eapply list_elem_of_lookup_2.
  - rewrite Hnew, length_insert. pose proof (ti_count _ _ Hinv). simpl. lia.
Qed.


Lemma delete_insert_same {A} (l : list A) y idx :
  delete idx (<[idx := y]> l) = delete idx l.
Proof.
  revert idx. induction l as [|z l IH]; intros [|idx]; simpl; try done.
  by rewrite IH.
Qed.

Lemma delete_snoc_lt {A} (l : list A) y idx :
  (idx < length l)%nat → delete idx (l ++ [y]) = delete idx l ++ [y].
Proof.
  revert idx. induction l as [|z l IH]; intros [|idx] Hlt; simpl in *; try lia; [done|].
  f_equal. apply IH. lia.
Qed.

(** [remove_fast]: the last element takes the place of the removed one. *)
Lemma remove_fast_perm {A} (l : list A) idx x cap (f : A → A) :
  l !! idx = Some x →
  Vector.items (Vector.remove_fast (Vector.Mk (alter f idx l) cap) idx) ≡ₚ delete idx l.
Proof.
  intros Hx. pose proof (lookup_lt_Some _ _ _ Hx) as Hlt.
  unfold Vector.remove_fast, Vector.size, Vector.back. simpl.
  rewrite length_alter.
  destruct (Nat.leb_spec (length l) idx) as [|_]; [lia|].
  destruct l as [|y l0] using rev_ind; [simpl in Hlt; lia|]. clear IHl0.
  rewrite length_app in Hlt. simpl in Hlt.
  destruct (decide (idx = length l0)) as [->|Hne].
  - assert (Halt : alter f (length l0) (l0 ++ [y]) = l0 ++ [f y]).
    { replace (length l0) with (length l0 + 0)%nat by lia. by rewrite alter_app_r. }
    assert (Hdel : delete (length l0) (l0 ++ [y]) = l0).
    { rewrite delete_middle. by rewrite app_nil_r. }
    rewrite Halt, Hdel, last_snoc. simpl.
    rewrite removelast_last. by rewrite list_insert_ge by lia.
  - assert (Hlt' : (idx < length l0)%nat) by lia.
    rewrite alter_app_l by done. rewrite last_snoc. simpl.
    rewrite removelast_last.
    rewrite delete_snoc_lt by done.
    rewrite lookup_app_l in Hx by done.
    assert (Hins : <[idx := y]> (alter f idx l0) = <[idx := y]> l0).
    { apply list_eq. intros k. destruct (decide (k = idx)) as [->|Hk].
      - rewrite !list_lookup_insert_eq by (rewrite ?length_alter; done). done.
      - rewrite !list_lookup_insert_ne by done. by rewrite list_lookup_alter_ne. }
    rewrite Hins.
    assert (Hy : <[idx := y]> l0 !! idx = Some y) by (by rewrite list_lookup_insert_eq).
    etrans; [apply (delete_Permutation _ idx y Hy)|].
    rewrite delete_insert_same. apply Permutation_cons_append.
Qed.


Lemma has_key_elem (es : list Entry) key :
  has_key es key ↔ ∃ e, e ∈ es ∧ m_key e = key.
Proof.
  unfold has_key. rewrite list_elem_of_fmap. naive_solver.
Qed.

(** What [bucket_remove] leaves of a chain. *)
Lemma bucket_remove_spec (b : Bucket) key :
  NoDup (m_key <$> Vector.items b) →
  let r := bucket_remove b key in
  r.1 = bool_decide (has_key (Vector.items b) key) ∧
  NoDup (m_key <$> Vector.items r.2) ∧
  (∀ e, e ∈ Vector.items r.2 ↔ e ∈ Vector.items b ∧ m_key e ≠ key) ∧
  (length (Vector.items r.2) + (if r.1 then 1 else 0) = length (Vector.items b))%nat.
Proof.
  intros Hnd. unfold bucket_remove, bucket_get_entry.
  destruct (find_entry key (Vector.items b) 0) as [idx|] eqn:Ef; simpl.
  - apply (find_entry_Some hash) in Ef as (e & He & Hk & _).
    assert (Hhas : has_key (Vector.items b) key).
    { apply has_key_elem. exists e. split; [|done]. by eapply list_elem_of_lookup_2. }
    rewrite bool_decide_eq_true_2 by done.
    pose proof (remove_fast_perm (Vector.items b) idx e (Vector.capacity b) deconstruct He)
      as Hperm.
    pose proof (delete_Permutation _ _ _ He) as Hdel.
    assert (Hnd' : NoDup (m_key <$> e :: delete idx (Vector.items b))).
    { by rewrite <- Hdel. }
    simpl in Hnd'. apply NoDup_cons in Hnd' as [Hnotin Hnd'].
    split_and!; [done| | |].
    + by rewrite Hperm.
    + intros e'. rewrite Hperm. split.
      * intros He'. split; [rewrite Hdel; by right|].
        intros Hk'. apply Hnotin. rewrite Hk, <- Hk'.
        apply list_elem_of_fmap. by exists e'.
      * intros [He' Hk']. rewrite Hdel in He'.
        apply elem_of_cons in He' as [->|He']; [congruence|done].
    + rewrite Hperm. rewrite (Permutation_length Hdel). simpl. lia.
  - apply (find_entry_None hash) in Ef.
    rewrite bool_decide_eq_false_2 by done.
    split_and!; [done|done| |lia].
    intros e. split; [|naive_solver].
    intros He. split; [done|]. intros Hk. apply Ef. apply has_key_elem. by exists e.
Qed.

Lemma table_del_inv (t t' : Table) key r :
  table_inv hash t → table_del hash t key = (r, t') →
  table_inv hash t' ∧ m_num_buckets t' = m_num_buckets t ∧
  (m_total_entries t' <= m_total_entries t)%Z ∧
  (∀ j e, e ∈ ents t' j ↔ e ∈ ents t j ∧ m_key e ≠ key).
Proof.
  intros Hinv Hd. unfold table_del in Hd.
  destruct (Nat.eqb_spec (m_num_buckets t) 0) as [Hz|Hnz].
  { injection Hd as <- <-. split_and!; [done|done|lia|].
    intros j e. split; [|naive_solver]. intros He. split; [done|].
    pose proof (ti_struct _ _ Hinv) as Hs. unfold structured in Hs.
    rewrite ents_out_of_range in He by lia. by apply elem_of_nil in He. }
  set (bi := get_bucket_index hash t key) in *.
  pose proof (bucket_remove_spec (bucket_at t bi) key (ti_nodup _ _ Hinv bi))
    as (Hr & Hnd' & Hmem & Hlen).
  destruct (bucket_remove (bucket_at t bi) key) as [rval b'] eqn:Eb. simpl in *.
  pose proof (ti_struct _ _ Hinv) as Hs.
  assert (Hlt : (bi < length (Vector.items (m_buckets t)))%nat).
  { unfold structured in Hs. rewrite Hs. by apply get_bucket_index_lt. }
  pose proof (ti_count _ _ Hinv) as Hcnt.
  pose proof (ents_length_le t bi) as Hle.
  assert (Hents : ∀ tot j, ents (set_total_entries (set_bucket t bi b') tot) j
                    = if decide (j = bi) then Vector.items b' else ents t j).
  { intros tot j. rewrite ents_set_total, ents_set_bucket.
    case_decide as Hdec; [destruct Hdec as [<- _]; by rewrite decide_True|].
    rewrite decide_False by naive_solver. done. }
  assert (Hmem' : ∀ tot j e, e ∈ ents (set_total_entries (set_bucket t bi b') tot) j
                    ↔ e ∈ ents t j ∧ m_key e ≠ key).
  { intros tot j e. rewrite Hents. case_decide as Hj; [subst j; apply Hmem|].
    split; [|naive_solver]. intros He. split; [done|]. intros Hk.
    apply Hj. rewrite <- (ti_placed _ _ Hinv j e He). by rewrite Hk. }
  assert (Hgoal : ∀ tot,
            (m_total_entries t - (if rval then 1 else 0) <= tot <= m_total_entries t)%Z →
            table_inv hash (set_total_entries (set_bucket t bi b') tot)).
  { intros tot Htot.
    apply (table_inv_change t _ bi Hinv); [by apply structured_set_bucket|done| | | |].
    - intros j Hj. rewrite Hents. by rewrite decide_False.
    - rewrite Hents, decide_True by done. done.
    - intros e He. rewrite Hents, decide_True in He by done.
      apply Hmem in He as [He _]. by apply (ti_placed _ _ Hinv).
    - rewrite Hents, decide_True by done. fold (ents t bi) in Hlen.
      destruct rval; simpl; lia. }
  destruct rval; injection Hd as <- <-.
  - assert (Hsub : SizeT.sub (m_total_entries t) 1 = (m_total_entries t - 1)%Z).
    { unfold SizeT.sub, SizeT.wrap. apply Z.mod_small.
      fold (ents t bi) in Hlen. lia. }
    simpl. rewrite Hsub. split_and!; [apply Hgoal; lia|done|lia|apply Hmem'].
  - replace (set_bucket t bi b') with
      (set_total_entries (set_bucket t bi b') (m_total_entries t)) by (by destruct t).
    split_and!; [apply Hgoal; lia|done|simpl; lia|apply Hmem'].
Qed.


Lemma entry_count_empty (t : Table) : (∀ j, ents t j = []) → entry_count t = 0%nat.
Proof.
  intros Hents. unfold entry_count. rewrite items_ents.
  induction (seq 0 (length (Vector.items (m_buckets t)))) as [|i l IH]; [done|].
  simpl. by rewrite Hents.
Qed.

Lemma reserve_items {A} (v : Vector.vector A) n a ok v' a' :
  Vector.reserve v n a = (ok, v', a') → Vector.items v' = Vector.items v.
Proof.
  unfold Vector.reserve. destruct (n <=? Vector.capacity v)%nat; [by intros [= <- <- <-]|].
  destruct (Alloc.allocate a) as [ok1 a1]. destruct ok1; by intros [= <- <- <-].
Qed.

Lemma new_table_inv p a (t : Table) a' :
  new_table p a = (t, a') → table_inv hash t ∧ m_total_entries t = 0%Z.
Proof.
  intros Hn. pose proof (λ j, new_table_ents p a t a' j Hn) as Hents.
  unfold new_table, expand in Hn.
  destruct (Vector.reserve _ _ _) as [[ok v1] a1] eqn:Er.
  apply reserve_items in Er. simpl in Er.
  destruct (expand_loop _ _ _ _) as [[n v] a2] eqn:Ee.
  apply expand_loop_items in Ee as [Hitems _].
  injection Hn as <- <-. split; [|done].
  constructor.
  - unfold structured. simpl. rewrite Hitems, Er. simpl.
    rewrite length_replicate. lia.
  - intros i. rewrite Hents. simpl. apply NoDup_nil_2.
  - intros i e He. rewrite Hents in He. by apply elem_of_nil in He.
  - rewrite entry_count_empty by done. simpl. unfold SizeT.modulus. lia.
Qed.

(** *** The invariant of the secondary table under a partial transfer *)

Lemma transfer_entries_inv (es_rev : list Entry) :
  ∀ budget total (sec : Table) a status rest budget' total' sec' a',
  table_inv hash sec →
  (m_total_entries sec + Z.of_nat (length es_rev) < SizeT.modulus)%Z →
  (Z.of_nat (length es_rev) <= total < SizeT.modulus)%Z →
  transfer_entries hash es_rev budget total sec a
    = (status, rest, budget', total', sec', a') →
  table_inv hash sec' ∧
  (length rest <= length es_rev)%nat ∧
  total' = (total - (Z.of_nat (length es_rev) - Z.of_nat (length rest)))%Z ∧
  (m_total_entries sec' + Z.of_nat (length rest)
   <= m_total_entries sec + Z.of_nat (length es_rev))%Z.
Proof.
  induction es_rev as [|e es IH];
    intros budget total sec a status rest budget' total' sec' a' Hinv Hb Htot; simpl.
  { intros [= <- <- <- <- <- <-]. split_and!; [done|done|simpl; lia|simpl; lia]. }
  destruct budget as [|budget].
  { intros [= <- <- <- <- <- <-]. split_and!; [done|done|simpl; lia|simpl; lia]. }
  destruct (table_get_or_create_entry hash sec (m_key e) a) as [[res sec1] a1] eqn:Eg.
  simpl in Hb, Htot.
  destruct (table_inv_goc _ _ _ _ _ _ Hinv ltac:(lia) Eg) as (Hinv1 & Hn1 & Htot1 & Hcr).
  assert (Hsub : (SizeT.sub total 1 = total - 1)%Z).
  { unfold SizeT.sub, SizeT.wrap. apply Z.mod_small. lia. }
  assert (Hfail : (entry res = None ∨ bucket res = None) →
            m_total_entries sec1 = m_total_entries sec).
  { intros Hno. rewrite Htot1. destruct (created res); [|lia].
    destruct (Hcr eq_refl) as [[? He] [? Hbk]]. destruct Hno; congruence. }
  destruct (entry res) as [ei|] eqn:Ee.
  2:{ intros [= <- <- <- <- <- <-]. rewrite Hfail by auto.
      split_and!; [done|done|simpl; lia|simpl; lia]. }
  destruct (bucket res) as [bi|] eqn:Eb.
  2:{ intros [= <- <- <- <- <- <-]. rewrite Hfail by auto.
      split_and!; [done|done|simpl; lia|simpl; lia]. }
  intros Hrec.
  set (sec2 := if created res then set_entry sec1 bi ei e else sec1) in *.
  assert (Hinv2 : table_inv hash sec2 ∧ m_total_entries sec2 = m_total_entries sec1).
  { unfold sec2. destruct (created res) eqn:Ec; [|done].
    destruct (goc_entry_at hash _ _ _ _ _ _ _ _ (ti_struct _ _ Hinv) Eg Ee Eb)
      as (e0 & He0 & Hk0 & _).
    split; [|done]. by apply (table_inv_set_entry sec1 bi ei e0). }
  destruct Hinv2 as [Hinv2 Htot2].
  assert (Hle1 : (m_total_entries sec1 <= m_total_entries sec + 1)%Z).
  { rewrite Htot1. destruct (created res); lia. }
  rewrite Hsub in Hrec. clearbody sec2.
  assert (Hb2 : (m_total_entries sec2 + Z.of_nat (length es) < SizeT.modulus)%Z) by lia.
  assert (Ht2 : (Z.of_nat (length es) <= total - 1 < SizeT.modulus)%Z) by lia.
  destruct (IH _ _ _ _ _ _ _ _ _ _ Hinv2 Hb2 Ht2 Hrec)
    as (Hinv' & Hlen & Htot' & Hmass).
  split_and!; [done|lia|lia|lia].
Qed.

Lemma transfer_buckets_one c budget (main sec : Table) a status rest budget' total' sec1 a1 :
  transfer_entries hash (reverse (Vector.items (bucket_at main c))) budget
                   (m_total_entries main) sec a
    = (status, rest, budget', total', sec1, a1) →
  ∃ ok c',
    transfer_buckets hash 1 c budget main sec a
    = (ok, c',
       set_total_entries
         (set_bucket main c (Vector.Mk (reverse rest) (Vector.capacity (bucket_at main c))))
         total', sec1, a1).
Proof.
  intros Et. simpl. rewrite Et. destruct status; by do 2 eexists.
Qed.

Lemma transfer_buckets_inv n :
  ∀ c budget (main sec : Table) a ok c' main' sec' a',
  table_inv hash main → table_inv hash sec → zombies hash main sec →
  (c + n <= m_num_buckets main)%nat →
  (m_total_entries main + m_total_entries sec < SizeT.modulus)%Z →
  transfer_buckets hash n c budget main sec a = (ok, c', main', sec', a') →
  table_inv hash sec' ∧ (c' <= m_num_buckets main)%nat ∧
  (m_total_entries main' + m_total_entries sec'
   <= m_total_entries main + m_total_entries sec)%Z.
Proof.
  induction n as [|n IH];
    intros c budget main sec a ok c' main' sec' a' Hinv Hisec Hz Hc Hb; simpl.
  { intros [= <- <- <- <- <-]. split_and!; [done|lia|lia]. }
  set (b := bucket_at main c).
  destruct (transfer_entries hash (reverse (Vector.items b)) budget (m_total_entries main) sec a)
    as [[[[[status rest] budget'] total'] sec1] a1] eqn:Et.
  set (main1 := set_total_entries
                  (set_bucket main c (Vector.Mk (reverse rest) (Vector.capacity b))) total').
  intros Hrec.
  pose proof (ti_count _ _ Hinv) as Hcnt.
  pose proof (ti_count _ _ Hisec) as Hcnts.
  pose proof (ents_length_le main c) as Hle.
  assert (Hlenb : length (reverse (Vector.items b)) = length (ents main c)).
  { by rewrite length_reverse. }
  assert (Hb1 : (m_total_entries sec + Z.of_nat (length (reverse (Vector.items b)))
                 < SizeT.modulus)%Z).
  { rewrite Hlenb. clear -Hb Hcnt Hcnts Hle. lia. }
  assert (Hb2 : (Z.of_nat (length (reverse (Vector.items b)))
                 <= m_total_entries main < SizeT.modulus)%Z).
  { rewrite Hlenb. clear -Hb Hcnt Hcnts Hle. lia. }
  destruct (transfer_entries_inv _ _ _ _ _ _ _ _ _ _ _ Hisec Hb1 Hb2 Et)
    as (Hisec1 & Hlen & Htot' & Hmass).
  destruct (transfer_buckets_one _ _ _ _ _ _ _ _ _ _ _ Et) as (ok1 & c1 & E1).
  fold b in E1. fold main1 in E1.
  destruct (transfer_buckets_spec hash 1 c budget main sec a ok1 c1 main1 sec1 a1
              Hinv (ti_struct _ _ Hisec) Hz ltac:(lia) E1)
    as (Hinv1 & _ & Hz1 & Hnm1 & _ & _).
  assert (Hmass1 : (m_total_entries main1 + m_total_entries sec1
                    <= m_total_entries main + m_total_entries sec)%Z).
  { unfold main1. simpl. rewrite Hlenb in *.
    clear -Htot' Hmass Hlen Hle. lia. }
  assert (Hc1 : (S c + n <= m_num_buckets main1)%nat) by (rewrite Hnm1; lia).
  assert (Hbd1 : (m_total_entries main1 + m_total_entries sec1 < SizeT.modulus)%Z).
  { clear -Hmass1 Hb. lia. }
  destruct status.
  - destruct (IH _ _ _ _ _ _ _ _ _ _ Hinv1 Hisec1 Hz1 Hc1 Hbd1 Hrec)
      as (Hi' & Hc' & Hm').
    split_and!; [done|lia|].
    clear -Hm' Hmass1. lia.
  - simplify_eq. split_and!; [done|lia|done].
  - simplify_eq. split_and!; [done|lia|done].
Qed.


(** *** The invariant of the map under its operations *)

Lemma perform_partial_transfer_inv (m : unordered_map) a ok m' a' main sec :
  m_main m = Some main → m_secondary m = Some sec →
  table_inv hash main → table_inv hash sec → zombies hash main sec →
  (m_current_bucket_to_transfer m <= m_num_buckets main)%nat →
  (m_total_entries main + m_total_entries sec < SizeT.modulus)%Z →
  perform_partial_transfer hash m a = (ok, m', a') →
  ∃ main' sec' c',
    m' = with_cursor (with_secondary (with_main m main') (Some sec')) c' ∧
    table_inv hash main' ∧ table_inv hash sec' ∧ zombies hash main' sec' ∧
    (c' <= m_num_buckets main')%nat ∧
    (m_total_entries main' + m_total_entries sec'
     <= m_total_entries main + m_total_entries sec)%Z.
Proof.
  intros Hm Hsec Hinv Hisec Hz Hc Hb. unfold perform_partial_transfer. rewrite Hm, Hsec.
  destruct (transfer_buckets _ _ _ _ _ _ _) as [[[[ok1 c'] main'] sec'] a1] eqn:Et.
  intros [= <- <- <-].
  assert (Hc' : (m_current_bucket_to_transfer m
                 + (m_num_buckets main - m_current_bucket_to_transfer m)
                 <= m_num_buckets main)%nat) by lia.
  destruct (transfer_buckets_spec hash _ _ _ _ _ _ _ _ _ _ _ Hinv (ti_struct _ _ Hisec) Hz
              Hc' Et) as (Hi' & _ & Hz' & Hnm & _ & _).
  destruct (transfer_buckets_inv _ _ _ _ _ _ _ _ _ _ _ Hinv Hisec Hz Hc' Hb Et)
    as (His' & Hcur & Hmass).
  exists main', sec', c'. split_and!; try done. by rewrite Hnm.
Qed.

Lemma map_inv_error (m : unordered_map) : m_state m = ERROR → map_inv hash m ∧ mass m = 0%Z.
Proof. intros Hst. unfold map_inv, mass. by rewrite Hst. Qed.

Lemma transfer_step_inv {R} (failure rval r : R) (m : unordered_map) a m' a' main sec :
  m_state m = TRANSFER → m_main m = Some main → m_secondary m = Some sec →
  table_inv hash main → table_inv hash sec → zombies hash main sec →
  (m_current_bucket_to_transfer m <= m_num_buckets main)%nat →
  (m_total_entries main + m_total_entries sec < SizeT.modulus)%Z →
  transfer_step hash failure rval m a = (r, m', a') →
  map_inv hash m' ∧ (mass m' <= m_total_entries main + m_total_entries sec)%Z.
Proof.
  intros Hst Hm Hsec Hinv Hisec Hz Hc Hb. unfold transfer_step.
  pose proof (ti_count _ _ Hinv). pose proof (ti_count _ _ Hisec).
  destruct (perform_partial_transfer hash m a) as [[ok m1] a1] eqn:Ep.
  destruct ok; simpl.
  2:{ intros [= <- <- <-]. unfold map_inv, mass. simpl. split; [done|lia]. }
  destruct (perform_partial_transfer_inv _ _ _ _ _ _ _ Hm Hsec Hinv Hisec Hz Hc Hb Ep)
    as (main' & sec' & c' & -> & Hi' & His' & Hz' & Hc' & Hmass).
  pose proof (ti_count _ _ Hi').
  destruct (is_transfer_complete _) eqn:Ec; intros [= <- <- <-].
  - unfold map_inv, mass, end_resize. simpl. split; [done|]. lia.
  - unfold map_inv, mass. simpl. rewrite Hst. split; [done|]. lia.
Qed.

Lemma resize_check_inv {R} (failure rval r : R) (m : unordered_map) a m' a' main :
  m_state m = STABLE → m_main m = Some main → m_secondary m = None →
  table_inv hash main →
  resize_check failure rval m a = (r, m', a') →
  map_inv hash m' ∧ (mass m' <= m_total_entries main)%Z.
Proof.
  intros Hst Hm Hsec Hinv. unfold resize_check. rewrite Hm.
  pose proof (ti_count _ _ Hinv).
  assert (Hsame : map_inv hash m ∧ (mass m <= m_total_entries main)%Z).
  { unfold map_inv, mass. rewrite Hst, Hm, Hsec. simpl. split; [done|lia]. }
  destruct (should_resize m main); [|by intros [= <- <- <-]].
  unfold begin_resize.
  destruct (Alloc.allocate a) as [ok1 a1]. destruct ok1; simpl.
  2:{ intros [= <- <- <-]. unfold map_inv, mass. simpl. split; [done|lia]. }
  destruct (new_table _ a1) as [sec a2] eqn:En.
  destruct (new_table_inv _ _ _ _ En) as [Hisec Htot].
  pose proof (λ j, new_table_ents _ _ _ _ j En) as Hents.
  destruct (_ =? _)%Z; simpl.
  2:{ intros [= <- <- <-]. unfold map_inv, mass. simpl. split; [done|lia]. }
  intros [= <- <- <-]. unfold map_inv, mass. simpl. rewrite Hm.
  split; [|simpl; lia].
  split_and!; [done|done| |lia].
  intros i e He Hk. rewrite Hents in Hk. unfold has_key in Hk. simpl in Hk.
  by apply elem_of_nil in Hk.
Qed.


Lemma map_inv_stable (m : unordered_map) :
  m_state m = STABLE → map_inv hash m →
  ∃ main, m_main m = Some main ∧ m_secondary m = None ∧ table_inv hash main ∧
          mass m = m_total_entries main.
Proof.
  unfold map_inv, mass. intros ->.
  destruct (m_main m) as [main|]; [|done].
  destruct (m_secondary m); [done|]. intros Hinv. by exists main.
Qed.

Lemma map_inv_transfer (m : unordered_map) :
  m_state m = TRANSFER → map_inv hash m →
  ∃ main sec, m_main m = Some main ∧ m_secondary m = Some sec ∧
    table_inv hash main ∧ table_inv hash sec ∧ zombies hash main sec ∧
    (m_current_bucket_to_transfer m <= m_num_buckets main)%nat ∧
    mass m = (m_total_entries main + m_total_entries sec)%Z.
Proof.
  unfold map_inv, mass. intros ->.
  destruct (m_main m) as [main|]; [|done].
  destruct (m_secondary m) as [sec|]; [|done].
  intros (? & ? & ? & ?). by exists main, sec.
Qed.

Lemma get_inv (m m' : unordered_map) key a r a' :
  map_inv hash m → (mass m < SizeT.modulus)%Z →
  get hash m key a = (r, m', a') →
  map_inv hash m' ∧ (mass m' <= mass m)%Z.
Proof.
  intros Hinv Hb. unfold get.
  destruct (m_state m) eqn:Hst.
  - intros [= <- <- <-]. split; [done|lia].
  - destruct (map_inv_stable m Hst Hinv) as (main & Hm & Hsec & Hi & Hmass).
    rewrite Hm, Hmass. intros Hg.
    by apply (resize_check_inv _ _ _ _ _ _ _ _ Hst Hm Hsec Hi Hg).
  - destruct (map_inv_transfer m Hst Hinv)
      as (main & sec & Hm & Hsec & Hi & His & Hz & Hc & Hmass).
    rewrite Hm, Hsec, Hmass. intros Hg. rewrite Hmass in Hb.
    by apply (transfer_step_inv _ _ _ _ _ _ _ _ _ Hst Hm Hsec Hi His Hz Hc Hb Hg).
Qed.

Lemma table_del_keys (t t' : Table) key r k :
  table_inv hash t → table_del hash t key = (r, t') →
  has_key (ents t' (get_bucket_index hash t' k)) k →
  has_key (ents t (get_bucket_index hash t k)) k.
Proof.
  intros Hinv Hd Hk.
  destruct (table_del_inv _ _ _ _ Hinv Hd) as (_ & Hn & _ & Hmem).
  rewrite (get_bucket_index_ext hash t t') in Hk by done.
  apply has_key_elem in Hk as (e & He & Hke). apply Hmem in He as [He _].
  apply has_key_elem. by exists e.
Qed.

Lemma del_inv (m m' : unordered_map) key a r a' :
  map_inv hash m → (mass m < SizeT.modulus)%Z →
  del hash m key a = (r, m', a') →
  map_inv hash m' ∧ (mass m' <= mass m)%Z.
Proof.
  intros Hinv Hb. unfold del.
  destruct (m_state m) eqn:Hst.
  - intros [= <- <- <-]. split; [done|lia].
  - destruct (map_inv_stable m Hst Hinv) as (main & Hm & Hsec & Hi & Hmass).
    rewrite Hm, Hmass.
    destruct (table_del hash main key) as [rval main1] eqn:Ed.
    destruct (table_del_inv _ _ _ _ Hi Ed) as (Hi1 & Hn1 & Htot1 & Hmem1).
    intros Hg.
    destruct (resize_check_inv _ _ _ (with_main m main1) _ _ _ main1 Hst eq_refl Hsec Hi1 Hg)
      as [Hinv' Hmass'].
    split; [done|lia].
  - destruct (map_inv_transfer m Hst Hinv)
      as (main & sec & Hm & Hsec & Hi & His & Hz & Hc & Hmass).
    rewrite Hm, Hsec, Hmass. rewrite Hmass in Hb.
    destruct (table_del hash main key) as [rval main1] eqn:Ed.
    destruct (table_del_inv _ _ _ _ Hi Ed) as (Hi1 & Hn1 & Htot1 & Hmem1).
    destruct (if rval then (true, sec) else table_del hash sec key) as [rval' sec1] eqn:Ed2.
    assert (Hsec1 : table_inv hash sec1 ∧ (m_total_entries sec1 <= m_total_entries sec)%Z ∧
              ∀ k, has_key (ents sec1 (get_bucket_index hash sec1 k)) k →
                   has_key (ents sec (get_bucket_index hash sec k)) k).
    { destruct rval.
      - injection Ed2 as <- <-. split_and!; [done|lia|done].
      - destruct (table_del_inv _ _ _ _ His Ed2) as (His1 & _ & Htot2 & _).
        split_and!; [done|done|]. intros k. by apply (table_del_keys sec sec1 key rval'). }
    destruct Hsec1 as (His1 & Htot2 & Hkeys).
    intros Hg.
    assert (Hz1 : zombies hash main1 sec1).
    { intros i e He Hk. apply Hmem1 in He as [He _]. apply (Hz i e He). by apply Hkeys. }
    destruct (transfer_step_inv _ _ _ (with_secondary (with_main m main1) (Some sec1))
                _ _ _ main1 sec1 Hst eq_refl eq_refl Hi1 His1 Hz1
                ltac:(simpl; lia) ltac:(lia) Hg) as [Hinv' Hmass'].
    split; [done|lia].
Qed.


Lemma construct_key (e : Entry) val a ok e' a' :
  construct e val a = (ok, e', a') → m_key e' = m_key e.
Proof.
  unfold construct. destruct (m_val e); [by intros [= <- <- <-]|].
  destruct (Alloc.allocate a) as [[] ?]; by intros [= <- <- <-].
Qed.

Lemma goc_keys (t t1 : Table) key a res a1 k :
  structured t →
  table_get_or_create_entry hash t key a = (res, t1, a1) →
  in_table hash t1 k → in_table hash t k ∨ (created res = true ∧ k = key).
Proof.
  intros Hs Hg. unfold in_table.
  destruct (table_get_or_create_entry_outcome hash _ _ _ _ _ _ Hs Hg) as (Hout & Hs1 & Hn1).
  rewrite (get_bucket_index_ext hash t t1) by done.
  destruct Hout as [i t' Hfind Hents Htotal | bk t' a'' _ Hents _
                    | t' a'' Hnz Hfind Hnew Hother Htotal]; simpl.
  - rewrite Hents. by left.
  - rewrite Hents. by left.
  - destruct (decide (get_bucket_index hash t k = get_bucket_index hash t key)) as [Hb|Hb].
    + rewrite Hb, Hnew. intros Hk. apply (has_key_snoc hash) in Hk as [Hk|Hk]; [|by right].
      left. by rewrite <- Hb in Hk |- *.
    + rewrite Hother by done. by left.
Qed.

Lemma goc_found_key (t t1 : Table) key a res a1 ei :
  structured t →
  table_get_or_create_entry hash t key a = (res, t1, a1) →
  entry res = Some ei → created res = false → in_table hash t key.
Proof.
  intros Hs Hg Hei Hcr. unfold in_table.
  destruct (table_get_or_create_entry_outcome hash _ _ _ _ _ _ Hs Hg) as (Hout & _ & _).
  destruct Hout as [i t' Hfind Hents Htotal | bk t' a'' _ Hents _
                    | t' a'' Hnz Hfind Hnew Hother Htotal]; simpl in *; try done.
  apply (find_entry_is_Some hash). by rewrite Hfind.
Qed.

Lemma set_entry_keys (t : Table) bi ei e0 e k :
  entry_at t bi ei = Some e0 → m_key e = m_key e0 →
  in_table hash (set_entry t bi ei e) k ↔ in_table hash t k.
Proof.
  intros He0 Hk. unfold in_table, entry_at in *. fold (ents t bi) in He0.
  rewrite (get_bucket_index_ext hash t (set_entry t bi ei e)) by done.
  rewrite ents_set_entry. case_decide as Hd; [|done].
  destruct Hd as [-> _]. unfold has_key.
  rewrite list_fmap_insert, Hk.
  by rewrite list_insert_id by (by rewrite list_lookup_fmap, He0).
Qed.

Lemma in_table_ext (t t' : Table) k :
  m_num_buckets t' = m_num_buckets t → (∀ j, ents t' j = ents t j) →
  in_table hash t' k ↔ in_table hash t k.
Proof.
  intros Hn He. unfold in_table.
  by rewrite (get_bucket_index_ext hash t t'), He.
Qed.

(** Seeding the new slot of [secondary] from [main] in [put]: afterwards no
    entry of [main] holds a value under the key. *)
Lemma seed_from_main_inv (main : Table) key :
  table_inv hash main →
  let r :=
    match table_get_entry hash main key with
    | Some mi =>
      match entry_at main (get_bucket_index hash main key) mi with
      | Some me => (me, set_entry main (get_bucket_index hash main key) mi
                          (MkEntry (m_key me) None))
      | None => (MkEntry key None, main)
      end
    | None => (MkEntry key None, main)
    end in
  m_key r.1 = key ∧ table_inv hash r.2 ∧
  m_num_buckets r.2 = m_num_buckets main ∧
  m_total_entries r.2 = m_total_entries main ∧
  ∀ i e, e ∈ ents r.2 i →
    (e ∈ ents main i ∧ m_key e ≠ key) ∨ (m_key e = key ∧ m_val e = None).
Proof.
  intros Hinv. unfold table_get_entry, bucket_get_entry.
  set (mb := get_bucket_index hash main key).
  pose proof (ti_struct _ _ Hinv) as Hs.
  assert (Hnone : ¬ has_key (ents main mb) key →
            ∀ i e, e ∈ ents main i →
              (e ∈ ents main i ∧ m_key e ≠ key) ∨ (m_key e = key ∧ m_val e = None)).
  { intros Hnk i e He. left. split; [done|]. intros Hk. apply Hnk.
    pose proof (ti_placed _ _ Hinv i e He) as Hi. rewrite Hk in Hi. fold mb in Hi. subst i.
    apply has_key_elem. by exists e. }
  destruct (Nat.eqb_spec (m_num_buckets main) 0) as [Hz|Hnz].
  { simpl. split_and!; try done. apply Hnone. unfold structured in Hs.
    rewrite ents_out_of_range by lia. intros Hk. by apply elem_of_nil in Hk. }
  fold (ents main mb).
  destruct (find_entry key (ents main mb) 0) as [mi|] eqn:Ef.
  2:{ simpl. split_and!; try done. apply Hnone. by apply (find_entry_None hash key _ 0%nat). }
  apply (find_entry_Some hash) in Ef as (me & Hme & Hkme & _).
  unfold entry_at. fold (ents main mb). rewrite Hme. simpl.
  assert (Hlt : (mb < length (Vector.items (m_buckets main)))%nat).
  { unfold structured in Hs. rewrite Hs. by apply get_bucket_index_lt. }
  split_and!; [done| |done|done|].
  - by apply (table_inv_set_entry main mb mi me).
  - intros i e. rewrite ents_set_entry. case_decide as Hd.
    + destruct Hd as [<- _]. intros He.
      apply list_elem_of_lookup in He as [k Hk].
      destruct (decide (k = mi)) as [->|Hne].
      * rewrite list_lookup_insert_eq in Hk by (by eapply lookup_lt_Some).
        injection Hk as <-. right. done.
      * rewrite list_lookup_insert_ne in Hk by done. left.
        split; [by eapply list_elem_of_lookup_2|].
        intros Hke. apply Hne.
        pose proof (ti_nodup _ _ Hinv mb) as Hnd.
        apply (NoDup_lookup _ k mi key Hnd); rewrite list_lookup_fmap.
        -- by rewrite Hk; simpl; rewrite Hke.
        -- by rewrite Hme; simpl; rewrite Hkme.
    + intros He. left. split; [done|]. intros Hk. apply Hd. split; [|done].
      pose proof (ti_placed _ _ Hinv i e He) as Hi. rewrite Hk in Hi. done.
Qed.


Lemma zombies_keys (main main1 sec sec2 : Table) key :
  zombies hash main sec →
  (∀ i e, e ∈ ents main1 i →
     (e ∈ ents main i ∧ m_key e ≠ key) ∨ (m_key e = key ∧ m_val e = None)) →
  (∀ k, in_table hash sec2 k → in_table hash sec k ∨ k = key) →
  zombies hash main1 sec2.
Proof.
  intros Hz Hmain Hsec i e He Hk.
  destruct (Hmain i e He) as [[He' Hne]|[_ Hv]]; [|done].
  destruct (Hsec _ Hk) as [Hk'|Hk']; [|done]. by apply (Hz i e He').
Qed.

Lemma zombies_fewer_keys (main sec sec2 : Table) :
  zombies hash main sec →
  (∀ k, in_table hash sec2 k → in_table hash sec k) →
  zombies hash main sec2.
Proof. intros Hz Hsec i e He Hk. apply (Hz i e He). by apply Hsec. Qed.

Lemma put_inv (m m' : unordered_map) key val a r a' :
  map_inv hash m → (mass m + 1 < SizeT.modulus)%Z →
  put hash keep m key val a = (r, m', a') →
  map_inv hash m' ∧ (mass m' <= mass m + 1)%Z.
Proof.
  intros Hinv Hb Hput. unfold put in Hput.
  destruct (m_state m) eqn:Hst.
  - assert (m' = m) as -> by (repeat case_match; by simplify_eq). split; [done|lia].
  - (* STABLE *)
    destruct (map_inv_stable m Hst Hinv) as (main & Hm & Hsec & Hi & Hmass).
    rewrite Hm in Hput. rewrite Hmass in *.
    destruct (table_get_or_create_entry hash main key a) as [[res main1] a1] eqn:Eg.
    destruct (table_inv_goc _ _ _ _ _ _ Hi Hb Eg) as (Hi1 & Hn1 & Htot1 & _).
    pose proof (ti_struct _ _ Hi) as Hs.
    match type of Hput with
    | (match ?att with _ => _ end) = _ =>
        destruct att as [[rval main2] a2] eqn:Eatt
    end.
    assert (Hle1 : (m_total_entries main1 <= m_total_entries main + 1)%Z).
    { rewrite Htot1. destruct (created res); lia. }
    assert (H2 : table_inv hash main2 ∧
                 (m_total_entries main2 <= m_total_entries main + 1)%Z).
    { destruct (entry res) as [ei|] eqn:Eei; [destruct (bucket res) as [bi|] eqn:Ebi|].
      2,3: by simplify_eq.
      destruct (goc_entry_at hash _ _ _ _ _ _ _ _ Hs Eg Eei Ebi) as (e0 & He0 & Hk0 & _).
      rewrite He0 in Eatt.
      destruct (construct e0 val a1) as [[ok e'] a2'] eqn:Ec.
      destruct ok.
      - injection Eatt as <- <- <-. split; [|done].
        apply (table_inv_set_entry main1 bi ei e0); [done|done|].
        by eapply construct_key.
      - pose proof (put_attempt_rollback hash _ _ _ _ _ _ _ Hs Eg _ _ _ _ _ Eei Ebi He0 Ec)
          as Hrb.
        destruct (created res) eqn:Ecr; injection Eatt as <- <- <-; [|done].
        simpl in Hrb. destruct Hrb as (Hs2 & Hn2 & He2).
        split; [|done].
        apply (table_inv_ext main); try done.
        simpl. pose proof (ti_count _ _ Hi). lia. }
    destruct H2 as [Hi2 Htot2].
    destruct (resize_check_inv _ _ _ (with_main m main2) _ _ _ main2 Hst eq_refl Hsec Hi2 Hput)
      as [Hinv' Hmass'].
    split; [done|lia].
  - (* TRANSFER *)
    destruct (map_inv_transfer m Hst Hinv)
      as (main & sec & Hm & Hsec & Hi & His & Hz & Hc & Hmass).
    rewrite Hm, Hsec in Hput. rewrite Hmass in *.
    pose proof (ti_count _ _ Hi) as Hcm. pose proof (ti_count _ _ His) as Hcs.
    pose proof (ti_struct _ _ His) as Hs.
    destruct (table_get_or_create_entry hash sec key a) as [[res sec1] a1] eqn:Eg.
    destruct (table_inv_goc _ _ _ _ _ _ His ltac:(lia) Eg) as (Hi1 & Hn1 & Htot1 & _).
    assert (Hle1 : (m_total_entries sec <= m_total_entries sec1 <= m_total_entries sec + 1)%Z).
    { rewrite Htot1. destruct (created res); lia. }
    assert (Hkeys1 : ∀ k, in_table hash sec1 k → in_table hash sec k ∨ (created res = true ∧ k = key)).
    { intros k. by apply (goc_keys sec sec1 key a res a1). }
    match type of Hput with
    | (match ?att with _ => _ end) = _ =>
        destruct att as [[[rval main2] sec2] a2] eqn:Eatt
    end.
    assert (H2 : table_inv hash main2 ∧ table_inv hash sec2 ∧ zombies hash main2 sec2 ∧
                 m_num_buckets main2 = m_num_buckets main ∧
                 m_total_entries main2 = m_total_entries main ∧
                 (m_total_entries sec2 <= m_total_entries sec + 1)%Z).
    { destruct (entry res) as [ei|] eqn:Eei; [destruct (bucket res) as [bi|] eqn:Ebi|].
      2,3: injection Eatt as <- <- <- <-;
           destruct (goc_no_entry hash _ _ _ _ _ _ Hs Eg ltac:(auto)) as (_ & Hn & He);
           split_and!; try done; try lia; by apply (zombies_ext hash main sec sec1).
      destruct (goc_entry_at hash _ _ _ _ _ _ _ _ Hs Eg Eei Ebi) as (e0 & He0 & Hk0 & Hc0).
      rewrite He0 in Eatt.
      destruct (created res) eqn:Ecr.
      - specialize (Hc0 eq_refl). subst e0.
        match type of Eatt with
        | (match ?seed with _ => _ end) = _ =>
            pose proof (seed_from_main_inv main key Hi) as Hseed;
            destruct seed as [e main1] eqn:Eseed
        end.
        destruct Hseed as (Hke & Himain1 & Hnm1 & Htm1 & Hents1). simpl in *.
        destruct (construct e val a1) as [[ok e'] a2'] eqn:Ec.
        destruct ok.
        + injection Eatt as <- <- <- <-.
          pose proof (construct_key _ _ _ _ _ _ Ec) as Hke'.
          split_and!; try done; try (simpl; lia).
          * apply (table_inv_set_entry sec1 bi ei (MkEntry key None)); [done|done|].
            simpl. congruence.
          * apply (zombies_keys main main1 sec _ key Hz Hents1).
            intros k Hk. apply (set_entry_keys sec1 bi ei (MkEntry key None)) in Hk;
              [|done|simpl; congruence].
            destruct (Hkeys1 k Hk) as [?|[_ ?]]; auto.
        + apply construct_false in Ec as Hcf. destruct Hcf as [Hv ->].
          rewrite Hke in Eatt.
          rewrite (set_entry_id sec1 bi ei (MkEntry key None)) in Eatt by done.
          assert (Ec0 : construct (MkEntry key None) val a1 = (false, MkEntry key None, a2')).
          { revert Ec. unfold construct. rewrite Hv. simpl.
            destruct (Alloc.allocate a1) as [[] ?]; [done|]. by intros [= <-]. }
          pose proof (put_attempt_rollback hash _ _ _ _ _ _ _ Hs Eg _ _ _ _ _ Eei Ebi He0 Ec0)
            as Hrb.
          rewrite Ecr in Hrb. simpl in Hrb. destruct Hrb as (Hs2 & Hn2 & He2).
          injection Eatt as <- <- <- <-.
          split_and!; try done; try (simpl; lia).
          * apply (table_inv_ext sec); try done. simpl. lia.
          * apply (zombies_keys main main1 sec _ key Hz Hents1).
            intros k Hk. left.
            by apply (proj1 (in_table_ext sec
                               (set_bucket sec1 bi (bucket_remove (bucket_at sec1 bi) key).2)
                               k Hn2 He2)).
      - destruct (construct e0 val a1) as [[ok e'] a2'] eqn:Ec.
        assert (Hsame : ∀ k, in_table hash sec1 k → in_table hash sec k).
        { intros k Hk. destruct (Hkeys1 k Hk) as [?|[? _]]; [done|congruence]. }
        destruct ok.
        + injection Eatt as <- <- <- <-.
          pose proof (construct_key _ _ _ _ _ _ Ec) as Hke'.
          split_and!; try done; try (simpl; lia).
          * by apply (table_inv_set_entry sec1 bi ei e0).
          * apply (zombies_fewer_keys main sec _ Hz). intros k Hk.
            apply (set_entry_keys sec1 bi ei e0) in Hk; [|done|done]. by apply Hsame.
        + apply construct_false in Ec as Hcf. destruct Hcf as [Hv ->].
          rewrite (set_entry_id sec1 bi ei e0) in Eatt by done.
          injection Eatt as <- <- <- <-.
          split_and!; try done; try (simpl; lia).
          by apply (zombies_fewer_keys main sec _ Hz). }
    destruct H2 as (Hi2 & His2 & Hz2 & Hn2 & Htm2 & Hts2).
    destruct (transfer_step_inv _ _ _ (with_secondary (with_main m main2) (Some sec2))
                _ _ _ main2 sec2 Hst eq_refl eq_refl Hi2 His2 Hz2
                ltac:(simpl; lia) ltac:(lia) Hput) as [Hinv' Hmass'].
    split; [done|lia].
Qed.


Lemma drain_unfold fuel (m : unordered_map) a :
  drain hash fuel m a =
  if is_transfer_complete m then Some (true, m, a)
  else
    match fuel with
    | O => None
    | S fuel' =>
      let '(valid_partial_transfer, m1, a1) := perform_partial_transfer hash m a in
      if valid_partial_transfer then drain hash fuel' m1 a1 else Some (false, m1, a1)
    end.
Proof. by destruct fuel. Qed.

Lemma drain_inv fuel :
  ∀ (m : unordered_map) a ok m1 a1,
  m_state m = TRANSFER → map_inv hash m → (mass m < SizeT.modulus)%Z →
  drain hash fuel m a = Some (ok, m1, a1) →
  m_state m1 = TRANSFER ∧ map_inv hash m1 ∧ (mass m1 <= mass m)%Z ∧
  (ok = true → is_transfer_complete m1 = true).
Proof.
  induction fuel as [|fuel IH]; intros m a ok m1 a1 Hst Hinv Hb; rewrite drain_unfold;
    destruct (is_transfer_complete m) eqn:Ec.
  - intros [= <- <- <-]. split_and!; [done|done|lia|done].
  - done.
  - intros [= <- <- <-]. split_and!; [done|done|lia|done].
  - destruct (map_inv_transfer m Hst Hinv)
      as (main & sec & Hm & Hsec & Hi & His & Hz & Hc & Hmass).
    rewrite Hmass in *.
    destruct (perform_partial_transfer hash m a) as [[v m2] a2] eqn:Ep.
    destruct (perform_partial_transfer_inv _ _ _ _ _ _ _ Hm Hsec Hi His Hz Hc Hb Ep)
      as (main' & sec' & c' & -> & Hi' & His' & Hz' & Hc' & Hmass').
    set (m2 := with_cursor (with_secondary (with_main m main') (Some sec')) c') in *.
    assert (Hst2 : m_state m2 = TRANSFER) by done.
    assert (Hinv2 : map_inv hash m2).
    { unfold map_inv. rewrite Hst2. simpl. done. }
    assert (Hmass2 : mass m2 = (m_total_entries main' + m_total_entries sec')%Z).
    { unfold mass. rewrite Hst2. done. }
    destruct v.
    + intros Hd.
      destruct (IH m2 a2 ok m1 a1 Hst2 Hinv2 ltac:(lia) Hd) as (? & ? & ? & ?).
      split_and!; [done|done|lia|done].
    + intros [= <- <- <-]. split_and!; [done|done|lia|done].
Qed.

Lemma finish_transfer_inv (m m1 m' : unordered_map) r ok a1 a' rv :
  r = Some (ok, m1, a1) →
  m_state m1 = TRANSFER → map_inv hash m1 → (mass m1 <= mass m)%Z →
  finish_transfer r = Some (rv, m', a') →
  map_inv hash m' ∧ (mass m' <= mass m)%Z ∧
  (rv = true → m_state m' = STABLE).
Proof.
  intros -> Hst Hinv Hmass. unfold finish_transfer.
  destruct ok; intros [= <- <- <-]; [|by split_and!].
  destruct (map_inv_transfer m1 Hst Hinv)
    as (main & sec & Hm & Hsec & Hi & His & Hz & Hc & Hmass1).
  pose proof (ti_count _ _ Hi).
  assert (Hme : mass (end_resize m1) = m_total_entries sec).
  { unfold mass, end_resize. simpl. by rewrite Hsec. }
  rewrite Hme. split_and!; [|lia|done].
  unfold map_inv, end_resize. simpl. by rewrite Hsec.
Qed.

Lemma finalize_inv fuel (m m' : unordered_map) a r a' :
  map_inv hash m → (mass m < SizeT.modulus)%Z →
  finalize hash fuel m a = Some (r, m', a') →
  map_inv hash m' ∧ (mass m' <= mass m)%Z.
Proof.
  intros Hinv Hb. unfold finalize.
  destruct (m_state m) eqn:Hst.
  - intros [= <- <- <-]. split; [done|lia].
  - intros [= <- <- <-]. split; [done|lia].
  - destruct (drain hash fuel m a) as [[[ok m1] a1]|] eqn:Ed; [|done].
    destruct (drain_inv _ _ _ _ _ _ Hst Hinv Hb Ed) as (Hst1 & Hinv1 & Hmass1 & _).
    intros Hf.
    destruct (finish_transfer_inv m _ _ _ _ _ _ _ eq_refl Hst1 Hinv1 Hmass1 Hf)
      as (? & ? & _).
    done.
Qed.

Lemma begin_resize_inv (m : unordered_map) p a ok m1 a1 main :
  m_state m = STABLE → m_main m = Some main → m_secondary m = None →
  table_inv hash main →
  begin_resize m p a = (ok, m1, a1) →
  ok = true →
  m_state m1 = TRANSFER ∧ map_inv hash m1 ∧ mass m1 = m_total_entries main.
Proof.
  intros Hst Hm Hsec Hinv. unfold begin_resize.
  destruct (Alloc.allocate a) as [ok1 a0]. destruct ok1; simpl; [|by intros [= <- <- <-]].
  destruct (new_table _ a0) as [sec a2] eqn:En.
  destruct (new_table_inv _ _ _ _ En) as [Hisec Htot].
  pose proof (λ j, new_table_ents _ _ _ _ j En) as Hents.
  destruct (_ =? _)%Z; simpl; [|by intros [= <- <- <-]].
  intros [= <- <- <-] _. unfold map_inv, mass. simpl. rewrite Hm. simpl.
  split; [done|]. split; [|lia].
  split_and!; [done|done| |lia].
  intros i e He Hk. rewrite Hents in Hk. unfold has_key in Hk. simpl in Hk.
  by apply elem_of_nil in Hk.
Qed.

Lemma reserve_inv fuel (m m' : unordered_map) n a r a' :
  map_inv hash m → (mass m < SizeT.modulus)%Z →
  reserve hash fuel m n a = Some (r, m', a') →
  map_inv hash m' ∧ (mass m' <= mass m)%Z.
Proof.
  intros Hinv Hb. unfold reserve.
  assert (Hsame : map_inv hash m ∧ (mass m <= mass m)%Z) by (split; [done|lia]).
  destruct (m_state m) eqn:Hst; [by intros [= <- <- <-]| |].
  - (* STABLE *)
    destruct (n =? 0)%Z; [by intros [= <- <- <-]|].
    destruct (find_power 32 0 n) as [p|]; [|by intros [= <- <- <-]].
    destruct (map_inv_stable m Hst Hinv) as (main & Hm & Hsec & Hi & Hmass).
    rewrite Hm.
    destruct (p <=? m_power_of_2_size main)%nat; [by intros [= <- <- <-]|].
    destruct (begin_resize m p a) as [[ok m2] a2] eqn:Eb.
    destruct ok; simpl.
    2:{ intros [= <- <- <-].
        destruct (map_inv_error (with_state m2 ERROR) eq_refl) as [? Hz0].
        rewrite Hz0. pose proof (ti_count _ _ Hi). split; [done|lia]. }
    destruct (begin_resize_inv _ _ _ _ _ _ _ Hst Hm Hsec Hi Eb eq_refl)
      as (Hst2 & Hinv2 & Hmass2).
    destruct (drain hash fuel m2 a2) as [[[ok m3] a3]|] eqn:Ed; [|done].
    destruct (drain_inv _ _ _ _ _ _ Hst2 Hinv2 ltac:(lia) Ed) as (Hst3 & Hinv3 & Hmass3 & _).
    intros Hf.
    destruct (finish_transfer_inv m2 _ _ _ _ _ _ _ eq_refl Hst3 Hinv3 Hmass3 Hf)
      as (? & ? & _).
    split; [done|lia].
  - (* TRANSFER *)
    destruct (n =? 0)%Z; [by intros [= <- <- <-]|].
    destruct (find_power 32 0 n) as [p|]; [|by intros [= <- <- <-]].
    destruct (drain hash fuel m a) as [[[ok m1] a1]|] eqn:Ed; [|done].
    destruct (drain_inv _ _ _ _ _ _ Hst Hinv Hb Ed) as (Hst1 & Hinv1 & Hmass1 & _).
    destruct (finish_transfer (Some (ok, m1, a1))) as [[[rv m2] a2]|] eqn:Ef; [|done].
    destruct (finish_transfer_inv m _ _ _ _ _ _ _ eq_refl Hst1 Hinv1 Hmass1 Ef)
      as (Hinv2 & Hmass2 & Hrv).
    destruct rv; [|by intros [= <- <- <-]].
    specialize (Hrv eq_refl).
    destruct (map_inv_stable m2 Hrv Hinv2) as (main & Hm & Hsec & Hi & Hmass).
    rewrite Hm.
    destruct (p <=? m_power_of_2_size main)%nat; [by intros [= <- <- <-]|].
    destruct (begin_resize m2 p a2) as [[ok' m3] a3] eqn:Eb.
    destruct ok'; simpl.
    2:{ intros [= <- <- <-].
        destruct (map_inv_error (with_state m3 ERROR) eq_refl) as [? Hz0].
        rewrite Hz0. pose proof (ti_count _ _ Hi). split; [done|lia]. }
    destruct (begin_resize_inv _ _ _ _ _ _ _ Hrv Hm Hsec Hi Eb eq_refl)
      as (Hst3 & Hinv3 & Hmass3).
    destruct (drain hash fuel m3 a3) as [[[ok'' m4] a4]|] eqn:Ed'; [|done].
    destruct (drain_inv _ _ _ _ _ _ Hst3 Hinv3 ltac:(lia) Ed')
      as (Hst4 & Hinv4 & Hmass4 & _).
    intros Hf.
    destruct (finish_transfer_inv m3 _ _ _ _ _ _ _ eq_refl Hst4 Hinv4 Hmass4 Hf)
      as (? & ? & _).
    split; [done|lia].
Qed.


Lemma table_delete_all_ents (t : Table) j : ents (table_delete_all_entries t) j = [].
Proof.
  unfold ents, bucket_at, table_delete_all_entries. simpl.
  rewrite list_lookup_fmap. by destruct (Vector.items (m_buckets t) !! j).
Qed.

Lemma table_delete_all_inv (t : Table) :
  structured t → table_inv hash (table_delete_all_entries t).
Proof.
  intros Hs. constructor.
  - unfold structured in *. simpl. by rewrite length_fmap.
  - intros i. rewrite table_delete_all_ents. apply NoDup_nil_2.
  - intros i e He. rewrite table_delete_all_ents in He. by apply elem_of_nil in He.
  - rewrite entry_count_empty by apply table_delete_all_ents.
    simpl. unfold SizeT.modulus. lia.
Qed.

Lemma delete_all_keys_inv fuel (m m' : unordered_map) a a' :
  map_inv hash m → (mass m < SizeT.modulus)%Z →
  delete_all_keys hash fuel m a = Some (m', a') →
  map_inv hash m' ∧ (mass m' <= mass m)%Z.
Proof.
  intros Hinv Hb. unfold delete_all_keys.
  destruct (m_state m) eqn:Hst.
  - assert (Hsame : Some (m, a) = Some (m', a') → map_inv hash m' ∧ (mass m' <= mass m)%Z).
    { intros [= <- <-]. split; [done|lia]. }
    by repeat case_match.
  - destruct (map_inv_stable m Hst Hinv) as (main & Hm & Hsec & Hi & Hmass).
    rewrite Hm. intros [= <- <-]. rewrite Hmass. pose proof (ti_count _ _ Hi).
    unfold map_inv, mass. simpl. rewrite Hst, Hsec. simpl.
    split; [|lia]. apply table_delete_all_inv, Hi.
  - destruct (map_inv_transfer m Hst Hinv)
      as (main & sec & Hm & Hsec & Hi & His & Hz & Hc & Hmass).
    rewrite Hm, Hsec.
    set (m1 := with_secondary (with_main m (table_delete_all_entries main))
                              (Some (table_delete_all_entries sec))).
    pose proof (ti_count _ _ Hi). pose proof (ti_count _ _ His).
    assert (Hinv1 : map_inv hash m1).
    { unfold map_inv. simpl. rewrite Hst.
      split_and!; [apply table_delete_all_inv, Hi|apply table_delete_all_inv, His| |done].
      intros i e He. rewrite table_delete_all_ents in He. by apply elem_of_nil in He. }
    assert (Hmass1 : mass m1 = 0%Z).
    { unfold mass. simpl. by rewrite Hst. }
    destruct (finalize hash fuel m1 a) as [[[rv m2] a2]|] eqn:Ef; [|done].
    intros [= <- <-].
    destruct (finalize_inv _ _ _ _ _ _ Hinv1 ltac:(rewrite Hmass1; done) Ef) as [? ?].
    split; [done|lia].
Qed.

Lemma with_locked_inv (m : unordered_map) l :
  map_inv hash m → map_inv hash (with_locked m l) ∧ mass (with_locked m l) = mass m.
Proof. intros Hinv. by split. Qed.

Lemma new_map_inv pct a (m : unordered_map) a' :
  new_map pct a = (m, a') → map_inv hash m ∧ mass m = 0%Z.
Proof.
  unfold new_map. destruct (Alloc.allocate a) as [ok a1].
  destruct ok.
  - destruct (new_table 4 a1) as [t a2] eqn:En.
    destruct (new_table_inv _ _ _ _ En) as [Hi Htot].
    intros [= <- <-]. unfold map_inv, mass, compute_state. simpl. done.
  - intros [= <- <-]. unfold map_inv, mass, compute_state. simpl. done.
Qed.

Lemma do_call_inv fuel (c : call) (m m' : unordered_map) a r a' :
  map_inv hash m → (mass m + 1 < SizeT.modulus)%Z →
  do_call hash keep fuel c m a = Some (r, m', a') →
  map_inv hash m' ∧ (mass m' <= mass m + 1)%Z.
Proof.
  intros Hinv Hb. destruct c; simpl.
  - destruct (get hash m key a) as [[r0 m0] a0] eqn:E. intros [= <- <- <-].
    destruct (get_inv _ _ _ _ _ _ Hinv ltac:(lia) E). split; [done|lia].
  - intros [= <- <- <-]. split; [done|lia].
  - destruct (put hash keep m key val a) as [[r0 m0] a0] eqn:E. intros [= <- <- <-].
    by apply (put_inv _ _ _ _ _ _ _ Hinv Hb E).
  - destruct (del hash m key a) as [[r0 m0] a0] eqn:E. intros [= <- <- <-].
    destruct (del_inv _ _ _ _ _ _ Hinv ltac:(lia) E). split; [done|lia].
  - destruct (reserve hash fuel m number_of_buckets a) as [[[r0 m0] a0]|] eqn:E; [|done].
    intros [= <- <- <-].
    destruct (reserve_inv _ _ _ _ _ _ _ Hinv ltac:(lia) E). split; [done|lia].
  - destruct (finalize hash fuel m a) as [[[r0 m0] a0]|] eqn:E; [|done].
    intros [= <- <- <-].
    destruct (finalize_inv _ _ _ _ _ _ Hinv ltac:(lia) E). split; [done|lia].
  - destruct (delete_all_keys hash fuel m a) as [[m0 a0]|] eqn:E; [|done].
    intros [= <- <- <-].
    destruct (delete_all_keys_inv _ _ _ _ _ Hinv ltac:(lia) E). split; [done|lia].
  - intros [= <- <- <-]. destruct (with_locked_inv m true Hinv) as [? Hm].
    unfold lock_table_size. rewrite Hm. split; [done|lia].
  - intros [= <- <- <-]. destruct (with_locked_inv m false Hinv) as [? Hm].
    unfold unlock_table_size. rewrite Hm. split; [done|lia].
Qed.

Lemma do_calls_inv fuel (cs : list call) :
  ∀ (m m' : unordered_map) a tr a',
  map_inv hash m → (mass m + Z.of_nat (length cs) < SizeT.modulus)%Z →
  do_calls hash keep fuel cs m a = Some (tr, m', a') →
  map_inv hash m' ∧ (mass m' <= mass m + Z.of_nat (length cs))%Z.
Proof.
  induction cs as [|c cs IH]; intros m m' a tr a' Hinv Hb; simpl.
  - intros [= <- <- <-]. split; [done|lia].
  - simpl in Hb.
    destruct (do_call hash keep fuel c m a) as [[[r m1] a1]|] eqn:Ec; [|done].
    destruct (do_call_inv _ _ _ _ _ _ _ Hinv ltac:(lia) Ec) as [Hinv1 Hmass1].
    destruct (do_calls hash keep fuel cs m1 a1) as [[[rs m2] a2]|] eqn:Ecs; [|done].
    intros [= <- <- <-].
    destruct (IH _ _ _ _ _ Hinv1 ltac:(lia) Ecs) as [Hinv2 Hmass2].
    split; [done|lia].
Qed.

(** Every map that a program gets from the constructor by fewer than 2^64
    calls satisfies the invariant. *)
Theorem reachable_map_inv pct a0 fuel (cs : list call) tr (m : unordered_map) a :
  (Z.of_nat (length cs) < SizeT.modulus)%Z →
  do_calls hash keep fuel cs (new_map pct a0).1 (new_map (Key := Key) (T := T) pct a0).2
    = Some (tr, m, a) →
  map_inv hash m.
Proof.
  intros Hlen Hrun.
  destruct (new_map (Key := Key) (T := T) pct a0) as [m0 a1] eqn:En.
  destruct (new_map_inv _ _ _ _ En) as [Hinv0 Hmass0].
  simpl in Hrun.
  assert (Hb : (mass m0 + Z.of_nat (length cs) < SizeT.modulus)%Z) by lia.
  by destruct (do_calls_inv fuel cs m0 m a1 tr a Hinv0 Hb Hrun).
Qed.


(** *** [del] while a transfer is under way *)

Lemma table_del_result (t t' : Table) key r :
  table_inv hash t → table_del hash t key = (r, t') →
  r = bool_decide (in_table hash t key).
Proof.
  intros Hinv Hd. unfold table_del, in_table in *.
  destruct (Nat.eqb_spec (m_num_buckets t) 0) as [Hz|Hnz].
  { injection Hd as <- <-. symmetry. apply bool_decide_eq_false_2.
    pose proof (ti_struct _ _ Hinv) as Hs. unfold structured in Hs.
    rewrite ents_out_of_range by lia. intros Hk. by apply elem_of_nil in Hk. }
  pose proof (bucket_remove_spec (bucket_at t (get_bucket_index hash t key)) key
                (ti_nodup _ _ Hinv _)) as (Hr & _).
  destruct (bucket_remove _ key) as [rval b']. simpl in Hr.
  destruct rval; injection Hd as <- <-; done.
Qed.



(** X6: a key that was put again while its old entry was still waiting in
    [main]: [del] removes the emptied entry from [main], answers true, and
    leaves the value in [secondary], where the next lookup finds it. *)
Lemma del_in_transfer_keeps_reput_value (m m' : unordered_map) main sec key v a r a' :
  map_inv hash m → m_state m = TRANSFER →
  m_main m = Some main → m_secondary m = Some sec →
  in_table hash main key → table_get hash sec key = Some v →
  del hash m key a = (r, m', a') →
  m_state m' ≠ ERROR →
  r = true ∧ peek hash m' key = Some v.
Proof.
  intros Hinv Hst Hm Hsec Hin Hv Hdel Hne.
  destruct (map_inv_transfer m Hst Hinv)
    as (main0 & sec0 & Hm0 & Hsec0 & Hi & His & Hz & Hc & _).
  assert (main0 = main) as -> by congruence.
  assert (sec0 = sec) as -> by congruence.
  unfold del in Hdel. rewrite Hst, Hm, Hsec in Hdel.
  destruct (table_del hash main key) as [rval main1] eqn:Ed.
  pose proof (table_del_result _ _ _ _ Hi Ed) as Hr.
  rewrite bool_decide_eq_true_2 in Hr by done. subst rval.
  destruct (table_del_inv _ _ _ _ Hi Ed) as (Hi1 & Hn1 & _ & Hmem1).
  assert (Hz1 : zombies hash main1 sec).
  { intros i e He Hk. apply Hmem1 in He as [He _]. by apply (Hz i e He). }
  destruct (transfer_step_peek hash false true r
              (with_secondary (with_main m main1) (Some sec)) a m' a' main1 sec
              Hst eq_refl eq_refl Hi1 (ti_struct _ _ His) Hz1 ltac:(simpl; lia) Hdel Hne)
    as [-> Hpk].
  split; [done|]. rewrite Hpk. unfold peek. simpl. rewrite Hst. by rewrite Hv.
Qed.

(** *** What a [put] that succeeds stores *)









(** *** Maps a program can reach *)

Lemma reachable_map_mass pct a0 fuel (cs : list call) tr (m : unordered_map) a :
  (Z.of_nat (length cs) < SizeT.modulus)%Z →
  do_calls hash keep fuel cs (new_map pct a0).1 (new_map (Key := Key) (T := T) pct a0).2
    = Some (tr, m, a) →
  map_inv hash m ∧ (mass m <= Z.of_nat (length cs))%Z.
Proof.
  intros Hlen Hrun.
  destruct (new_map (Key := Key) (T := T) pct a0) as [m0 a1] eqn:En.
  destruct (new_map_inv _ _ _ _ En) as [Hinv0 Hmass0].
  simpl in Hrun.
  assert (Hb : (mass m0 + Z.of_nat (length cs) < SizeT.modulus)%Z) by lia.
  destruct (do_calls_inv fuel cs m0 m a1 tr a Hinv0 Hb Hrun). split; [done|lia].
Qed.

(** *** Keys that a move leaves as they are

    For such a key type [put] is the [put] with a move that copies the key,
    which is the one the invariant is proved for. *)

Lemma put_keep (moved_from : Key → Key) (m : unordered_map) key val a :
  (∀ k, moved_from k = k) →
  put hash moved_from m key val a = put hash keep m key val a.
Proof.
  intros Hk. unfold put.
  destruct (m_state m); [done|done|].
  destruct (m_main m) as [main|]; [|done].
  destruct (m_secondary m) as [sec|]; [|done].
  destruct (table_get_or_create_entry hash sec key a) as [[res sec1] a1].
  destruct (entry res) as [ei|]; [|done]. destruct (bucket res) as [bi|]; [|done].
  destruct (entry_at sec1 bi ei) as [e0|]; [|done].
  destruct (created res); [|done].
  destruct (table_get_entry hash main key) as [mi|]; [|done].
  destruct (entry_at main _ mi) as [me|]; [|done].
  by rewrite Hk.
Qed.

Lemma do_call_keep (moved_from : Key → Key) fuel (c : call) (m : unordered_map) a :
  (∀ k, moved_from k = k) →
  do_call hash moved_from fuel c m a = do_call hash keep fuel c m a.
Proof. intros Hk. destruct c; simpl; try done. by rewrite put_keep. Qed.

Lemma do_calls_keep (moved_from : Key → Key) fuel (cs : list call) :
  (∀ k, moved_from k = k) →
  ∀ (m : unordered_map) a,
  do_calls hash moved_from fuel cs m a = do_calls hash keep fuel cs m a.
Proof.
  intros Hk. induction cs as [|c cs IH]; intros m a; simpl; [done|].
  rewrite do_call_keep by done.
  destruct (do_call hash keep fuel c m a) as [[[r m1] a1]|]; [|done].
  by rewrite IH.
Qed.




(** C10 (as amended): for a key type that a move leaves as it is (the
    integral types; not [std::string]), on every map that a program has got
    from the constructor by fewer than 2^64 calls, a [put] that returns false
    and does not leave the map in the ERROR state changes no key's value:
    every lookup finds after the call what it found before, and [get] returns
    the same for every key before and after, whenever the [get] itself does
    not latch the ERROR state. *)
Theorem failed_put_keeps_values (moved_from : Key → Key) pct a0 fuel (cs : list call) tr
    (m m' : unordered_map) a key val a1 a' :
  (∀ k, moved_from k = k) →
  (Z.of_nat (length cs) < SizeT.modulus)%Z →
  do_calls hash moved_from fuel cs (new_map pct a0).1 (new_map (Key := Key) (T := T) pct a0).2
    = Some (tr, m, a) →
  put hash moved_from m key val a1 = (false, m', a') →
  m_state m' ≠ ERROR →
  (∀ k, peek hash m' k = peek hash m k) ∧
  (∀ k a2 a3,
      m_state (get hash m' k a2).1.2 ≠ ERROR →
      m_state (get hash m k a3).1.2 ≠ ERROR →
      (get hash m' k a2).1.1 = (get hash m k a3).1.1).
Proof.
  intros Hkeep Hlen Hrun Hput Hne.
  rewrite do_calls_keep in Hrun by done. rewrite put_keep in Hput by done.
  apply (failed_put_keeps_lookups hash m m' key val a1 a'); [|done|done].
  by apply (reachable_map_inv pct a0 fuel cs tr m a).
Qed.

(** *** Finishing a transfer at once: [finalize] and [reserve] *)

Lemma drain_peek fuel :
  ∀ (m : unordered_map) a ok m1 a1,
  m_state m = TRANSFER → map_inv hash m → (mass m < SizeT.modulus)%Z →
  drain hash fuel m a = Some (ok, m1, a1) →
  ∀ k, peek hash m1 k = peek hash m k.
Proof.
  induction fuel as [|fuel IH]; intros m a ok m1 a1 Hst Hinv Hb; rewrite drain_unfold;
    destruct (is_transfer_complete m) eqn:Ec; try (intros [= <- <- <-]; done); try done.
  destruct (map_inv_transfer m Hst Hinv)
    as (main & sec & Hm & Hsec & Hi & His & Hz & Hc & Hmass).
  destruct (perform_partial_transfer hash m a) as [[ok2 m2] a2] eqn:Ep.
  destruct (perform_partial_transfer_spec hash _ _ _ _ _ _ _ Hm Hsec Hi
              (ti_struct _ _ His) Hz Hc Ep)
    as (main' & sec' & Hm' & Hsec' & Hst' & _ & _ & _ & Hp).
  destruct (perform_partial_transfer_inv _ _ _ _ _ _ _ Hm Hsec Hi His Hz Hc
              ltac:(lia) Ep)
    as (main2 & sec2 & c2 & Hm2 & Hi2 & His2 & Hz2 & Hc2 & Hmass2).
  assert (Hpk : ∀ k, peek hash m2 k = peek hash m k).
  { intros k. rewrite (peek_transfer hash m2 main' sec'), (peek_transfer hash m main sec)
      by congruence. apply Hp. }
  destruct ok2; [|intros [= <- <- <-]; done].
  intros Hd k. rewrite <- Hpk.
  apply (IH m2 a2 ok m1 a1); [congruence| |  |done].
  - subst m2. unfold map_inv. simpl. rewrite Hst. done.
  - subst m2. unfold mass. simpl. rewrite Hst. simpl. lia.
Qed.

Lemma finish_transfer_peek (m1 m' : unordered_map) ok a1 rv a' :
  m_state m1 = TRANSFER → map_inv hash m1 →
  (ok = true → is_transfer_complete m1 = true) →
  finish_transfer (Some (ok, m1, a1)) = Some (rv, m', a') →
  rv = ok ∧ a' = a1 ∧ (∀ k, peek hash m' k = peek hash m1 k) ∧
  m_state m' = (if ok then STABLE else TRANSFER) ∧
  get_num_buckets m' = get_num_buckets m1.
Proof.
  intros Hst Hinv Hc. unfold finish_transfer.
  destruct ok; intros [= <- <- <-]; [|by rewrite Hst].
  destruct (map_inv_transfer m1 Hst Hinv)
    as (main & sec & Hm & Hsec & Hi & His & Hz & _ & _).
  split_and!; try done.
  - intros k. rewrite (peek_transfer hash m1 main sec) by done.
    unfold peek, end_resize. simpl. rewrite Hsec.
    specialize (Hc eq_refl). unfold is_transfer_complete in Hc. rewrite Hm in Hc.
    apply Z.eqb_eq in Hc. rewrite (table_get_count_0 hash main) by done.
    by destruct (table_get hash sec k).
  - unfold get_num_buckets, end_resize. simpl. by rewrite Hst.
Qed.

Lemma finalize_peek fuel (m m' : unordered_map) a r a' :
  map_inv hash m → (mass m < SizeT.modulus)%Z →
  finalize hash fuel m a = Some (r, m', a') →
  (∀ k, peek hash m' k = peek hash m k) ∧
  get_num_buckets m' = get_num_buckets m ∧
  match m_state m with
  | ERROR => r = false ∧ m' = m ∧ a' = a
  | STABLE => r = true ∧ m' = m ∧ a' = a
  | TRANSFER => m_state m' = (if r then STABLE else TRANSFER)
  end.
Proof.
  intros Hinv Hb. unfold finalize.
  destruct (m_state m) eqn:Hst; try (intros [= <- <- <-]; done).
  destruct (drain hash fuel m a) as [[[ok m1] a1]|] eqn:Ed; [|done].
  destruct (drain_inv _ _ _ _ _ _ Hst Hinv Hb Ed) as (Hst1 & Hinv1 & Hmass1 & Hc).
  pose proof (drain_peek _ _ _ _ _ _ Hst Hinv Hb Ed) as Hpk.
  intros Hf.
  destruct (finish_transfer_peek _ _ _ _ _ _ Hst1 Hinv1 Hc Hf) as (-> & -> & Hpk' & Hst' & Hn).
  split_and!; [|..|done].
  - intros k. by rewrite Hpk'.
  - rewrite Hn. unfold get_num_buckets. rewrite Hst1, Hst.
    clear -Hst Hinv Hb Ed. revert m a ok m1 a1 Hst Hinv Hb Ed.
    induction fuel as [|fuel IH]; intros m a ok m1 a1 Hst Hinv Hb; rewrite drain_unfold;
      destruct (is_transfer_complete m) eqn:Ec; try (intros [= <- <- <-]; done); try done.
    destruct (map_inv_transfer m Hst Hinv)
      as (main & sec & Hm & Hsec & Hi & His & Hz & Hc & Hmass).
    destruct (perform_partial_transfer hash m a) as [[ok2 m2] a2] eqn:Ep.
    destruct (perform_partial_transfer_inv _ _ _ _ _ _ _ Hm Hsec Hi His Hz Hc
                ltac:(lia) Ep)
      as (main2 & sec2 & c2 & Hm2 & Hi2 & His2 & Hz2 & Hc2 & Hmass2).
    assert (Hn2 : m_num_buckets sec2 = m_num_buckets sec).
    { revert Ep. unfold perform_partial_transfer. rewrite Hm, Hsec.
      destruct (transfer_buckets _ _ _ _ _ _ _) as [[[[okb cb] mainb] secb] ab] eqn:Et.
      intros [= _ Heq _].
      destruct (transfer_buckets_spec hash
                  (m_num_buckets main - m_current_bucket_to_transfer m)
                  (m_current_bucket_to_transfer m) _ _ _ _ _ _ _ _ _ Hi (ti_struct _ _ His)
                  Hz ltac:(lia) Et) as (_ & _ & _ & _ & Hns & _).
      rewrite Hm2 in Heq. unfold with_cursor, with_secondary, with_main in Heq.
      simpl in Heq. injection Heq as _ Hs2 _. by subst secb. }
    assert (Hsec2 : from_option m_num_buckets 0%nat (m_secondary m2)
                    = from_option m_num_buckets 0%nat (m_secondary m)).
    { subst m2. simpl. rewrite Hsec. simpl. done. }
    destruct ok2; [|intros [= <- <- <-]; done].
    intros Hd. rewrite <- Hsec2.
    apply (IH m2 a2 ok m1 a1); [subst m2; simpl; congruence| | |done].
    + subst m2. unfold map_inv. simpl. rewrite Hst. done.
    + subst m2. unfold mass. simpl. rewrite Hst. simpl. lia.
Qed.

(** *** The shape of the tables *)

Lemma goc_shape (t t' : Table) key a res a' :
  table_get_or_create_entry hash t key a = (res, t', a') → shape t' = shape t.
Proof.
  unfold table_get_or_create_entry. intros Hg.
  repeat case_match; simplify_eq; done.
Qed.

Lemma transfer_entries_shape (es_rev : list Entry) :
  ∀ budget total (sec : Table) a status rest budget' total' sec' a',
  transfer_entries hash es_rev budget total sec a
    = (status, rest, budget', total', sec', a') →
  shape sec' = shape sec.
Proof.
  induction es_rev as [|e es IH]; intros budget total sec a status rest budget' total' sec' a';
    simpl.
  - by intros [= <- <- <- <- <- <-].
  - destruct budget as [|budget]; [by intros [= <- <- <- <- <- <-]|].
    destruct (table_get_or_create_entry hash sec (m_key e) a) as [[res sec1] a1] eqn:Eg.
    pose proof (goc_shape _ _ _ _ _ _ Eg) as Hs1.
    destruct (entry res) as [ei|]; [destruct (bucket res) as [bi|]|];
      try (intros [= <- <- <- <- <- <-]; done).
    intros Ht. apply IH in Ht. rewrite Ht. by destruct (created res).
Qed.

Lemma transfer_buckets_shape n :
  ∀ c budget (main sec : Table) a ok c' main' sec' a',
  transfer_buckets hash n c budget main sec a = (ok, c', main', sec', a') →
  shape main' = shape main ∧ shape sec' = shape sec.
Proof.
  induction n as [|n IH]; intros c budget main sec a ok c' main' sec' a'; simpl.
  - by intros [= <- <- <- <- <-].
  - destruct (transfer_entries hash _ budget (m_total_entries main) sec a)
      as [[[[[status rest] budget1] total1] sec1] a1] eqn:Et.
    pose proof (transfer_entries_shape _ _ _ _ _ _ _ _ _ _ _ Et) as Hs1.
    destruct status; try (intros [= <- <- <- <- <-]; done).
    intros Hb. apply IH in Hb as [Hm Hs]. rewrite Hm, Hs. done.
Qed.

Lemma perform_partial_transfer_shape (m m' : unordered_map) a ok a' :
  perform_partial_transfer hash m a = (ok, m', a') →
  m_state m' = m_state m ∧ m_locked m' = m_locked m ∧
  m_max_load_factor_percent m' = m_max_load_factor_percent m ∧
  shape <$> m_main m' = shape <$> m_main m ∧
  shape <$> m_secondary m' = shape <$> m_secondary m.
Proof.
  unfold perform_partial_transfer.
  destruct (m_main m) as [main|] eqn:Hm; [|by intros [= <- <- <-]; rewrite Hm].
  destruct (m_secondary m) as [sec|] eqn:Hsec; [|by intros [= <- <- <-]; rewrite Hm, Hsec].
  destruct (transfer_buckets _ _ _ _ _ _ _) as [[[[okb cb] mainb] secb] ab] eqn:Et.
  destruct (transfer_buckets_shape _ _ _ _ _ _ _ _ _ _ _ Et) as [Hsm Hss].
  intros [= <- <- <-]. simpl. by rewrite Hsm, Hss.
Qed.

Lemma drain_shape fuel :
  ∀ (m : unordered_map) a ok m1 a1,
  drain hash fuel m a = Some (ok, m1, a1) →
  m_state m1 = m_state m ∧ m_locked m1 = m_locked m ∧
  m_max_load_factor_percent m1 = m_max_load_factor_percent m ∧
  shape <$> m_main m1 = shape <$> m_main m ∧
  shape <$> m_secondary m1 = shape <$> m_secondary m.
Proof.
  induction fuel as [|fuel IH]; intros m a ok m1 a1; rewrite drain_unfold;
    destruct (is_transfer_complete m); try (intros [= <- <- <-]; done); try done.
  destruct (perform_partial_transfer hash m a) as [[ok2 m2] a2] eqn:Ep.
  destruct (perform_partial_transfer_shape _ _ _ _ _ Ep) as (H1 & H2 & H3 & H4 & H5).
  destruct ok2; [|intros [= <- <- <-]; done].
  intros Hd. apply IH in Hd as (H1' & H2' & H3' & H4' & H5').
  split_and!; congruence.
Qed.

Lemma prime_table_mono i j :
  (i <= j < 32)%nat →
  (Utility.get_prime_power_of_2 i <= Utility.get_prime_power_of_2 j)%Z.
Proof.
  intros Hij.
  assert (Hall : forallb (λ j, forallb (λ i,
              (Utility.get_prime_power_of_2 i <=? Utility.get_prime_power_of_2 j)%Z)
                (seq 0 (S j))) (seq 0 32) = true) by (vm_compute; reflexivity).
  pose proof (forallb_elem_of _ _ j Hall) as Hj.
  rewrite elem_of_seq in Hj. specialize (Hj ltac:(lia)).
  pose proof (forallb_elem_of _ _ i Hj) as Hi.
  rewrite elem_of_seq in Hi. specialize (Hi ltac:(lia)). by apply Z.leb_le.
Qed.

Lemma find_power_spec n0 :
  ∀ i n p, find_power n0 i n = Some p →
  (i <= p < i + n0)%nat ∧ (n <= Utility.get_prime_power_of_2 p)%Z ∧
  ∀ j, (i <= j < p)%nat → (Utility.get_prime_power_of_2 j < n)%Z.
Proof.
  induction n0 as [|n0 IH]; intros i n p; simpl; [done|].
  destruct (Z.geb_spec (Utility.get_prime_power_of_2 i) n) as [Hge|Hlt].
  - intros [= <-]. split_and!; try lia.
  - intros Hf. apply IH in Hf as (Hr & Hp & Hbelow).
    split_and!; try lia. intros j Hj.
    destruct (decide (j = i)) as [->|Hne]; [lia|]. apply Hbelow. lia.
Qed.

Lemma find_power_None n0 :
  ∀ i n, find_power n0 i n = None →
  ∀ j, (i <= j < i + n0)%nat → (Utility.get_prime_power_of_2 j < n)%Z.
Proof.
  induction n0 as [|n0 IH]; intros i n; simpl; [intros _ j Hj; lia|].
  destruct (Z.geb_spec (Utility.get_prime_power_of_2 i) n) as [Hge|Hlt]; [done|].
  intros Hf j Hj. destruct (decide (j = i)) as [->|Hne]; [lia|].
  apply (IH _ _ Hf). lia.
Qed.

Lemma begin_resize_spec (m : unordered_map) p a m1 a1 main :
  m_state m = STABLE → m_main m = Some main →
  (4 <= p <= 31)%nat →
  begin_resize m p a = (true, m1, a1) →
  m_main m1 = Some main ∧
  (∃ sec, m_secondary m1 = Some sec ∧ sized sec ∧ m_power_of_2_size sec = p) ∧
  m_locked m1 = m_locked m ∧
  ∀ k, peek hash m1 k = peek hash m k.
Proof.
  intros Hst Hm Hp. unfold begin_resize.
  destruct (Alloc.allocate a) as [ok1 a0]. destruct ok1; simpl; [|done].
  destruct (new_table _ a0) as [sec a2] eqn:En.
  pose proof (λ j, new_table_ents _ _ _ _ j En) as Hents.
  destruct (Z.eqb_spec (Utility.get_prime_power_of_2 p) (Z.of_nat (m_num_buckets sec)))
    as [Heq|]; simpl; [|done].
  intros [= <- <-]. simpl.
  assert (Hpow : m_power_of_2_size sec = p).
  { revert En. unfold new_table.
    destruct (Nat.leb_spec 32 p); [lia|]. destruct (Nat.ltb_spec p 4); [lia|].
    destruct (expand _ _ _) as [[n v] a']. by intros [= <- <-]. }
  split_and!; try done.
  - exists sec. split_and!; try done. unfold sized. rewrite Hpow. split; [lia|done].
  - intros k. unfold peek. simpl. rewrite Hst, Hm.
    by rewrite (table_get_empty hash sec).
Qed.

Lemma sized_shape (t t' : Table) : shape t' = shape t → sized t → sized t'.
Proof. unfold shape, sized. intros [= -> ->]. done. Qed.

Lemma sized_buckets_mono (t t' : Table) :
  sized t → sized t' → (m_power_of_2_size t <= m_power_of_2_size t')%nat →
  (m_num_buckets t <= m_num_buckets t')%nat.
Proof.
  intros [Hr Hn] [Hr' Hn'] Hle.
  pose proof (prime_table_mono (m_power_of_2_size t) (m_power_of_2_size t') ltac:(lia)).
  lia.
Qed.

(** The part of [reserve] that follows the in-flight transfer. *)
Lemma reserve_tail fuel (m1 m' : unordered_map) a1 p main r a' :
  m_state m1 = STABLE → map_inv hash m1 → (mass m1 < SizeT.modulus)%Z →
  m_main m1 = Some main → sized main → (p <= 31)%nat →
  (if (p <=? m_power_of_2_size main)%nat then Some (true, m1, a1)
   else
     let '(valid_begin_resize, m2, a2) := begin_resize m1 p a1 in
     if negb valid_begin_resize then Some (false, with_state m2 ERROR, a2)
     else finish_transfer (drain hash fuel m2 a2)) = Some (r, m', a') →
  m_state m' ≠ ERROR →
  (∀ k, peek hash m' k = peek hash m1 k) ∧
  m_locked m' = m_locked m1 ∧
  (r = true →
     m_state m' = STABLE ∧
     ∃ main', m_main m' = Some main' ∧ sized main' ∧
              (p <= m_power_of_2_size main')%nat ∧
              (m_num_buckets main <= m_num_buckets main')%nat) ∧
  (r = false → m_state m' = TRANSFER).
Proof.
  intros Hst Hinv Hb Hm Hsz Hp.
  destruct (map_inv_stable m1 Hst Hinv) as (main0 & Hm0 & Hsec & Hi & Hmass).
  assert (main0 = main) as -> by congruence.
  destruct (Nat.leb_spec p (m_power_of_2_size main)) as [Hle|Hgt].
  { intros [= <- <- <-] _. split_and!; try done.
    intros _. split; [done|]. exists main. split_and!; try done. }
  destruct (begin_resize m1 p a1) as [[ok m2] a2] eqn:Eb.
  destruct ok; simpl; [|by intros [= <- <- <-]].
  destruct (begin_resize_inv _ _ _ _ _ _ _ Hst Hm Hsec Hi Eb eq_refl)
    as (Hst2 & Hinv2 & Hmass2).
  pose proof Hsz as [Hrange Hnum].
  destruct (begin_resize_spec m1 p a1 m2 a2 main Hst Hm ltac:(lia) Eb)
    as (Hm2 & (sec & Hsec2 & Hszs & Hpow) & Hlock2 & Hpk2).
  destruct (drain hash fuel m2 a2) as [[[ok m3] a3]|] eqn:Ed; [|done].
  assert (Hb2 : (mass m2 < SizeT.modulus)%Z) by lia.
  destruct (drain_inv _ _ _ _ _ _ Hst2 Hinv2 Hb2 Ed) as (Hst3 & Hinv3 & Hmass3 & Hc).
  pose proof (drain_peek _ _ _ _ _ _ Hst2 Hinv2 Hb2 Ed) as Hpk3.
  destruct (drain_shape _ _ _ _ _ _ Ed) as (_ & Hlock3 & _ & Hshm & Hshs).
  intros Hf Hne.
  destruct (finish_transfer_peek _ _ _ _ _ _ Hst3 Hinv3 Hc Hf)
    as (-> & -> & Hpk' & Hst' & Hn).
  assert (Hlock' : m_locked m' = m_locked m3).
  { revert Hf. unfold finish_transfer. destruct ok; by intros [= <-]. }
  split_and!.
  - intros k. by rewrite Hpk', Hpk3, Hpk2.
  - congruence.
  - intros ->. split; [done|].
    assert (Hm' : m' = end_resize m3) by (unfold finish_transfer in Hf; congruence).
    subst m'. simpl.
    rewrite Hsec2 in Hshs.
    destruct (m_secondary m3) as [sec3|]; [|done]. simpl in Hshs.
    assert (Hsh : shape sec3 = shape sec) by congruence.
    assert (Hpow3 : m_power_of_2_size sec3 = p).
    { unfold shape in Hsh. congruence. }
    exists sec3. split_and!; [done| | |].
    + by apply (sized_shape sec).
    + lia.
    + apply sized_buckets_mono; [done|by apply (sized_shape sec)|]. lia.
  - intros ->. done.
Qed.

Lemma finish_transfer_shape (m1 m' : unordered_map) ok a1 rv a' :
  m_state m1 = TRANSFER →
  finish_transfer (Some (ok, m1, a1)) = Some (rv, m', a') →
  m_locked m' = m_locked m1 ∧
  (rv = true → m_main m' = m_secondary m1 ∧ m_secondary m' = None) ∧
  (rv = false → m' = m1).
Proof.
  intros Hst. unfold finish_transfer. destruct ok; intros [= <- <- <-]; done.
Qed.

Lemma reserve_spec_inv fuel (m m' : unordered_map) n a r a' :
  map_inv hash m → (mass m < SizeT.modulus)%Z → map_sized m →
  reserve hash fuel m n a = Some (r, m', a') →
  m_state m' ≠ ERROR →
  (∀ k, peek hash m' k = peek hash m k) ∧
  m_locked m' = m_locked m ∧
  (r = true →
     m_state m' = STABLE ∧ map_sized m' ∧
     (n <= Z.of_nat (get_num_buckets m'))%Z ∧
     (get_num_buckets m <= get_num_buckets m')%nat) ∧
  (r = false →
     (m' = m ∧ (n = 0 ∨ 2147483659 < n)%Z) ∨ m_state m' = TRANSFER).
Proof.
  intros Hinv Hb Hsized. unfold reserve.
  assert (Hbig : find_power 32 0 n = None → (2147483659 < n)%Z).
  { intros Hf. apply (find_power_None _ _ _ Hf 31%nat). lia. }
  destruct (m_state m) eqn:Hst.
  - intros [= <- <- <-] Hne. congruence.
  - (* STABLE *)
    destruct (Z.eqb_spec n 0) as [Hn0|Hn0].
    { intros [= <- <- <-] _. split_and!; try done. intros _. left. auto. }
    destruct (find_power 32 0 n) as [p|] eqn:Ef.
    2:{ intros [= <- <- <-] _. split_and!; try done. intros _. left. auto. }
    destruct (find_power_spec _ _ _ _ Ef) as (Hp & Hnp & _).
    destruct (map_inv_stable m Hst Hinv) as (main & Hm & Hsec & Hi & Hmass).
    rewrite Hm. unfold map_sized in Hsized. rewrite Hst, Hm in Hsized. simpl in Hsized.
    intros Hr Hne.
    destruct (reserve_tail fuel m m' a p main r a' Hst Hinv Hb Hm Hsized ltac:(lia) Hr Hne)
      as (Hpk & Hlock & Htrue & Hfalse).
    split_and!; try done.
    + intros ->. destruct (Htrue eq_refl) as (Hst' & main' & Hm' & Hsz' & Hpow' & Hnb').
      split_and!; try done.
      * unfold map_sized. by rewrite Hst', Hm'.
      * unfold get_num_buckets. rewrite Hst', Hm'. simpl.
        destruct Hsz' as [Hrange Hnum]. rewrite Hnum.
        pose proof (prime_table_mono p (m_power_of_2_size main') ltac:(lia)). lia.
      * unfold get_num_buckets. rewrite Hst, Hst', Hm, Hm'. done.
    + intros ->. right. by apply Hfalse.
  - (* TRANSFER *)
    destruct (Z.eqb_spec n 0) as [Hn0|Hn0].
    { intros [= <- <- <-] _. split_and!; try done. intros _. left. auto. }
    destruct (find_power 32 0 n) as [p|] eqn:Ef.
    2:{ intros [= <- <- <-] _. split_and!; try done. intros _. left. auto. }
    destruct (find_power_spec _ _ _ _ Ef) as (Hp & Hnp & _).
    destruct (map_inv_transfer m Hst Hinv)
      as (main & sec & Hm & Hsec & Hi & His & Hz & Hc & Hmass).
    unfold map_sized in Hsized. rewrite Hst, Hm, Hsec in Hsized. simpl in Hsized.
    destruct Hsized as [Hszm Hszs].
    destruct (drain hash fuel m a) as [[[ok m1] a1]|] eqn:Ed; [|done].
    destruct (drain_inv _ _ _ _ _ _ Hst Hinv Hb Ed) as (Hst1 & Hinv1 & Hmass1 & Hc1).
    pose proof (drain_peek _ _ _ _ _ _ Hst Hinv Hb Ed) as Hpk1.
    destruct (drain_shape _ _ _ _ _ _ Ed) as (_ & Hlock1 & _ & Hshm & Hshs).
    destruct (finish_transfer (Some (ok, m1, a1))) as [[[rv m2] a2]|] eqn:Efin; [|done].
    destruct (finish_transfer_peek _ _ _ _ _ _ Hst1 Hinv1 Hc1 Efin)
      as (-> & -> & Hpk2 & Hst2 & Hn2).
    destruct (finish_transfer_inv m _ _ _ _ _ _ _ eq_refl Hst1 Hinv1 Hmass1 Efin)
      as (Hinv2 & Hmass2 & _).
    destruct (finish_transfer_shape _ _ _ _ _ _ Hst1 Efin) as (Hlock2 & Hmain2 & _).
    destruct ok.
    2:{ intros [= <- <- <-] _. split_and!; try done.
        - intros k. by rewrite Hpk2.
        - congruence.
        - intros _. by right. }
    destruct (Hmain2 eq_refl) as [Hm2 Hsec2].
    rewrite Hsec in Hshs.
    destruct (m_secondary m1) as [sec1|] eqn:Hsec1; [|done].
    assert (Hsh1 : shape sec1 = shape sec) by (simpl in Hshs; congruence).
    rewrite Hm2.
    intros Hr Hne.
    destruct (reserve_tail fuel m2 m' a1 p sec1 r a' Hst2 Hinv2 ltac:(lia) Hm2
                (sized_shape _ _ Hsh1 Hszs) ltac:(lia) Hr Hne)
      as (Hpk & Hlock & Htrue & Hfalse).
    assert (Hnb : get_num_buckets m = m_num_buckets sec1).
    { unfold get_num_buckets. rewrite Hst, Hsec. simpl. unfold shape in Hsh1. congruence. }
    split_and!.
    + intros k. by rewrite Hpk, Hpk2.
    + congruence.
    + intros ->. destruct (Htrue eq_refl) as (Hst' & main' & Hm' & Hsz' & Hpow' & Hnb').
      split_and!; try done.
      * unfold map_sized. by rewrite Hst', Hm'.
      * unfold get_num_buckets. rewrite Hst', Hm'. simpl.
        destruct Hsz' as [Hrange Hnum]. rewrite Hnum.
        pose proof (prime_table_mono p (m_power_of_2_size main') ltac:(lia)). lia.
      * rewrite Hnb. unfold get_num_buckets. rewrite Hst', Hm'. done.
    + intros ->. right. by apply Hfalse.
Qed.


(** X14: for a key type that a move leaves as it is (the integral types; not
    [std::string]), on every map that a program has got from the constructor
    by fewer than 2^64 calls, a [finalize] that returns changes no key's
    value and keeps the number of buckets.  It returns true exactly when it
    leaves the map in the STABLE state; outside the TRANSFER state it changes
    nothing and makes no allocation; when it returns false from the TRANSFER
    state the map stays in the TRANSFER state, not in ERROR. *)
Theorem finalize_keeps_values (moved_from : Key → Key) pct a0 fuel (cs : list call) tr
    (m m' : unordered_map) a fuel1 a1 r a' :
  (∀ k, moved_from k = k) →
  (Z.of_nat (length cs) < SizeT.modulus)%Z →
  do_calls hash moved_from fuel cs (new_map pct a0).1 (new_map (Key := Key) (T := T) pct a0).2
    = Some (tr, m, a) →
  finalize hash fuel1 m a1 = Some (r, m', a') →
  (∀ k, peek hash m' k = peek hash m k) ∧
  get_num_buckets m' = get_num_buckets m ∧
  (r = true ↔ m_state m' = STABLE) ∧
  (r = false → m_state m' = m_state m) ∧
  (m_state m ≠ TRANSFER → m' = m ∧ a' = a1).
Proof.
  intros Hkeep Hlen Hrun Hfin. rewrite do_calls_keep in Hrun by done.
  destruct (reachable_map_mass pct a0 fuel cs tr m a Hlen Hrun) as [Hinv Hmass].
  destruct (finalize_peek fuel1 m m' a1 r a' Hinv ltac:(lia) Hfin) as (Hpk & Hn & Hcase).
  split; [done|]. split; [done|].
  destruct (m_state m) eqn:Hst.
  - destruct Hcase as (-> & -> & ->). rewrite Hst.
    split_and!; [split|..]; intros; try done.
  - destruct Hcase as (-> & -> & ->). rewrite Hst.
    split_and!; [split|..]; intros; try done.
  - rewrite Hcase. destruct r; (split_and!; [split|..]); intros; try done.
Qed.

(** X15: for a key type that a move leaves as it is (the integral types; not
    [std::string]), on every map that a program has got from the constructor
    by fewer than 2^64 calls and whose tables have one of the library's prime
    sizes, a [reserve(n)] that returns without latching the ERROR state
    changes no key's value and leaves the size lock as it was.  When it
    returns true the map is STABLE with at least [n] buckets and not fewer
    than before.  When it returns false either nothing has changed ([n] is 0
    or above the largest table size 2147483659) or the map is left in the
    TRANSFER state. *)
Theorem reserve_grows_keeps_values (moved_from : Key → Key) pct a0 fuel (cs : list call)
    tr (m m' : unordered_map) a fuel1 n a1 r a' :
  (∀ k, moved_from k = k) →
  (Z.of_nat (length cs) < SizeT.modulus)%Z →
  do_calls hash moved_from fuel cs (new_map pct a0).1 (new_map (Key := Key) (T := T) pct a0).2
    = Some (tr, m, a) →
  map_sized m →
  reserve hash fuel1 m n a1 = Some (r, m', a') →
  m_state m' ≠ ERROR →
  (∀ k, peek hash m' k = peek hash m k) ∧
  m_locked m' = m_locked m ∧
  (r = true →
     m_state m' = STABLE ∧ map_sized m' ∧
     (n <= Z.of_nat (get_num_buckets m'))%Z ∧
     (get_num_buckets m <= get_num_buckets m')%nat) ∧
  (r = false →
     (m' = m ∧ (n = 0 ∨ 2147483659 < n)%Z) ∨ m_state m' = TRANSFER).
Proof.
  intros Hkeep Hlen Hrun Hsz Hres Hne. rewrite do_calls_keep in Hrun by done.
  destruct (reachable_map_mass pct a0 fuel cs tr m a Hlen Hrun) as [Hinv Hmass].
  apply (reserve_spec_inv fuel1 m m' n a1 r a'); try done. lia.
Qed.


End MapInvariant.

(** ** Hash map: what holds whatever a move leaves in a key *)

Section MapAnyKey.
Import Map.
Context {Key T : Type} `{EqDecision Key}.
Variable hash : Key → Z.

#[local] Abbreviation Entry := (Map.Entry Key T).
#[local] Abbreviation Table := (Map.Table Key T).
#[local] Abbreviation unordered_map := (Map.unordered_map Key T).
#[local] Abbreviation Bucket := (Vector.vector Entry).
#[local] Abbreviation call := (Map.call Key T).

(** *** What the map keeps whatever a move leaves in a key *)

Lemma size_wrap_range z : (0 <= SizeT.wrap z < SizeT.modulus)%Z.
Proof. unfold SizeT.wrap, SizeT.modulus. apply Z.mod_pos_bound. lia. Qed.

Lemma table_ok_set_bucket (t : Table) i b : table_ok t → table_ok (set_bucket t i b).
Proof. intros [Hs Hr]. split; [by apply structured_set_bucket|done]. Qed.

Lemma table_ok_set_entry (t : Table) bi ei e : table_ok t → table_ok (set_entry t bi ei e).
Proof. apply table_ok_set_bucket. Qed.

Lemma table_ok_set_total (t : Table) n :
  (0 <= n < SizeT.modulus)%Z → table_ok t → table_ok (set_total_entries t n).
Proof. intros Hn [Hs Hr]. by split. Qed.

Lemma table_ok_goc (t t' : Table) key a res a' :
  table_get_or_create_entry hash t key a = (res, t', a') → table_ok t → table_ok t'.
Proof.
  unfold table_get_or_create_entry. intros Hg Hok.
  destruct (m_num_buckets t =? 0)%nat; [by simplify_eq|].
  destruct (bucket_get_or_create_entry _ _ _) as [[r b'] a1].
  destruct (created_count r >? 0)%Z; simplify_eq.
  - apply table_ok_set_total; [apply size_wrap_range|by apply table_ok_set_bucket].
  - by apply table_ok_set_bucket.
Qed.

Lemma table_ok_del (t t' : Table) key r :
  table_del hash t key = (r, t') → table_ok t → table_ok t'.
Proof.
  unfold table_del. intros Hd Hok.
  destruct (m_num_buckets t =? 0)%nat; [by simplify_eq|].
  destruct (bucket_remove _ _) as [rv b'].
  destruct rv; simplify_eq.
  - apply table_ok_set_total; [apply size_wrap_range|by apply table_ok_set_bucket].
  - by apply table_ok_set_bucket.
Qed.

Lemma table_ok_delete_all (t : Table) : table_ok t → table_ok (table_delete_all_entries t).
Proof.
  intros [Hs Hr]. split.
  - unfold structured in *. simpl. by rewrite length_fmap.
  - simpl. unfold SizeT.modulus. lia.
Qed.

Lemma table_ok_new p a (t : Table) a' : new_table p a = (t, a') → table_ok t.
Proof.
  intros Hn. destruct (new_table_inv hash _ _ _ _ Hn) as [Hi Htot].
  split; [apply (ti_struct _ _ Hi)|]. rewrite Htot. unfold SizeT.modulus. lia.
Qed.

Lemma transfer_entries_ok (es_rev : list Entry) :
  ∀ budget total (sec : Table) a status rest budget' total' sec' a',
  table_ok sec → (0 <= total < SizeT.modulus)%Z →
  transfer_entries hash es_rev budget total sec a
    = (status, rest, budget', total', sec', a') →
  table_ok sec' ∧ (0 <= total' < SizeT.modulus)%Z.
Proof.
  induction es_rev as [|e es IH];
    intros budget total sec a status rest budget' total' sec' a' Hok Ht; simpl.
  { by intros [= <- <- <- <- <- <-]. }
  destruct budget as [|budget]; [by intros [= <- <- <- <- <- <-]|].
  destruct (table_get_or_create_entry hash sec (m_key e) a) as [[res sec1] a1] eqn:Eg.
  pose proof (table_ok_goc _ _ _ _ _ _ Eg Hok) as Hok1.
  destruct (entry res) as [ei|]; [destruct (bucket res) as [bi|]|].
  2,3: by intros [= <- <- <- <- <- <-].
  apply IH; [|apply size_wrap_range].
  destruct (created res); [by apply table_ok_set_entry|done].
Qed.

Lemma transfer_buckets_ok n :
  ∀ c budget (main sec : Table) a ok c' main' sec' a',
  table_ok main → table_ok sec →
  transfer_buckets hash n c budget main sec a = (ok, c', main', sec', a') →
  table_ok main' ∧ table_ok sec'.
Proof.
  induction n as [|n IH]; intros c budget main sec a ok c' main' sec' a' Hm Hs; simpl.
  { by intros [= <- <- <- <- <-]. }
  destruct (transfer_entries hash _ budget (m_total_entries main) sec a)
    as [[[[[status rest] budget'] total'] sec1] a1] eqn:Et.
  destruct (transfer_entries_ok _ _ _ _ _ _ _ _ _ _ _ Hs (proj2 Hm) Et) as [Hs1 Ht1].
  assert (Hm1 : table_ok (set_total_entries
                  (set_bucket main c (Vector.Mk (reverse rest)
                     (Vector.capacity (bucket_at main c)))) total')).
  { apply table_ok_set_total; [done|by apply table_ok_set_bucket]. }
  destruct status; [by apply IH|by intros [= <- <- <- <- <-]..].
Qed.

Lemma perform_partial_transfer_ok (m m' : unordered_map) a ok a' :
  map_ok m → perform_partial_transfer hash m a = (ok, m', a') →
  map_ok m' ∧ m_state m' = m_state m.
Proof.
  intros Hok. pose proof Hok as (Hm & Hs & Hst). unfold perform_partial_transfer.
  destruct (m_main m) as [main|] eqn:Em; [|by intros [= <- <- <-]].
  destruct (m_secondary m) as [sec|] eqn:Es; [|by intros [= <- <- <-]].
  destruct (transfer_buckets _ _ _ _ _ _ _) as [[[[okb cb] mainb] secb] ab] eqn:Et.
  destruct (transfer_buckets_ok _ _ _ _ _ _ _ _ _ _ _ Hm Hs Et) as [Hmb Hsb].
  intros [= <- <- <-]. split; [|done]. unfold map_ok. simpl. eauto.
Qed.

Lemma transfer_step_ok {R} (failure rval r : R) (m m' : unordered_map) a a' :
  map_ok m → transfer_step hash failure rval m a = (r, m', a') → map_ok m'.
Proof.
  intros Hok. unfold transfer_step.
  destruct (perform_partial_transfer hash m a) as [[ok m1] a1] eqn:Ep.
  destruct (perform_partial_transfer_ok _ _ _ _ _ Hok Ep) as [(Hm & Hs & Hst) _].
  destruct ok; simpl.
  - destruct (is_transfer_complete m1); intros [= <- <- <-]; [|done].
    unfold map_ok, end_resize. simpl. done.
  - intros [= <- <- <-]. unfold map_ok. simpl. done.
Qed.

Lemma begin_resize_ok (m m1 : unordered_map) p a ok a1 :
  map_ok m → m_state m = STABLE → is_Some (m_main m) →
  begin_resize m p a = (ok, m1, a1) →
  map_ok m1 ∧ (ok = false → m_state m1 = STABLE).
Proof.
  intros (Hm & Hs & Hst) Hstable Hmain. unfold begin_resize.
  destruct (Alloc.allocate a) as [ok1 a0]. destruct ok1; simpl.
  2:{ intros [= <- <- <-]. split; [|done]. unfold map_ok. simpl.
      split_and!; [done|done|]. congruence. }
  destruct (new_table _ a0) as [sec a2] eqn:En.
  pose proof (table_ok_new _ _ _ _ En) as Hsec.
  destruct (_ =? _)%Z; simpl; intros [= <- <- <-].
  - split; [|done]. unfold map_ok. simpl. done.
  - split; [|done]. unfold map_ok. simpl. split_and!; [done|done|]. congruence.
Qed.

Lemma resize_check_ok {R} (failure rval r : R) (m m' : unordered_map) a a' :
  map_ok m → m_state m = STABLE →
  resize_check failure rval m a = (r, m', a') → map_ok m'.
Proof.
  intros Hok Hst. unfold resize_check.
  destruct (m_main m) as [main|] eqn:Em; [|by intros [= <- <- <-]].
  destruct (should_resize m main); [|by intros [= <- <- <-]].
  destruct (begin_resize m _ a) as [[ok m1] a1] eqn:Eb.
  destruct (begin_resize_ok _ _ _ _ _ _ Hok Hst ltac:(by rewrite Em) Eb)
    as [(Hm & Hs & Hst1) _].
  destruct ok; simpl; intros [= <- <- <-]; [done|].
  unfold map_ok. simpl. done.
Qed.

Lemma map_ok_tables (m : unordered_map) (main : Table) sec st cur l :
  table_ok main → from_option table_ok True sec →
  (st = TRANSFER → is_Some sec) →
  map_ok (MkMap (Some main) sec st (m_max_load_factor_percent m) cur l).
Proof. intros Hm Hs Hst. unfold map_ok. simpl. split_and!; [done|done|]. eauto. Qed.

Lemma get_ok (m m' : unordered_map) key a r a' :
  map_ok m → get hash m key a = (r, m', a') → map_ok m'.
Proof.
  intros Hok. unfold get.
  destruct (m_state m) eqn:Hst; [by intros [= <- <- <-]| |].
  - destruct (m_main m); [|by intros [= <- <- <-]]. by apply resize_check_ok.
  - destruct (m_main m); [|by intros [= <- <- <-]].
    destruct (m_secondary m); [|by intros [= <- <- <-]]. by apply transfer_step_ok.
Qed.

Lemma del_ok (m m' : unordered_map) key a r a' :
  map_ok m → del hash m key a = (r, m', a') → map_ok m'.
Proof.
  intros Hok. pose proof Hok as (Hm & Hs & Ht). unfold del.
  destruct (m_state m) eqn:Hst; [by intros [= <- <- <-]| |].
  - destruct (m_main m) as [main|] eqn:Em; [|by intros [= <- <- <-]].
    destruct (table_del hash main key) as [rv main1] eqn:Ed.
    pose proof (table_ok_del _ _ _ _ Ed Hm) as Hm1.
    apply resize_check_ok; [|done]. unfold map_ok, with_main. simpl.
    split_and!; [done|done|congruence].
  - destruct (m_main m) as [main|] eqn:Em; [|by intros [= <- <- <-]].
    destruct (m_secondary m) as [sec|] eqn:Es; [|by intros [= <- <- <-]].
    destruct (table_del hash main key) as [rv main1] eqn:Ed.
    pose proof (table_ok_del _ _ _ _ Ed Hm) as Hm1.
    destruct rv.
    + apply transfer_step_ok. unfold map_ok. simpl. eauto.
    + destruct (table_del hash sec key) as [rv2 sec1] eqn:Ed2.
      pose proof (table_ok_del _ _ _ _ Ed2 Hs) as Hs1.
      apply transfer_step_ok. unfold map_ok. simpl. eauto.
Qed.

Lemma put_ok (moved_from : Key → Key) (m m' : unordered_map) key val a r a' :
  map_ok m → put hash moved_from m key val a = (r, m', a') → map_ok m'.
Proof.
  intros Hok. pose proof Hok as (Hm & Hs & Ht). unfold put.
  destruct (m_state m) eqn:Hst; [by intros [= <- <- <-]| |].
  - destruct (m_main m) as [main|] eqn:Em; [|by intros [= <- <- <-]].
    destruct (table_get_or_create_entry hash main key a) as [[res main1] a1] eqn:Eg.
    pose proof (table_ok_goc _ _ _ _ _ _ Eg Hm) as Hm1.
    intros Hput.
    match type of Hput with
    | (match ?att with _ => _ end) = _ =>
        destruct att as [[rval main2] a2] eqn:Eatt
    end.
    assert (Hm2 : table_ok main2).
    { repeat case_match; simplify_eq;
        auto using table_ok_set_entry, table_ok_set_bucket. }
    revert Hput. apply resize_check_ok; [|done]. unfold map_ok, with_main. simpl.
    split_and!; [done|done|congruence].
  - destruct (m_main m) as [main|] eqn:Em; [|by intros [= <- <- <-]].
    destruct (m_secondary m) as [sec|] eqn:Es; [|by intros [= <- <- <-]].
    destruct (table_get_or_create_entry hash sec key a) as [[res sec1] a1] eqn:Eg.
    pose proof (table_ok_goc _ _ _ _ _ _ Eg Hs) as Hs1.
    intros Hput.
    match type of Hput with
    | (match ?att with _ => _ end) = _ =>
        destruct att as [[[rval main2] sec2] a2] eqn:Eatt
    end.
    assert (Hms : table_ok main2 ∧ table_ok sec2).
    { repeat case_match; simplify_eq; split;
        auto using table_ok_set_entry, table_ok_set_bucket. }
    revert Hput. apply transfer_step_ok. unfold map_ok. simpl.
    destruct Hms. eauto.
Qed.

Lemma drain_ok fuel :
  ∀ (m : unordered_map) a ok m1 a1,
  map_ok m → drain hash fuel m a = Some (ok, m1, a1) →
  map_ok m1 ∧ m_state m1 = m_state m.
Proof.
  induction fuel as [|fuel IH]; intros m a ok m1 a1 Hok; rewrite drain_unfold;
    destruct (is_transfer_complete m); try (by intros [= <- <- <-]); try done.
  destruct (perform_partial_transfer hash m a) as [[ok2 m2] a2] eqn:Ep.
  destruct (perform_partial_transfer_ok _ _ _ _ _ Hok Ep) as [Hok2 Hst2].
  destruct ok2; [|by intros [= <- <- <-]].
  intros Hd. apply IH in Hd as [? ?]; [|done]. split; [done|congruence].
Qed.

Lemma finish_transfer_ok (m m' : unordered_map) ok a rv a' :
  map_ok m → finish_transfer (Some (ok, m, a)) = Some (rv, m', a') →
  map_ok m' ∧ (m_state m' = m_state m ∨ m_state m' = STABLE).
Proof.
  intros Hok. pose proof Hok as (Hm & Hs & Ht). unfold finish_transfer.
  destruct ok; intros [= <- <- <-]; [|split; [done|by left]].
  split; [|by right]. unfold map_ok, end_resize. simpl. done.
Qed.

Lemma finalize_ok fuel (m m' : unordered_map) a r a' :
  map_ok m → finalize hash fuel m a = Some (r, m', a') → map_ok m'.
Proof.
  intros Hok. unfold finalize.
  destruct (m_state m); [by intros [= <- <- <-]..|].
  destruct (drain hash fuel m a) as [[[ok m1] a1]|] eqn:Ed; [|done].
  destruct (drain_ok _ _ _ _ _ _ Hok Ed) as [Hok1 _].
  intros Hf. by destruct (finish_transfer_ok _ _ _ _ _ _ Hok1 Hf).
Qed.

Lemma reserve_ok fuel (m m' : unordered_map) n a r a' :
  map_ok m → reserve hash fuel m n a = Some (r, m', a') → map_ok m'.
Proof.
  intros Hok. unfold reserve.
  destruct (m_state m) eqn:Hst; [by intros [= <- <- <-]| |];
    (destruct (n =? 0)%Z; [by intros [= <- <- <-]|]);
    (destruct (find_power 32 0 n) as [p|]; [|by intros [= <- <- <-]]).
  - destruct (m_main m) as [main|] eqn:Em; [|by intros [= <- <- <-]].
    destruct (p <=? m_power_of_2_size main)%nat; [by intros [= <- <- <-]|].
    destruct (begin_resize m p a) as [[okb m2] a2] eqn:Eb.
    destruct (begin_resize_ok _ _ _ _ _ _ Hok Hst ltac:(by rewrite Em) Eb) as [Hok2 Hf2].
    destruct okb; simpl.
    2:{ intros [= <- <- <-]. destruct Hok2 as (? & ? & ?). unfold map_ok. simpl. done. }
    destruct (drain hash fuel m2 a2) as [[[ok m3] a3]|] eqn:Ed; [|done].
    destruct (drain_ok _ _ _ _ _ _ Hok2 Ed) as [Hok3 _].
    intros Hf. by destruct (finish_transfer_ok _ _ _ _ _ _ Hok3 Hf).
  - destruct (drain hash fuel m a) as [[[ok m1] a1]|] eqn:Ed; [|done].
    destruct (drain_ok _ _ _ _ _ _ Hok Ed) as [Hok1 Hst1].
    destruct (finish_transfer (Some (ok, m1, a1))) as [[[rv m2] a2]|] eqn:Ef; [|done].
    destruct (finish_transfer_ok _ _ _ _ _ _ Hok1 Ef) as [Hok2 Hst2].
    destruct rv; [|by intros [= <- <- <-]].
    assert (Hst2' : m_state m2 = STABLE).
    { revert Ef. unfold finish_transfer. destruct ok; [|done]. by intros [= <- <-]. }
    destruct (m_main m2) as [main|] eqn:Em; [|by intros [= <- <- <-]].
    destruct (p <=? m_power_of_2_size main)%nat; [by intros [= <- <- <-]|].
    destruct (begin_resize m2 p a2) as [[okb m3] a3] eqn:Eb.
    destruct (begin_resize_ok _ _ _ _ _ _ Hok2 Hst2' ltac:(by rewrite Em) Eb) as [Hok3 _].
    destruct okb; simpl.
    2:{ intros [= <- <- <-]. destruct Hok3 as (? & ? & ?). unfold map_ok. simpl. done. }
    destruct (drain hash fuel m3 a3) as [[[ok' m4] a4]|] eqn:Ed'; [|done].
    destruct (drain_ok _ _ _ _ _ _ Hok3 Ed') as [Hok4 _].
    intros Hf. by destruct (finish_transfer_ok _ _ _ _ _ _ Hok4 Hf).
Qed.


Lemma delete_all_keys_ok fuel (m m' : unordered_map) a a' :
  map_ok m → delete_all_keys hash fuel m a = Some (m', a') → map_ok m'.
Proof.
  intros Hok. pose proof Hok as (Hm & Hs & Ht). unfold delete_all_keys.
  destruct (m_state m) eqn:Hst; [by intros [= <- <-]| |].
  - destruct (m_main m) as [main|] eqn:Em; [|by intros [= <- <-]].
    intros [= <- <-]. unfold map_ok, with_main. simpl.
    split_and!; [by apply table_ok_delete_all|done|congruence].
  - destruct (m_main m) as [main|] eqn:Em; [|by intros [= <- <-]].
    destruct (m_secondary m) as [sec|] eqn:Es; [|by intros [= <- <-]].
    destruct (finalize _ _ _ _) as [[[r m2] a2]|] eqn:Ef; [|done].
    intros [= <- <-]. apply (finalize_ok _ _ _ _ _ _) in Ef; [done|].
    unfold map_ok. simpl. split_and!; [by apply table_ok_delete_all..|]. eauto.
Qed.

Lemma do_call_ok (moved_from : Key → Key) fuel (c : call) (m m' : unordered_map) a r a' :
  map_ok m → do_call hash moved_from fuel c m a = Some (r, m', a') → map_ok m'.
Proof.
  intros Hok. destruct c; simpl.
  - destruct (get hash m key a) as [[r0 m0] a0] eqn:E. intros [= <- <- <-].
    by eapply get_ok.
  - by intros [= <- <- <-].
  - destruct (put hash moved_from m key val a) as [[r0 m0] a0] eqn:E. intros [= <- <- <-].
    by eapply put_ok.
  - destruct (del hash m key a) as [[r0 m0] a0] eqn:E. intros [= <- <- <-].
    by eapply del_ok.
  - destruct (reserve _ _ _ _ _) as [[[r0 m0] a0]|] eqn:E; [|done]. intros [= <- <- <-].
    by eapply reserve_ok.
  - destruct (finalize _ _ _ _) as [[[r0 m0] a0]|] eqn:E; [|done]. intros [= <- <- <-].
    by eapply finalize_ok.
  - destruct (delete_all_keys _ _ _ _) as [[m0 a0]|] eqn:E; [|done]. intros [= <- <- <-].
    by eapply delete_all_keys_ok.
  - by intros [= <- <- <-].
  - by intros [= <- <- <-].
Qed.

Lemma do_calls_ok (moved_from : Key → Key) fuel (cs : list call) :
  ∀ (m m' : unordered_map) a tr a',
  map_ok m → do_calls hash moved_from fuel cs m a = Some (tr, m', a') → map_ok m'.
Proof.
  induction cs as [|c cs IH]; intros m m' a tr a' Hok; simpl.
  - by intros [= <- <- <-].
  - destruct (do_call hash moved_from fuel c m a) as [[[r m1] a1]|] eqn:Ec; [|done].
    pose proof (do_call_ok _ _ _ _ _ _ _ _ Hok Ec) as Hok1.
    destruct (do_calls hash moved_from fuel cs m1 a1) as [[[rs m2] a2]|] eqn:Ecs; [|done].
    intros [= <- <- <-]. by eapply IH.
Qed.

Lemma new_map_ok pct a : map_ok (new_map (Key := Key) (T := T) pct a).1.
Proof.
  unfold new_map. destruct (Alloc.allocate a) as [ok a1]. destruct ok.
  - destruct (new_table 4 a1) as [t a2] eqn:En.
    pose proof (table_ok_new _ _ _ _ En). unfold map_ok, compute_state. simpl. done.
  - unfold map_ok, compute_state. simpl. done.
Qed.

(** Every map that a program gets from the constructor has its buckets, its
    counters in range and, in the TRANSFER state, both its tables. *)
Lemma reachable_map_ok (moved_from : Key → Key) pct a0 fuel (cs : list call) tr
    (m : unordered_map) a :
  do_calls hash moved_from fuel cs (new_map pct a0).1 (new_map (Key := Key) (T := T) pct a0).2
    = Some (tr, m, a) →
  map_ok m.
Proof. apply do_calls_ok, new_map_ok. Qed.

(** *** [delete_all_keys] *)

Lemma delete_all_keys_spec fuel (m : unordered_map) a :
  map_ok m →
  ∃ m', delete_all_keys hash fuel m a = Some (m', a) ∧
        (∀ k, peek hash m' k = None) ∧
        mass m' = 0%Z ∧
        m_state m' = (if is_error (m_state m) then ERROR else STABLE) ∧
        get_num_buckets m' = get_num_buckets m ∧
        m_locked m' = m_locked m.
Proof.
  intros (_ & _ & Ht). unfold delete_all_keys.
  destruct (m_state m) eqn:Hst.
  - exists m. split_and!; try done.
    + intros k. unfold peek. by rewrite Hst.
    + unfold mass. by rewrite Hst.
  - destruct (m_main m) as [main|] eqn:Hm.
    + eexists. split; [done|]. split_and!.
      * intros k. unfold peek. simpl. rewrite Hst.
        apply (table_get_empty hash). intros j. apply table_delete_all_ents.
      * unfold mass. simpl. by rewrite Hst.
      * done.
      * unfold get_num_buckets. simpl. by rewrite Hst, Hm.
      * done.
    + exists m. rewrite Hst. split_and!; try done.
      * intros k. unfold peek. by rewrite Hst, Hm.
      * unfold mass. by rewrite Hst, Hm.
  - destruct (Ht eq_refl) as [[main Hm] [sec Hsec]].
    rewrite Hm, Hsec.
    set (m1 := with_secondary (with_main m (table_delete_all_entries main))
                              (Some (table_delete_all_entries sec))).
    assert (Hfin : finalize hash fuel m1 a = Some (true, end_resize m1, a)).
    { unfold finalize. simpl. rewrite Hst. rewrite drain_unfold.
      unfold is_transfer_complete. simpl. done. }
    rewrite Hfin. eexists. split; [done|]. split_and!.
    + intros k. unfold peek. simpl.
      apply (table_get_empty hash). intros j. apply table_delete_all_ents.
    + done.
    + done.
    + unfold get_num_buckets. simpl. by rewrite Hst, Hsec.
    + done.
Qed.

(** X16: on every map that a program has got from the constructor, whatever
    a move leaves in a key, [delete_all_keys] always returns, makes no
    allocation and leaves no key with a value.  The entry counters are back
    at 0, the number of buckets and the size lock are as before, and a map
    that was not in the ERROR state is STABLE afterwards: a transfer under
    way is completed by the call. *)
Theorem delete_all_keys_empties (moved_from : Key → Key) pct a0 fuel (cs : list call) tr
    (m : unordered_map) a fuel1 a1 :
  do_calls hash moved_from fuel cs (new_map pct a0).1 (new_map (Key := Key) (T := T) pct a0).2
    = Some (tr, m, a) →
  ∃ m', delete_all_keys hash fuel1 m a1 = Some (m', a1) ∧
        (∀ k, peek hash m' k = None) ∧
        (∀ k a2, (get hash m' k a2).1.1 = None) ∧
        mass m' = 0%Z ∧
        m_state m' = (if is_error (m_state m) then ERROR else STABLE) ∧
        get_num_buckets m' = get_num_buckets m ∧
        m_locked m' = m_locked m.
Proof.
  intros Hrun.
  pose proof (reachable_map_ok moved_from pct a0 fuel cs tr m a Hrun) as Hok.
  destruct (delete_all_keys_spec fuel1 m a1 Hok) as (m' & Hd & Hpk & Hm & Hst & Hn & Hl).
  exists m'. split_and!; try done.
  intros k a2. specialize (Hpk k). revert Hpk. unfold peek, get, resize_check.
  destruct (m_state m'); [done| |destruct (m_state m); done].
  destruct (m_main m') as [main|]; [|done].
  intros ->. destruct (should_resize m' main); [|done].
  by destruct (begin_resize _ _ _) as [[[] ?] ?].
Qed.

(** *** A locked table *)

Lemma table_del_shape (t t' : Table) key r :
  table_del hash t key = (r, t') → shape t' = shape t.
Proof.
  unfold table_del. intros Hd. repeat case_match; simplify_eq; done.
Qed.

Lemma resize_check_locked {R} (failure rval : R) (m0 : unordered_map) a0 :
  m_locked m0 = true → resize_check failure rval m0 a0 = (rval, m0, a0).
Proof.
  intros Hl0. unfold resize_check, should_resize. rewrite Hl0. by destruct (m_main m0).
Qed.

Lemma get_locked (m m' : unordered_map) key a r a' :
  m_locked m = true → m_state m = STABLE →
  get hash m key a = (r, m', a') → m' = m.
Proof.
  intros Hl Hst. unfold get. rewrite Hst.
  destruct (m_main m) as [main|] eqn:Hm.
  - rewrite resize_check_locked by done. congruence.
  - congruence.
Qed.

Lemma put_locked (moved_from : Key → Key) (m m' : unordered_map) key val a r a' :
  m_locked m = true → m_state m = STABLE →
  put hash moved_from m key val a = (r, m', a') →
  m_state m' = STABLE ∧ m_locked m' = true ∧ get_num_buckets m' = get_num_buckets m.
Proof.
  intros Hl Hst Hput. unfold put in Hput. rewrite Hst in Hput.
  destruct (m_main m) as [main|] eqn:Hm.
  2:{ by simplify_eq. }
  destruct (table_get_or_create_entry hash main key a) as [[res main1] a1] eqn:Eg.
  pose proof (goc_shape hash _ _ _ _ _ _ Eg) as Hs1.
  match type of Hput with
  | (match ?att with _ => _ end) = _ =>
      destruct att as [[rval main2] a2] eqn:Eatt
  end.
  assert (Hs2 : shape main2 = shape main).
  { rewrite <- Hs1. repeat case_match; simplify_eq; done. }
  rewrite resize_check_locked in Hput by done.
  injection Hput as <- <- <-. simpl. split_and!; auto.
  unfold get_num_buckets. simpl. rewrite Hst, Hm. simpl.
  unfold shape in Hs2. congruence.
Qed.

Lemma del_locked (m m' : unordered_map) key a r a' :
  m_locked m = true → m_state m = STABLE →
  del hash m key a = (r, m', a') →
  m_state m' = STABLE ∧ m_locked m' = true ∧ get_num_buckets m' = get_num_buckets m.
Proof.
  intros Hl Hst Hdel. unfold del in Hdel. rewrite Hst in Hdel.
  destruct (m_main m) as [main|] eqn:Hm.
  2:{ by simplify_eq. }
  destruct (table_del hash main key) as [rval main1] eqn:Ed.
  pose proof (table_del_shape _ _ _ _ Ed) as Hs1.
  rewrite resize_check_locked in Hdel by done.
  injection Hdel as <- <- <-. simpl. split_and!; auto.
  unfold get_num_buckets. simpl. rewrite Hst, Hm. simpl.
  unfold shape in Hs1. congruence.
Qed.

Lemma locked_call (moved_from : Key → Key) fuel (c : call) (m : unordered_map) a :
  key_call c = true → m_locked m = true → m_state m = STABLE →
  ∃ r m' a', do_call hash moved_from fuel c m a = Some (r, m', a') ∧
    m_state m' = STABLE ∧ m_locked m' = true ∧
    get_num_buckets m' = get_num_buckets m.
Proof.
  intros Hc Hl Hst.
  destruct c; try done; simpl.
  - destruct (get hash m key a) as [[r m'] a'] eqn:E.
    apply get_locked in E as ->; try done. by eexists _, _, _.
  - by eexists _, _, _.
  - destruct (put hash moved_from m key val a) as [[r m'] a'] eqn:E.
    apply put_locked in E; try done. by eexists _, _, _.
  - destruct (del hash m key a) as [[r m'] a'] eqn:E.
    apply del_locked in E; try done. by eexists _, _, _.
Qed.

(** X17: while the table size is locked, the calls that work on one key
    ([get], [contains], [put], [del]) never start a resize: from a STABLE
    map with the lock set, any sequence of such calls runs to its end with
    every call leaving the map STABLE, the lock set and the number of
    buckets unchanged, whatever a move leaves in a key. *)
Theorem locked_map_keeps_size (moved_from : Key → Key) fuel (cs : list call)
    (m : unordered_map) a :
  forallb key_call cs = true → m_locked m = true → m_state m = STABLE →
  ∃ tr m' a', do_calls hash moved_from fuel cs m a = Some (tr, m', a') ∧
    length tr = length cs ∧
    Forall (λ x, x.2 = STABLE) tr ∧
    m_state m' = STABLE ∧ m_locked m' = true ∧
    get_num_buckets m' = get_num_buckets m.
Proof.
  revert m a. induction cs as [|c cs IH]; intros m a Hk Hl Hst; simpl.
  - by eexists _, _, _.
  - simpl in Hk. apply andb_true_iff in Hk as [Hc Hcs].
    destruct (locked_call moved_from fuel c m a Hc Hl Hst) as (r & m1 & a1 & -> & Hst1 & Hl1 & Hn1).
    destruct (IH m1 a1 Hcs Hl1 Hst1) as (tr & m' & a' & -> & Hlen & Hall & Hst' & Hl' & Hn').
    eexists _, _, _. split; [done|]. simpl. split_and!; try done.
    + by rewrite Hlen.
    + by constructor.
    + congruence.
Qed.

(** X18: [approx_buckets_needed(n)] buckets are enough for fewer than [n]
    keys: when the load factor in percent is positive and fits 32 bits and
    [n * 100] does not overflow, a table with at least
    [approx_buckets_needed(n)] buckets whose entry counter is below [n] is
    not due for a resize. *)
Theorem approx_buckets_needed_suffice (m : unordered_map) (main : Table) n :
  (0 < m_max_load_factor_percent m < 2 ^ 32)%Z →
  (0 <= n)%Z → (n * 100 < 2 ^ 32)%Z →
  (approx_buckets_needed m n <= Z.of_nat (m_num_buckets main) < 2 ^ 32)%Z →
  (m_total_entries main < n)%Z →
  should_resize m main = false.
Proof.
  intros Hp Hn0 Hn Hb Hc. unfold should_resize.
  destruct (m_locked m); [done|].
  set (pct := m_max_load_factor_percent m) in *.
  set (nb := Z.of_nat (m_num_buckets main)) in *.
  unfold approx_buckets_needed in Hb. fold pct in Hb.
  unfold U32.add, U32.mul, U32.wrap in Hb.
  change U32.modulus with (2 ^ 32)%Z in Hb.
  rewrite (Z.mod_small (n * 100)), (Z.mod_small pct) in Hb by lia.
  assert (Hq : (0 <= n * 100 / pct <= n * 100)%Z).
  { split; [apply Z.div_pos; lia|]. apply Z.div_le_upper_bound; [lia|]. nia. }
  rewrite Z.mod_small in Hb by lia.
  pose proof (Z.mod_pos_bound (n * 100) pct ltac:(lia)) as Hmod.
  pose proof (Z.div_mod (n * 100) pct ltac:(lia)) as Hdm.
  assert (Hprod : (n * 100 < pct * nb)%Z) by nia.
  unfold SizeT.mul, SizeT.wrap. change SizeT.modulus with (2 ^ 64)%Z.
  rewrite Z.mod_small by nia.
  rewrite Z.geb_leb. apply Z.leb_gt.
  assert (n <= pct * nb / 100)%Z; [|lia].
  apply Z.div_le_lower_bound; lia.
Qed.


(** *** [reserve] returns when the entry counter is exact *)

Lemma transfer_entries_budget (es_rev : list Entry) :
  ∀ budget total (sec : Table) a status rest budget' total' sec' a',
  transfer_entries hash es_rev budget total sec a
    = (status, rest, budget', total', sec', a') →
  match status with
  | BucketDrained => rest = [] ∧ (budget' + length es_rev = budget)%nat
  | BudgetSpent => (length rest + budget = length es_rev)%nat
  | TransferFailed => True
  end.
Proof.
  induction es_rev as [|e es IH];
    intros budget total sec a status rest budget' total' sec' a'; simpl.
  { intros [= <- <- <- <- <- <-]. split; [done|lia]. }
  destruct budget as [|budget].
  { intros [= <- <- <- <- <- <-]. simpl. lia. }
  destruct (table_get_or_create_entry hash sec (m_key e) a) as [[res sec1] a1].
  destruct (entry res); [destruct (bucket res)|].
  2,3: by intros [= <- <- <- <- <- <-].
  intros Ht. apply IH in Ht. destruct status; [|lia|done].
  destruct Ht as [-> Ht]. split; [done|lia].
Qed.

(** The counter of main goes down by one for each entry taken out. *)
Lemma transfer_entries_count (es_rev : list Entry) :
  ∀ budget total (sec : Table) a status rest budget' total' sec' a',
  (Z.of_nat (length es_rev) <= total < SizeT.modulus)%Z →
  transfer_entries hash es_rev budget total sec a
    = (status, rest, budget', total', sec', a') →
  (length rest <= length es_rev)%nat ∧
  total' = (total - (Z.of_nat (length es_rev) - Z.of_nat (length rest)))%Z.
Proof.
  induction es_rev as [|e es IH];
    intros budget total sec a status rest budget' total' sec' a' Htot; simpl.
  { intros [= <- <- <- <- <- <-]. split; [done|simpl; lia]. }
  destruct budget as [|budget].
  { intros [= <- <- <- <- <- <-]. split; [done|simpl; lia]. }
  destruct (table_get_or_create_entry hash sec (m_key e) a) as [[res sec1] a1].
  simpl in Htot.
  assert (Hsub : (SizeT.sub total 1 = total - 1)%Z).
  { unfold SizeT.sub, SizeT.wrap. apply Z.mod_small. lia. }
  destruct (entry res); [destruct (bucket res)|].
  2,3: intros [= <- <- <- <- <- <-]; split; [done|simpl; lia].
  rewrite Hsub. intros Ht. apply IH in Ht as [Hlen ->]; [|lia].
  split; [simpl; lia|]. simpl length. lia.
Qed.

Lemma transfer_buckets_progress n :
  ∀ c budget (main sec : Table) a c' main' sec' a',
  table_ok main →
  (c + n = m_num_buckets main)%nat →
  m_total_entries main = Z.of_nat (entry_count main) →
  (∀ i, (i < c)%nat → ents main i = []) →
  transfer_buckets hash n c budget main sec a = (true, c', main', sec', a') →
  table_ok main' ∧ m_num_buckets main' = m_num_buckets main ∧
  (c' <= m_num_buckets main)%nat ∧
  m_total_entries main' = Z.of_nat (entry_count main') ∧
  (∀ i, (i < c')%nat → ents main' i = []) ∧
  (m_total_entries main' = 0 ∨
   m_total_entries main' + Z.of_nat budget = m_total_entries main)%Z.
Proof.
  induction n as [|n IH];
    intros c budget main sec a c' main' sec' a' Hok Hc Hex Hemp; simpl.
  { intros [= <- <- <- <-]. split_and!; [done|done|lia|done|done|left].
    rewrite Hex, entry_count_empty; [done|].
    intros j. destruct (decide (j < c)%nat) as [Hlt|Hge]; [by apply Hemp|].
    apply ents_out_of_range. rewrite (proj1 Hok). lia. }
  set (b := bucket_at main c).
  destruct (transfer_entries hash (reverse (Vector.items b)) budget (m_total_entries main) sec a)
    as [[[[[status rest] budget'] total'] sec1] a1] eqn:Et.
  set (main1 := set_total_entries
                  (set_bucket main c (Vector.Mk (reverse rest) (Vector.capacity b))) total').
  intros Hrec.
  destruct Hok as [Hs Hrange].
  pose proof (ents_length_le main c) as Hle.
  assert (Hclt : (c < length (Vector.items (m_buckets main)))%nat).
  { rewrite Hs. lia. }
  assert (Hlenb : length (reverse (Vector.items b)) = length (ents main c)).
  { by rewrite length_reverse. }
  assert (Hb2 : (Z.of_nat (length (reverse (Vector.items b)))
                 <= m_total_entries main < SizeT.modulus)%Z).
  { rewrite Hlenb. lia. }
  destruct (transfer_entries_count _ _ _ _ _ _ _ _ _ _ _ Hb2 Et) as (Hlen & Htot').
  pose proof (transfer_entries_budget _ _ _ _ _ _ _ _ _ _ _ Et) as Hbud.
  rewrite Hlenb in Hlen, Htot', Hbud.
  assert (Hents1 : ∀ j, ents main1 j = if decide (j = c) then reverse rest else ents main j).
  { intros j. unfold main1. rewrite ents_set_total, ents_set_bucket.
    case_decide as Hd.
    - destruct Hd as [<- _]. by rewrite decide_True.
    - rewrite decide_False; [done|]. naive_solver. }
  assert (Hec : (entry_count main1 + length (ents main c)
                 = entry_count main + length rest)%nat).
  { pose proof (entry_count_set_bucket main c
                  (Vector.Mk (reverse rest) (Vector.capacity b)) Hclt) as Hec.
    simpl in Hec. rewrite length_reverse in Hec. exact Hec. }
  assert (Htot1 : m_total_entries main1 = total') by done.
  assert (Hnb1 : m_num_buckets main1 = m_num_buckets main) by done.
  assert (Hex1 : m_total_entries main1 = Z.of_nat (entry_count main1)).
  { rewrite Htot1, Htot'. lia. }
  assert (Hok1 : table_ok main1).
  { split; [by apply structured_set_bucket|]. rewrite Htot1, Htot'. lia. }
  destruct status.
  - destruct Hbud as [-> Hbud].
    assert (Hemp1 : ∀ i, (i < S c)%nat → ents main1 i = []).
    { intros i Hi. rewrite Hents1. case_decide; [done|]. apply Hemp. lia. }
    assert (Hc1 : (S c + n = m_num_buckets main1)%nat) by (rewrite Hnb1; lia).
    destruct (IH (S c) budget' main1 sec1 a1 c' main' sec' a' Hok1 Hc1 Hex1 Hemp1 Hrec)
      as (Hok' & Hnb' & Hc' & Hex' & Hemp' & Hprog).
    split_and!; [done|congruence|lia|done|done|].
    destruct Hprog as [Hzero|Hprog]; [by left|right].
    rewrite Htot1, Htot' in Hprog. simpl in Hprog. lia.
  - injection Hrec as <- <- <- <-.
    split_and!; [done|done|lia|done| |right].
    + intros i Hi. rewrite Hents1. case_decide; [lia|]. by apply Hemp.
    + rewrite Htot1, Htot'. lia.
  - done.
Qed.

Lemma drain_returns fuel :
  ∀ (m : unordered_map) a main,
  m_main m = Some main → table_ok main →
  (m_current_bucket_to_transfer m <= m_num_buckets main)%nat →
  m_total_entries main = Z.of_nat (entry_count main) →
  (∀ i, (i < m_current_bucket_to_transfer m)%nat → ents main i = []) →
  (m_total_entries main <= 512 * Z.of_nat fuel)%Z →
  ∃ ok m1 a1, drain hash fuel m a = Some (ok, m1, a1).
Proof.
  induction fuel as [|fuel IH]; intros m a main Hm Hok Hc Hex Hemp Hfuel;
    rewrite drain_unfold; unfold is_transfer_complete; rewrite Hm;
    destruct (Z.eqb_spec (m_total_entries main) 0) as [Hz|Hnz]; try by eexists _, _, _.
  { lia. }
  unfold perform_partial_transfer. rewrite Hm.
  destruct (m_secondary m) as [sec|]; [|by eexists _, _, _].
  destruct (transfer_buckets _ _ _ _ _ _ _) as [[[[okb cb] mainb] secb] ab] eqn:Et.
  destruct okb; [|by eexists _, _, _].
  assert (Hcn : (m_current_bucket_to_transfer m
                 + (m_num_buckets main - m_current_bucket_to_transfer m)
                 = m_num_buckets main)%nat) by lia.
  destruct (transfer_buckets_progress _ _ _ _ _ _ _ _ _ _ Hok Hcn Hex Hemp Et)
    as (Hokb & Hnbb & Hcb & Hexb & Hempb & Hprog).
  apply (IH _ ab mainb); simpl; try done; lia.
Qed.

Lemma reserve_returns_ok fuel (m : unordered_map) n a main :
  m_state m = STABLE → m_main m = Some main → table_ok main →
  exact_count main = true →
  (m_total_entries main <= 512 * Z.of_nat fuel)%Z →
  ∃ r m' a', reserve hash fuel m n a = Some (r, m', a').
Proof.
  intros Hst Hm Hok Hex Hfuel. unfold reserve. rewrite Hst.
  destruct (n =? 0)%Z; [by eexists _, _, _|].
  destruct (find_power 32 0 n) as [p|]; [|by eexists _, _, _].
  rewrite Hm.
  destruct (p <=? m_power_of_2_size main)%nat; [by eexists _, _, _|].
  destruct (begin_resize m p a) as [[ok m2] a2] eqn:Eb.
  destruct ok; simpl; [|by eexists _, _, _].
  assert (Hm2 : m_main m2 = Some main ∧ m_current_bucket_to_transfer m2 = 0%nat).
  { revert Eb. unfold begin_resize.
    destruct (Alloc.allocate a) as [ok1 a0]. destruct ok1; simpl; [|done].
    destruct (new_table _ a0) as [sec a3].
    destruct (_ =? _)%Z; simpl; [|done].
    intros [= <- <-]. done. }
  destruct Hm2 as [Hm2 Hc2].
  apply Z.eqb_eq in Hex.
  destruct (drain_returns fuel m2 a2 main Hm2 Hok ltac:(lia) Hex
              ltac:(rewrite Hc2; lia) Hfuel) as (ok & m3 & a3 & ->).
  destruct ok; by eexists _, _, _.
Qed.

(** X19: [reserve] returns when the entry counter is right.  On every map
    that a program has got from the constructor, whatever a move leaves in a
    key, which is STABLE and whose entry counter is the number of entries in
    its chains, [reserve(n)] ends for every [n], with one round of the
    transfer loop for each 512 entries at the most. *)
Theorem reserve_returns (moved_from : Key → Key) pct a0 fuel (cs : list call) tr
    (m : unordered_map) a fuel1 n a1 main :
  do_calls hash moved_from fuel cs (new_map pct a0).1 (new_map (Key := Key) (T := T) pct a0).2
    = Some (tr, m, a) →
  m_state m = STABLE → m_main m = Some main →
  exact_count main = true →
  (m_total_entries main <= 512 * Z.of_nat fuel1)%Z →
  ∃ r m' a', reserve hash fuel1 m n a1 = Some (r, m', a').
Proof.
  intros Hrun Hst Hm Hex Hfuel.
  destruct (reachable_map_ok moved_from pct a0 fuel cs tr m a Hrun) as (Hok & _ & _).
  rewrite Hm in Hok. by apply (reserve_returns_ok fuel1 m n a1 main).
Qed.

End MapAnyKey.


(** ** Hash map: runs on concrete maps *)

Section MapScenarioFacts.
Import Map MapScenario.
Local Open Scope Z_scope.

#[local] Existing Instance has_key_dec.

(** C10 (as stated) fails: with 85 keys stored and the resize under way, a
    [put] of a new key for which the allocator refuses two requests returns
    false and latches the ERROR state, and key 0, which [get] found before,
    is no longer found. *)
Lemma failed_put_error_counterexample :
  m_state m85 = TRANSFER ∧
  (get h m85 0 []).1.1 = Some 1 ∧
  (put h moved_u32 m85 85 86 [false; false]).1.1 = false ∧
  m_state (put h moved_u32 m85 85 86 [false; false]).1.2 = ERROR ∧
  (get h (put h moved_u32 m85 85 86 [false; false]).1.2 0 []).1.1 = None.
Proof. vm_compute. done. Qed.

(** A move leaves a [uint32_t] key as it is. *)
Lemma moved_u32_keeps : ∀ k, moved_u32 k = k.
Proof. done. Qed.

(** The same map and key with one request refused: the [put] returns false,
    the transfer completes, and nothing stored is lost. *)
Lemma failed_put_keeps_values_witness :
  let m' := (put h moved_u32 m85 85 86 [false]).1.2 in
  (∀ k, moved_u32 k = k) ∧
  Z.of_nat (length (puts (keys 85))) < SizeT.modulus ∧
  do_calls h moved_u32 0 (puts (keys 85)) (new_map 500 []).1 (new_map (Key := Z) (T := Z) 500 []).2
    = Some (replicate 84 (RBool true, STABLE) ++ [(RBool true, TRANSFER)], m85, []) ∧
  (put h moved_u32 m85 85 86 [false]).1.1 = false ∧
  m_state m' = STABLE ∧
  (∀ k, peek h m' k = peek h m85 k) ∧
  (∀ k a1 a2,
      m_state (get h m' k a1).1.2 ≠ ERROR →
      m_state (get h m85 k a2).1.2 ≠ ERROR →
      (get h m' k a1).1.1 = (get h m85 k a2).1.1).
Proof.
  intros m'.
  assert (Hlen : Z.of_nat (length (puts (keys 85))) < SizeT.modulus)
    by (vm_compute; reflexivity).
  assert (Hrun : do_calls h moved_u32 0 (puts (keys 85)) (new_map 500 []).1 (new_map (Key := Z) (T := Z) 500 []).2
                 = Some (replicate 84 (RBool true, STABLE) ++ [(RBool true, TRANSFER)],
                         m85, []))
    by (vm_compute; reflexivity).
  split; [exact moved_u32_keeps|]. split; [exact Hlen|]. split; [exact Hrun|].
  split; [vm_compute; reflexivity|].
  split; [vm_compute; reflexivity|].
  apply (failed_put_keeps_values h moved_u32 500 [] 0 (puts (keys 85)) _ m85 m' [] 85 86
           [false] (put h moved_u32 m85 85 86 [false]).2 moved_u32_keeps Hlen Hrun).
  - vm_compute. reflexivity.
  - vm_compute. discriminate.
Defined.






Lemma del_in_transfer_keeps_reput_value_witness :
  let m := m655_reput in
  let m' := (del h m 363 []).1.2 in
  map_inv h m ∧ m_state m = TRANSFER ∧
  m_main m = Some (table_of (m_main m)) ∧
  m_secondary m = Some (table_of (m_secondary m)) ∧
  in_table h (table_of (m_main m)) 363 ∧
  table_get h (table_of (m_secondary m)) 363 = Some 9999 ∧
  del h m 363 [] = (true, m', []) ∧
  m_state m' ≠ ERROR ∧
  true = true ∧ peek h m' 363 = Some 9999.
Proof.
  intros m m'.
  assert (Hinv : map_inv h m) by (apply map_invb_sound; vm_compute; reflexivity).
  assert (Hst : m_state m = TRANSFER) by (vm_compute; reflexivity).
  assert (Hm : m_main m = Some (table_of (m_main m))) by (vm_compute; reflexivity).
  assert (Hs : m_secondary m = Some (table_of (m_secondary m)))
    by (vm_compute; reflexivity).
  assert (Hin : in_table h (table_of (m_main m)) 363).
  { unfold in_table. apply (find_entry_is_Some h). vm_compute. eexists. reflexivity. }
  assert (Hv : table_get h (table_of (m_secondary m)) 363 = Some 9999)
    by (vm_compute; reflexivity).
  assert (Hdel : del h m 363 [] = (true, m', [])) by (vm_compute; reflexivity).
  assert (Hne : m_state m' ≠ ERROR) by (vm_compute; discriminate).
  split; [exact Hinv|]. split; [exact Hst|]. split; [exact Hm|]. split; [exact Hs|].
  split; [exact Hin|]. split; [exact Hv|]. split; [exact Hdel|]. split; [exact Hne|].
  exact (del_in_transfer_keeps_reput_value h m m' _ _ 363 9999 [] true [] Hinv Hst Hm Hs
           Hin Hv Hdel Hne).
Defined.

(** The map that the failed [put] above left in the ERROR state: every call
    on it fails and leaves it as it is. *)
Lemma error_latches_witness :
  let m := (put h moved_u32 m85 85 86 [false; false]).1.2 in
  m_state m = ERROR ∧
  (get h m 0 [] = (None, m, []) ∧
   contains h m 0 = false ∧
   put h moved_u32 m 0 1 [] = (false, m, []) ∧
   del h m 0 [] = (false, m, []) ∧
   reserve h 0 m 24 [] = Some (false, m, [])) ∧
  ∃ m',
    do_calls h moved_u32 0 [CGet 0; CPut 0 1; CLockTableSize; CDel 0; CReserve 24] m []
      = Some ([(RPtr None, ERROR); (RBool false, ERROR); (RVoid, ERROR);
               (RBool false, ERROR); (RBool false, ERROR)], m', []) ∧
    m_state m' = ERROR.
Proof.
  intros m.
  assert (Hst : m_state m = ERROR) by (vm_compute; reflexivity).
  split; [exact Hst|].
  destruct (error_latches h moved_u32 m Hst) as [Hops Hseq].
  split.
  - destruct (Hops 0 1 24 0%nat []) as (Hg & Hc & Hp & Hd & Hr & _).
    repeat split; assumption.
  - destruct (Hseq 0%nat [CGet 0; CPut 0 1; CLockTableSize; CDel 0; CReserve 24] [])
      as (m' & Hrun & Hst' & _).
    exists m'. split; [exact Hrun | exact Hst'].
Defined.

(** C1 (the code at the failing input): a fresh map with the default load
    factor and an allocator that never fails; [put(k, k + 1)] for k = 0..654
    leaves the map in the TRANSFER state; then [put(363, 9999)] returns true
    in that state, [del(363)] returns true, and the following [get(363)]
    returns the deleted value 9999 instead of null.  All 657 calls before the
    [get] return true and none of the calls enters the ERROR state. *)
Theorem del_in_transfer_leaves_value :
  ∃ tr m a,
    do_calls h moved_u32 0 (puts (keys 655) ++ [CPut 363 9999; CDel 363; CGet 363]) fresh []
      = Some (tr, m, a) ∧
    forallb (λ x, negb (is_error x.2)) tr = true ∧
    fst <$> take 657 tr = replicate 657 (RBool true) ∧
    drop 654 tr = [(RBool true, TRANSFER); (RBool true, TRANSFER);
                   (RBool true, STABLE); (RPtr (Some 9999), STABLE)].
Proof. do 3 eexists. vm_compute. done. Qed.

Lemma drain_complete fuel (m : M) a :
  is_transfer_complete m = true → drain h fuel m a = Some (true, m, a).
Proof. intros Hc. destruct fuel; simpl; by rewrite Hc. Qed.

(** C6 (the code at the failing inputs).  From the default 17 buckets
    [reserve(24)] leaves 37 buckets and a following [reserve(12)] still 37.
    But after a [put] that failed on its value allocation the map is STABLE
    and [reserve(24)] never returns: the loop that completes the transfer
    does not end, however many rounds it is given.  And when an allocation
    fails while [reserve] transfers a stored key, [reserve] returns false
    with the map left in the TRANSFER state, not in ERROR. *)
Theorem reserve_loops_after_failed_put :
  (∀ fuel, ∃ m,
      reserve h fuel fresh 24 [] = Some (true, m, []) ∧
      get_num_buckets fresh = 17%nat ∧ get_num_buckets m = 37%nat ∧
      reserve h fuel m 12 [] = Some (true, m, []))
  ∧ ((put h moved_u32 fresh 7 8 [true; false]).1.1 = false ∧
     m_state after_failed_put = STABLE ∧
     ∀ fuel, reserve h fuel after_failed_put 24 [] = None)
  ∧ (∀ fuel, ∃ m a,
        reserve h (S fuel) one_key 24 [true; true; false] = Some (false, m, a) ∧
        m_state m = TRANSFER).
Proof.
  split_and!.
  - intros fuel.
    destruct (begin_resize fresh 5 []) as [[ok m2] a2] eqn:Hb.
    assert (Hb' := Hb). vm_compute in Hb'. injection Hb' as <- Hm2 <-.
    exists (end_resize m2).
    assert (Hmain : m_main fresh = Some (new_table 4 []).1) by (vm_compute; reflexivity).
    rewrite (reserve_stable_grow h fuel fresh m2 _ 24 5 [] [] eq_refl ltac:(done) eq_refl Hmain
               ltac:(vm_compute; lia) Hb).
    rewrite drain_complete by (rewrite <- Hm2; vm_compute; reflexivity).
    split_and!; [done| vm_compute; reflexivity | rewrite <- Hm2; vm_compute; reflexivity |].
    assert (Hmain2 : m_main (end_resize m2) = m_secondary m2) by done.
    destruct (m_secondary m2) as [sec|] eqn:Hsec; [|rewrite <- Hm2 in Hsec; vm_compute in Hsec; done].
    apply (reserve_stable_keep h fuel _ sec 12 4); [done|done|vm_compute; reflexivity|done|].
    rewrite <- Hm2 in Hsec. vm_compute in Hsec. injection Hsec as <-. vm_compute. lia.
  - vm_compute. reflexivity.
  - vm_compute. reflexivity.
  - intros fuel.
    destruct (begin_resize after_failed_put 5 []) as [[ok m2] a2] eqn:Hb.
    assert (Hb' := Hb). vm_compute in Hb'. injection Hb' as <- Hm2 <-.
    destruct (m_main after_failed_put) as [main|] eqn:Hmain; [|vm_compute in Hmain; done].
    assert (Hmain' := Hmain). vm_compute in Hmain'. injection Hmain' as Hmain'.
    rewrite (reserve_stable_grow h fuel after_failed_put m2 main 24 5 [] [] eq_refl
               ltac:(done) eq_refl Hmain ltac:(rewrite <- Hmain'; vm_compute; lia) Hb).
    destruct fuel as [|fuel].
    + rewrite drain_incomplete_0; [done|]. rewrite <- Hm2. vm_compute. reflexivity.
    + rewrite drain_S.
      replace (is_transfer_complete m2) with false by (rewrite <- Hm2; vm_compute; reflexivity).
      destruct (perform_partial_transfer h m2 []) as [[ok3 m3] a3] eqn:Hp.
      rewrite <- Hm2 in Hp. vm_compute in Hp. injection Hp as <- Hm3 <-.
      destruct (m_main m3) as [main3|] eqn:Hmain3; [|rewrite <- Hm3 in Hmain3; done].
      destruct (m_secondary m3) as [sec3|] eqn:Hsec3; [|rewrite <- Hm3 in Hsec3; done].
      rewrite (drain_past_end h m3 main3 sec3 [] Hmain3 Hsec3); [done| |].
      * rewrite <- Hm3 in Hmain3 |- *. injection Hmain3 as <-. vm_compute. lia.
      * rewrite <- Hm3 in Hmain3. injection Hmain3 as <-. vm_compute. done.
  - intros fuel.
    destruct (begin_resize one_key 5 [true; true; false]) as [[ok m2] a2] eqn:Hb.
    assert (Hb' := Hb). vm_compute in Hb'. injection Hb' as <- Hm2 <-.
    destruct (m_main one_key) as [main|] eqn:Hmain; [|vm_compute in Hmain; done].
    assert (Hmain' := Hmain). vm_compute in Hmain'. injection Hmain' as Hmain'.
    rewrite (reserve_stable_grow h (S fuel) one_key m2 main 24 5 _ _ eq_refl
               ltac:(done) eq_refl Hmain ltac:(rewrite <- Hmain'; vm_compute; lia) Hb).
    rewrite drain_S.
    replace (is_transfer_complete m2) with false by (rewrite <- Hm2; vm_compute; reflexivity).
    destruct (perform_partial_transfer h m2 [false]) as [[ok3 m3] a3] eqn:Hp.
    rewrite <- Hm2 in Hp. vm_compute in Hp. injection Hp as <- Hm3 <-.
    exists m3, []. split; [done|]. by rewrite <- Hm3.
Qed.

(** *** Maps the scenarios reach *)

Lemma m85_run :
  do_calls h moved_u32 0 (puts (keys 85)) (new_map 500 []).1 (new_map (Key := Z) (T := Z) 500 []).2
  = Some (replicate 84 (RBool true, STABLE) ++ [(RBool true, TRANSFER)], m85, []).
Proof. vm_compute. reflexivity. Qed.

Lemma m3_run :
  do_calls h moved_u32 0 (puts (keys 3)) (new_map 500 []).1 (new_map (Key := Z) (T := Z) 500 []).2
  = Some (replicate 3 (RBool true, STABLE), m3, []).
Proof. vm_compute. reflexivity. Qed.

(** With 85 keys stored and the resize under way, [finalize] completes the
    transfer in one round. *)
Lemma finalize_keeps_values_witness :
  let m' := end_resize (perform_partial_transfer h m85 []).1.2 in
  (∀ k, moved_u32 k = k) ∧
  Z.of_nat (length (puts (keys 85))) < SizeT.modulus ∧
  finalize h 1 m85 [] = Some (true, m', []) ∧
  (∀ k, peek h m' k = peek h m85 k) ∧
  get_num_buckets m' = get_num_buckets m85 ∧
  (true = true ↔ m_state m' = STABLE) ∧
  (true = false → m_state m' = m_state m85) ∧
  (m_state m85 ≠ TRANSFER → m' = m85 ∧ [] = ([] : Alloc.t)).
Proof.
  intros m'.
  assert (Hlen : Z.of_nat (length (puts (keys 85))) < SizeT.modulus)
    by (vm_compute; reflexivity).
  assert (Hfin : finalize h 1 m85 [] = Some (true, m', [])) by (vm_compute; reflexivity).
  exact (conj moved_u32_keeps (conj Hlen (conj Hfin
           (finalize_keeps_values h moved_u32 500 [] 0%nat (puts (keys 85)) _ m85 m' []
              1%nat [] true [] moved_u32_keeps Hlen m85_run Hfin)))).
Defined.

(** Three keys on the 17 initial buckets: [reserve(24)] moves them to 37
    buckets. *)
Lemma reserve_grows_keeps_values_witness :
  let m' := end_resize (perform_partial_transfer h (begin_resize m3 5 []).1.2 []).1.2 in
  (∀ k, moved_u32 k = k) ∧
  Z.of_nat (length (puts (keys 3))) < SizeT.modulus ∧
  map_sized m3 ∧
  reserve h 1 m3 24 [] = Some (true, m', []) ∧
  m_state m' ≠ ERROR ∧
  (∀ k, peek h m' k = peek h m3 k) ∧
  m_locked m' = m_locked m3 ∧
  (true = true →
     m_state m' = STABLE ∧ map_sized m' ∧
     24 <= Z.of_nat (get_num_buckets m') ∧
     (get_num_buckets m3 <= get_num_buckets m')%nat) ∧
  (true = false →
     (m' = m3 ∧ (24 = 0 ∨ 2147483659 < 24)) ∨ m_state m' = TRANSFER).
Proof.
  intros m'.
  assert (Hlen : Z.of_nat (length (puts (keys 3))) < SizeT.modulus)
    by (vm_compute; reflexivity).
  assert (Hsz : map_sized m3) by (vm_compute; split; [lia|reflexivity]).
  assert (Hres : reserve h 1 m3 24 [] = Some (true, m', [])) by (vm_compute; reflexivity).
  assert (Hne : m_state m' ≠ ERROR) by (vm_compute; discriminate).
  exact (conj moved_u32_keeps (conj Hlen (conj Hsz (conj Hres (conj Hne
           (reserve_grows_keeps_values h moved_u32 500 [] 0%nat (puts (keys 3)) _ m3 m' []
              1%nat 24 [] true [] moved_u32_keeps Hlen m3_run Hsz Hres Hne)))))).
Defined.

(** With 85 keys stored and the resize under way, [delete_all_keys] leaves
    an empty STABLE map. *)
Lemma delete_all_keys_empties_witness :
  do_calls h moved_u32 0 (puts (keys 85)) (new_map 500 []).1
      (new_map (Key := Z) (T := Z) 500 []).2
    = Some (replicate 84 (RBool true, STABLE) ++ [(RBool true, TRANSFER)], m85, []) ∧
  ∃ m', delete_all_keys h 0 m85 [] = Some (m', []) ∧
        (∀ k, peek h m' k = None) ∧
        (∀ k a2, (get h m' k a2).1.1 = None) ∧
        mass m' = 0 ∧
        m_state m' = (if is_error (m_state m85) then ERROR else STABLE) ∧
        get_num_buckets m' = get_num_buckets m85 ∧
        m_locked m' = m_locked m85.
Proof.
  exact (conj m85_run
           (delete_all_keys_empties h moved_u32 500 [] 0%nat (puts (keys 85)) _ m85 []
              0%nat [] m85_run)).
Defined.

(** A fresh map with the size locked takes 100 keys on its 17 buckets. *)
Lemma locked_map_keeps_size_witness :
  let m := lock_table_size fresh in
  forallb (key_call (Key := Z) (T := Z)) (puts (keys 100)) = true ∧
  m_locked m = true ∧ m_state m = STABLE ∧
  ∃ tr m' a', do_calls h moved_u32 0 (puts (keys 100)) m [] = Some (tr, m', a') ∧
    length tr = length (puts (keys 100)) ∧
    Forall (λ x, x.2 = STABLE) tr ∧
    m_state m' = STABLE ∧ m_locked m' = true ∧
    get_num_buckets m' = get_num_buckets m.
Proof.
  intros m.
  assert (Hk : forallb (key_call (Key := Z) (T := Z)) (puts (keys 100)) = true)
    by (vm_compute; reflexivity).
  assert (Hl : m_locked m = true) by reflexivity.
  assert (Hst : m_state m = STABLE) by (vm_compute; reflexivity).
  exact (conj Hk (conj Hl (conj Hst
           (locked_map_keeps_size h moved_u32 0%nat (puts (keys 100)) m [] Hk Hl Hst)))).
Defined.

(** The default load factor 5.0: 11 buckets for 50 keys, the 17 initial
    buckets are enough. *)
Lemma approx_buckets_needed_suffice_witness :
  let main := table_of (m_main fresh) in
  0 < m_max_load_factor_percent fresh < 2 ^ 32 ∧
  0 <= 50 ∧ 50 * 100 < 2 ^ 32 ∧
  approx_buckets_needed fresh 50 <= Z.of_nat (m_num_buckets main) < 2 ^ 32 ∧
  m_total_entries main < 50 ∧
  should_resize fresh main = false.
Proof.
  intros main.
  assert (Hp : 0 < m_max_load_factor_percent fresh < 2 ^ 32) by (vm_compute; done).
  assert (Hn0 : 0 <= 50) by lia.
  assert (Hn : 50 * 100 < 2 ^ 32) by lia.
  assert (Hb : approx_buckets_needed fresh 50 <= Z.of_nat (m_num_buckets main) < 2 ^ 32)
    by (vm_compute; split; [discriminate|reflexivity]).
  assert (Hc : m_total_entries main < 50) by (vm_compute; reflexivity).
  exact (conj Hp (conj Hn0 (conj Hn (conj Hb (conj Hc
           (approx_buckets_needed_suffice fresh main 50 Hp Hn0 Hn Hb Hc)))))).
Defined.

(** Three keys and an exact counter: [reserve(24)] returns within one round. *)
Lemma reserve_returns_witness :
  let main := table_of (m_main m3) in
  m_state m3 = STABLE ∧ m_main m3 = Some main ∧
  exact_count main = true ∧
  m_total_entries main <= 512 * Z.of_nat 1 ∧
  ∃ r m' a', reserve h 1 m3 24 [] = Some (r, m', a').
Proof.
  intros main.
  assert (Hst : m_state m3 = STABLE) by (vm_compute; reflexivity).
  assert (Hm : m_main m3 = Some main) by (vm_compute; reflexivity).
  assert (Hex : exact_count main = true) by (vm_compute; reflexivity).
  assert (Hf : m_total_entries main <= 512 * Z.of_nat 1) by (vm_compute; discriminate).
  exact (conj Hst (conj Hm (conj Hex (conj Hf
           (reserve_returns h moved_u32 500 [] 0%nat (puts (keys 3)) _ m3 [] 1%nat 24 []
              main m3_run Hst Hm Hex Hf))))).
Defined.

(** *** Keys that a move empties

    With [std::string] keys and the resize under way, a [put] on a key that
    is still in main leaves an entry with the empty key and no value there.
    The transfer carries that entry to the new table first, and the entry of
    the empty string, which comes later, is dropped as already moved: the
    [put] returns true and the value of the empty string is gone.  This is
    why the statements on stored values above ask for a key that a move
    leaves as it is. *)
Lemma string_key_put_loses_value :
  let r := put hash_string moved_string strings85 [7] 999 [] in
  m_state strings85 = TRANSFER ∧
  (get hash_string strings85 [] []).1.1 = Some 1 ∧
  (get hash_string strings85 [7] []).1.1 = Some 2 ∧
  r.1.1 = true ∧ m_state r.1.2 = STABLE ∧
  (get hash_string r.1.2 [7] []).1.1 = Some 999 ∧
  (get hash_string r.1.2 [] []).1.1 = None.
Proof. vm_compute. done. Qed.

End MapScenarioFacts.

(** ** Smart pointers *)

Section MemoryFacts.
Import Memory.
Local Open Scope Z_scope.

Lemma refs_nil b : refs [] b = 0%nat.
Proof. reflexivity. Qed.

Lemma refs_cons h hs b : refs (h :: hs) b = (ind h b + refs hs b)%nat.
Proof.
  unfold refs, ind. rewrite filter_cons.
  destruct (decide (h = Some b)); reflexivity.
Qed.

Lemma refs_le hs b : (refs hs b <= length hs)%nat.
Proof.
  induction hs as [|h hs IH]; [done|].
  rewrite refs_cons. unfold ind. simpl. destruct (decide _); lia.
Qed.

Lemma ind_le h b : (ind h b <= 1)%nat.
Proof. unfold ind. destruct (decide _); lia. Qed.

Lemma ind_Some b b' : ind (Some b) b' = if decide (b = b') then 1%nat else 0%nat.
Proof. unfold ind. repeat destruct (decide _); congruence. Qed.

Lemma ind_None b : ind None b = 0%nat.
Proof. reflexivity. Qed.

Lemma refs_insert hs i old h b :
  hs !! i = Some old →
  (refs (<[i := h]> hs) b + ind old b = refs hs b + ind h b)%nat.
Proof.
  revert i. induction hs as [|x hs IH]; intros [|i]; simpl; try done.
  - intros [= ->]. rewrite !refs_cons. lia.
  - intros Hi. rewrite !refs_cons. specialize (IH i Hi). lia.
Qed.

Lemma refs_lookup hs i h b : hs !! i = Some h → (ind h b <= refs hs b)%nat.
Proof.
  revert i. induction hs as [|x hs IH]; intros [|i]; simpl; try done.
  - intros [= ->]. rewrite refs_cons. lia.
  - intros Hi. rewrite refs_cons. specialize (IH i Hi). lia.
Qed.

Lemma refs_lookup_two hs i j h1 h2 b :
  i ≠ j → hs !! i = Some h1 → hs !! j = Some h2 →
  (ind h1 b + ind h2 b <= refs hs b)%nat.
Proof.
  intros Hij Hi Hj.
  pose proof (refs_insert hs i h1 None b Hi) as H1.
  assert (Hj' : <[i := None]> hs !! j = Some h2) by (by rewrite list_lookup_insert_ne).
  pose proof (refs_lookup _ _ _ b Hj') as H2.
  rewrite ind_None in H1. lia.
Qed.

Lemma refs_elem hs b : (refs hs b ≠ 0)%nat → Some b ∈ hs.
Proof.
  induction hs as [|h hs IH]; [done|].
  rewrite refs_cons. unfold ind. destruct (decide (h = Some b)) as [->|].
  - intros _. apply elem_of_cons. by left.
  - intros Hn. apply elem_of_cons. right. apply IH. lia.
Qed.

Lemma refs_invalid hp hs b : valid hp hs → (length hp <= b)%nat → refs hs b = 0%nat.
Proof.
  intros Hv Hb. destruct (decide (refs hs b = 0%nat)) as [|Hn]; [done|].
  apply refs_elem, Hv in Hn. lia.
Qed.

Lemma valid_insert hp hs i h :
  valid hp hs → (∀ b, h = Some b → (b < length hp)%nat) → valid hp (<[i := h]> hs).
Proof.
  intros Hv Hh b Hin.
  apply list_elem_of_lookup in Hin as [k Hk].
  destruct (decide (k = i)) as [->|Hne].
  - destruct (decide (i < length hs)%nat).
    + rewrite list_lookup_insert_eq in Hk by done. injection Hk as Hk. by apply Hh.
    + rewrite list_insert_ge in Hk by lia. apply Hv. by eapply list_elem_of_lookup_2.
  - rewrite list_lookup_insert_ne in Hk by done. apply Hv. by eapply list_elem_of_lookup_2.
Qed.

Lemma valid_grow hp hp' hs : valid hp hs → (length hp <= length hp')%nat → valid hp' hs.
Proof. intros Hv Hle b Hb. specialize (Hv b Hb). lia. Qed.

Lemma valid_lookup hp hs i b : valid hp hs → hs !! i = Some (Some b) → (b < length hp)%nat.
Proof. intros Hv Hi. apply Hv. by eapply list_elem_of_lookup_2. Qed.


Lemma share_0 : share 0 = 0%nat.
Proof. reflexivity. Qed.

Lemma share_S n : share (S n) = 1%nat.
Proof. reflexivity. Qed.

Lemma share_pos n : (n ≠ 0)%nat → share n = 1%nat.
Proof. destruct n; [done|reflexivity]. Qed.

Lemma consistent_ext hp S S' W W' :
  consistent hp S W → (∀ b, S b = S' b) → (∀ b, W b = W' b) → consistent hp S' W'.
Proof. intros Hc HS HW b c Hb. rewrite <- HS, <- HW. by apply Hc. Qed.

Lemma heap_with_heap st h : heap (with_heap st h) = h.
Proof. reflexivity. Qed.

Ltac u32_small :=
  unfold U32.add, U32.sub, U32.wrap, U32.modulus; rewrite Z.mod_small by lia.

Lemma share_zero n : n = 0%nat → share n = 0%nat.
Proof. by intros ->. Qed.

Ltac share_norm :=
  repeat match goal with
  | |- context [share ?n] =>
    first [rewrite (share_pos n) by lia | rewrite (share_zero n) by lia]
  end.

Ltac blk_simpl :=
  cbn [m_data m_strong_count m_weak_count destroyed deallocated
       dec_strong dec_weak inc_strong inc_weak deinit free_blk fst snd
       negb Nat.eqb Nat.sub] in *.

Ltac blk_goal :=
  constructor; blk_simpl; share_norm; try done; try lia;
  try (u32_small; lia).

(** [dec_strong] on a block with [s + 1] owners and [w] observers. *)
Lemma dec_strong_ok s w c :
  Z.of_nat s + 1 < U32.modulus → Z.of_nat w + 1 < U32.modulus →
  blk_ok (S s) w c →
  blk_ok s w (let '(dealloc, c1) := dec_strong c in if dealloc then free_blk c1 else c1).
Proof.
  intros Hs Hw [Hst Hwk Hd Hde Hda]. unfold U32.modulus in *.
  destruct c as [d st wk de da]; blk_simpl. subst.
  rewrite share_S. unfold dec_strong; blk_simpl.
  destruct (Z.eqb_spec (Z.of_nat (S s)) 1) as [E|E].
  - assert (s = 0%nat) as -> by lia.
    unfold dec_weak, deinit; blk_simpl.
    destruct (Z.eqb_spec (Z.of_nat (w + 1)) 1) as [E'|E']; blk_goal.
  - blk_goal. destruct s; [lia|done].
Qed.

Lemma dec_weak_ok s w c :
  Z.of_nat w + 2 < U32.modulus →
  blk_ok s (S w) c →
  blk_ok s w (let '(dealloc, c1) := dec_weak c in if dealloc then free_blk c1 else c1).
Proof.
  intros Hw [Hst Hwk Hd Hde Hda]. unfold U32.modulus in *.
  destruct c as [d st wk de da]; blk_simpl. subst.
  unfold dec_weak; blk_simpl.
  destruct s as [|s]; rewrite ?share_0, ?share_S;
    match goal with |- context [?x =? 1] => destruct (Z.eqb_spec x 1) as [E|E] end;
    blk_goal.
Qed.

Lemma inc_strong_ok s w c :
  Z.of_nat s + 1 < U32.modulus → (s ≠ 0)%nat →
  blk_ok s w c → blk_ok (S s) w (inc_strong c).
Proof.
  intros Hs Hn [Hst Hwk Hd Hde Hda]. unfold U32.modulus in *.
  destruct s as [|s]; [done|].
  destruct c as [d st wk de da]; blk_simpl. subst.
  unfold inc_strong; blk_simpl.
  destruct (Z.eqb_spec (Z.of_nat (S s)) 0) as [E|E]; [lia|].
  blk_goal.
Qed.

Lemma inc_weak_ok s w c :
  Z.of_nat w + 2 < U32.modulus → (w + share s ≠ 0)%nat →
  blk_ok s w c → blk_ok s (S w) (inc_weak c).
Proof.
  intros Hw Hn [Hst Hwk Hd Hde Hda]. unfold U32.modulus in *.
  destruct c as [d st wk de da]; blk_simpl. subst.
  unfold inc_weak; blk_simpl.
  destruct s as [|s]; rewrite ?share_0, ?share_S in *; blk_goal.
Qed.

Lemma new_blk_ok : blk_ok 1 0 (inc_strong new_blk).
Proof. by constructor. Qed.


(** *** The pointer operations on the heap *)

Lemma shared_release_frame h st :
  shared (shared_release h st) = shared st ∧ weak (shared_release h st) = weak st ∧
  length (heap (shared_release h st)) = length (heap st).
Proof.
  unfold shared_release. destruct h as [b|]; [|done].
  destruct (heap st !! b) as [c|]; [|done].
  destruct (dec_strong c) as [dealloc c1]. simpl.
  by rewrite length_insert.
Qed.

Lemma weak_release_frame h st :
  shared (weak_release h st) = shared st ∧ weak (weak_release h st) = weak st ∧
  length (heap (weak_release h st)) = length (heap st).
Proof.
  unfold weak_release. destruct h as [b|]; [|done].
  destruct (heap st !! b) as [c|]; [|done].
  destruct (dec_weak c) as [dealloc c1]. simpl.
  by rewrite length_insert.
Qed.

Lemma shared_acquire_frame h st :
  shared (shared_acquire h st) = shared st ∧ weak (shared_acquire h st) = weak st ∧
  length (heap (shared_acquire h st)) = length (heap st).
Proof.
  unfold shared_acquire. destruct h as [b|]; [|done]. simpl.
  by rewrite length_alter.
Qed.

Lemma weak_acquire_frame h st :
  shared (weak_acquire h st) = shared st ∧ weak (weak_acquire h st) = weak st ∧
  length (heap (weak_acquire h st)) = length (heap st).
Proof.
  unfold weak_acquire. destruct h as [b|]; [|done]. simpl.
  by rewrite length_alter.
Qed.

Lemma shared_release_consistent h st S S' W :
  consistent (heap st) S W →
  (∀ b, S b = (S' b + ind h b)%nat) →
  (∀ b, Z.of_nat (S b) < U32.modulus) →
  (∀ b, Z.of_nat (W b) + 1 < U32.modulus) →
  consistent (heap (shared_release h st)) S' W.
Proof.
  intros Hc HS Hb Hw b c Hlk. unfold shared_release in Hlk.
  destruct h as [b0|].
  2:{ specialize (HS b). rewrite ind_None, Nat.add_0_r in HS. rewrite <- HS. by apply Hc. }
  destruct (heap st !! b0) as [c0|] eqn:E0.
  - destruct (decide (b = b0)) as [->|Hne].
    + pose proof (lookup_lt_Some _ _ _ E0) as Hlt.
      destruct (dec_strong c0) as [dealloc c1] eqn:Ed. simpl in Hlk.
      rewrite list_lookup_insert_eq in Hlk by done. injection Hlk as <-.
      pose proof (Hc b0 c0 E0) as Hok. specialize (HS b0). specialize (Hb b0).
      rewrite ind_Some, decide_True in HS by done.
      rewrite HS, Nat.add_1_r in Hok.
      pose proof (dec_strong_ok (S' b0) (W b0) c0) as Hd. rewrite Ed in Hd.
      apply Hd; [lia|apply Hw|done].
    + destruct (dec_strong c0) as [dealloc c1]. simpl in Hlk.
      rewrite list_lookup_insert_ne in Hlk by done.
      specialize (HS b). rewrite ind_Some, decide_False, Nat.add_0_r in HS by done.
      rewrite <- HS. by apply Hc.
  - assert (b ≠ b0) by congruence.
    specialize (HS b). rewrite ind_Some, decide_False, Nat.add_0_r in HS by done.
    rewrite <- HS. by apply Hc.
Qed.

Lemma weak_release_consistent h st S W W' :
  consistent (heap st) S W →
  (∀ b, W b = (W' b + ind h b)%nat) →
  (∀ b, Z.of_nat (W b) + 1 < U32.modulus) →
  consistent (heap (weak_release h st)) S W'.
Proof.
  intros Hc HW Hw b c Hlk. unfold weak_release in Hlk.
  destruct h as [b0|].
  2:{ specialize (HW b). rewrite ind_None, Nat.add_0_r in HW. rewrite <- HW. by apply Hc. }
  destruct (heap st !! b0) as [c0|] eqn:E0.
  - destruct (decide (b = b0)) as [->|Hne].
    + pose proof (lookup_lt_Some _ _ _ E0) as Hlt.
      destruct (dec_weak c0) as [dealloc c1] eqn:Ed. simpl in Hlk.
      rewrite list_lookup_insert_eq in Hlk by done. injection Hlk as <-.
      pose proof (Hc b0 c0 E0) as Hok. specialize (HW b0). specialize (Hw b0).
      rewrite ind_Some, decide_True in HW by done.
      rewrite HW, Nat.add_1_r in Hok.
      pose proof (dec_weak_ok (S b0) (W' b0) c0) as Hd. rewrite Ed in Hd.
      apply Hd; [lia|done].
    + destruct (dec_weak c0) as [dealloc c1]. simpl in Hlk.
      rewrite list_lookup_insert_ne in Hlk by done.
      specialize (HW b). rewrite ind_Some, decide_False, Nat.add_0_r in HW by done.
      rewrite <- HW. by apply Hc.
  - assert (b ≠ b0) by congruence.
    specialize (HW b). rewrite ind_Some, decide_False, Nat.add_0_r in HW by done.
    rewrite <- HW. by apply Hc.
Qed.

Lemma shared_acquire_consistent h st S S' W :
  consistent (heap st) S W →
  (∀ b, S' b = (S b + ind h b)%nat) →
  (∀ b, h = Some b → S b ≠ 0%nat) →
  (∀ b, Z.of_nat (S' b) < U32.modulus) →
  consistent (heap (shared_acquire h st)) S' W.
Proof.
  intros Hc HS Hpos Hb b c Hlk. unfold shared_acquire in Hlk.
  destruct h as [b0|].
  2:{ specialize (HS b). rewrite ind_None, Nat.add_0_r in HS. rewrite HS. by apply Hc. }
  simpl in Hlk. destruct (decide (b = b0)) as [->|Hne].
  - rewrite list_lookup_alter_eq in Hlk.
    destruct (heap st !! b0) as [c0|] eqn:E0; [|done]. injection Hlk as <-.
    specialize (HS b0). specialize (Hb b0).
    rewrite ind_Some, decide_True in HS by done.
    rewrite HS, Nat.add_1_r. rewrite HS in Hb.
    apply inc_strong_ok; [lia|by apply Hpos|by apply Hc].
  - rewrite list_lookup_alter_ne in Hlk by done.
    specialize (HS b). rewrite ind_Some, decide_False, Nat.add_0_r in HS by done.
    rewrite HS. by apply Hc.
Qed.

Lemma weak_acquire_consistent h st S W W' :
  consistent (heap st) S W →
  (∀ b, W' b = (W b + ind h b)%nat) →
  (∀ b, h = Some b → (W b + share (S b))%nat ≠ 0%nat) →
  (∀ b, Z.of_nat (W' b) + 1 < U32.modulus) →
  consistent (heap (weak_acquire h st)) S W'.
Proof.
  intros Hc HW Hpos Hb b c Hlk. unfold weak_acquire in Hlk.
  destruct h as [b0|].
  2:{ specialize (HW b). rewrite ind_None, Nat.add_0_r in HW. rewrite HW. by apply Hc. }
  simpl in Hlk. destruct (decide (b = b0)) as [->|Hne].
  - rewrite list_lookup_alter_eq in Hlk.
    destruct (heap st !! b0) as [c0|] eqn:E0; [|done]. injection Hlk as <-.
    specialize (HW b0). specialize (Hb b0).
    rewrite ind_Some, decide_True in HW by done.
    rewrite HW, Nat.add_1_r. rewrite HW in Hb.
    apply inc_weak_ok; [lia|by apply Hpos|by apply Hc].
  - rewrite list_lookup_alter_ne in Hlk by done.
    specialize (HW b). rewrite ind_Some, decide_False, Nat.add_0_r in HW by done.
    rewrite HW. by apply Hc.
Qed.


Lemma make_shared_spec st tmp st1 :
  make_shared st = (tmp, st1) →
  inv st →
  shared st1 = shared st ∧ weak st1 = weak st ∧
  (length (heap st) <= length (heap st1))%nat ∧
  (∀ b, tmp = Some b → (b < length (heap st1))%nat) ∧
  consistent (heap st1) (λ b, refs (shared st) b + ind tmp b)%nat (refs (weak st)).
Proof.
  unfold make_shared. intros Hm [Hc Hvs Hvw].
  destruct (Alloc.allocate (alloc st)) as [ok1 a1].
  destruct ok1; simpl in Hm.
  2:{ injection Hm as <- <-. simpl. split_and!; try done.
      eapply consistent_ext; [exact Hc| |done]. intros b. by rewrite ind_None, Nat.add_0_r. }
  destruct (Alloc.allocate a1) as [ok2 a2].
  destruct ok2; simpl in Hm.
  2:{ injection Hm as <- <-. simpl. split_and!; try done.
      eapply consistent_ext; [exact Hc| |done]. intros b. by rewrite ind_None, Nat.add_0_r. }
  injection Hm as <- <-. simpl. rewrite length_app. simpl.
  split_and!; try done; [lia| intros b [= <-]; lia |].
  intros b c Hlk.
  destruct (decide (b < length (heap st))%nat) as [Hlt|Hge].
  - rewrite lookup_app_l in Hlk by done.
    rewrite ind_Some, decide_False, Nat.add_0_r by lia. by apply Hc.
  - rewrite lookup_app_r in Hlk by lia.
    destruct (b - length (heap st))%nat as [|k] eqn:Ek; simpl in Hlk; [|done].
    injection Hlk as <-. assert (b = length (heap st)) as -> by lia.
    rewrite (refs_invalid (heap st) (shared st)), (refs_invalid (heap st) (weak st))
      by (done || lia).
    rewrite ind_Some, decide_True by done. apply new_blk_ok.
Qed.

Lemma lock_spec w st tmp st1 :
  lock w st = (tmp, st1) →
  inv st →
  Z.of_nat (length (shared st)) + 1 < U32.modulus →
  shared st1 = shared st ∧ weak st1 = weak st ∧
  length (heap st1) = length (heap st) ∧
  (∀ b, tmp = Some b → (b < length (heap st1))%nat) ∧
  consistent (heap st1) (λ b, refs (shared st) b + ind tmp b)%nat (refs (weak st)).
Proof.
  unfold lock, expired, use_count. intros Hl [Hc Hvs Hvw] Hn.
  destruct w as [b0|]; simpl in Hl.
  2:{ injection Hl as <- <-. split_and!; try done.
      eapply consistent_ext; [exact Hc| |done]. intros b. by rewrite ind_None, Nat.add_0_r. }
  destruct (heap st !! b0) as [c0|] eqn:E0; simpl in Hl.
  2:{ injection Hl as <- <-. split_and!; try done.
      eapply consistent_ext; [exact Hc| |done]. intros b. by rewrite ind_None, Nat.add_0_r. }
  destruct (Z.eqb_spec (m_strong_count c0) 0) as [Ez|Ez].
  { injection Hl as <- <-. split_and!; try done.
    eapply consistent_ext; [exact Hc| |done]. intros b. by rewrite ind_None, Nat.add_0_r. }
  injection Hl as <- <-.
  simpl. rewrite length_alter. split_and!; try done.
  - intros b [= <-]. by eapply lookup_lt_Some.
  - apply (shared_acquire_consistent (Some b0) st (refs (shared st))); [done|done| |].
    + intros b [= <-]. pose proof (ok_strong _ _ _ (Hc b0 c0 E0)). lia.
    + intros b. pose proof (refs_le (shared st) b). pose proof (ind_le (Some b0) b). lia.
Qed.


(** *** One statement *)

Lemma step_ok_refl st : inv st → step_ok st st.
Proof. by intros Hinv. Qed.

Section Step.
Variable st : state.
Hypothesis Hinv : inv st.
Hypothesis Hns : Z.of_nat (length (shared st)) + 1 < U32.modulus.
Hypothesis Hnw : Z.of_nat (length (weak st)) + 1 < U32.modulus.

Ltac bounds :=
  let b := fresh "b" in
  intros b; cbv beta;
  pose proof (refs_le (shared st) b); pose proof (refs_le (weak st) b);
  repeat match goal with
  | |- context [ind ?h b] =>
    lazymatch goal with
    | _ : (ind h b <= 1)%nat |- _ => fail
    | _ => pose proof (ind_le h b)
    end
  end;
  lia.

(** Assigning the temporary [tmp] into [shared[i]]: the old block is
    released, the handle is taken over. *)
Lemma assign_shared_ok (st1 : state) i old tmp :
  shared st !! i = Some old →
  shared st1 = shared st → weak st1 = weak st →
  (length (heap st) <= length (heap st1))%nat →
  (∀ b, tmp = Some b → (b < length (heap st1))%nat) →
  consistent (heap st1) (λ b, refs (shared st) b + ind tmp b)%nat (refs (weak st)) →
  step_ok st (set_shared i tmp (shared_release old st1)).
Proof.
  intros Ei Hs1 Hw1 Hl1 Htmp Hc1.
  destruct (shared_release_frame old st1) as (Hs2 & Hw2 & Hl2).
  assert (Hc2 : consistent (heap (shared_release old st1))
                  (λ b, refs (shared st) b + ind tmp b - ind old b)%nat (refs (weak st))).
  { apply (shared_release_consistent old st1 _ _ _ Hc1).
    - intros b. pose proof (refs_lookup _ _ _ b Ei). cbv beta. lia.
    - bounds.
    - bounds. }
  destruct Hinv as [Hc Hvs Hvw].
  unfold step_ok, set_shared. simpl. rewrite length_insert, Hs2, Hw2, Hl2, Hs1, Hw1.
  split_and!; try done.
  constructor; simpl.
  - eapply consistent_ext; [exact Hc2| |done]. intros b.
    pose proof (refs_insert _ _ _ tmp b Ei). pose proof (refs_lookup _ _ _ b Ei). cbv beta. lia.
  - apply valid_insert; [|by rewrite Hl2].
    eapply valid_grow; [exact Hvs|lia].
  - eapply valid_grow; [exact Hvw|lia].
Qed.

Lemma step_MakeShared i : step_ok st (step (MakeShared i) st).
Proof.
  simpl. destruct (shared st !! i) as [old|] eqn:Ei; [|by apply step_ok_refl].
  destruct (make_shared st) as [tmp st1] eqn:Em.
  destruct (make_shared_spec _ _ _ Em Hinv) as (Hs1 & Hw1 & Hl1 & Htmp & Hc1).
  by apply assign_shared_ok.
Qed.

Lemma step_WeakLock i j : step_ok st (step (WeakLock i j) st).
Proof.
  simpl. destruct (shared st !! i) as [old|] eqn:Ei; [|by apply step_ok_refl].
  destruct (weak st !! j) as [w|] eqn:Ej; [|by apply step_ok_refl].
  destruct (lock w st) as [tmp st1] eqn:El.
  destruct (lock_spec _ _ _ _ El Hinv Hns) as (Hs1 & Hw1 & Hl1 & Htmp & Hc1).
  apply assign_shared_ok; try done. lia.
Qed.

Lemma step_SharedReset i : step_ok st (step (SharedReset i) st).
Proof.
  simpl. destruct (shared st !! i) as [old|] eqn:Ei; [|by apply step_ok_refl].
  apply assign_shared_ok; try done.
  eapply consistent_ext; [apply Hinv| |done]. intros b. by rewrite ind_None, Nat.add_0_r.
Qed.


Lemma copy_shared_ok i old src :
  shared st !! i = Some old →
  (∀ b, src = Some b → (ind old b < refs (shared st) b)%nat) →
  (∀ b, src = Some b → (b < length (heap st))%nat) →
  step_ok st (set_shared i src (shared_acquire src (shared_release old st))).
Proof.
  intros Ei Hsrc Hv.
  destruct (shared_release_frame old st) as (Hs1 & Hw1 & Hl1).
  destruct (shared_acquire_frame src (shared_release old st)) as (Hs2 & Hw2 & Hl2).
  destruct Hinv as [Hc Hvs Hvw].
  assert (Hc1 : consistent (heap (shared_release old st))
                  (λ b, refs (shared st) b - ind old b)%nat (refs (weak st))).
  { apply (shared_release_consistent old st _ _ _ Hc).
    - intros b. pose proof (refs_lookup _ _ _ b Ei). cbv beta. lia.
    - bounds.
    - bounds. }
  assert (Hc2 : consistent (heap (shared_acquire src (shared_release old st)))
                  (λ b, refs (shared st) b - ind old b + ind src b)%nat (refs (weak st))).
  { apply (shared_acquire_consistent src _ _ _ _ Hc1).
    - done.
    - intros b Hb. specialize (Hsrc b Hb). cbv beta. lia.
    - bounds. }
  unfold step_ok, set_shared. simpl. rewrite length_insert, Hs2, Hw2, Hl2, Hs1, Hw1, Hl1.
  split_and!; try done.
  constructor; simpl.
  - eapply consistent_ext; [exact Hc2| |done]. intros b.
    pose proof (refs_insert _ _ _ src b Ei). pose proof (refs_lookup _ _ _ b Ei).
    cbv beta. lia.
  - apply valid_insert; [|by rewrite Hl2, Hl1].
    eapply valid_grow; [exact Hvs|lia].
  - eapply valid_grow; [exact Hvw|lia].
Qed.

Lemma copy_weak_ok i old src :
  weak st !! i = Some old →
  (∀ b, src = Some b →
        (ind old b < refs (weak st) b)%nat ∨ refs (shared st) b ≠ 0%nat) →
  (∀ b, src = Some b → (b < length (heap st))%nat) →
  step_ok st (set_weak i src (weak_acquire src (weak_release old st))).
Proof.
  intros Ei Hsrc Hv.
  destruct (weak_release_frame old st) as (Hs1 & Hw1 & Hl1).
  destruct (weak_acquire_frame src (weak_release old st)) as (Hs2 & Hw2 & Hl2).
  destruct Hinv as [Hc Hvs Hvw].
  assert (Hc1 : consistent (heap (weak_release old st))
                  (refs (shared st)) (λ b, refs (weak st) b - ind old b)%nat).
  { apply (weak_release_consistent old st _ _ _ Hc).
    - intros b. pose proof (refs_lookup _ _ _ b Ei). cbv beta. lia.
    - bounds. }
  assert (Hc2 : consistent (heap (weak_acquire src (weak_release old st)))
                  (refs (shared st)) (λ b, refs (weak st) b - ind old b + ind src b)%nat).
  { apply (weak_acquire_consistent src _ _ _ _ Hc1).
    - done.
    - intros b Hb. cbv beta. destruct (Hsrc b Hb) as [Hlt|Hne]; [lia|].
      rewrite (share_pos _ Hne). lia.
    - intros b. cbv beta.
      pose proof (refs_insert _ _ _ src b Ei) as Hi.
      pose proof (refs_le (<[i := src]> (weak st)) b) as Hle.
      rewrite length_insert in Hle.
      pose proof (refs_lookup _ _ _ b Ei). lia. }
  unfold step_ok, set_weak. simpl. rewrite length_insert, Hs2, Hw2, Hl2, Hs1, Hw1, Hl1.
  split_and!; try done.
  constructor; simpl.
  - eapply consistent_ext; [exact Hc2|done|]. intros b.
    pose proof (refs_insert _ _ _ src b Ei). pose proof (refs_lookup _ _ _ b Ei).
    cbv beta. lia.
  - eapply valid_grow; [exact Hvs|lia].
  - apply valid_insert; [|by rewrite Hl2, Hl1].
    eapply valid_grow; [exact Hvw|lia].
Qed.

Lemma ind_pos h b : h = Some b → ind h b = 1%nat.
Proof. intros ->. by rewrite ind_Some, decide_True. Qed.

Lemma step_SharedCopy i j : step_ok st (step (SharedCopy i j) st).
Proof.
  simpl. destruct (shared st !! i) as [old|] eqn:Ei; [|by apply step_ok_refl].
  destruct (shared st !! j) as [src|] eqn:Ej; [|by apply step_ok_refl].
  case_bool_decide as Hij; [by apply step_ok_refl|].
  apply copy_shared_ok; [done| |].
  - intros b Hb. pose proof (refs_lookup_two _ _ _ _ _ b Hij Ei Ej).
    rewrite (ind_pos src b Hb) in *. lia.
  - intros b ->. eapply valid_lookup; [exact (inv_shared _ Hinv)|exact Ej].
Qed.

Lemma step_WeakCopy i j : step_ok st (step (WeakCopy i j) st).
Proof.
  simpl. destruct (weak st !! i) as [old|] eqn:Ei; [|by apply step_ok_refl].
  destruct (weak st !! j) as [src|] eqn:Ej; [|by apply step_ok_refl].
  case_bool_decide as Hij; [by apply step_ok_refl|].
  apply copy_weak_ok; [done| |].
  - intros b Hb. left. pose proof (refs_lookup_two _ _ _ _ _ b Hij Ei Ej).
    rewrite (ind_pos src b Hb) in *. lia.
  - intros b ->. eapply valid_lookup; [exact (inv_weak _ Hinv)|exact Ej].
Qed.

Lemma step_WeakFromShared i j : step_ok st (step (WeakFromShared i j) st).
Proof.
  simpl. destruct (weak st !! i) as [old|] eqn:Ei; [|by apply step_ok_refl].
  destruct (shared st !! j) as [src|] eqn:Ej; [|by apply step_ok_refl].
  apply copy_weak_ok; [done| |].
  - intros b Hb. right. pose proof (refs_lookup _ _ _ b Ej).
    rewrite (ind_pos src b Hb) in *. lia.
  - intros b ->. eapply valid_lookup; [exact (inv_shared _ Hinv)|exact Ej].
Qed.

Lemma step_SharedMove i j : step_ok st (step (SharedMove i j) st).
Proof.
  simpl. destruct (shared st !! i) as [old|] eqn:Ei; [|by apply step_ok_refl].
  destruct (shared st !! j) as [src|] eqn:Ej; [|by apply step_ok_refl].
  case_bool_decide as Hij; [by apply step_ok_refl|].
  destruct (shared_release_frame old st) as (Hs1 & Hw1 & Hl1).
  destruct Hinv as [Hc Hvs Hvw].
  assert (Hc1 : consistent (heap (shared_release old st))
                  (λ b, refs (shared st) b - ind old b)%nat (refs (weak st))).
  { apply (shared_release_consistent old st _ _ _ Hc).
    - intros b. pose proof (refs_lookup _ _ _ b Ei). cbv beta. lia.
    - bounds.
    - bounds. }
  unfold step_ok, set_shared. simpl. rewrite !length_insert, Hs1, Hw1, Hl1.
  split_and!; try done.
  assert (Ei' : <[j := None]> (shared st) !! i = Some old)
    by (by rewrite list_lookup_insert_ne).
  constructor; simpl.
  - eapply consistent_ext; [exact Hc1| |done]. intros b.
    pose proof (refs_insert _ _ _ None b Ej).
    pose proof (refs_insert _ _ _ src b Ei').
    pose proof (refs_lookup _ _ _ b Ei). rewrite ind_None in *.
    cbv beta. lia.
  - apply valid_insert.
    + apply valid_insert; [|done]. eapply valid_grow; [exact Hvs|lia].
    + intros b ->. rewrite Hl1. eapply valid_lookup; [exact Hvs|exact Ej].
  - eapply valid_grow; [exact Hvw|lia].
Qed.

Lemma step_WeakMove i j : step_ok st (step (WeakMove i j) st).
Proof.
  simpl. destruct (weak st !! i) as [old|] eqn:Ei; [|by apply step_ok_refl].
  destruct (weak st !! j) as [src|] eqn:Ej; [|by apply step_ok_refl].
  case_bool_decide as Hij; [by apply step_ok_refl|].
  destruct (weak_release_frame old st) as (Hs1 & Hw1 & Hl1).
  destruct Hinv as [Hc Hvs Hvw].
  assert (Hc1 : consistent (heap (weak_release old st))
                  (refs (shared st)) (λ b, refs (weak st) b - ind old b)%nat).
  { apply (weak_release_consistent old st _ _ _ Hc).
    - intros b. pose proof (refs_lookup _ _ _ b Ei). cbv beta. lia.
    - bounds. }
  unfold step_ok, set_weak. simpl. rewrite !length_insert, Hs1, Hw1, Hl1.
  split_and!; try done.
  assert (Ei' : <[j := None]> (weak st) !! i = Some old)
    by (by rewrite list_lookup_insert_ne).
  constructor; simpl.
  - eapply consistent_ext; [exact Hc1|done|]. intros b.
    pose proof (refs_insert _ _ _ None b Ej).
    pose proof (refs_insert _ _ _ src b Ei').
    pose proof (refs_lookup _ _ _ b Ei). rewrite ind_None in *.
    cbv beta. lia.
  - eapply valid_grow; [exact Hvs|lia].
  - apply valid_insert.
    + apply valid_insert; [|done]. eapply valid_grow; [exact Hvw|lia].
    + intros b ->. rewrite Hl1. eapply valid_lookup; [exact Hvw|exact Ej].
Qed.

Lemma step_WeakReset i : step_ok st (step (WeakReset i) st).
Proof.
  simpl. destruct (weak st !! i) as [old|] eqn:Ei; [|by apply step_ok_refl].
  destruct (weak_release_frame old st) as (Hs1 & Hw1 & Hl1).
  destruct Hinv as [Hc Hvs Hvw].
  assert (Hc1 : consistent (heap (weak_release old st))
                  (refs (shared st)) (λ b, refs (weak st) b - ind old b)%nat).
  { apply (weak_release_consistent old st _ _ _ Hc).
    - intros b. pose proof (refs_lookup _ _ _ b Ei). cbv beta. lia.
    - bounds. }
  unfold step_ok, set_weak. simpl. rewrite !length_insert, Hs1, Hw1, Hl1.
  split_and!; try done.
  constructor; simpl.
  - eapply consistent_ext; [exact Hc1|done|]. intros b.
    pose proof (refs_insert _ _ _ None b Ei).
    pose proof (refs_lookup _ _ _ b Ei). rewrite ind_None in *.
    cbv beta. lia.
  - eapply valid_grow; [exact Hvs|lia].
  - apply valid_insert; [|done]. eapply valid_grow; [exact Hvw|lia].
Qed.

Lemma step_inv o : step_ok st (step o st).
Proof.
  destruct o; auto using step_MakeShared, step_SharedCopy, step_SharedMove,
    step_SharedReset, step_WeakFromShared, step_WeakCopy, step_WeakMove,
    step_WeakReset, step_WeakLock.
Qed.

End Step.


(** *** Sequences of statements *)

Lemma init_inv n_shared n_weak a : inv (init n_shared n_weak a).
Proof.
  constructor; simpl.
  - intros b c Hb. done.
  - intros b Hb. by apply elem_of_replicate in Hb as [? _].
  - intros b Hb. by apply elem_of_replicate in Hb as [? _].
Qed.

Lemma run_snoc ops o st : run (ops ++ [o]) st = step o (run ops st).
Proof. unfold run. by rewrite fold_left_app. Qed.

Lemma run_inv ops st :
  inv st →
  Z.of_nat (length (shared st)) + 1 < U32.modulus →
  Z.of_nat (length (weak st)) + 1 < U32.modulus →
  step_ok st (run ops st).
Proof.
  intros Hinv Hns Hnw.
  induction ops as [|o ops IH] using rev_ind.
  - by apply step_ok_refl.
  - rewrite run_snoc. destruct IH as (Hi & Hs & Hw & Hl).
    destruct (step_inv (run ops st) Hi ltac:(lia) ltac:(lia) o) as (Hi' & Hs' & Hw' & Hl').
    unfold step_ok. split_and!; [done|lia|lia|lia].
Qed.

Lemma grows_refl hp : grows hp hp.
Proof. intros b c Hb. by exists c. Qed.

Lemma grows_trans hp1 hp2 hp3 : grows hp1 hp2 → grows hp2 hp3 → grows hp1 hp3.
Proof.
  intros H12 H23 b c Hb.
  destruct (H12 b c Hb) as (c2 & Hb2 & ? & ?).
  destruct (H23 b c2 Hb2) as (c3 & Hb3 & ? & ?).
  exists c3. split_and!; [done|lia|lia].
Qed.

Lemma grows_insert hp b0 c0 c1 :
  hp !! b0 = Some c0 →
  (destroyed c0 <= destroyed c1)%nat → (deallocated c0 <= deallocated c1)%nat →
  grows hp (<[b0 := c1]> hp).
Proof.
  intros H0 Hd Ha b c Hb. destruct (decide (b = b0)) as [->|Hne].
  - exists c1. rewrite list_lookup_insert_eq by (by eapply lookup_lt_Some).
    assert (c = c0) as -> by congruence. done.
  - exists c. by rewrite list_lookup_insert_ne.
Qed.

Lemma grows_alter hp b0 f :
  (∀ c, (destroyed c <= destroyed (f c))%nat ∧ (deallocated c <= deallocated (f c))%nat) →
  grows hp (alter f b0 hp).
Proof.
  intros Hf b c Hb. destruct (decide (b = b0)) as [->|Hne].
  - exists (f c). rewrite list_lookup_alter_eq, Hb. split; [done|apply Hf].
  - exists c. by rewrite list_lookup_alter_ne.
Qed.

Lemma shared_release_grows h st : grows (heap st) (heap (shared_release h st)).
Proof.
  unfold shared_release. destruct h as [b0|]; [|apply grows_refl].
  destruct (heap st !! b0) as [c0|] eqn:E0; [|apply grows_refl].
  destruct (dec_strong c0) as [dealloc c1] eqn:Ed. simpl.
  apply (grows_insert _ _ c0); [done| |];
    unfold dec_strong, dec_weak, deinit, free_blk in *; destruct c0;
    repeat case_match; simplify_eq; simpl; lia.
Qed.

Lemma weak_release_grows h st : grows (heap st) (heap (weak_release h st)).
Proof.
  unfold weak_release. destruct h as [b0|]; [|apply grows_refl].
  destruct (heap st !! b0) as [c0|] eqn:E0; [|apply grows_refl].
  destruct (dec_weak c0) as [dealloc c1] eqn:Ed. simpl.
  apply (grows_insert _ _ c0); [done| |];
    unfold dec_weak, free_blk in *; destruct c0;
    repeat case_match; simplify_eq; simpl; lia.
Qed.

Lemma shared_acquire_grows h st : grows (heap st) (heap (shared_acquire h st)).
Proof.
  unfold shared_acquire. destruct h as [b0|]; [|apply grows_refl]. simpl.
  apply grows_alter. intros c. unfold inc_strong, inc_weak.
  case_match; simpl; lia.
Qed.

Lemma weak_acquire_grows h st : grows (heap st) (heap (weak_acquire h st)).
Proof.
  unfold weak_acquire. destruct h as [b0|]; [|apply grows_refl]. simpl.
  apply grows_alter. intros c. unfold inc_weak. simpl. lia.
Qed.

Lemma make_shared_grows st : grows (heap st) (heap (make_shared st).2).
Proof.
  unfold make_shared. repeat case_match; simpl; try apply grows_refl.
  intros k ck Hk. exists ck. split; [|done]. by apply lookup_app_l_Some.
Qed.

Lemma lock_grows w st : grows (heap st) (heap (lock w st).2).
Proof.
  unfold lock. case_match; simpl; [apply grows_refl|apply shared_acquire_grows].
Qed.

Lemma step_grows o st : grows (heap st) (heap (step o st)).
Proof.
  destruct o; simpl; repeat case_match; simpl; try apply grows_refl.
  - eapply grows_trans; [apply (make_shared_grows st)|].
    match goal with H : make_shared st = _ |- _ => rewrite H end.
    apply shared_release_grows.
  - eapply grows_trans; [apply shared_release_grows|apply shared_acquire_grows].
  - apply shared_release_grows.
  - apply shared_release_grows.
  - eapply grows_trans; [apply weak_release_grows|apply weak_acquire_grows].
  - eapply grows_trans; [apply weak_release_grows|apply weak_acquire_grows].
  - apply weak_release_grows.
  - apply weak_release_grows.
  - match goal with H : lock ?w st = _ |- _ =>
      eapply grows_trans; [apply (lock_grows w st)|]; rewrite H end.
    apply shared_release_grows.
Qed.


Lemma blk_ok_fields s w c :
  blk_ok s w c →
  m_strong_count c = Z.of_nat s ∧
  m_weak_count c = Z.of_nat w + (if m_strong_count c =? 0 then 0 else 1) ∧
  destroyed c = (if m_strong_count c =? 0 then 1%nat else 0%nat) ∧
  deallocated c = (if m_weak_count c =? 0 then 1%nat else 0%nat).
Proof.
  intros [Hst Hwk Hd Hde Hda]. rewrite Hwk, Hst, Hde, Hda.
  destruct s as [|s]; rewrite ?share_0, ?share_S.
  - simpl Z.of_nat. simpl (0 =? 0). rewrite Nat.add_0_r, Z.add_0_r.
    split_and!; try done.
    destruct w as [|w]; [done|]. rewrite share_S.
    by destruct (Z.eqb_spec (Z.of_nat (S w)) 0); [lia|].
  - destruct (Z.eqb_spec (Z.of_nat (S s)) 0); [lia|].
    split_and!; try done; [lia|].
    rewrite share_pos by lia.
    by destruct (Z.eqb_spec (Z.of_nat (w + 1)) 0); [lia|].
Qed.

(** C7: in a single-threaded program over any number (below 2^32 - 1 each)
    of [shared_ptr] and [weak_ptr] objects, after any sequence of
    [make_shared], copy and move assignments, [reset] (destruction) and
    [weak_ptr::lock], every control block has its strong count equal to the
    number of [shared_ptr]s that hold it and its weak count equal to the
    number of [weak_ptr]s that hold it plus one while the strong count is not
    zero, so the weak count is at least 1 whenever the strong count is; the
    payload destructor has run once if the strong count is zero and not at
    all otherwise, and the block has been deallocated once if the weak count
    is zero and not at all otherwise; and any further statement runs the
    destructor exactly if it brings the strong count from non-zero to zero,
    and deallocates the block exactly if it brings the weak count from
    non-zero to zero. *)
Theorem counts_follow_owners (n_shared n_weak : nat) (a : Alloc.t) (ops : list op) :
  Z.of_nat n_shared + 1 < U32.modulus →
  Z.of_nat n_weak + 1 < U32.modulus →
  let st := run ops (init n_shared n_weak a) in
  ∀ b c, heap st !! b = Some c →
    m_strong_count c = Z.of_nat (refs (shared st) b) ∧
    m_weak_count c
      = Z.of_nat (refs (weak st) b) + (if m_strong_count c =? 0 then 0 else 1) ∧
    (1 <= m_strong_count c → 1 <= m_weak_count c) ∧
    destroyed c = (if m_strong_count c =? 0 then 1%nat else 0%nat) ∧
    deallocated c = (if m_weak_count c =? 0 then 1%nat else 0%nat) ∧
    ∀ o, ∃ c',
      heap (step o st) !! b = Some c' ∧
      destroyed c' =
        (destroyed c +
         if (0 <? m_strong_count c)%Z && (m_strong_count c' =? 0)%Z then 1 else 0)%nat ∧
      deallocated c' =
        (deallocated c +
         if (0 <? m_weak_count c)%Z && (m_weak_count c' =? 0)%Z then 1 else 0)%nat.
Proof.
  intros Hns Hnw st b c Hb.
  destruct (run_inv ops (init n_shared n_weak a) (init_inv _ _ _)) as (Hinv & Hls & Hlw & _).
  { simpl. by rewrite length_replicate. }
  { simpl. by rewrite length_replicate. }
  simpl in Hls, Hlw. rewrite length_replicate in Hls, Hlw. fold st in Hinv, Hls, Hlw.
  destruct (blk_ok_fields _ _ _ (inv_counts _ Hinv b c Hb)) as (Hs & Hw & Hd & Ha).
  split_and!; try done.
  - intros H1. rewrite Hw. destruct (Z.eqb_spec (m_strong_count c) 0); lia.
  - intros o.
    destruct (step_grows o st b c Hb) as (c' & Hb' & Hgd & Hga).
    exists c'. split; [done|].
    destruct (step_inv st Hinv ltac:(lia) ltac:(lia) o) as (Hinv' & _).
    destruct (blk_ok_fields _ _ _ (inv_counts _ Hinv' b c' Hb')) as (Hs' & Hw' & Hd' & Ha').
    rewrite Hd', Ha', Hd, Ha in *.
    destruct (Z.eqb_spec (m_strong_count c) 0), (Z.eqb_spec (m_strong_count c') 0),
             (Z.eqb_spec (m_weak_count c) 0), (Z.eqb_spec (m_weak_count c') 0),
             (Z.ltb_spec 0 (m_strong_count c)), (Z.ltb_spec 0 (m_weak_count c));
      simpl; try lia.
Qed.

Lemma counts_follow_owners_witness :
  let st := run [MakeShared 0; SharedCopy 1 0; WeakFromShared 0 1; SharedReset 0]
                (init 2 1 []) in
  let c := MkBlk true 1 2 0 0 in
  Z.of_nat 2 + 1 < U32.modulus ∧ Z.of_nat 1 + 1 < U32.modulus ∧
  heap st !! 0%nat = Some c ∧
  m_strong_count c = Z.of_nat (refs (shared st) 0) ∧
  destroyed c = 0%nat ∧
  ∃ c', heap (step (SharedReset 1) st) !! 0%nat = Some c' ∧
        destroyed c' = 1%nat ∧ deallocated c' = 0%nat.
Proof.
  intros st c.
  assert (H2 : Z.of_nat 2 + 1 < U32.modulus) by (unfold U32.modulus; lia).
  assert (H1 : Z.of_nat 1 + 1 < U32.modulus) by (unfold U32.modulus; lia).
  assert (Hb : heap st !! 0%nat = Some c) by reflexivity.
  split; [exact H2|]. split; [exact H1|]. split; [exact Hb|].
  destruct (counts_follow_owners 2 1 []
              [MakeShared 0; SharedCopy 1 0; WeakFromShared 0 1; SharedReset 0]
              H2 H1 0%nat c Hb) as (Hs & _ & _ & Hd & _ & Hstep).
  split; [exact Hs|]. split; [exact Hd|].
  destruct (Hstep (SharedReset 1)) as (c' & Hc' & Hd' & Ha').
  exists c'. split; [exact Hc'|].
  assert (Hc'' : c' = MkBlk false 0 1 1 0).
  { vm_compute in Hc'. by injection Hc' as <-. }
  subst c'. split; reflexivity.
Defined.

(** X27: no smart pointer of a single-threaded program dangles.  After any
    sequence of statements over fewer than 2^32 - 1 [shared_ptr] and
    [weak_ptr] objects each, a [shared_ptr] that is not null holds a block
    whose payload is alive (not destroyed, the block not deallocated) and
    whose [use_count()] is at least 1; a [weak_ptr] that is not null holds a
    block that has not been deallocated, it is [expired()] exactly when no
    [shared_ptr] holds the block, and [lock()] returns null when it is
    expired and otherwise an owner of the block, with [use_count()] one
    higher. *)
Theorem pointers_never_dangle (n_shared n_weak : nat) (a : Alloc.t) (ops : list op) :
  Z.of_nat n_shared + 1 < U32.modulus →
  Z.of_nat n_weak + 1 < U32.modulus →
  let st := run ops (init n_shared n_weak a) in
  (∀ i b, shared st !! i = Some (Some b) →
     ∃ c, heap st !! b = Some c ∧ m_data c = true ∧
          destroyed c = 0%nat ∧ deallocated c = 0%nat ∧
          1 <= use_count st (Some b)) ∧
  (∀ j b, weak st !! j = Some (Some b) →
     ∃ c, heap st !! b = Some c ∧ deallocated c = 0%nat ∧
          (expired st (Some b) = false ↔ ∃ i, shared st !! i = Some (Some b)) ∧
          (lock (Some b) st).1 = (if expired st (Some b) then None else Some b) ∧
          (expired st (Some b) = false →
             use_count (lock (Some b) st).2 (Some b) = use_count st (Some b) + 1)).
Proof.
  intros Hns Hnw st.
  destruct (run_inv ops (init n_shared n_weak a) (init_inv _ _ _)) as (Hinv & Hls & Hlw & _).
  { simpl. by rewrite length_replicate. }
  { simpl. by rewrite length_replicate. }
  simpl in Hls, Hlw. rewrite length_replicate in Hls, Hlw. fold st in Hinv, Hls, Hlw.
  destruct Hinv as [Hc Hvs Hvw].
  split.
  - intros i b Hi.
    assert (Hlt : (b < length (heap st))%nat).
    { apply Hvs. by eapply list_elem_of_lookup_2. }
    destruct (lookup_lt_is_Some_2 _ _ Hlt) as [c Hb]. exists c.
    pose proof (refs_lookup _ _ _ b Hi) as Hr. rewrite ind_Some, decide_True in Hr by done.
    destruct (Hc b c Hb) as [Hst Hwk Hd Hde Hda].
    rewrite (share_pos (refs (shared st) b)) in * by lia.
    rewrite (share_pos (refs (weak st) b + 1)) in * by lia.
    split_and!; try done.
    + rewrite Hd. by destruct (Nat.eqb_spec (refs (shared st) b) 0); [lia|].
    + unfold use_count. rewrite Hb. simpl. lia.
  - intros j b Hj.
    assert (Hlt : (b < length (heap st))%nat).
    { apply Hvw. by eapply list_elem_of_lookup_2. }
    destruct (lookup_lt_is_Some_2 _ _ Hlt) as [c Hb]. exists c.
    pose proof (refs_lookup _ _ _ b Hj) as Hr. rewrite ind_Some, decide_True in Hr by done.
    destruct (Hc b c Hb) as [Hst Hwk Hd Hde Hda].
    pose proof (refs_le (shared st) b) as Hle.
    assert (Hexp : expired st (Some b) = (refs (shared st) b =? 0)%nat).
    { unfold expired, use_count. rewrite Hb. simpl. rewrite Hst.
      destruct (Nat.eqb_spec (refs (shared st) b) 0), (Z.eqb_spec (Z.of_nat (refs (shared st) b)) 0);
        try done; lia. }
    split_and!; try done.
    + rewrite Hda. rewrite share_pos; [done|lia].
    + rewrite Hexp. split.
      * intros Hn. apply Nat.eqb_neq in Hn. apply refs_elem in Hn.
        by apply list_elem_of_lookup_1 in Hn.
      * intros [i Hi]. apply Nat.eqb_neq.
        pose proof (refs_lookup _ _ _ b Hi) as Hr'.
        rewrite ind_Some, decide_True in Hr' by done. lia.
    + unfold lock. by destruct (expired st (Some b)).
    + intros Hne. unfold lock. rewrite Hne. simpl.
      unfold use_count. simpl. rewrite list_lookup_alter_eq, Hb. simpl.
      rewrite Hexp in Hne. apply Nat.eqb_neq in Hne.
      unfold inc_strong. rewrite Hst.
      destruct (Z.eqb_spec (Z.of_nat (refs (shared st) b)) 0); [lia|]. simpl.
      unfold U32.add, U32.wrap. apply Z.mod_small. lia.
Qed.

Lemma pointers_never_dangle_witness :
  let st := run [MakeShared 0; SharedCopy 1 0; WeakFromShared 0 1; SharedReset 0]
                (init 2 1 []) in
  Z.of_nat 2 + 1 < U32.modulus ∧ Z.of_nat 1 + 1 < U32.modulus ∧
  (∀ i b, shared st !! i = Some (Some b) →
     ∃ c, heap st !! b = Some c ∧ m_data c = true ∧
          destroyed c = 0%nat ∧ deallocated c = 0%nat ∧
          1 <= use_count st (Some b)) ∧
  (∀ j b, weak st !! j = Some (Some b) →
     ∃ c, heap st !! b = Some c ∧ deallocated c = 0%nat ∧
          (expired st (Some b) = false ↔ ∃ i, shared st !! i = Some (Some b)) ∧
          (lock (Some b) st).1 = (if expired st (Some b) then None else Some b) ∧
          (expired st (Some b) = false →
             use_count (lock (Some b) st).2 (Some b) = use_count st (Some b) + 1)).
Proof.
  intros st.
  assert (H1 : Z.of_nat 2 + 1 < U32.modulus) by (vm_compute; reflexivity).
  assert (H2 : Z.of_nat 1 + 1 < U32.modulus) by (vm_compute; reflexivity).
  exact (conj H1 (conj H2
           (pointers_never_dangle 2 1 []
              [MakeShared 0; SharedCopy 1 0; WeakFromShared 0 1; SharedReset 0] H1 H2))).
Defined.

End MemoryFacts.

(** ** Vector *)

Section VectorFacts.
Context {A : Type}.
Implicit Types (v o : Vector.vector A) (x : A) (a : Alloc.t).

Lemma reserve_spec v n a :
  let '(ok, v', a') := Vector.reserve v n a in
  Vector.items v' = Vector.items v ∧
  (ok = true → (n <= Vector.capacity v')%nat ∧ (Vector.capacity v <= Vector.capacity v')%nat) ∧
  (ok = false → v' = v) ∧
  ((n <= Vector.capacity v)%nat → ok = true ∧ v' = v ∧ a' = a) ∧
  ((Vector.capacity v < n)%nat →
     ok = (Alloc.allocate a).1 ∧ a' = (Alloc.allocate a).2 ∧
     (ok = true → Vector.capacity v' = n)).
Proof.
  unfold Vector.reserve.
  destruct (Nat.leb_spec n (Vector.capacity v)).
  - split_and!; try done; try lia.
  - destruct (Alloc.allocate a) as [[] a1]; simpl; split_and!; try done; try lia.
Qed.

Lemma push_back_cases v x a :
  Vector.fits v →
  let '(ok, v', a') := Vector.push_back v x a in
  ((Vector.size v < Vector.capacity v)%nat →
     ok = true ∧ a' = a ∧ Vector.capacity v' = Vector.capacity v) ∧
  ((Vector.size v = Vector.capacity v)%nat →
     ok = (Alloc.allocate a).1 ∧ a' = (Alloc.allocate a).2 ∧
     (ok = true → Vector.capacity v' = Nat.max 1 (2 * Vector.capacity v))) ∧
  (ok = true → Vector.items v' = Vector.items v ++ [x] ∧ Vector.fits v') ∧
  (ok = false → v' = v).
Proof.
  unfold Vector.fits, Vector.push_back, Vector.size. intros Hfit.
  destruct (Nat.eqb_spec (length (Vector.items v)) (Vector.capacity v)) as [Heq|Hne].
  - destruct (Nat.eqb_spec (Vector.capacity v) 0) as [Hz|Hnz].
    + pose proof (reserve_spec v 1 a) as Hr.
      destruct (Vector.reserve v 1 a) as [[ok v1] a1].
      destruct Hr as (Hit & Hok & Hfail & _ & Hgrow).
      specialize (Hgrow ltac:(lia)). destruct Hgrow as (Hal & Ha1 & Hcap).
      destruct ok; simpl.
      * specialize (Hcap eq_refl). split_and!.
        -- intros. lia.
        -- intros _. split_and!; [done|done|intros _; lia].
        -- intros _. simpl. rewrite Hit. split; [done|].
           rewrite length_app. simpl. lia.
        -- done.
      * split_and!; [intros; lia|done|done|done].
    + pose proof (reserve_spec v (2 * Vector.capacity v) a) as Hr.
      destruct (Vector.reserve v (2 * Vector.capacity v) a) as [[ok v1] a1].
      destruct Hr as (Hit & Hok & Hfail & _ & Hgrow).
      specialize (Hgrow ltac:(lia)). destruct Hgrow as (Hal & Ha1 & Hcap).
      destruct ok; simpl.
      * specialize (Hcap eq_refl). split_and!.
        -- intros. lia.
        -- intros _. split_and!; [done|done|intros _; lia].
        -- intros _. simpl. rewrite Hit. split; [done|].
           rewrite length_app. simpl. lia.
        -- done.
      * split_and!; [intros; lia|done|done|done].
  - simpl. split_and!; try done; try lia.
    intros _. split; [done|]. rewrite length_app. simpl. lia.
Qed.

(** X20: [push_back] on a vector whose elements fit its capacity.  With
    room left it succeeds without asking the allocator and keeps the
    capacity; on a full vector it asks the allocator once, for capacity 1
    when the capacity was 0 and for twice the capacity otherwise.  When it
    returns true the value is the new last element after the old ones and
    the elements still fit; when it returns false the vector is as it was. *)
Theorem push_back_spec v x a :
  Vector.fits v →
  let '(ok, v', a') := Vector.push_back v x a in
  ((Vector.size v < Vector.capacity v)%nat →
     ok = true ∧ a' = a ∧ Vector.capacity v' = Vector.capacity v) ∧
  ((Vector.size v = Vector.capacity v)%nat →
     ok = (Alloc.allocate a).1 ∧ a' = (Alloc.allocate a).2 ∧
     (ok = true → Vector.capacity v' = Nat.max 1 (2 * Vector.capacity v))) ∧
  (ok = true → Vector.items v' = Vector.items v ++ [x] ∧ Vector.fits v') ∧
  (ok = false → v' = v).
Proof. apply push_back_cases. Qed.

Lemma delete_out_of_range (l : list A) i : (length l <= i)%nat → delete i l = l.
Proof.
  revert i. induction l as [|y l IH]; intros [|i] Hi; simpl in *; try done; try lia.
  f_equal. apply IH. lia.
Qed.

Lemma swap_adjacent (l1 l2 : list A) x y :
  Vector.swap (l1 ++ x :: y :: l2) (length l1) (S (length l1)) = l1 ++ y :: x :: l2.
Proof.
  unfold Vector.swap.
  rewrite (lookup_app_r l1) by lia. rewrite Nat.sub_diag. simpl.
  rewrite (lookup_app_r l1) by lia.
  replace (S (length l1) - length l1)%nat with 1%nat by lia. simpl.
  replace (length l1) with (length l1 + 0)%nat at 2 by lia.
  rewrite insert_app_r. simpl.
  replace (S (length l1)) with (length l1 + 1)%nat by lia.
  by rewrite insert_app_r.
Qed.

Lemma shift_loop_moves (l1 l2 : list A) x :
  Vector.shift_loop (length l2) (length l1) (l1 ++ x :: l2) = l1 ++ l2 ++ [x].
Proof.
  revert l1. induction l2 as [|y l2 IH]; intros l1; simpl; [done|].
  rewrite swap_adjacent.
  replace (S (length l1)) with (length (l1 ++ [y])) by (rewrite length_app; simpl; lia).
  replace (l1 ++ y :: x :: l2) with ((l1 ++ [y]) ++ x :: l2) by (by rewrite <- app_assoc).
  rewrite IH. by rewrite <- app_assoc.
Qed.

(** X21: [remove_stable(index)] removes the element at [index] and keeps
    the order of the others: the loop of swaps and the final [pop_back]
    leave the elements before [index] followed by the elements after it.
    The capacity is unchanged, and an index outside the vector changes
    nothing. *)
Theorem remove_stable_spec v index :
  Vector.items (Vector.remove_stable v index) = delete index (Vector.items v) ∧
  Vector.capacity (Vector.remove_stable v index) = Vector.capacity v ∧
  ((Vector.size v <= index)%nat → Vector.remove_stable v index = v).
Proof.
  destruct v as [l cap]. unfold Vector.remove_stable, Vector.size, Vector.pop_back. simpl.
  destruct (Nat.leb_spec (length l) index) as [Hge|Hlt].
  { split_and!; try done. simpl. symmetry. apply delete_out_of_range. lia. }
  destruct (lookup_lt_is_Some_2 l index Hlt) as [x Hx].
  pose proof (take_drop_middle _ _ _ Hx) as Hsplit.
  assert (Hl1 : length (take index l) = index) by (apply length_take_le; lia).
  clear Hx. revert Hlt Hsplit Hl1.
  generalize (take index l) (drop (S index) l). intros l1 l2 Hlt <- <-.
  rewrite delete_middle, length_app. simpl.
  destruct (Nat.eqb_spec (length l1) (length l1 + S (length l2) - 1)) as [Hlast|Hmid].
  - destruct l2; [|simpl in *; lia]. simpl.
    rewrite removelast_last, app_nil_r. split_and!; [done|done|intros; lia].
  - replace (length l1 + S (length l2) - 1 - length l1)%nat with (length l2) by lia.
    rewrite shift_loop_moves. simpl. rewrite app_assoc, removelast_last.
    split_and!; [done|done|intros; lia].
Qed.

(** X22: [remove_fast(index)] with [index] inside the vector removes the
    element at [index]: what is left is, up to the order, the old elements
    without that one; there is one element less and the capacity is
    unchanged.  Only the slot [index] changes among the slots that are left:
    it takes the old last element. *)
Theorem remove_fast_spec v index x :
  Vector.items v !! index = Some x →
  Vector.items (Vector.remove_fast v index) ≡ₚ delete index (Vector.items v) ∧
  Vector.size (Vector.remove_fast v index) = (Vector.size v - 1)%nat ∧
  Vector.capacity (Vector.remove_fast v index) = Vector.capacity v ∧
  (∀ i, (i < Vector.size v - 1)%nat → i ≠ index →
     Vector.items (Vector.remove_fast v index) !! i = Vector.items v !! i) ∧
  ((index < Vector.size v - 1)%nat →
     Vector.items (Vector.remove_fast v index) !! index = list.last (Vector.items v)).
Proof.
  intros Hx. pose proof (lookup_lt_Some _ _ _ Hx) as Hlt.
  pose proof (remove_fast_perm (Vector.items v) index x (Vector.capacity v) id Hx) as Hp.
  assert (Hid : alter id index (Vector.items v) = Vector.items v).
  { apply list_eq. intros k. destruct (decide (k = index)) as [->|Hk].
    - rewrite list_lookup_alter_eq. by destruct (Vector.items v !! index).
    - by rewrite list_lookup_alter_ne. }
  rewrite Hid in Hp. destruct v as [l cap]. simpl in *.
  split; [done|].
  unfold Vector.remove_fast, Vector.size, Vector.back in *. simpl in *.
  destruct (Nat.leb_spec (length l) index) as [|_]; [lia|].
  destruct l as [|y l0] using rev_ind; [simpl in Hlt; lia|]. clear IHl0.
  rewrite last_snoc. simpl. rewrite removelast_last, length_app. simpl.
  split_and!.
  - rewrite length_insert. lia.
  - done.
  - intros i Hi Hne. rewrite list_lookup_insert_ne by done.
    rewrite lookup_app_l by lia. done.
  - intros Hi. by rewrite list_lookup_insert_eq by lia.
Qed.

Lemma copy_loop_room xs v a :
  (Vector.size v + length xs <= Vector.capacity v)%nat →
  Vector.copy_loop xs v a
    = (true, Vector.Mk (Vector.items v ++ xs) (Vector.capacity v), a).
Proof.
  revert v. induction xs as [|x xs IH]; intros v Hroom; simpl in *.
  - rewrite app_nil_r. by destruct v.
  - pose proof (push_back_cases v x a) as Hp.
    destruct (Vector.push_back v x a) as [[ok v1] a1].
    destruct Hp as ((-> & -> & Hcap) & _ & Hok & _).
    { unfold Vector.fits. lia. } { lia. }
    destruct (Hok eq_refl) as [Hit Hfit].
    rewrite IH.
    + rewrite Hit, Hcap, <- app_assoc. done.
    + unfold Vector.size in *. rewrite Hit, length_app, Hcap. simpl. lia.
Qed.

(** X23: [copy(o)] from a vector whose elements fit its capacity.  It asks
    the allocator once, for the capacity of [o], and not at all when that
    capacity is 0: no [push_back] of the loop grows the buffer.  When it
    returns true the vector has the elements and the capacity of [o]; when
    it returns false the vector is as it was. *)
Theorem copy_spec v o a :
  Vector.fits o →
  let '(ok, v', a') := Vector.copy v o a in
  (ok = true → Vector.items v' = Vector.items o ∧ Vector.capacity v' = Vector.capacity o) ∧
  (ok = false → v' = v) ∧
  (Vector.capacity o = 0%nat → ok = true ∧ a' = a) ∧
  (Vector.capacity o ≠ 0%nat → ok = (Alloc.allocate a).1 ∧ a' = (Alloc.allocate a).2).
Proof.
  intros Hfit. unfold Vector.copy.
  pose proof (reserve_spec Vector.new (Vector.capacity o) a) as Hr.
  destruct (Vector.reserve Vector.new (Vector.capacity o) a) as [[ok rval] a1].
  destruct Hr as (Hit & Hok & Hfail & Hsmall & Hgrow). simpl in *.
  destruct ok; simpl.
  - destruct (Hok eq_refl) as [Hcap _].
    rewrite copy_loop_room.
    2:{ unfold Vector.fits, Vector.size in *. rewrite Hit. simpl. lia. }
    simpl. rewrite Hit. simpl.
    destruct (decide (Vector.capacity o = 0)%nat) as [Hz|Hnz].
    + destruct (Hsmall ltac:(lia)) as (_ & -> & ->). simpl.
      split_and!; try done.
    + destruct (Hgrow ltac:(lia)) as (Hal & Ha1 & Hc). specialize (Hc eq_refl).
      split_and!; try done.
  - destruct (decide (Vector.capacity o = 0)%nat) as [Hz|Hnz].
    + by destruct (Hsmall ltac:(lia)).
    + destruct (Hgrow ltac:(lia)) as (Hal & Ha1 & _).
      split_and!; try done.
Qed.

End VectorFacts.

Section VectorScenarioFacts.

Lemma push_back_spec_witness :
  let v := Vector.Mk [1; 2]%nat 2 in
  Vector.fits v ∧
  let '(ok, v', a') := Vector.push_back v 3%nat [true; false] in
  ((Vector.size v < Vector.capacity v)%nat →
     ok = true ∧ a' = [true; false] ∧ Vector.capacity v' = Vector.capacity v) ∧
  ((Vector.size v = Vector.capacity v)%nat →
     ok = (Alloc.allocate [true; false]).1 ∧ a' = (Alloc.allocate [true; false]).2 ∧
     (ok = true → Vector.capacity v' = Nat.max 1 (2 * Vector.capacity v))) ∧
  (ok = true → Vector.items v' = Vector.items v ++ [3%nat] ∧ Vector.fits v') ∧
  (ok = false → v' = v).
Proof.
  intros v.
  assert (Hfit : Vector.fits v) by (unfold Vector.fits, Vector.size; cbv; lia).
  exact (conj Hfit (push_back_spec v 3%nat [true; false] Hfit)).
Defined.

Lemma remove_fast_spec_witness :
  let v := Vector.Mk [10; 11; 12; 13]%nat 4 in
  Vector.items v !! 1%nat = Some 11%nat ∧
  Vector.items (Vector.remove_fast v 1) ≡ₚ delete 1%nat (Vector.items v) ∧
  Vector.size (Vector.remove_fast v 1) = (Vector.size v - 1)%nat ∧
  Vector.capacity (Vector.remove_fast v 1) = Vector.capacity v ∧
  (∀ i, (i < Vector.size v - 1)%nat → i ≠ 1%nat →
     Vector.items (Vector.remove_fast v 1) !! i = Vector.items v !! i) ∧
  ((1 < Vector.size v - 1)%nat →
     Vector.items (Vector.remove_fast v 1) !! 1%nat = list.last (Vector.items v)).
Proof.
  intros v.
  assert (Hx : Vector.items v !! 1%nat = Some 11%nat) by reflexivity.
  exact (conj Hx (remove_fast_spec v 1 11%nat Hx)).
Defined.

Lemma copy_spec_witness :
  let v := Vector.Mk [7]%nat 1 in
  let o := Vector.Mk [1; 2; 3]%nat 4 in
  Vector.fits o ∧
  let '(ok, v', a') := Vector.copy v o [true; false] in
  (ok = true → Vector.items v' = Vector.items o ∧ Vector.capacity v' = Vector.capacity o) ∧
  (ok = false → v' = v) ∧
  (Vector.capacity o = 0%nat → ok = true ∧ a' = [true; false]) ∧
  (Vector.capacity o ≠ 0%nat →
     ok = (Alloc.allocate [true; false]).1 ∧ a' = (Alloc.allocate [true; false]).2).
Proof.
  intros v o.
  assert (Hfit : Vector.fits o) by (unfold Vector.fits, Vector.size; cbv; lia).
  exact (conj Hfit (copy_spec v o [true; false] Hfit)).
Defined.

End VectorScenarioFacts.

(** ** Table of primes *)

Section UtilityFacts.
Import Utility.
Local Open Scope Z_scope.

Lemma no_divisor_sound fuel :
  ∀ d p, 0 < d → no_divisor fuel d p = true →
  ∀ k, d <= k → k * k <= p → p mod k ≠ 0.
Proof.
  induction fuel as [|fuel IH]; intros d p Hd; simpl; [done|].
  destruct (Z.ltb_spec p (d * d)) as [Hlt|Hge].
  { intros _ k Hk Hkk. nia. }
  destruct (Z.eqb_spec (p mod d) 0) as [|Hmod]; [done|].
  intros Hrec k Hk Hkk.
  destruct (decide (k = d)) as [->|Hne]; [done|].
  apply (IH (d + 1) p); [lia|done|lia|done].
Qed.

Lemma is_prime_sound p : is_prime p = true → Znumtheory.prime p.
Proof.
  unfold is_prime. intros [Hp Hnd]%andb_true_iff.
  apply Z.ltb_lt in Hp.
  pose proof (no_divisor_sound _ 2 p ltac:(lia) Hnd) as Hno.
  apply Znumtheory.prime_alt. split; [done|].
  intros n Hn [q Hq].
  assert (Hq1 : 1 < q < p) by nia.
  destruct (Z_le_gt_dec (n * n) p) as [Hle|Hgt].
  - apply (Hno n); [lia|done|]. rewrite Hq. apply Z.mod_mul. lia.
  - apply (Hno q); [lia|nia|]. rewrite Hq, Z.mul_comm. apply Z.mod_mul. lia.
Qed.

(** X24: [get_prime_power_of_2(n)] for [n] from 0 to 31 is a prime number,
    at least 2^n and at most 2^(n+1), and the primes do not go down as [n]
    goes up; for [n] of 32 or more the function returns 0. *)
Theorem get_prime_power_of_2_prime (n : nat) :
  if (n <? 32)%nat
  then Znumtheory.prime (get_prime_power_of_2 n) ∧
       2 ^ Z.of_nat n <= get_prime_power_of_2 n <= 2 ^ (Z.of_nat n + 1) ∧
       get_prime_power_of_2 n < U32.modulus ∧
       ∀ m : nat, (m <= n)%nat → get_prime_power_of_2 m <= get_prime_power_of_2 n
  else get_prime_power_of_2 n = 0.
Proof.
  destruct (Nat.ltb_spec n 32) as [Hlt|Hge].
  2:{ unfold get_prime_power_of_2. by destruct (Nat.leb_spec 32 n); [|lia]. }
  assert (Hall : forallb (λ i : nat,
            is_prime (get_prime_power_of_2 i)
            && (2 ^ Z.of_nat i <=? get_prime_power_of_2 i)
            && (get_prime_power_of_2 i <=? 2 ^ (Z.of_nat i + 1))
            && (get_prime_power_of_2 i <? U32.modulus)
            && forallb (λ j : nat, get_prime_power_of_2 j <=? get_prime_power_of_2 i)
                       (seq 0 (S i)))
          (seq 0 32) = true) by (vm_compute; reflexivity).
  rewrite forallb_forall in Hall.
  specialize (Hall n). rewrite <- list_elem_of_In, elem_of_seq in Hall.
  specialize (Hall ltac:(lia)).
  apply andb_true_iff in Hall as [Hall Hmono].
  apply andb_true_iff in Hall as [Hall Hlt32].
  apply andb_true_iff in Hall as [Hall Hup].
  apply andb_true_iff in Hall as [Hall Hlow].
  split_and!.
  - by apply is_prime_sound.
  - by apply Z.leb_le.
  - by apply Z.leb_le.
  - by apply Z.ltb_lt.
  - intros m Hm.
    rewrite forallb_forall in Hmono. specialize (Hmono m).
    rewrite <- list_elem_of_In, elem_of_seq in Hmono. apply Z.leb_le, Hmono. lia.
Qed.

End UtilityFacts.

(** ** FNV-1a *)

Section HashFacts.
Import Hash.
Local Open Scope Z_scope.

Lemma lxor_u32_range h b : U32.in_range h → is_byte b → U32.in_range (Z.lxor h b).
Proof.
  unfold U32.in_range, U32.modulus, is_byte. intros Hh Hb. split.
  - apply Z.lxor_nonneg. lia.
  - destruct (decide (Z.lxor h b = 0)) as [->|Hnz]; [lia|].
    assert (Hpos : 0 < Z.lxor h b).
    { assert (0 <= Z.lxor h b) by (apply Z.lxor_nonneg; lia). lia. }
    apply Z.log2_lt_pow2; [done|].
    pose proof (Z.log2_lxor h b ltac:(lia) ltac:(lia)) as Hlog.
    assert (Z.log2 h < 32).
    { destruct (decide (h = 0)) as [->|]; [simpl; lia|]. apply Z.log2_lt_pow2; lia. }
    assert (Z.log2 b < 32).
    { destruct (decide (b = 0)) as [->|]; [simpl; lia|]. apply Z.log2_lt_pow2; lia. }
    lia.
Qed.

Lemma lxor_cancel_r a b c : Z.lxor a c = Z.lxor b c → a = b.
Proof.
  intros Heq.
  assert (Ha : a = Z.lxor (Z.lxor a c) c)
    by (by rewrite Z.lxor_assoc, Z.lxor_nilpotent, Z.lxor_0_r).
  assert (Hb : b = Z.lxor (Z.lxor b c) c)
    by (by rewrite Z.lxor_assoc, Z.lxor_nilpotent, Z.lxor_0_r).
  rewrite Ha, Hb. by rewrite Heq.
Qed.

Lemma lxor_cancel_l a b c : Z.lxor c a = Z.lxor c b → a = b.
Proof. rewrite !(Z.lxor_comm c). apply lxor_cancel_r. Qed.

(** The multiplication by the FNV prime is one to one on [uint32_t]: the
    prime is odd, 899433627 is its inverse modulo 2^32. *)
Lemma mul_prime_inj x y :
  U32.in_range x → U32.in_range y →
  U32.mul x FNV1A_32_PRIME = U32.mul y FNV1A_32_PRIME → x = y.
Proof.
  unfold U32.in_range, U32.mul, U32.wrap, U32.modulus, FNV1A_32_PRIME.
  intros Hx Hy Heq.
  assert (Hinv : ∀ z, 0 <= z < 2 ^ 32 →
            ((z * 16777619) mod 2 ^ 32 * 899433627) mod 2 ^ 32 = z).
  { intros z Hz. rewrite Z.mul_mod_idemp_l by lia.
    rewrite <- Z.mul_assoc.
    change (16777619 * 899433627) with (3513497 * 2 ^ 32 + 1).
    rewrite Z.mul_add_distr_l, Z.mul_1_r, Z.mul_assoc.
    rewrite Z.add_comm, Z.mod_add by lia. apply Z.mod_small. lia. }
  rewrite <- (Hinv x Hx), <- (Hinv y Hy). by rewrite Heq.
Qed.

Lemma mul_u32_range x y : U32.in_range (U32.mul x y).
Proof. unfold U32.in_range, U32.mul, U32.wrap, U32.modulus. apply Z.mod_pos_bound. lia. Qed.

Lemma fnv_from_inj buf :
  ∀ h1 h2, U32.in_range h1 → U32.in_range h2 → Forall is_byte buf →
  fnv_from h1 buf = fnv_from h2 buf → h1 = h2.
Proof.
  induction buf as [|b buf IH]; intros h1 h2 H1 H2 Hb; simpl; [done|].
  inversion Hb as [|? ? Hb0 Hbs]; subst.
  intros Heq. apply IH in Heq; [|apply mul_u32_range|apply mul_u32_range|done].
  apply mul_prime_inj in Heq; [|by apply lxor_u32_range|by apply lxor_u32_range].
  by apply lxor_cancel_r in Heq.
Qed.

Lemma fnv_from_range buf : ∀ h, U32.in_range h → U32.in_range (fnv_from h buf).
Proof.
  induction buf as [|b buf IH]; intros h Hh; simpl; [done|]. apply IH, mul_u32_range.
Qed.

(** X25: FNV-1a tells apart two buffers of the same length that differ in
    one byte only: two buffers that are equal but for the byte at one
    position never have the same [fnv1a] value. *)
Theorem fnv1a_one_byte_apart (pre suf : list Z) (b1 b2 : Z) :
  is_byte b1 → is_byte b2 → Forall is_byte suf → b1 ≠ b2 →
  fnv1a (pre ++ b1 :: suf) ≠ fnv1a (pre ++ b2 :: suf).
Proof.
  intros Hb1 Hb2 Hsuf Hne. unfold fnv1a. rewrite !fold_left_app. simpl.
  set (h := fold_left _ pre FNV1A_32_OFFSET).
  assert (Hh : U32.in_range h).
  { apply (fnv_from_range pre). unfold U32.in_range, U32.modulus, FNV1A_32_OFFSET. lia. }
  intros Heq. apply Hne.
  apply (fnv_from_inj suf) in Heq; [|apply mul_u32_range|apply mul_u32_range|done].
  apply mul_prime_inj in Heq; [|by apply lxor_u32_range|by apply lxor_u32_range].
  by apply lxor_cancel_l in Heq.
Qed.

Lemma fnv1a_one_byte_apart_witness :
  is_byte 7 ∧ is_byte 8 ∧ Forall is_byte [3; 4] ∧ 7 ≠ 8 ∧
  fnv1a ([1; 2] ++ 7 :: [3; 4]) ≠ fnv1a ([1; 2] ++ 8 :: [3; 4]).
Proof.
  assert (Hb1 : is_byte 7) by (unfold is_byte; lia).
  assert (Hb2 : is_byte 8) by (unfold is_byte; lia).
  assert (Hs : Forall is_byte [3; 4]) by (repeat constructor; unfold is_byte; lia).
  assert (Hne : 7 ≠ 8) by lia.
  exact (conj Hb1 (conj Hb2 (conj Hs (conj Hne
           (fnv1a_one_byte_apart [1; 2] [3; 4] 7 8 Hb1 Hb2 Hs Hne))))).
Defined.

Lemma fnv1a_cstr_from_spec (s rest : list Z) :
  ∀ h, Forall (λ c, c ≠ 0) s →
  fnv1a_cstr_from h (s ++ 0 :: rest) = Some (fnv_from h s) ∧
  fnv1a_cstr_from h s = None.
Proof.
  induction s as [|c s IH]; intros h Hs; simpl; [done|].
  inversion Hs as [|? ? Hc Hs']; subst.
  destruct (Z.eqb_spec c 0) as [|_]; [done|]. by apply IH.
Qed.

(** X26: [fnv1a] on a C string hashes the characters before the first NUL:
    on memory that holds a string without NUL followed by a NUL it returns
    what [fnv1a(buffer, sz)] returns on the string, whatever follows the
    NUL, so the hash of [str.c_str()] as a C string and the hash of the
    [std::string] [str] agree; on memory without a NUL the loop runs off its
    end. *)
Theorem fnv1a_cstr_stops_at_nul (str rest : list Z) :
  Forall (λ c, c ≠ 0) str →
  fnv1a_cstr (str ++ 0 :: rest) = Some (fnv1a str) ∧
  fnv1a_cstr (c_str str) = Some (fnv1a_string str) ∧
  fnv1a_cstr str = None.
Proof.
  intros Hs. unfold fnv1a_cstr, fnv1a_string, c_str.
  rewrite take_app_length.
  destruct (fnv1a_cstr_from_spec str rest FNV1A_32_OFFSET Hs) as [H1 H2].
  destruct (fnv1a_cstr_from_spec str [] FNV1A_32_OFFSET Hs) as [H3 _].
  done.
Qed.

Lemma fnv1a_cstr_stops_at_nul_witness :
  Forall (λ c, c ≠ 0) [104; 105] ∧
  fnv1a_cstr ([104; 105] ++ 0 :: [33]) = Some (fnv1a [104; 105]) ∧
  fnv1a_cstr (c_str [104; 105]) = Some (fnv1a_string [104; 105]) ∧
  fnv1a_cstr [104; 105] = None.
Proof.
  assert (Hs : Forall (λ c, c ≠ 0) [104; 105]) by (repeat constructor; lia).
  exact (conj Hs (fnv1a_cstr_stops_at_nul [104; 105] [33] Hs)).
Defined.

End HashFacts.

(** ** Object pool *)

Section ObjectPoolFacts.
Import ObjectPool.

Lemma add_loop_spec n :
  ∀ i p a r p' a',
  Vector.fits (m_vector p) →
  add_loop n i p a = (r, p', a') →
  ∃ k, r = (i + k)%nat ∧ (k <= n)%nat ∧
    Vector.items (m_vector p') = Vector.items (m_vector p) ++ seq (allocated p) k ∧
    (allocated p + k <= allocated p' <= allocated p + k + 1)%nat ∧
    Vector.fits (m_vector p') ∧ m_elasticity p' = m_elasticity p.
Proof.
  induction n as [|n IH]; intros i p a r p' a' Hfit; simpl.
  { intros [= <- <- <-]. exists 0%nat. simpl. rewrite app_nil_r.
    split_and!; try done; lia. }
  destruct (Alloc.allocate a) as [tmp a1]. destruct tmp; simpl.
  2:{ intros [= <- <- <-]. exists 0%nat. simpl. rewrite app_nil_r.
      split_and!; try done; lia. }
  pose proof (push_back_cases (m_vector p) (allocated p) a1 Hfit) as Hp.
  destruct (Vector.push_back (m_vector p) (allocated p) a1) as [[pushed v] a2].
  destruct Hp as (_ & _ & Hok & Hfail).
  destruct pushed; simpl.
  - destruct (Hok eq_refl) as [Hit Hfit1].
    intros Hrec. apply IH in Hrec as (k & -> & Hk & Hitems & Hal & Hfit' & He); [|done].
    simpl in *. exists (S k). split_and!; try done; try lia.
    rewrite Hitems, Hit, <- app_assoc. done.
  - intros [= <- <- <-]. exists 0%nat. simpl. rewrite (Hfail eq_refl), app_nil_r.
    split_and!; try done; lia.
Qed.

Lemma add_to_pool_spec p num a r p' a' :
  Vector.fits (m_vector p) →
  add_to_pool p num a = (r, p', a') →
  (r <= num)%nat ∧
  Vector.items (m_vector p') = Vector.items (m_vector p) ++ seq (allocated p) r ∧
  (allocated p + r <= allocated p' <= allocated p + r + 1)%nat ∧
  Vector.fits (m_vector p') ∧ m_elasticity p' = m_elasticity p.
Proof.
  intros Hfit. unfold add_to_pool.
  pose proof (reserve_spec (m_vector p) (Vector.size (m_vector p) + num) a) as Hr.
  destruct (Vector.reserve _ _ a) as [[ok v] a1].
  destruct Hr as (Hit & Hok & Hfail & _).
  assert (Hfitv : Vector.fits v).
  { unfold Vector.fits, Vector.size in *. rewrite Hit.
    destruct ok; [destruct (Hok eq_refl); lia|by rewrite (Hfail eq_refl)]. }
  intros Hl. apply add_loop_spec in Hl as (k & -> & Hk & Hitems & Hal & Hfit' & He);
    [|done].
  simpl in *. rewrite Hit in Hitems. done.
Qed.

Lemma get_cases p a r p' a' :
  Vector.fits (m_vector p) →
  get p a = (r, p', a') →
  ∃ n,
    (empty p = false → n = 0%nat ∧ a' = a) ∧
    (allocated p + n <= allocated p' <= allocated p + n + 1)%nat ∧
    match r with
    | Some x =>
        Vector.items (m_vector p) ++ seq (allocated p) n = Vector.items (m_vector p') ++ [x]
    | None =>
        empty p = true ∧ n = 0%nat ∧ Vector.items (m_vector p') = Vector.items (m_vector p)
    end ∧
    Vector.fits (m_vector p') ∧ m_elasticity p' = m_elasticity p.
Proof.
  intros Hfit. unfold get, empty.
  assert (Hpop : ∀ p1 (a1 : Alloc.t), Vector.items (m_vector p1) ≠ [] → Vector.fits (m_vector p1) →
            match Vector.back (m_vector p1) with
            | Some rval =>
                (Some rval, with_vector p1 (Vector.pop_back (m_vector p1)), a1)
            | None => (None, p1, a1)
            end = (r, p', a') →
            ∃ x, r = Some x ∧ a' = a1 ∧
                 Vector.items (m_vector p1) = Vector.items (m_vector p') ++ [x] ∧
                 allocated p' = allocated p1 ∧ m_elasticity p' = m_elasticity p1 ∧
                 Vector.fits (m_vector p')).
  { intros p1 a1 Hne Hf1. unfold Vector.back, Vector.pop_back.
    unfold Vector.fits, Vector.size in Hf1.
    destruct (Vector.items (m_vector p1)) as [|y l] using rev_ind; [done|]. clear IHl.
    rewrite last_snoc, removelast_last. intros [= <- <- <-]. exists y.
    split_and!; try done. unfold Vector.fits, Vector.size. simpl.
    rewrite length_app in Hf1. simpl in Hf1. lia. }
  destruct (Vector.is_empty (m_vector p)) eqn:Ee.
  - destruct (add_to_pool p (m_elasticity p) a) as [[n p1] a1] eqn:Ea.
    apply add_to_pool_spec in Ea as (Hr & Hit & Hal & Hfit1 & He1); [|done].
    destruct (Nat.ltb_spec n 1) as [Hlt|Hge]; simpl.
    + intros [= <- <- <-]. exists 0%nat. assert (n = 0%nat) as -> by lia.
      simpl in Hit. rewrite app_nil_r in Hit. split_and!; try done; lia.
    + intros Hg. apply Hpop in Hg as (x & -> & -> & Hit' & Hal' & He' & Hf'); [|
        rewrite Hit; destruct n; [lia|]; simpl; by destruct (Vector.items (m_vector p)) |done].
      exists n. split_and!; try done; try lia; congruence.
  - simpl. intros Hg. apply Hpop in Hg as (x & -> & -> & Hit' & Hal' & He' & Hf'); [| |done].
    + exists 0%nat. simpl. rewrite app_nil_r. split_and!; try done; lia.
    + unfold Vector.is_empty, Vector.size in Ee. apply Nat.eqb_neq in Ee.
      by destruct (Vector.items (m_vector p)).
Qed.

Lemma NoDup_fresh (l out : list nat) al n :
  NoDup (l ++ out) → (∀ x, x ∈ l ++ out → (x < al)%nat) →
  NoDup ((l ++ seq al n) ++ out).
Proof.
  intros Hnd Hbd. rewrite <- app_assoc.
  apply NoDup_app in Hnd as (Hn1 & Hdis & Hn2).
  apply NoDup_app. split_and!; [done| |].
  - intros x Hx [Hs|Ho]%elem_of_app.
    + apply elem_of_seq in Hs. specialize (Hbd x). rewrite elem_of_app in Hbd.
      specialize (Hbd (or_introl Hx)). lia.
    + by apply (Hdis x).
  - apply NoDup_app. split_and!; [apply NoDup_seq| |done].
    intros x Hs Ho. apply elem_of_seq in Hs. specialize (Hbd x).
    rewrite elem_of_app in Hbd. specialize (Hbd (or_intror Ho)). lia.
Qed.

Lemma bound_fresh (l out : list nat) al n :
  (∀ x, x ∈ l ++ out → (x < al)%nat) →
  ∀ x, x ∈ (l ++ seq al n) ++ out → (x < al + n)%nat.
Proof.
  intros Hbd x. rewrite <- app_assoc, !elem_of_app, elem_of_seq.
  intros [Hx|[Hx|Hx]]; [|lia|].
  - specialize (Hbd x). rewrite elem_of_app in Hbd. specialize (Hbd (or_introl Hx)). lia.
  - specialize (Hbd x). rewrite elem_of_app in Hbd. specialize (Hbd (or_intror Hx)). lia.
Qed.

(** What a program and its pool keep: no pointer is twice in the pool or
    with the program, every pointer has come from the allocator, and the
    vector of the pool has room for its elements. *)
Lemma step_keeps o c :
  NoDup (Vector.items (m_vector (pool c)) ++ out c) →
  (∀ x, x ∈ Vector.items (m_vector (pool c)) ++ out c → (x < allocated (pool c))%nat) →
  Vector.fits (m_vector (pool c)) →
  NoDup (Vector.items (m_vector (pool (step o c))) ++ out (step o c)) ∧
  (∀ x, x ∈ Vector.items (m_vector (pool (step o c))) ++ out (step o c) →
        (x < allocated (pool (step o c)))%nat) ∧
  Vector.fits (m_vector (pool (step o c))).
Proof.
  intros Hnd Hbd Hfit.
  assert (Hadd : ∀ num r p' a',
            add_to_pool (pool c) num (alloc c) = (r, p', a') →
            NoDup (Vector.items (m_vector p') ++ out c) ∧
            (∀ x, x ∈ Vector.items (m_vector p') ++ out c → (x < allocated p')%nat) ∧
            Vector.fits (m_vector p') ∧
            Vector.items (m_vector p')
              = Vector.items (m_vector (pool c)) ++ seq (allocated (pool c)) r).
  { intros num r p' a' Ha.
    destruct (add_to_pool_spec _ _ _ _ _ _ Hfit Ha) as (Hr & Hit & Hal & Hfit' & _).
    split_and!; [| |done|done].
    - rewrite Hit. by apply NoDup_fresh.
    - rewrite Hit. intros x Hx. pose proof (bound_fresh _ _ _ r Hbd x Hx). lia. }
  destruct o as [|k|num|e]; simpl.
  - (* get *)
    destruct (get (pool c) (alloc c)) as [[r p'] a'] eqn:Eg. simpl.
    destruct (get_cases _ _ _ _ _ Hfit Eg) as (n & _ & Hal & Hr & Hfit' & _).
    assert (Hfresh : NoDup ((Vector.items (m_vector (pool c)) ++ seq (allocated (pool c)) n)
                            ++ out c) ∧
              ∀ x, x ∈ (Vector.items (m_vector (pool c)) ++ seq (allocated (pool c)) n)
                       ++ out c → (x < allocated (pool c) + n)%nat).
    { split; [by apply NoDup_fresh|by apply bound_fresh]. }
    destruct Hfresh as [Hnd' Hbd'].
    destruct r as [x|].
    + rewrite Hr, <- app_assoc in Hnd', Hbd'. simpl in Hnd', Hbd'.
      split_and!; [done| |done]. intros y Hy. specialize (Hbd' y Hy). lia.
    + destruct Hr as (_ & -> & Hit). simpl in *. rewrite Hit.
      split_and!; [done| |done]. intros y Hy. specialize (Hbd y Hy). lia.
  - (* put *)
    destruct (out c !! k) as [x|] eqn:Ek; [|done]. simpl.
    pose proof (push_back_cases (m_vector (pool c)) x (alloc c) Hfit) as Hp.
    destruct (Vector.push_back (m_vector (pool c)) x (alloc c)) as [[pushed v] a1].
    destruct Hp as (_ & _ & Hok & Hfail). simpl.
    pose proof (delete_Permutation _ _ _ Ek) as Hperm.
    destruct pushed.
    + destruct (Hok eq_refl) as [Hit Hfit1]. rewrite Hit.
      assert (Hp2 : (Vector.items (m_vector (pool c)) ++ [x]) ++ delete k (out c)
                    ≡ₚ Vector.items (m_vector (pool c)) ++ out c).
      { rewrite <- app_assoc. simpl. by rewrite <- Hperm. }
      split_and!; [by rewrite Hp2| |done].
      intros y Hy. apply Hbd. by rewrite <- Hp2.
    + rewrite (Hfail eq_refl).
      assert (Hsub : ∀ y, y ∈ Vector.items (m_vector (pool c)) ++ delete k (out c) →
                          y ∈ Vector.items (m_vector (pool c)) ++ out c).
      { intros y [Hy|Hy]%elem_of_app; apply elem_of_app; [by left|right].
        rewrite Hperm. apply elem_of_cons. by right. }
      split_and!; [|by intros y Hy; apply Hbd, Hsub|done].
      rewrite Hperm in Hnd. apply NoDup_app in Hnd as (Hn1 & Hdis & Hn2).
      apply NoDup_cons in Hn2 as [_ Hn2].
      apply NoDup_app. split_and!; [done| |done].
      intros y Hy Ho. apply (Hdis y Hy). apply elem_of_cons. by right.
  - (* add_to_pool *)
    destruct (add_to_pool (pool c) num (alloc c)) as [[n p1] a1] eqn:Ea.
    destruct (Hadd _ _ _ _ Ea) as (Hn1 & Hb1 & Hf1 & _). done.
  - done.
Qed.

Lemma start_keeps num e a :
  NoDup (Vector.items (m_vector (pool (start num e a))) ++ out (start num e a)) ∧
  (∀ x, x ∈ Vector.items (m_vector (pool (start num e a))) ++ out (start num e a) →
        (x < allocated (pool (start num e a)))%nat) ∧
  Vector.fits (m_vector (pool (start num e a))).
Proof.
  unfold start, new_pool.
  destruct (add_to_pool _ num a) as [[n p] a1] eqn:Ea. simpl.
  apply add_to_pool_spec in Ea as (Hr & Hit & Hal & Hfit & _).
  2:{ unfold Vector.fits, Vector.size. simpl. lia. }
  simpl in *. rewrite app_nil_r, Hit. split_and!; [apply NoDup_seq| |done].
  intros x Hx%elem_of_seq. lia.
Qed.

Lemma run_keeps ops c :
  NoDup (Vector.items (m_vector (pool c)) ++ out c) →
  (∀ x, x ∈ Vector.items (m_vector (pool c)) ++ out c → (x < allocated (pool c))%nat) →
  Vector.fits (m_vector (pool c)) →
  NoDup (Vector.items (m_vector (pool (run ops c))) ++ out (run ops c)) ∧
  (∀ x, x ∈ Vector.items (m_vector (pool (run ops c))) ++ out (run ops c) →
        (x < allocated (pool (run ops c)))%nat) ∧
  Vector.fits (m_vector (pool (run ops c))).
Proof.
  revert c. induction ops as [|o ops IH]; intros c Hnd Hbd Hfit; simpl; [done|].
  destruct (step_keeps o c Hnd Hbd Hfit) as (H1 & H2 & H3). by apply IH.
Qed.

(** X28: an object pool never hands out a pointer twice.  After any
    sequence of [get], [put] of a pointer got and not yet put back,
    [add_to_pool] and [set_elasticity] on a pool from the constructor, with
    any allocator behaviour, the pointers in the pool and the pointers the
    program holds are all different and all came from the allocator; the
    pointer that the next [get] returns is not one the program holds and is
    no longer in the pool, and on a pool that is not empty [get] makes no
    allocation and returns the pointer put last.  [get] returns null only on
    an empty pool that it could not refill. *)
Theorem pool_hands_out_distinct (num e : nat) (a : Alloc.t) (ops : list op) :
  let c := run ops (start num e a) in
  NoDup (Vector.items (m_vector (pool c)) ++ out c) ∧
  (∀ x, x ∈ Vector.items (m_vector (pool c)) ++ out c → (x < allocated (pool c))%nat) ∧
  ∀ r p' a', get (pool c) (alloc c) = (r, p', a') →
    match r with
    | Some x =>
        (x ∉ out c) ∧ (x ∉ Vector.items (m_vector p')) ∧
        (empty (pool c) = false →
           a' = alloc c ∧
           Vector.items (m_vector (pool c)) = Vector.items (m_vector p') ++ [x])
    | None => empty (pool c) = true ∧ empty p' = true
    end.
Proof.
  intros c.
  destruct (start_keeps num e a) as (Hn0 & Hb0 & Hf0).
  destruct (run_keeps ops _ Hn0 Hb0 Hf0) as (Hnd & Hbd & Hfit). fold c in Hnd, Hbd, Hfit.
  split; [done|]. split; [done|].
  intros r p' a' Hg.
  destruct (get_cases _ _ _ _ _ Hfit Hg) as (n & Hne & Hal & Hr & Hfit' & _).
  destruct r as [x|].
  - pose proof (NoDup_fresh _ _ _ n Hnd Hbd) as Hfresh.
    rewrite Hr, <- app_assoc in Hfresh. simpl in Hfresh.
    apply NoDup_app in Hfresh as (_ & Hdis & Hn2).
    apply NoDup_cons in Hn2 as [Hx _].
    split_and!; [done| |].
    + intros Hin. apply (Hdis x Hin). apply elem_of_cons. by left.
    + intros Hemp. destruct (Hne Hemp) as [-> ->]. simpl in Hr.
      rewrite app_nil_r in Hr. done.
  - destruct Hr as (He & _ & Hit). split; [done|].
    unfold empty, Vector.is_empty, Vector.size in *. by rewrite Hit.
Qed.

(** X29: a pointer that [put] has added to the pool is the one the next
    [get] returns, and the pool is then as before the [put].  With room left
    in the vector [put] makes no allocation and adds the pointer.  On a full
    vector [put] asks the allocator once: when the allocator grants, the
    pointer is added; when it refuses, the pool is left as it was and the
    pointer is in no pool. *)
Theorem pool_put_then_get (p : object_pool) (x : nat) (a a2 : Alloc.t) :
  Vector.fits (m_vector p) →
  let '(p1, a1) := put p (Some x) a in
  ((size p < Vector.capacity (m_vector p))%nat → a1 = a ∧ size p1 = S (size p)) ∧
  (size p = Vector.capacity (m_vector p) →
     a1 = (Alloc.allocate a).2 ∧
     ((Alloc.allocate a).1 = true → size p1 = S (size p)) ∧
     ((Alloc.allocate a).1 = false → p1 = p)) ∧
  (size p1 = S (size p) ∨ (p1 = p ∧ (Alloc.allocate a).1 = false)) ∧
  (size p1 = S (size p) →
     ∃ p2, get p1 a2 = (Some x, p2, a2) ∧
           Vector.items (m_vector p2) = Vector.items (m_vector p)).
Proof.
  intros Hfit. unfold put, size.
  pose proof (push_back_cases (m_vector p) x a Hfit) as Hp.
  destruct (Vector.push_back (m_vector p) x a) as [[pushed v] a1].
  destruct Hp as (Hroom & Hfull & Hok & Hfail). simpl.
  destruct pushed.
  - destruct (Hok eq_refl) as [Hit Hfit1].
    assert (Hsz : Vector.size v = S (Vector.size (m_vector p))).
    { unfold Vector.size. rewrite Hit, length_app. simpl. lia. }
    split_and!.
    + intros Hlt. by destruct (Hroom Hlt) as (_ & -> & _).
    + intros He. destruct (Hfull He) as (Hal & -> & _).
      split_and!; [done|done|]. intros Hno. congruence.
    + by left.
    + intros _. unfold get. simpl.
      replace (Vector.is_empty v) with false
        by (unfold Vector.is_empty; rewrite Hsz; done).
      simpl. unfold Vector.back, Vector.pop_back. rewrite Hit, last_snoc.
      eexists. split; [done|]. simpl. by rewrite removelast_last.
  - rewrite (Hfail eq_refl).
    assert (Hp : with_vector p (m_vector p) = p) by (by destruct p).
    split_and!.
    + intros Hlt. by destruct (Hroom Hlt).
    + intros He. destruct (Hfull He) as (Hal & -> & _).
      split_and!; [done| |done]. intros Hyes. congruence.
    + right. split; [done|].
      unfold Vector.fits in Hfit.
      destruct (decide (Vector.size (m_vector p) = Vector.capacity (m_vector p))) as [He|Hn].
      * by destruct (Hfull He) as (<- & _).
      * by destruct (Hroom ltac:(lia)).
    + intros Hs. lia.
Qed.

(** A pool of two objects in a full vector: [put] with an allocator that
    refuses, then [put] with one that grants. *)
Lemma pool_put_then_get_witness :
  let p := (new_pool 2 1 []).1 in
  let prop (a a2 : Alloc.t) :=
    let '(p1, a1) := put p (Some 7%nat) a in
    ((size p < Vector.capacity (m_vector p))%nat → a1 = a ∧ size p1 = S (size p)) ∧
    (size p = Vector.capacity (m_vector p) →
       a1 = (Alloc.allocate a).2 ∧
       ((Alloc.allocate a).1 = true → size p1 = S (size p)) ∧
       ((Alloc.allocate a).1 = false → p1 = p)) ∧
    (size p1 = S (size p) ∨ (p1 = p ∧ (Alloc.allocate a).1 = false)) ∧
    (size p1 = S (size p) →
       ∃ p2, get p1 a2 = (Some 7%nat, p2, a2) ∧
             Vector.items (m_vector p2) = Vector.items (m_vector p)) in
  Vector.fits (m_vector p) ∧ size p = Vector.capacity (m_vector p) ∧
  (Alloc.allocate [false]).1 = false ∧
  prop [false] [] ∧ prop [] [].
Proof.
  intros p prop.
  assert (Hfit : Vector.fits (m_vector p)) by (unfold Vector.fits, Vector.size; cbv; lia).
  split_and!; [exact Hfit|reflexivity|reflexivity| |].
  - exact (pool_put_then_get p 7%nat [false] [] Hfit).
  - exact (pool_put_then_get p 7%nat [] [] Hfit).
Defined.

End ObjectPoolFacts.

(** ** [unique_ptr] *)

Section UniquePtrFacts.
Import UniquePtr.

Lemma uptr_init_inv n a : inv (init n a).
Proof.
  constructor; simpl.
  - intros i u b Hi Hb. apply lookup_replicate in Hi as [-> _]. done.
  - intros i j u v b Hi _ Hb. apply lookup_replicate in Hi as [-> _]. done.
  - intros b o Hb. done.
Qed.

(** [ptrs[i]] gives up what it holds, without the destructor running. *)
Lemma drop_inv st i x a :
  inv st → m_data x = None →
  inv (MkState (heap st) (<[i := x]> (ptrs st)) a).
Proof.
  intros [Hal Hun Hon] Hx. constructor; simpl; [| |done].
  - intros k u b Hk Hb.
    destruct (decide (k = i)) as [->|Hne].
    + apply list_lookup_insert_Some in Hk as [(_ & <- & _)|[? _]]; [congruence|done].
    + rewrite list_lookup_insert_ne in Hk by done. by apply (Hal k).
  - intros k1 k2 u v b Hk1 Hk2 Hu Hv.
    destruct (decide (k1 = i)) as [->|Hne1].
    { apply list_lookup_insert_Some in Hk1 as [(_ & <- & _)|[? _]]; [congruence|done]. }
    destruct (decide (k2 = i)) as [->|Hne2].
    { apply list_lookup_insert_Some in Hk2 as [(_ & <- & _)|[? _]]; [congruence|done]. }
    rewrite list_lookup_insert_ne in Hk1, Hk2 by done. by apply (Hun k1 k2 u v b).
Qed.

(** [ptrs[i]] is reset and takes over [x], which no pointer holds. *)
Lemma replace_inv st i u x a :
  inv st → ptrs st !! i = Some u →
  (∀ b, m_data x = Some b →
        m_alloc x = true ∧ heap st !! b = Some (MkObj 0 0) ∧
        ∀ j v, ptrs st !! j = Some v → m_data v ≠ Some b) →
  inv (MkState (reset u (heap st)).2 (<[i := x]> (ptrs st)) a).
Proof.
  intros [Hal Hun Hon] Hi Hx.
  assert (Hheap : ∀ b, m_data u ≠ Some b → (reset u (heap st)).2 !! b = heap st !! b).
  { intros b Hb. unfold reset, release. simpl.
    destruct (m_data u) as [b0|]; [|done]. simpl.
    assert (b0 ≠ b) by congruence.
    destruct (m_alloc u); simpl; by rewrite ?list_lookup_alter_ne. }
  assert (Hnot : ∀ b, m_data x = Some b → m_data u ≠ Some b).
  { intros b Hb. by apply (proj2 (proj2 (Hx b Hb)) i u). }
  constructor; simpl.
  - intros k w b Hk Hb.
    destruct (decide (k = i)) as [->|Hne].
    + apply list_lookup_insert_Some in Hk as [(_ & <- & _)|[? _]]; [|done].
      destruct (Hx b Hb) as (Ha & Hh & _). split; [done|].
      rewrite Hheap; [done|by apply Hnot].
    + rewrite list_lookup_insert_ne in Hk by done.
      destruct (Hal k w b Hk Hb) as [Ha Hh]. split; [done|].
      rewrite Hheap; [done|]. intros Hu. apply Hne. by apply (Hun k i w u b).
  - intros k1 k2 w1 w2 b Hk1 Hk2 Hw1 Hw2.
    destruct (decide (k1 = i)) as [->|Hne1], (decide (k2 = i)) as [->|Hne2]; [done| | |].
    + apply list_lookup_insert_Some in Hk1 as [(_ & <- & _)|[? _]]; [|done].
      rewrite list_lookup_insert_ne in Hk2 by done.
      by destruct (proj2 (proj2 (Hx b Hw1)) k2 w2 Hk2).
    + apply list_lookup_insert_Some in Hk2 as [(_ & <- & _)|[? _]]; [|done].
      rewrite list_lookup_insert_ne in Hk1 by done.
      by destruct (proj2 (proj2 (Hx b Hw2)) k1 w1 Hk1).
    + rewrite list_lookup_insert_ne in Hk1, Hk2 by done. by apply (Hun k1 k2 w1 w2 b).
  - intros b o. unfold reset, release. simpl.
    destruct (m_data u) as [b0|] eqn:Hu; simpl; [|apply Hon].
    destruct (Hal i u b0 Hi Hu) as [-> Hb0]. simpl.
    destruct (decide (b = b0)) as [->|Hne].
    + rewrite !list_lookup_alter_eq, Hb0. simpl. intros [= <-]. simpl. split; [lia|done].
    + rewrite !list_lookup_alter_ne by done. apply Hon.
Qed.

Lemma reset_data u hp : m_data (reset u hp).1 = None.
Proof. unfold reset, release. simpl. by destruct (m_data u). Qed.

(** A pointer that holds [b] is reset: the destructor of [b] runs once and
    its storage goes back once. *)
Lemma reset_destroys st i u b :
  inv st → ptrs st !! i = Some u → m_data u = Some b →
  (reset u (heap st)).2 !! b = Some (MkObj 1 1).
Proof.
  intros [Hal _ _] Hi Hu. destruct (Hal i u b Hi Hu) as [Ha Hb].
  unfold reset, release. simpl. rewrite Hu, Ha. simpl.
  by rewrite !list_lookup_alter_eq, Hb.
Qed.

Lemma uptr_step_inv o st : inv st → inv (step o st).
Proof.
  intros Hinv. destruct o as [i|i j|i|i j|i]; simpl.
  - (* make_unique *)
    unfold make_unique. destruct (Alloc.allocate (alloc st)) as [tmp a1].
    destruct tmp; simpl.
    + unfold assign. simpl. destruct (ptrs st !! i) as [u|] eqn:Hi.
      * set (st1 := MkState (heap st ++ [MkObj 0 0]) (ptrs st) a1).
        assert (Hinv1 : inv st1).
        { destruct Hinv as [Hal Hun Hon]. constructor; simpl; [|done|].
          - intros k w b Hk Hb. destruct (Hal k w b Hk Hb) as [Ha Hh].
            split; [done|]. rewrite lookup_app_l; [done|by eapply lookup_lt_Some].
          - intros b o. destruct (decide (b < length (heap st))%nat).
            + rewrite lookup_app_l by done. apply Hon.
            + rewrite lookup_app_r by lia.
              destruct (b - length (heap st))%nat; simpl; [|done].
              intros [= <-]. simpl. split; [lia|done]. }
        rewrite (surjective_pairing (reset u _)).
        apply (replace_inv st1 i u _ a1 Hinv1 Hi). simpl.
        intros b [= <-]. split_and!; [done| |].
        -- rewrite lookup_app_r by lia. by rewrite Nat.sub_diag.
        -- intros j v Hj Hv. destruct Hinv as [Hal _ _].
           destruct (Hal j v _ Hj Hv) as [_ Hh]. apply lookup_lt_Some in Hh. lia.
      * destruct Hinv as [Hal Hun Hon]. constructor; simpl; [|done|].
        -- intros k w b Hk Hb. destruct (Hal k w b Hk Hb) as [Ha Hh].
           split; [done|]. rewrite lookup_app_l; [done|by eapply lookup_lt_Some].
        -- intros b o. destruct (decide (b < length (heap st))%nat).
           ++ rewrite lookup_app_l by done. apply Hon.
           ++ rewrite lookup_app_r by lia.
              destruct (b - length (heap st))%nat; simpl; [|done].
              intros [= <-]. simpl. split; [lia|done].
    + unfold assign. simpl. destruct (ptrs st !! i) as [u|] eqn:Hi.
      * rewrite (surjective_pairing (reset u _)).
        apply (replace_inv (MkState (heap st) (ptrs st) a1) i u null a1); [|done|done].
        by destruct Hinv.
      * by destruct Hinv.
  - (* move *)
    destruct (ptrs st !! i) as [u|] eqn:Hi; [|done].
    destruct (ptrs st !! j) as [o|] eqn:Hj; [|done].
    case_bool_decide as Hij; [done|].
    unfold assign. rewrite Hi. rewrite (surjective_pairing (reset u _)). simpl.
    rewrite list_insert_insert_ne by done.
    set (st0 := MkState (heap st) (<[j := null]> (ptrs st)) (alloc st)).
    assert (Hinv0 : inv st0) by (by apply drop_inv).
    change (inv (MkState (reset u (heap st0)).2
                         (<[i := MkPtr (m_alloc o) (m_data o)]> (ptrs st0)) (alloc st))).
    apply (replace_inv st0 i u); [done| |].
    + simpl. by rewrite list_lookup_insert_ne.
    + simpl. intros b Hb. destruct Hinv as [Hal Hun Hon].
      destruct (Hal j o b Hj Hb) as [Ha Hh]. split_and!; [done|done|].
      intros k v Hk Hv.
      destruct (decide (k = j)) as [->|Hne].
      * apply list_lookup_insert_Some in Hk as [(_ & <- & _)|[? _]]; done.
      * rewrite list_lookup_insert_ne in Hk by done. apply Hne. by apply (Hun k j v o b).
  - (* reset *)
    destruct (ptrs st !! i) as [u|] eqn:Hi; [|done].
    rewrite (surjective_pairing (reset u _)).
    apply (replace_inv st i u); [done|done|]. intros b. by rewrite reset_data.
  - (* swap *)
    destruct (ptrs st !! i) as [u|] eqn:Hi; [|done].
    destruct (ptrs st !! j) as [o|] eqn:Hj; [|done].
    destruct Hinv as [Hal Hun Hon].
    assert (Hlk : ∀ k w, <[j := u]> (<[i := o]> (ptrs st)) !! k = Some w →
              ptrs st !! (if decide (k = j) then i else if decide (k = i) then j else k)
              = Some w).
    { intros k w Hk. destruct (decide (k = j)) as [->|Hnj].
      - apply list_lookup_insert_Some in Hk as [(_ & <- & _)|[? _]]; done.
      - rewrite list_lookup_insert_ne in Hk by done.
        destruct (decide (k = i)) as [->|Hni].
        + apply list_lookup_insert_Some in Hk as [(_ & <- & _)|[? _]]; done.
        + by rewrite list_lookup_insert_ne in Hk. }
    constructor; simpl; [| |done].
    + intros k w b Hk Hb. apply Hlk in Hk. by eapply Hal.
    + intros k1 k2 w1 w2 b Hk1 Hk2 Hw1 Hw2. apply Hlk in Hk1, Hk2.
      pose proof (Hun _ _ _ _ _ Hk1 Hk2 Hw1 Hw2) as Heq.
      repeat case_decide; congruence.
  - (* release *)
    destruct (ptrs st !! i) as [u|] eqn:Hi; [|done]. by apply drop_inv.
Qed.

Lemma uptr_run_inv ops st : inv st → inv (run ops st).
Proof.
  revert st. induction ops as [|o ops IH]; intros st Hinv; simpl; [done|].
  by apply IH, uptr_step_inv.
Qed.

(** X30: [unique_ptr] owns alone and destroys once.  After any sequence of
    [make_unique], move assignment, [reset], [swap] and [release] over any
    number of [unique_ptr] objects, with any allocator behaviour, no two
    pointers hold the same object; an object that a pointer holds is alive,
    and [reset()] of that pointer runs its destructor and gives its storage
    back, once each; no object's destructor has run twice, and storage has
    gone back exactly for the destroyed objects. *)
Theorem unique_ptr_owns_alone (n : nat) (a : Alloc.t) (ops : list op) :
  let st := run ops (init n a) in
  (∀ i j u v b, ptrs st !! i = Some u → ptrs st !! j = Some v →
     m_data u = Some b → m_data v = Some b → i = j) ∧
  (∀ i u b, ptrs st !! i = Some u → m_data u = Some b →
     heap st !! b = Some (MkObj 0 0) ∧
     heap (step (Reset i) st) !! b = Some (MkObj 1 1) ∧
     ∃ u', ptrs (step (Reset i) st) !! i = Some u' ∧ m_data u' = None) ∧
  (∀ b o, heap st !! b = Some o →
     (destroyed o <= 1)%nat ∧ deallocated o = destroyed o).
Proof.
  intros st.
  pose proof (uptr_run_inv ops _ (uptr_init_inv n a)) as Hinv. fold st in Hinv.
  split_and!.
  - apply (inv_alone _ Hinv).
  - intros i u b Hi Hu. split_and!.
    + by destruct (inv_alive _ Hinv i u b Hi Hu).
    + simpl. rewrite Hi. rewrite (surjective_pairing (reset u _)). simpl.
      by apply (reset_destroys st i).
    + simpl. rewrite Hi. rewrite (surjective_pairing (reset u _)). simpl.
      exists (reset u (heap st)).1. split; [|apply reset_data].
      apply list_lookup_insert_eq. by eapply lookup_lt_Some.
  - apply (inv_once _ Hinv).
Qed.

End UniquePtrFacts.
